(** * Candor: heap, macro assembler and full code generator

    A shallow embedding of the parts of the Candor runtime that its
    specification talks about: the helpers of [utils.h], the page allocator
    and the object constructors of [heap.cc], the macros of
    [x64/macroassembler-x64.cc] and the visitor of [x64/fullgen-x64.cc].

    Conventions.
    - A [uint32_t] is a [Z] kept in range by [u32]; an [int64_t] by [i64].
    - A [char*] is a [Z]; addresses are far below the width of a pointer,
      so pointer arithmetic is written without wrap-around.
    - Memory is byte addressed and little endian (the generator targets
      x86-64 only). *)

From Stdlib Require Import ZArith Lia List Bool Strings.Byte Strings.String.
From Stdlib Require Import Numbers.DecimalString.
From Stdlib Require Numbers.DecimalPos Numbers.DecimalN.
From stdpp Require Import base option list gmap.
From Equations Require Import Equations.
Import ListNotations.

Local Open Scope Z_scope.

(** ** Machine integers *)

Definition u32 (x : Z) : Z := x mod 2 ^ 32.
Definition u64 (x : Z) : Z := x mod 2 ^ 64.
(** Two's complement reading of a 64-bit pattern. *)
Definition i64 (x : Z) : Z := (x + 2 ^ 63) mod 2 ^ 64 - 2 ^ 63.

#[global] Instance byte_eq_dec : EqDecision byte := Byte.byte_eq_dec.

(** The byte with the value [z mod 256]. *)
Definition byte_of_Z (z : Z) : byte :=
  match Byte.of_N (Z.to_N (z mod 256)) with
  | Some c => c
  | None => x00
  end.

(** ** utils.h *)

Module Utils.

(** [RoundUp(value, to)]: both arguments and the result are [uint32_t].
    [value % to] is undefined for [to = 0]; callers pass a page size. *)
Definition RoundUp (value to : Z) : Z :=
  if value mod to =? 0 then value
  else u32 (value + to - value mod to).

(** The loop of [PowerOfTwo]: [while (result != 0 && result < value)
    result <<= 1].  [None] means the fuel ran out before the loop did. *)
Fixpoint PowerOfTwo_loop (fuel : nat) (result value : Z) : option Z :=
  if negb (result =? 0) && (result <? value) then
    match fuel with
    | O => None
    | S fuel' => PowerOfTwo_loop fuel' (u32 (Z.shiftl result 1)) value
    end
  else Some result.

(** [result] starts at 2 and is doubled in 32 bits, so it is 0 after 31
    rounds at the latest: 32 rounds of fuel are never used up
    ([PowerOfTwo_total] below). *)
Definition PowerOfTwo (value : Z) : option Z := PowerOfTwo_loop 32 2 value.

(** [key[i]] in [ComputeHash(const char*, uint32_t)] is a [char], which is
    a signed type on x86-64: the byte is sign extended to [int] before it
    is added to the unsigned accumulator. *)
Definition char_to_int (c : byte) : Z :=
  let n := Z.of_N (Byte.to_N c) in
  if n <? 128 then n else n - 256.

(** One round of the loop body of [ComputeHash]. *)
Definition hash_round (hash c : Z) : Z :=
  let hash := u32 (hash + c) in
  let hash := u32 (hash + u32 (Z.shiftl hash 10)) in
  Z.lxor hash (Z.shiftr hash 6).

(** The three statements after the loop. *)
Definition hash_mixup (hash : Z) : Z :=
  let hash := u32 (hash + u32 (Z.shiftl hash 3)) in
  let hash := Z.lxor hash (Z.shiftr hash 11) in
  u32 (hash + u32 (Z.shiftl hash 15)).

(** [ComputeHash(const char* key, uint32_t length)], with [key[0..length)]
    given as the list of its bytes. *)
Definition ComputeHash (key : list byte) : Z :=
  hash_mixup (fold_left (fun hash c => hash_round hash (char_to_int c)) key 0).

(** The value of a byte as an [unsigned char]. *)
Definition uchar (c : byte) : Z := Z.of_N (Byte.to_N c).

(** [StringIsDouble]: is there a ['.']? *)
Definition StringIsDouble (value : list byte) : bool :=
  existsb (fun c => uchar c =? 46) value.

(** [StringGetNumSign]: the index after the leading spaces and the sign,
    and whether the sign was found ([*s] is false on entry). *)
Fixpoint skip_spaces (value : list byte) (index : Z) : Z * list byte :=
  match value with
  | c :: rest => if uchar c =? 32 then skip_spaces rest (index + 1) else (index, value)
  | [] => (index, [])
  end.

Definition StringGetNumSign (value : list byte) : Z * bool * list byte :=
  let '(index, rest) := skip_spaces value 0 in
  match rest with
  | c :: rest' => if uchar c =? 45 then (index + 1, true, rest') else (index, false, rest)
  | [] => (index, false, [])
  end.

Definition is_num (c : byte) : bool := (48 <=? uchar c) && (uchar c <=? 57).

Definition is_hex (c : byte) : bool :=
  is_num c || ((97 <=? uchar c) && (uchar c <=? 102)) || ((65 <=? uchar c) && (uchar c <=? 70)).

Definition hex_to_num (c : byte) : Z :=
  let u := uchar c in
  if (48 <=? u) && (u <=? 57) then u - 48
  else if (97 <=? u) && (u <=? 102) then u - 87
  else if (65 <=? u) && (u <=? 70) then u - 55
  else 0.

(** The loop of [StringToInt], on the bytes from [index] on. *)
Fixpoint StringToInt_loop (rest : list byte) (result : Z) : Z :=
  match rest with
  | c :: rest' =>
      if is_num c then StringToInt_loop rest' (i64 (i64 (result * 10) + (uchar c - 48)))
      else result
  | [] => result
  end.

(** [StringToInt]. *)
Definition StringToInt (value : list byte) : Z :=
  let '(_, sign, rest) := StringGetNumSign value in
  let result := StringToInt_loop rest 0 in
  if sign then i64 (- result) else result.

(** [Unescape]: the loop over [i], with [fuel] rounds left; [result] holds
    the bytes written so far.  [None]: [value[i]] was read at [i >= length]. *)
Fixpoint Unescape_loop (fuel : nat) (value : list byte) (i : nat)
    (result : list byte) : option (list byte) :=
  match fuel with
  | O => Some result
  | S fuel' =>
      if negb (i <? length value)%nat then Some result
      else
        c ← value !! i;
        if uchar c =? 92 then
          let i := S i in
          e ← value !! i;
          let hex2 (a b : byte) := byte_of_Z (Z.shiftl (hex_to_num a) 4 + hex_to_num b) in
          let plain := Unescape_loop fuel' value (S i) (result ++ [e]) in
          let const (b : byte) := Unescape_loop fuel' value (S i) (result ++ [b]) in
          let u := uchar e in
          if u =? 98 then const x08
          else if u =? 114 then const x0d
          else if u =? 110 then const x0a
          else if u =? 116 then const x09
          else if u =? 118 then const x0b
          else if u =? 48 then const x00
          else if u =? 117 then
            match value !! (i + 1)%nat, value !! (i + 2)%nat,
                  value !! (i + 3)%nat, value !! (i + 4)%nat with
            | Some a, Some b, Some c', Some d =>
                if (i + 4 <? length value)%nat && is_hex a && is_hex b && is_hex c' && is_hex d
                then Unescape_loop fuel' value (S (i + 4)) (result ++ [hex2 a b; hex2 c' d])
                else plain
            | _, _, _, _ => plain
            end
          else if u =? 120 then
            match value !! (i + 1)%nat, value !! (i + 2)%nat with
            | Some a, Some b =>
                if (i + 2 <? length value)%nat && is_hex a && is_hex b
                then Unescape_loop fuel' value (S (i + 2)) (result ++ [hex2 a b])
                else plain
            | _, _ => plain
            end
          else plain
        else Unescape_loop fuel' value (S i) (result ++ [c])
  end.

Definition Unescape (value : list byte) : option (list byte) :=
  Unescape_loop (length value) value 0%nat [].

End Utils.

(** ** A state monad with failure

    [None] stands for what C++ leaves undefined (a read through a dangling
    pointer, a NULL dereference, a failed [assert]). *)

Definition Run (S A : Type) : Type := S -> option (A * S).

Definition ret {S A} (a : A) : Run S A := fun s => Some (a, s).
Definition bind {S A B} (c : Run S A) (k : A -> Run S B) : Run S B :=
  fun s => match c s with
           | Some (a, s') => k a s'
           | None => None
           end.
Definition fail {S A} : Run S A := fun _ => None.
Definition gets {S A} (f : S -> A) : Run S A := fun s => Some (f s, s).
Definition modify {S} (f : S -> S) : Run S unit := fun s => Some (tt, f s).
Definition lift_opt {S A} (o : option A) : Run S A :=
  fun s => match o with Some a => Some (a, s) | None => None end.
Definition when {S} (b : bool) (c : Run S unit) : Run S unit :=
  if b then c else ret tt.

#[global] Instance Run_ret {S} : MRet (Run S) := fun A a => ret a.
#[global] Instance Run_bind {S} : MBind (Run S) := fun A B k c => bind c k.

(** ** Memory *)

(** One executed store instruction: address, width in bytes, value. *)
Record Store := MkStore { st_addr : Z; st_width : nat; st_value : Z }.

(** [bytes] is the content; [stores] logs every store that was executed,
    latest first, so that "performs no writes" can be stated. *)
Record Mem := MkMem { bytes : Z -> Z; stores : list Store }.

Definition load8 (m : Mem) (a : Z) : Z := bytes m a mod 256.

Fixpoint load_le (m : Mem) (a : Z) (n : nat) : Z :=
  match n with
  | O => 0
  | S n' => load8 m a + 256 * load_le m (a + 1) n'
  end.

Fixpoint poke_le (b : Z -> Z) (a : Z) (n : nat) (v : Z) : Z -> Z :=
  match n with
  | O => b
  | S n' => poke_le (fun x => if x =? a then v mod 256 else b x) (a + 1) n' (v / 256)
  end.

Definition store_le (a : Z) (n : nat) (v : Z) (m : Mem) : Mem :=
  {| bytes := poke_le (bytes m) a n v; stores := MkStore a n v :: stores m |}.

Definition load32 (m : Mem) (a : Z) : Z := load_le m a 4.
Definition load64 (m : Mem) (a : Z) : Z := load_le m a 8.
Definition store8 := fun a => store_le a 1.
Definition store32 := fun a => store_le a 4.
Definition store64 := fun a => store_le a 8.

(** [memcpy(dst, src, n)] with the source given as its bytes. *)
Fixpoint memcpy (dst : Z) (src : list byte) (m : Mem) : Mem :=
  match src with
  | [] => m
  | c :: src' => memcpy (dst + 1) src' (store8 dst (Z.of_N (Byte.to_N c)) m)
  end.

(** The [n] bytes at [a], as [char]s. *)
Fixpoint read_bytes (m : Mem) (a : Z) (n : nat) : list byte :=
  match n with
  | O => []
  | S n' => byte_of_Z (load8 m a) :: read_bytes m (a + 1) n'
  end.

(** ** utils.h: [List<T, ItemParent>]

    The doubly linked list of [utils.h], at the level of its items: an
    [Item*] is the key of a cell, [delete item] removes the cell, and
    following a pointer to a deleted cell fails. *)

Module LList.

Record Item (T : Type) := MkItem {
  value_ : T;
  prev_ : option nat;
  next_ : option nat
}.
Arguments MkItem {T}.
Arguments value_ {T}.
Arguments prev_ {T}.
Arguments next_ {T}.

Record t (T : Type) := Mk {
  cells : gmap nat (Item T);   (* the items that are allocated *)
  fresh : nat;                 (* where [new Item] puts the next one *)
  head_ : option nat;
  current_ : option nat;
  length_ : Z
}.
Arguments Mk {T}.
Arguments cells {T}.
Arguments fresh {T}.
Arguments head_ {T}.
Arguments current_ {T}.
Arguments length_ {T}.

Definition empty {T} : t T := Mk ∅ 0%nat None None 0.

Definition head {T} (l : t T) : option nat := head_ l.
Definition tail {T} (l : t T) : option nat := current_ l.
Definition length {T} (l : t T) : Z := length_ l.

(** [*item], which is undefined once the item was deleted. *)
Definition deref {T} (l : t T) (item : nat) : option (Item T) := cells l !! item.

(** [List::Push]. *)
Definition Push {T} (v : T) (l : t T) : option (t T) :=
  let next := fresh l in
  let cell := MkItem v (current_ l) None in
  match head_ l, current_ l with
  | None, _ =>
      Some (Mk (<[next := cell]> (cells l)) (S next) (Some next) (Some next)
               (u32 (length_ l + 1)))
  | Some h, Some c =>
      it ← cells l !! c;
      Some (Mk (<[next := cell]> (<[c := MkItem (value_ it) (prev_ it) (Some next)]> (cells l)))
               (S next) (Some h) (Some next) (u32 (length_ l + 1)))
  | Some _, None => None
  end.

(** [Item::remove]: unlink from the neighbours. *)
Definition Item_remove {T} (it : Item T) (cs : gmap nat (Item T)) : option (gmap nat (Item T)) :=
  cs ← match prev_ it with
       | Some p => q ← cs !! p; Some (<[p := MkItem (value_ q) (prev_ q) (next_ it)]> cs)
       | None => Some cs
       end;
  match next_ it with
  | Some n => q ← cs !! n; Some (<[n := MkItem (value_ q) (prev_ it) (next_ q)]> cs)
  | None => Some cs
  end.

(** [List::Remove(Item* item)]. *)
Definition Remove {T} (item : nat) (l : t T) : option (t T) :=
  it ← cells l !! item;
  let current := if decide (current_ l = Some item) then prev_ it else current_ l in
  let head := if decide (head_ l = Some item) then prev_ it else head_ l in
  cs ← Item_remove it (cells l);
  Some (Mk (delete item cs) (fresh l) head current (u32 (length_ l - 1))).

(** The values from [head()] along [next()], for at most [fuel] items. *)
Fixpoint walk {T} (fuel : nat) (cs : gmap nat (Item T)) (item : option nat) : list T :=
  match fuel, item with
  | S fuel', Some i =>
      match cs !! i with
      | Some it => value_ it :: walk fuel' cs (next_ it)
      | None => []
      end
  | _, _ => []
  end.

Definition to_list {T} (l : t T) : list T :=
  walk (Z.to_nat (length_ l)) (cells l) (head_ l).

End LList.

(** ** heap.h / heap.cc: pages, spaces and the heap *)

(** [Space::Page]: the buffer [data_, limit_) and the bump pointer. *)
Record Page := MkPage { data_ : Z; top_ : Z; limit_ : Z }.

(** [Page(size)] with [new char[size]] returning [addr]. *)
Definition Page_new (addr size : Z) : Page := MkPage addr addr (addr + size).

(** A [Space].  [pages_] is only grown with [Push] and walked from
    [head()] along [next()], so it is kept as the sequence of its pages.
    The members [top_] and [limit_] point into one page of [pages_]
    ([select]): [selected_] is the position of that page, and a write
    through [*top_] is a write to that page. *)
Record Space := MkSpace {
  pages_ : list Page;
  selected_ : nat;
  page_size_ : Z;
  size_ : Z;
  size_limit_ : Z
}.

Inductive SpaceKind := NewSpace | OldSpace.

(** What [Heap::needs_gc_] holds: the enumerators passed to
    [needs_gc(value)]. *)
Inductive GCType := kGCNone | kGCNewSpace | kGCOldSpace.

(** A weak reference: the value and its callback (an address). *)
Record HValueWeakRef := MkWeakRef { weak_value : Z; weak_callback : Z }.

(** The heap together with the memory it manages.  [sys_next] is where the
    next [new char[n]] lands: the system allocator hands out fresh,
    consecutive buffers. *)
Record Heap := MkHeap {
  new_space_ : Space;
  old_space_ : Space;
  needs_gc_ : GCType;
  weak_references_ : LList.t HValueWeakRef;
  mem : Mem;
  sys_next : Z
}.

Definition space (k : SpaceKind) (h : Heap) : Space :=
  match k with NewSpace => new_space_ h | OldSpace => old_space_ h end.

Definition set_space (k : SpaceKind) (sp : Space) (h : Heap) : Heap :=
  match k with
  | NewSpace => MkHeap sp (old_space_ h) (needs_gc_ h) (weak_references_ h) (mem h) (sys_next h)
  | OldSpace => MkHeap (new_space_ h) sp (needs_gc_ h) (weak_references_ h) (mem h) (sys_next h)
  end.

Definition set_needs_gc (v : GCType) (h : Heap) : Heap :=
  MkHeap (new_space_ h) (old_space_ h) v (weak_references_ h) (mem h) (sys_next h).

Definition set_mem (m : Mem) (h : Heap) : Heap :=
  MkHeap (new_space_ h) (old_space_ h) (needs_gc_ h) (weak_references_ h) m (sys_next h).

Definition set_sys_next (a : Z) (h : Heap) : Heap :=
  MkHeap (new_space_ h) (old_space_ h) (needs_gc_ h) (weak_references_ h) (mem h) a.

Definition set_weak_references (l : LList.t HValueWeakRef) (h : Heap) : Heap :=
  MkHeap (new_space_ h) (old_space_ h) (needs_gc_ h) l (mem h) (sys_next h).

(** [this == heap()->new_space() ? Heap::kGCNewSpace : Heap::kGCOldSpace]. *)
Definition gc_kind (k : SpaceKind) : GCType :=
  match k with NewSpace => kGCNewSpace | OldSpace => kGCOldSpace end.

(** [new char[size]]. *)
Definition new_chars (size : Z) : Run Heap Z :=
  a ← gets sys_next;
  modify (set_sys_next (a + size));;
  mret a.

(** [Space::select(page)], the page given by its position. *)
Definition select (i : nat) (sp : Space) : Space :=
  MkSpace (pages_ sp) i (page_size_ sp) (size_ sp) (size_limit_ sp).

(** [*top_] and [*limit_]: undefined when they point to no page. *)
Definition selected_page (sp : Space) : option Page := pages_ sp !! selected_ sp.

(** [Space::AddPage]. *)
Definition AddPage (k : SpaceKind) (size : Z) : Run Heap unit :=
  sp ← gets (space k);
  let real_size := Utils.RoundUp size (page_size_ sp) in
  data ← new_chars real_size;
  let page := Page_new data real_size in
  modify (set_space k
    (MkSpace (pages_ sp ++ [page]) (List.length (pages_ sp)) (page_size_ sp)
             (u32 (size_ sp + real_size)) (size_limit_ sp))).

(** The loop of [Space::Allocate]:
    [for (; *top_ + even_bytes > *limit_ && item != NULL; item = item->next())
       select(item->value());]
    [item] is the position of the item and [rest] the items from it on.
    The result is the selected position and whether [item == NULL]. *)
Fixpoint find_gap (pages : list Page) (even_bytes : Z) (sel item : nat)
    (rest : list Page) : option (nat * bool) :=
  p ← pages !! sel;
  match rest with
  | [] => Some (sel, true)
  | _ :: rest' =>
      if top_ p + even_bytes >? limit_ p
      then find_gap pages even_bytes item (S item) rest'
      else Some (sel, false)
  end.

(** [*top_ += even_bytes]. *)
Definition bump (even_bytes : Z) (sp : Space) : option (Z * Space) :=
  p ← selected_page sp;
  Some (top_ p,
        MkSpace (<[selected_ sp := MkPage (data_ p) (top_ p + even_bytes) (limit_ p)]> (pages_ sp))
                (selected_ sp) (page_size_ sp) (size_ sp) (size_limit_ sp)).

(** [Space::Allocate], on the space [k] of the heap. *)
Definition Allocate (k : SpaceKind) (bytes : Z) : Run Heap Z :=
  let even_bytes := u32 (bytes + Z.land bytes 1) in
  sp ← gets (space k);
  cur ← lift_opt (selected_page sp);
  let place_in_current := top_ cur + even_bytes <=? limit_ cur in
  (if negb place_in_current then
     '(sel, item_is_null) ← lift_opt (find_gap (pages_ sp) even_bytes (selected_ sp) 0%nat (pages_ sp));
     modify (set_space k (select sel sp));;
     if (item_is_null : bool) then
       when (size_ sp >? size_limit_ sp) (modify (set_needs_gc (gc_kind k)));;
       AddPage k even_bytes
     else mret tt
   else mret tt);;
  sp ← gets (space k);
  '(result, sp') ← lift_opt (bump even_bytes sp);
  modify (set_space k sp');;
  mret result.

(** [Space(heap, page_size)]: one page, selected; [size_] starts at 0.
    [compute_size_limit] is an inline member of [heap.h]; the limit it sets
    is the argument [limit]. *)
Definition Space_new (page_size limit : Z) : Run Heap Space :=
  data ← new_chars page_size;
  mret (MkSpace [Page_new data page_size] 0%nat page_size 0 limit).

(** [Heap(page_size)] on the memory [m], with the system allocator at
    [base]. *)
Definition Heap_new (page_size limit base : Z) (m : Mem) : option Heap :=
  let empty_space := MkSpace [] 0%nat page_size 0 limit in
  let h0 := MkHeap empty_space empty_space kGCNone LList.empty m base in
  '(_, h) ← (sp ← Space_new page_size limit; modify (set_space NewSpace sp);;
             sp ← Space_new page_size limit; modify (set_space OldSpace sp)) h0;
  Some h.

(** *** What the specification says about [Space::Allocate] *)

(** A page as [Page(size)] and [Allocate] leave it. *)
Definition Page_ok (p : Page) : Prop := data_ p <= top_ p <= limit_ p.

(** A space whose [top_]/[limit_] point into one of its pages. *)
Record Space_wf (sp : Space) : Prop := {
  wf_selected : (selected_ sp < length (pages_ sp))%nat;
  wf_pages : Forall Page_ok (pages_ sp);
  wf_page_size : 0 < page_size_ sp < 2 ^ 32
}.

(** [even_bytes] of [Space::Allocate]. *)
Definition even_size (bytes : Z) : Z := u32 (bytes + Z.land bytes 1).

(** "[Space.Allocate] returns a pointer within some owned page with
    [top R returned_ptr + size] for that page", for a relation [R].  Within
    the page: the [size] bytes from the pointer on lie between the start of
    the page and its limit, and the top of the page has not passed its
    limit. *)
Definition Allocate_within (R : Z -> Z -> Prop) (k : SpaceKind) (bytes : Z)
    (h : Heap) : Prop :=
  exists ptr h' i p,
    Allocate k bytes h = Some (ptr, h') /\
    pages_ (space k h') !! i = Some p /\
    data_ p <= ptr /\ ptr + bytes <= limit_ p /\
    top_ p <= limit_ p /\
    R (top_ p) (ptr + bytes).

(** Neither the current page nor any other page has room. *)
Definition no_room (even_bytes : Z) (sp : Space) : Prop :=
  Forall (fun p => top_ p + even_bytes > limit_ p) (pages_ sp).

(** "Signal the heap's needs-GC for this space kind when total size exceeds
    the limit, then allocate a fresh page sized [page_bytes requested
    page_size]" and place the request at its start. *)
Definition Allocate_fresh (page_bytes : Z -> Z -> Z) (k : SpaceKind)
    (bytes : Z) (h : Heap) : Prop :=
  let sp := space k h in
  exists h',
    Allocate k bytes h = Some (sys_next h, h') /\
    needs_gc_ h' = (if size_ sp >? size_limit_ sp then gc_kind k else needs_gc_ h) /\
    pages_ (space k h') =
      pages_ sp ++ [MkPage (sys_next h) (sys_next h + even_size bytes)
                      (sys_next h + page_bytes (even_size bytes) (page_size_ sp))].

(** The heap made by [Heap(4096)] with the system allocator at 1000. *)
Definition example_heap : Heap :=
  MkHeap (MkSpace [MkPage 1000 1000 5096] 0%nat 4096 0 8192)
         (MkSpace [MkPage 5096 5096 9192] 0%nat 4096 0 8192)
         kGCNone LList.empty (MkMem (fun _ => 0) []) 9192.

(** *** Weak references *)

(** [Heap::AddWeak]. *)
Definition AddWeak (value callback : Z) : Run Heap unit :=
  l ← gets weak_references_;
  l' ← lift_opt (LList.Push (MkWeakRef value callback) l);
  modify (set_weak_references l').

(** How a loop that need not terminate ends within a number of rounds. *)
Inductive Outcome (A : Type) :=
| Finished (a : A)     (* the loop was left *)
| Undefined            (* a deleted item was read *)
| OutOfFuel.           (* still running *)
Arguments Finished {A}.
Arguments Undefined {A}.
Arguments OutOfFuel {A}.

(** The loop of [Heap::RemoveWeak]:
    [while (tail != NULL) {
       if (tail->value()->value() == value) weak_references()->Remove(tail);
     }]
    [tail] is the local variable; nothing in the body assigns to it. *)
Fixpoint RemoveWeak_loop (fuel : nat) (value : Z) (tail : option nat)
    (l : LList.t HValueWeakRef) : Outcome (LList.t HValueWeakRef) :=
  match tail with
  | None => Finished l
  | Some t =>
      match fuel with
      | O => OutOfFuel
      | S fuel' =>
          match LList.deref l t with
          | None => Undefined
          | Some it =>
              if weak_value (LList.value_ it) =? value then
                match LList.Remove t l with
                | Some l' => RemoveWeak_loop fuel' value tail l'
                | None => Undefined
                end
              else RemoveWeak_loop fuel' value tail l
          end
      end
  end.

(** [Heap::RemoveWeak], run for at most [fuel] rounds of its loop. *)
Definition RemoveWeak (fuel : nat) (value : Z) (h : Heap) : Outcome Heap :=
  let l := weak_references_ h in
  match RemoveWeak_loop fuel value (LList.tail l) l with
  | Finished l' => Finished (set_weak_references l' h)
  | Undefined => Undefined
  | OutOfFuel => OutOfFuel
  end.

(** [example_heap] after [AddWeak(100, 7)]. *)
Definition one_weak_heap : Heap :=
  match AddWeak 100 7 example_heap with
  | Some (_, h) => h
  | None => example_heap
  end.

(** *** Heap objects *)

(** [Heap::HeapTag], with the values the ABI fixes. *)
Inductive HeapTag :=
| kTagNil | kTagFunction | kTagContext | kTagNumber | kTagString
| kTagBoolean | kTagObject | kTagMap | kTagArray | kTagCData | kTagCode.

Definition tag_value (t : HeapTag) : Z :=
  match t with
  | kTagNil => 0 | kTagFunction => 1 | kTagContext => 2 | kTagNumber => 3
  | kTagString => 4 | kTagBoolean => 5 | kTagObject => 6 | kTagMap => 7
  | kTagArray => 8 | kTagCData => 9 | kTagCode => 0x90
  end.

Inductive TenureType := kTenureNew | kTenureOld.

(** What the embedded functions only pass on.  Constants of [heap.h]: the
    promotion threshold, the positions of the global object and of the two
    booleans in the root context, and the mark of a binding.  And the
    IEEE-754 bits of the [double] that [StringToDouble] of [utils.h]
    computes: floating point arithmetic is not part of this development. *)
Class Externals := {
  kMinOldSpaceGeneration : Z;
  kRootGlobalIndex : Z;
  kRootTrueIndex : Z;
  kRootFalseIndex : Z;
  kBindingContextTag : Z;
  StringToDouble : list byte -> Z
}.

(** Modelled from the spec: the byte offsets of the object layouts (§3.2);
    the constants themselves are members of the classes in [heap.h]. *)
Module HString.
Definition kHashOffset := 8.
Definition kLengthOffset := 16.
Definition kValueOffset := 24.
End HString.

Module HObject.
Definition kMaskOffset := 8.
Definition kMapOffset := 16.
End HObject.

Module HArray.
Definition kLengthOffset := 24.
End HArray.

Module HMap.
Definition kSizeOffset := 8.
Definition kSpaceOffset := 16.
End HMap.

(** Modelled from the spec: [HNil::New()], the all-zero word (§3.1). *)
Definition HNil_New : Z := 0.

(** Modelled from the spec: [HNumber::Tag], [value << 1 | 1] (§3.1), as
    the 64-bit pattern. *)
Definition HNumber_Tag (value : Z) : Z := u64 (Z.lor (Z.shiftl value 1) 1).

(** A store to memory, as a step of a heap computation. *)
Definition poke (f : Mem -> Mem) : Run Heap unit := modify (fun h => set_mem (f (mem h)) h).

(** [Heap::space(tenure)]. *)
Definition tenure_space (tenure : TenureType) : SpaceKind :=
  match tenure with kTenureNew => NewSpace | kTenureOld => OldSpace end.

Section HeapObjects.
Context `{Externals}.

(** [Heap::AllocateTagged]. *)
Definition AllocateTagged (tag : HeapTag) (tenure : TenureType) (bytes : Z) : Run Heap Z :=
  result ← Allocate (tenure_space tenure) (u32 (bytes + 8));
  let qtag := tag_value tag in
  let qtag := match tenure with
              | kTenureOld => Z.lor qtag (Z.shiftl kMinOldSpaceGeneration 8)
              | kTenureNew => qtag
              end in
  poke (store64 result qtag);;
  mret result.

(** [HString::New(heap, tenure, length)]. *)
Definition HString_New_raw (tenure : TenureType) (length : Z) : Run Heap Z :=
  result ← AllocateTagged kTagString tenure (u32 (length + 24));
  poke (store64 (result + HString.kHashOffset) 0);;
  poke (store64 (result + HString.kLengthOffset) length);;
  mret result.

(** [HString::New(heap, tenure, value, length)], with [value[0..length)]
    given as the list of its bytes. *)
Definition HString_New (tenure : TenureType) (value : list byte) : Run Heap Z :=
  result ← HString_New_raw tenure (Z.of_nat (length value));
  poke (memcpy (result + HString.kValueOffset) value);;
  mret result.

(** [HBoolean::New]. *)
Definition HBoolean_New (tenure : TenureType) (value : bool) : Run Heap Z :=
  result ← AllocateTagged kTagBoolean tenure 8;
  poke (store8 (result + 8) (if value then 1 else 0));;
  mret result.

(** [HNumber::New(heap, tenure, double)], the double given by its 64 bits. *)
Definition HNumber_New (tenure : TenureType) (bits : Z) : Run Heap Z :=
  result ← AllocateTagged kTagNumber tenure 8;
  poke (store64 (result + 8) bits);;
  mret result.

(** [memset(dst, 0, n)]. *)
Fixpoint memset0 (dst : Z) (n : nat) (m : Mem) : Mem :=
  match n with
  | O => m
  | S n' => memset0 (dst + 1) n' (store8 dst 0 m)
  end.

(** [for (uint32_t i = 0; i < size; i += 8) map[i + 16] = Heap::kTagNil;]
    with [n] rounds left. *)
Fixpoint nil_fill (map i : Z) (n : nat) (m : Mem) : Mem :=
  match n with
  | O => m
  | S n' => nil_fill map (i + 8) n' (store8 (map + i + 16) (tag_value kTagNil) m)
  end.

(** [HObject::NewEmpty]. *)
Definition HObject_NewEmpty : Run Heap Z :=
  let size := 16 in
  obj ← AllocateTagged kTagObject kTenureNew 16;
  map ← AllocateTagged kTagMap kTenureNew (u32 (Z.shiftl size 4 + 8));
  poke (store64 (obj + HObject.kMaskOffset) (Z.shiftl (size - 1) 3));;
  poke (store64 (obj + HObject.kMapOffset) map);;
  poke (store64 (map + HMap.kSizeOffset) size);;
  let size := u32 (Z.shiftl size 4) in
  poke (memset0 (map + HMap.kSpaceOffset) (Z.to_nat size));;
  poke (nil_fill map 0 (Z.to_nat ((size + 7) / 8)));;
  mret obj.

(** Modelled from the spec: [HArray::SetLength] writes the length field
    (§3.2); it is an inline member of [heap.h]. *)
Definition HArray_SetLength (obj length : Z) (m : Mem) : Mem :=
  store64 (obj + HArray.kLengthOffset) (u64 length) m.

(** [HArray::NewEmpty]. *)
Definition HArray_NewEmpty : Run Heap Z :=
  let size := 16 in
  obj ← AllocateTagged kTagArray kTenureNew 24;
  map ← AllocateTagged kTagMap kTenureNew (u32 (Z.shiftl size 4 + 8));
  poke (store64 (obj + HObject.kMaskOffset) (Z.shiftl (size - 1) 3));;
  poke (store64 (obj + HObject.kMapOffset) map);;
  poke (HArray_SetLength obj 0);;
  poke (store64 (map + HMap.kSizeOffset) size);;
  let size := u32 (Z.shiftl size 4) in
  poke (memset0 (map + HMap.kSpaceOffset) (Z.to_nat size));;
  poke (nil_fill map 0 (Z.to_nat ((size + 7) / 8)));;
  mret obj.

(** The loop of [HContext::New]: [while (values->length() != 0) {
    *slot = values->Shift(); slot += 8; }]. *)
Fixpoint put_values (slot : Z) (values : list Z) (m : Mem) : Mem :=
  match values with
  | [] => m
  | v :: values' => put_values (slot + 8) values' (store64 slot v m)
  end.

(** [HContext::New(heap, values)].  The loop shifts every value out of
    [values]: the caller's list is empty afterwards. *)
Definition HContext_New (values : list Z) : Run Heap Z :=
  let n := Z.of_nat (length values) in
  result ← AllocateTagged kTagContext kTenureOld (u32 (16 + u32 (n * 8)));
  poke (store64 (result + 8) HNil_New);;
  poke (store64 (result + 16) n);;
  poke (put_values (result + 24) values);;
  mret result.

End HeapObjects.

(** [HString::Length(addr)] and [HString::Value(addr)] of [heap.h]. *)
Definition HString_Length (m : Mem) (addr : Z) : Z := load32 m (addr + 16).
Definition HString_Value (addr : Z) : Z := addr + 24.

(** [ComputeHash(key, length)] on a key in memory. *)
Definition ComputeHash_at (m : Mem) (key length : Z) : Z :=
  Utils.ComputeHash (read_bytes m key (Z.to_nat length)).

(** [HString::Hash]. *)
Definition HString_Hash (addr : Z) (m : Mem) : Z * Mem :=
  let hash_addr := addr + HString.kHashOffset in
  let hash := load32 m hash_addr in
  if hash =? 0 then
    let hash := ComputeHash_at m (HString_Value addr) (HString_Length m addr) in
    (hash, store32 hash_addr hash m)
  else (hash, m).

(** "After [String.Hash(s)] is called twice on the same string, the second
    call reads the cached value and performs no writes." *)
Definition Hash_twice_silent (addr : Z) (m : Mem) : Prop :=
  let r1 := HString_Hash addr m in
  let r2 := HString_Hash addr (snd r1) in
  fst r2 = fst r1 /\
  fst r2 = load32 (snd r1) (addr + HString.kHashOffset) /\
  stores (snd r2) = stores (snd r1).

(** Values for the constants, for the examples. *)
Definition example_params : Externals :=
  {| kMinOldSpaceGeneration := 5;
     kRootGlobalIndex := 0; kRootTrueIndex := 1; kRootFalseIndex := 2;
     kBindingContextTag := 0x0DEC;
     StringToDouble := fun _ => 0 |}.

(** The address and the heap after
    [HString::New(heap, Heap::kTenureOld, value, length)] on [example_heap]. *)
Definition string_heap (value : list byte) : Z * Heap :=
  match @HString_New example_params kTenureOld value example_heap with
  | Some r => r
  | None => (0, example_heap)
  end.

(** *** [HArray::Length] *)

Section ArrayLength.

(** [RuntimeLookupProperty(heap, obj, key, insert)] of [runtime.cc]: the
    byte offset, from the map, of the slot for [key].  [HArray::Length]
    calls it with [insert = 0] and no heap, where it "ain't going to
    allocate or change anything": a function of the memory it reads. *)
Variable RuntimeLookupProperty : Mem -> Z -> Z -> Z -> Z.

(** [HObject::Map(addr)]. *)
Definition HObject_Map (m : Mem) (addr : Z) : Z := load64 m (addr + HObject.kMapOffset).

(** [HObject::LookupProperty(heap, addr, key, insert)]. *)
Definition HObject_LookupProperty (m : Mem) (addr key insert : Z) : Z :=
  HObject_Map m addr + RuntimeLookupProperty m addr key insert.

(** The loop of [HArray::Length], from the value of [shrinked] on entry to
    its value on exit:
    [do {
       if (shrinked < 0) break;
       shrinked--;
       shrinkedptr = reinterpret_cast<char*>(HNumber::Tag(shrinked));
       slot = HObject::LookupProperty(NULL, obj, shrinkedptr, 0);
     } while (slot[0] == HNil::New());]
    (the source writes the dereference with a star)
    [shrinked--] is only reached for [shrinked >= 0] and cannot overflow. *)
Equations? shrink_loop (m : Mem) (obj shrinked : Z) : Z
  by wf (Z.to_nat (shrinked + 1)) lt :=
  shrink_loop m obj shrinked with Z_lt_dec shrinked 0 := {
    | left _ => shrinked
    | right _ =>
        let shrinked' := shrinked - 1 in
        let slot := HObject_LookupProperty m obj (HNumber_Tag shrinked') 0 in
        if load64 m slot =? HNil_New then shrink_loop m obj shrinked' else shrinked' }.
Proof. lia. Qed.

(** [HArray::Length(obj, shrink)]. *)
Definition HArray_Length (obj : Z) (shrink : bool) (m : Mem) : Z * Mem :=
  let result := i64 (load64 m (obj + HArray.kLengthOffset)) in
  if shrink then
    let shrinked := shrink_loop m obj result in
    if negb (result =? i64 (shrinked - 1)) then
      let result := i64 (shrinked + 1) in
      (result, HArray_SetLength obj result m)
    else (result, m)
  else (result, m).

(** The word that a lookup of the index [i] exposes: the element [a[i]] as
    [HArray::Length] sees it. *)
Definition HArray_elem (m : Mem) (obj i : Z) : Z :=
  load64 m (HObject_LookupProperty m obj (HNumber_Tag i) 0).

End ArrayLength.

(** A lookup for the examples: the value slot of the index [i < 16] of a
    map of capacity 16 is at [kSpaceOffset + 16 * 8 + 8 * i]; any other
    key gets the nil offset. *)
Definition example_lookup (m : Mem) (obj key insert : Z) : Z :=
  let i := Z.shiftr key 1 in
  if (i <? 16) && Z.odd key then HMap.kSpaceOffset + 16 * 8 + 8 * i else 0.

(** An array as [a = [1, 2, 3]; a[2] = nil] leaves it: length 3, elements
    1 and 2 and a nil. *)
Definition example_array : Z * Mem :=
  match @HArray_NewEmpty example_params example_heap with
  | Some (obj, h) =>
      let map := HObject_Map (mem h) obj in
      (obj,
       HArray_SetLength obj 3
         (store64 (map + 160) HNil_New
            (store64 (map + 152) (HNumber_Tag 2)
               (store64 (map + 144) (HNumber_Tag 1) (mem h)))))
  | None => (0, mem example_heap)
  end.

(** [Heap::Error] and [Heap::ErrorToString]. *)
Inductive Error := kErrorNone | kErrorIncorrectLhs | kErrorCallWithoutVariable | kErrorExpectedLoop.

Definition ErrorToString (err : Error) : option string :=
  match err with
  | kErrorNone => None
  | kErrorIncorrectLhs => Some "Incorrect left-hand side"%string
  | kErrorCallWithoutVariable => Some "Call without variable"%string
  | kErrorExpectedLoop => Some "Expected loop"%string
  end.

(** ** The assembler interface

    [assembler-x64.cc] turns each call into bytes.  The generator is
    embedded one level above: the code buffer is the sequence of the calls
    made, each with its operands. *)

(** The registers the generator names.  [scratch] and [root_reg] are two
    further callee-independent registers fixed in [assembler-x64.h];
    [reg_nil] is "no register". *)
Inductive Register :=
| rax | rbx | rcx | rdx | rsi | rdi | rbp | rsp | r8 | r9 | r12 | r15
| scratch | root_reg | reg_nil.

#[global] Instance Register_eq_dec : EqDecision Register.
Proof. solve_decision. Defined.

(** [Register::is]. *)
Definition reg_is (a b : Register) : bool := bool_decide (a = b).

(** [Operand(base, disp)]; the scale is [Operand::one] throughout. *)
Record Operand := MkOperand { op_base : Register; op_disp : Z }.

(** [BinOp::BinOpType]; the comparison kinds carry an underscore to keep
    them apart from the jump conditions. *)
Inductive BinOpType :=
| kAdd | kSub | kMul | kDiv | kMod | kBAnd | kBOr | kBXor | kShl | kShr | kUShr
| kEq_ | kStrictEq | kNe_ | kStrictNe | kLt_ | kGt_ | kLe_ | kGe_ | kLOr | kLAnd.

(** The stubs of [stubs.h], by name: [stubs()->GetAllocateStub()] is
    [AllocateStub], [stubs()->GetBinaryAddStub()] is [BinaryStub kAdd]. *)
Inductive Stub :=
| AllocateStub | CollectGarbageStub | LookupPropertyStub | CoerceToBooleanStub
| CallBindingStub | TypeofStub | SizeofStub | KeysofStub | CloneObjectStub
| BinaryStub (op : BinOpType).

(** Addresses that are only known when the program runs. *)
Inductive Symbol :=
| StubAddress (s : Stub)         (* [stubs()->Get...Stub()] *)
| NeedsGcAddress                 (* [heap()->needs_gc_addr()] *)
| LastStackAddress.              (* [heap()->last_stack()] *)

Inductive Condition := kEq | kNe | kLt | kLe | kGt | kGe | kNoOverflow.

(** An operand of an instruction. *)
Inductive Arg :=
| Reg (r : Register)
| Imm (value : Z)                (* [Immediate(value)] *)
| Sym (s : Symbol)               (* an immediate holding an address *)
| At (op : Operand)
| SpillSlot (index : Z)          (* the operand [Masm::SpillSlot(index, _)] sets up *)
| Lbl (label : nat).

Coercion Reg : Register >-> Arg.
Coercion At : Operand >-> Arg.
Definition Immediate (value : Z) : Arg := Imm value.

Inductive Mnemonic :=
| Mpush | Mpop | Mmovq | Mmovzxb | Mmovqd
| Maddq | Msubq | Mxorq | Mshl | Mdec | Minc
| Maddl | Mxorl | Mshll | Mshrl
| Mcmpq | Mcmpb | Mtestb
| Mjmp | Mjcc (c : Condition) | Mcallq | Mret | Mnop
(* inline macros of [macroassembler.h] *)
| MUntag | MTagNumber | MPush | MPop.

Inductive Instr :=
| Ins (mn : Mnemonic) (args : list Arg)
| Bind (label : nat)             (* [bind(&label)] *)
| Emitb (b : Z)                  (* [emitb(b)] *)
| AlignOdd                       (* [while ((offset() & 0x1) != 0x1) nop();] *)
| AlignCode.                     (* [offset_ = RoundUp(offset_, 16); Grow();] *)

(** [RelocationInfo]; [reloc_at] is the instruction the patched field
    belongs to. *)
Module RelocationInfo.
Inductive Type_ := kAbsolute | kValue.
Inductive Size := kQuad | kLong.
Record t := Mk {
  type_ : Type_;
  size_ : Size;
  at_ : nat;
  target_ : option Z
}.
End RelocationInfo.

(** [Masm::Spill]: the register spilled and the index of its slot. *)
Record Spill := MkSpill { src_ : Register; index_ : Z }.

(** ** The syntax tree the generator walks *)

(** Modelled from the spec: the node kinds (§6) that [Visitor::Visit] of
    [visitor.cc] tells apart, named after the [Visit...] member each one is
    handed to. *)
Inductive AstType :=
| kBlock | kScopeDecl | kName | kNop
| kFunction | kCall | kAssign | kValue | kMember | kNumber | kString | kProperty
| kIf | kWhile | kNil | kTrue | kFalse | kObjectLiteral | kArrayLiteral
| kReturn | kNew | kBreak | kContinue | kTypeof | kSizeof | kKeysof
| kUnOp | kBinOp.

#[global] Instance AstType_eq_dec : EqDecision AstType.
Proof. solve_decision. Defined.

(** Modelled from the spec: [ScopeSlot] (§3.3).  A depth of -1 is a global
    lookup, of -2 a root lookup. *)
Record ScopeSlot := MkScopeSlot {
  is_stack : bool;
  slot_index : Z;
  slot_depth : Z
}.

Inductive UnOpType := kPreInc | kPreDec | kPostInc | kPostDec | kNot | kPlus | kMinus.

(** [AstNode] with the members of its subclasses: [FunctionLiteral]
    ([variable], [args]), [AstValue] ([slot], [name]), the generator's own
    [FAstSpill] and [FAstOperand] (which is only ever made for the
    assembler's [slot()] and points to it), [ObjectLiteral] ([keys],
    [values]), [UnOp] and [BinOp] ([subtype]). *)
#[warnings="-register-all"]
Inductive AstNode :=
| MkAst (type : AstType) (value : list byte) (offset : Z)
        (children : list AstNode) (stack_count context_count : Z) (ext : AstExt)
with AstExt :=
| NoExt
| FunctionExt (variable : option AstNode) (args : list AstNode)
| ValueExt (slot : ScopeSlot) (name : option AstNode)
| SpillExt (spill : Spill)          (* [FAstSpill(&spill)] *)
| SlotOperandExt                    (* [FAstOperand(&slot())] *)
| ObjectExt (keys values : list AstNode)
| UnOpExt (subtype : UnOpType)
| BinOpExt (subtype : BinOpType).

Definition type (n : AstNode) : AstType := let '(MkAst t _ _ _ _ _ _) := n in t.
Definition value (n : AstNode) : list byte := let '(MkAst _ v _ _ _ _ _) := n in v.
Definition offset (n : AstNode) : Z := let '(MkAst _ _ o _ _ _ _) := n in o.
Definition children (n : AstNode) : list AstNode := let '(MkAst _ _ _ c _ _ _) := n in c.
Definition stack_slots (n : AstNode) : Z := let '(MkAst _ _ _ _ s _ _) := n in s.
Definition context_slots (n : AstNode) : Z := let '(MkAst _ _ _ _ _ c _) := n in c.
Definition ext (n : AstNode) : AstExt := let '(MkAst _ _ _ _ _ _ e) := n in e.

(** [new AstNode(type)]. *)
Definition AstNode_new (t : AstType) : AstNode := MkAst t [] 0 [] 0 0 NoExt.

(** [node->children()->Push(child)]. *)
Definition push_child (child : AstNode) (n : AstNode) : AstNode :=
  let '(MkAst t v o c s x e) := n in MkAst t v o (c ++ [child]) s x e.

(** [node->is(type)]. *)
Definition node_is (n : AstNode) (t : AstType) : bool := bool_decide (type n = t).

(** [lhs()] and [rhs()]: undefined when the child is missing. *)
Definition lhs (n : AstNode) : option AstNode := children n !! 0%nat.
Definition rhs (n : AstNode) : option AstNode := children n !! 1%nat.

(** [FunctionLiteral::variable()] and [args()]. *)
Definition variable (n : AstNode) : option AstNode :=
  match ext n with FunctionExt v _ => v | _ => None end.
Definition args (n : AstNode) : list AstNode :=
  match ext n with FunctionExt _ a => a | _ => [] end.

(** [ObjectLiteral::keys()] and [values()]. *)
Definition keys (n : AstNode) : list AstNode :=
  match ext n with ObjectExt k _ => k | _ => [] end.
Definition values (n : AstNode) : list AstNode :=
  match ext n with ObjectExt _ v => v | _ => [] end.

(** ** The generator's state *)

(** [Fullgen::VisitorType]. *)
Module VisitorType.
Inductive t := kValue | kSlot.
End VisitorType.

(** [FFunction] (and [CandorFunction]): the literal, its address once
    [Allocate]d, counted in calls like [offset()], and the relocations that
    wait for it (positions in [relocation_info_]). *)
Record FFunction := MkFFunction {
  ff_fn : AstNode;
  ff_addr : Z;                 (* 0: not allocated yet *)
  ff_uses : list nat
}.

(** [Fullgen] is a [Masm] (itself an [Assembler]) and a [Visitor]: one
    record holds the members of all of them. *)
Record Fullgen := MkFullgen {
  code_ : list Instr;
  labels_ : nat;
  relocation_info_ : list RelocationInfo.t;
  slot_ : Operand;
  align_ : Z;
  spill_offset_ : Z;
  spills_ : Z;
  spill_index_ : Z;
  spill_reloc_ : option nat;
  current_node_ : option AstNode;
  visitor_type_ : VisitorType.t;
  current_function_ : option FFunction;
  loop_start_ : option nat;
  loop_end_ : option nat;
  error_msg_ : option string;
  error_pos_ : Z;
  root_context_ : list Z;
  fns_ : list FFunction;
  heap_ : Heap
}.

Definition set_code_ (v : list Instr) (g : Fullgen) : Fullgen :=
  let '(MkFullgen y0 y1 y2 y3 y4 y5 y6 y7 y8 y9 y10 y11 y12 y13 y14 y15 y16 y17 y18) := g in
  MkFullgen v y1 y2 y3 y4 y5 y6 y7 y8 y9 y10 y11 y12 y13 y14 y15 y16 y17 y18.
Definition set_labels_ (v : nat) (g : Fullgen) : Fullgen :=
  let '(MkFullgen y0 y1 y2 y3 y4 y5 y6 y7 y8 y9 y10 y11 y12 y13 y14 y15 y16 y17 y18) := g in
  MkFullgen y0 v y2 y3 y4 y5 y6 y7 y8 y9 y10 y11 y12 y13 y14 y15 y16 y17 y18.
Definition set_relocation_info_ (v : list RelocationInfo.t) (g : Fullgen) : Fullgen :=
  let '(MkFullgen y0 y1 y2 y3 y4 y5 y6 y7 y8 y9 y10 y11 y12 y13 y14 y15 y16 y17 y18) := g in
  MkFullgen y0 y1 v y3 y4 y5 y6 y7 y8 y9 y10 y11 y12 y13 y14 y15 y16 y17 y18.
Definition set_slot_ (v : Operand) (g : Fullgen) : Fullgen :=
  let '(MkFullgen y0 y1 y2 y3 y4 y5 y6 y7 y8 y9 y10 y11 y12 y13 y14 y15 y16 y17 y18) := g in
  MkFullgen y0 y1 y2 v y4 y5 y6 y7 y8 y9 y10 y11 y12 y13 y14 y15 y16 y17 y18.
Definition set_align_ (v : Z) (g : Fullgen) : Fullgen :=
  let '(MkFullgen y0 y1 y2 y3 y4 y5 y6 y7 y8 y9 y10 y11 y12 y13 y14 y15 y16 y17 y18) := g in
  MkFullgen y0 y1 y2 y3 v y5 y6 y7 y8 y9 y10 y11 y12 y13 y14 y15 y16 y17 y18.
Definition set_spill_offset_ (v : Z) (g : Fullgen) : Fullgen :=
  let '(MkFullgen y0 y1 y2 y3 y4 y5 y6 y7 y8 y9 y10 y11 y12 y13 y14 y15 y16 y17 y18) := g in
  MkFullgen y0 y1 y2 y3 y4 v y6 y7 y8 y9 y10 y11 y12 y13 y14 y15 y16 y17 y18.
Definition set_spills_ (v : Z) (g : Fullgen) : Fullgen :=
  let '(MkFullgen y0 y1 y2 y3 y4 y5 y6 y7 y8 y9 y10 y11 y12 y13 y14 y15 y16 y17 y18) := g in
  MkFullgen y0 y1 y2 y3 y4 y5 v y7 y8 y9 y10 y11 y12 y13 y14 y15 y16 y17 y18.
Definition set_spill_index_ (v : Z) (g : Fullgen) : Fullgen :=
  let '(MkFullgen y0 y1 y2 y3 y4 y5 y6 y7 y8 y9 y10 y11 y12 y13 y14 y15 y16 y17 y18) := g in
  MkFullgen y0 y1 y2 y3 y4 y5 y6 v y8 y9 y10 y11 y12 y13 y14 y15 y16 y17 y18.
Definition set_spill_reloc_ (v : option nat) (g : Fullgen) : Fullgen :=
  let '(MkFullgen y0 y1 y2 y3 y4 y5 y6 y7 y8 y9 y10 y11 y12 y13 y14 y15 y16 y17 y18) := g in
  MkFullgen y0 y1 y2 y3 y4 y5 y6 y7 v y9 y10 y11 y12 y13 y14 y15 y16 y17 y18.
Definition set_current_node_ (v : option AstNode) (g : Fullgen) : Fullgen :=
  let '(MkFullgen y0 y1 y2 y3 y4 y5 y6 y7 y8 y9 y10 y11 y12 y13 y14 y15 y16 y17 y18) := g in
  MkFullgen y0 y1 y2 y3 y4 y5 y6 y7 y8 v y10 y11 y12 y13 y14 y15 y16 y17 y18.
Definition set_visitor_type_ (v : VisitorType.t) (g : Fullgen) : Fullgen :=
  let '(MkFullgen y0 y1 y2 y3 y4 y5 y6 y7 y8 y9 y10 y11 y12 y13 y14 y15 y16 y17 y18) := g in
  MkFullgen y0 y1 y2 y3 y4 y5 y6 y7 y8 y9 v y11 y12 y13 y14 y15 y16 y17 y18.
Definition set_current_function_ (v : option FFunction) (g : Fullgen) : Fullgen :=
  let '(MkFullgen y0 y1 y2 y3 y4 y5 y6 y7 y8 y9 y10 y11 y12 y13 y14 y15 y16 y17 y18) := g in
  MkFullgen y0 y1 y2 y3 y4 y5 y6 y7 y8 y9 y10 v y12 y13 y14 y15 y16 y17 y18.
Definition set_loop_start_ (v : option nat) (g : Fullgen) : Fullgen :=
  let '(MkFullgen y0 y1 y2 y3 y4 y5 y6 y7 y8 y9 y10 y11 y12 y13 y14 y15 y16 y17 y18) := g in
  MkFullgen y0 y1 y2 y3 y4 y5 y6 y7 y8 y9 y10 y11 v y13 y14 y15 y16 y17 y18.
Definition set_loop_end_ (v : option nat) (g : Fullgen) : Fullgen :=
  let '(MkFullgen y0 y1 y2 y3 y4 y5 y6 y7 y8 y9 y10 y11 y12 y13 y14 y15 y16 y17 y18) := g in
  MkFullgen y0 y1 y2 y3 y4 y5 y6 y7 y8 y9 y10 y11 y12 v y14 y15 y16 y17 y18.
Definition set_error_msg_ (v : option string) (g : Fullgen) : Fullgen :=
  let '(MkFullgen y0 y1 y2 y3 y4 y5 y6 y7 y8 y9 y10 y11 y12 y13 y14 y15 y16 y17 y18) := g in
  MkFullgen y0 y1 y2 y3 y4 y5 y6 y7 y8 y9 y10 y11 y12 y13 v y15 y16 y17 y18.
Definition set_error_pos_ (v : Z) (g : Fullgen) : Fullgen :=
  let '(MkFullgen y0 y1 y2 y3 y4 y5 y6 y7 y8 y9 y10 y11 y12 y13 y14 y15 y16 y17 y18) := g in
  MkFullgen y0 y1 y2 y3 y4 y5 y6 y7 y8 y9 y10 y11 y12 y13 y14 v y16 y17 y18.
Definition set_root_context_ (v : list Z) (g : Fullgen) : Fullgen :=
  let '(MkFullgen y0 y1 y2 y3 y4 y5 y6 y7 y8 y9 y10 y11 y12 y13 y14 y15 y16 y17 y18) := g in
  MkFullgen y0 y1 y2 y3 y4 y5 y6 y7 y8 y9 y10 y11 y12 y13 y14 y15 v y17 y18.
Definition set_fns_ (v : list FFunction) (g : Fullgen) : Fullgen :=
  let '(MkFullgen y0 y1 y2 y3 y4 y5 y6 y7 y8 y9 y10 y11 y12 y13 y14 y15 y16 y17 y18) := g in
  MkFullgen y0 y1 y2 y3 y4 y5 y6 y7 y8 y9 y10 y11 y12 y13 y14 y15 y16 v y18.
Definition set_heap_ (v : Heap) (g : Fullgen) : Fullgen :=
  let '(MkFullgen y0 y1 y2 y3 y4 y5 y6 y7 y8 y9 y10 y11 y12 y13 y14 y15 y16 y17 y18) := g in
  MkFullgen y0 y1 y2 y3 y4 y5 y6 y7 y8 y9 y10 y11 y12 y13 y14 y15 y16 y17 v.

(** [emit]: append one call to the code buffer. *)
Definition emit (i : Instr) : Run Fullgen unit :=
  modify (fun g => set_code_ (code_ g ++ [i]) g).

(** [offset()], counted in calls. *)
Definition code_offset : Run Fullgen nat := gets (fun g => length (code_ g)).

(** [Label l(this);] *)
Definition Label_new : Run Fullgen nat :=
  l ← gets labels_;
  modify (set_labels_ (S l));;
  mret l.

Definition bind_label (l : nat) : Run Fullgen unit := emit (Bind l).
Definition emitb (b : Z) : Run Fullgen unit := emit (Emitb b).
Definition push (a : Arg) : Run Fullgen unit := emit (Ins Mpush [a]).
Definition pop (a : Arg) : Run Fullgen unit := emit (Ins Mpop [a]).
Definition movq (dst src : Arg) : Run Fullgen unit := emit (Ins Mmovq [dst; src]).
Definition movzxb (dst src : Arg) : Run Fullgen unit := emit (Ins Mmovzxb [dst; src]).
Definition movqd (dst src : Arg) : Run Fullgen unit := emit (Ins Mmovqd [dst; src]).
Definition addq (dst src : Arg) : Run Fullgen unit := emit (Ins Maddq [dst; src]).
Definition subq (dst src : Arg) : Run Fullgen unit := emit (Ins Msubq [dst; src]).
Definition xorq (dst src : Arg) : Run Fullgen unit := emit (Ins Mxorq [dst; src]).
Definition shl (dst src : Arg) : Run Fullgen unit := emit (Ins Mshl [dst; src]).
Definition dec (dst : Arg) : Run Fullgen unit := emit (Ins Mdec [dst]).
Definition inc (dst : Arg) : Run Fullgen unit := emit (Ins Minc [dst]).
Definition addl (dst src : Arg) : Run Fullgen unit := emit (Ins Maddl [dst; src]).
Definition xorl (dst src : Arg) : Run Fullgen unit := emit (Ins Mxorl [dst; src]).
Definition shll (dst src : Arg) : Run Fullgen unit := emit (Ins Mshll [dst; src]).
Definition shrl (dst src : Arg) : Run Fullgen unit := emit (Ins Mshrl [dst; src]).
Definition cmpq (a b : Arg) : Run Fullgen unit := emit (Ins Mcmpq [a; b]).
Definition cmpb (a b : Arg) : Run Fullgen unit := emit (Ins Mcmpb [a; b]).
Definition testb (a b : Arg) : Run Fullgen unit := emit (Ins Mtestb [a; b]).
Definition jmp (l : nat) : Run Fullgen unit := emit (Ins Mjmp [Lbl l]).
Definition jcc (c : Condition) (l : nat) : Run Fullgen unit := emit (Ins (Mjcc c) [Lbl l]).
Definition callq (a : Arg) : Run Fullgen unit := emit (Ins Mcallq [a]).
Definition ret_ (n : Z) : Run Fullgen unit := emit (Ins Mret [Imm n]).
Definition nop : Run Fullgen unit := emit (Ins Mnop []).

(** The inline macros of [macroassembler.h], kept as calls. *)
Definition Untag (r : Register) : Run Fullgen unit := emit (Ins MUntag [Reg r]).
Definition TagNumber_reg (r : Register) : Run Fullgen unit := emit (Ins MTagNumber [Reg r]).
Definition Push (r : Register) : Run Fullgen unit := emit (Ins MPush [Reg r]).
Definition Pop (r : Register) : Run Fullgen unit := emit (Ins MPop [Reg r]).

(** Modelled from the spec: [TagNumber(value)] on a number known at
    generation time is [value << 1 | 1] (§3.1), in 64 bits. *)
Definition TagNumber (value : Z) : Z := i64 (Z.lor (Z.shiftl value 1) 1).

(** Modelled from the spec: [ChangeAlign(n)] moves the [align_] counter
    (§4.5). *)
Definition ChangeAlign (n : Z) : Run Fullgen unit :=
  modify (fun g => set_align_ (align_ g + n) g).

(** A heap operation, done on [heap()]. *)
Definition on_heap {T} (c : Run Heap T) : Run Fullgen T :=
  fun g => match c (heap_ g) with
           | Some (a, h) => Some (a, set_heap_ h g)
           | None => None
           end.

(** ** x64/macroassembler-x64.cc *)

(** [Masm::AlignCode]. *)
Definition AlignCode_ : Run Fullgen unit := emit AlignCode.

(** [Masm::Align]: the constructor returns the object, that is the value
    of [align_] it saved; [Align_delete] is the destructor. *)
Definition Align_new : Run Fullgen Z :=
  a ← gets align_;
  (if Z.rem a 2 =? 0 then mret tt
   else push (Immediate (tag_value kTagNil));; ChangeAlign 1);;
  mret a.

Definition Align_delete (a : Z) : Run Fullgen unit :=
  if Z.rem a 2 =? 0 then mret tt
  else addq rsp (Immediate 8);; ChangeAlign (-1).

Definition Spill_new (src : Register) : Run Fullgen Spill :=
  index ← gets spill_index_;
  modify (set_spill_index_ (index + 1));;
  movq (SpillSlot index) src;;
  g ← gets id;
  (if spill_index_ g >? spills_ g then modify (set_spills_ (spill_index_ g)) else mret tt);;
  mret (MkSpill src index).

Definition Spill_delete (s : Spill) : Run Fullgen unit :=
  modify (fun g => set_spill_index_ (spill_index_ g - 1) g).

(** [Spill::Unspill(dst)] and [Spill::Unspill()]. *)
Definition Unspill_to (s : Spill) (dst : Register) : Run Fullgen unit :=
  movq dst (SpillSlot (index_ s)).

Definition Unspill (s : Spill) : Run Fullgen unit := Unspill_to s (src_ s).

(** [Masm::AllocateSpills]. *)
Definition AllocateSpills (stack_slots : Z) : Run Fullgen unit :=
  modify (set_spill_offset_ (Utils.RoundUp (u32 ((stack_slots + 1) * 8)) 16));;
  modify (set_spills_ 0);;
  modify (set_spill_index_ 0);;
  subq rsp (Immediate 0);;
  at_ ← code_offset;
  relocs ← gets relocation_info_;
  modify (set_spill_reloc_ (Some (length relocs)));;
  modify (set_relocation_info_
            (relocs ++ [RelocationInfo.Mk RelocationInfo.kValue RelocationInfo.kLong
                          (at_ - 1)%nat None])).

(** [RelocationInfo::target(value)] on the entry at [i]. *)
Definition reloc_set_target (i : nat) (target : Z) (g : Fullgen) : Fullgen :=
  set_relocation_info_
    (alter (fun r => RelocationInfo.Mk (RelocationInfo.type_ r) (RelocationInfo.size_ r)
                       (RelocationInfo.at_ r) (Some target)) i (relocation_info_ g)) g.

(** [Masm::FinalizeSpills]. *)
Definition FinalizeSpills : Run Fullgen unit :=
  g ← gets id;
  i ← lift_opt (spill_reloc_ g);
  modify (reloc_set_target i
            (u32 (spill_offset_ g + Utils.RoundUp (u32 (Z.shiftl (spills_ g + 1) 3)) 16))).

(** [Masm::Call(Register addr)] and [Masm::Call(Operand& addr)]. *)
Definition Call (addr : Arg) : Run Fullgen unit :=
  emit AlignOdd;;
  callq addr;;
  nop.

(** [Masm::Call(char* stub)]. *)
Definition Call_stub (stub : Stub) : Run Fullgen unit :=
  movq scratch (Sym (StubAddress stub));;
  Call scratch.

(** [Masm::Allocate]. *)
Definition Masm_Allocate (tag : HeapTag) (size_reg : Register) (size : Z)
    (result : Register) : Run Fullgen unit :=
  rax_s ← Spill_new rax;
  ChangeAlign 2;;
  a ← Align_new;
  (if reg_is size_reg reg_nil then
     movq rax (Immediate (TagNumber (u32 (size + 8))))
   else
     movq rax size_reg;;
     Untag rax;;
     addq rax (Immediate 8);;
     TagNumber_reg rax);;
  push rax;;
  movq rax (Immediate (TagNumber (tag_value tag)));;
  push rax;;
  Call_stub AllocateStub;;
  Align_delete a;;
  ChangeAlign (-2);;
  (if negb (reg_is result rax) then
     movq result rax;;
     Unspill rax_s
   else mret tt);;
  Spill_delete rax_s.

(** [Masm::CheckGC]. *)
Definition CheckGC : Run Fullgen unit :=
  let scratch_op := MkOperand scratch 0 in
  done ← Label_new;
  movq scratch (Sym NeedsGcAddress);;
  cmpb scratch_op (Immediate 0);;
  jcc kEq done;;
  Call_stub CollectGarbageStub;;
  bind_label done.

(** The loop of [Masm::AllocateContext]:
    [for (uint32_t i = 0; i < slots; i++) movq(Operand(rax, 24 + i * 8), nil)],
    with [n] rounds left. *)
Fixpoint clear_context (i : Z) (n : nat) : Run Fullgen unit :=
  match n with
  | O => mret tt
  | S n' =>
      movq (MkOperand rax (24 + i * 8)) (Immediate (tag_value kTagNil));;
      clear_context (i + 1) n'
  end.

(** [Masm::AllocateContext]. *)
Definition AllocateContext (slots : Z) : Run Fullgen unit :=
  rax_s ← Spill_new rax;
  Masm_Allocate kTagContext reg_nil (u32 (8 * u32 (slots + 2))) rax;;
  let qparent := MkOperand rax 8 in
  movq qparent rdi;;
  let qslots := MkOperand rax 16 in
  movq qslots (Immediate slots);;
  clear_context 0 (Z.to_nat slots);;
  movq rdi rax;;
  Unspill rax_s;;
  CheckGC;;
  Spill_delete rax_s.

(** [Masm::AllocateFunction]. *)
Definition AllocateFunction (addr result : Register) : Run Fullgen unit :=
  Masm_Allocate kTagFunction reg_nil (8 * 3) result;;
  let qparent := MkOperand result 8 in
  let qaddr := MkOperand result 16 in
  let qroot := MkOperand result 24 in
  movq qparent rdi;;
  movq qaddr addr;;
  movq qroot root_reg;;
  xorq addr addr;;
  CheckGC.

(** [Masm::Fill]. *)
Definition Fill (start end_ : Register) (value : Arg) : Run Fullgen unit :=
  Push start;;
  movq scratch value;;
  entry ← Label_new;
  loop ← Label_new;
  jmp entry;;
  bind_label loop;;
  let op := MkOperand start 0 in
  movq op scratch;;
  addq start (Immediate 8);;
  bind_label entry;;
  cmpq start end_;;
  jcc kLe loop;;
  Pop start;;
  xorq scratch scratch.

(** [Masm::FillStackSlots]. *)
Definition FillStackSlots : Run Fullgen unit :=
  movq rax rsp;;
  movq rbx rbp;;
  subq rbx (Immediate 8);;
  Fill rax rbx (Immediate (tag_value kTagNil));;
  xorq rax rax;;
  xorq rbx rbx.

(** [Masm::AllocateObjectLiteral]. *)
Definition AllocateObjectLiteral (tag : HeapTag) (size result : Register) : Run Fullgen unit :=
  Masm_Allocate tag reg_nil (match tag with kTagArray => 24 | _ => 16 end) result;;
  let qmask := MkOperand result 8 in
  let qmap := MkOperand result HObject.kMapOffset in
  let qlength := MkOperand result 24 in
  movq scratch size;;
  Untag scratch;;
  dec scratch;;
  shl scratch (Immediate 3);;
  movq qmask scratch;;
  xorq scratch scratch;;
  size_s ← Spill_new size;
  Untag size;;
  shl size (Immediate 4);;
  addq size (Immediate 8);;
  TagNumber_reg size;;
  Masm_Allocate kTagMap size 0 scratch;;
  movq qmap scratch;;
  Unspill size_s;;
  result_s ← Spill_new result;
  movq result scratch;;
  let qmapsize := MkOperand result HMap.kSizeOffset in
  Untag size;;
  movq qmapsize size;;
  shl size (Immediate 4);;
  addq result (Immediate 16);;
  addq size result;;
  subq size (Immediate 8);;
  Fill result size (Immediate (tag_value kTagNil));;
  Unspill result_s;;
  Unspill size_s;;
  (match tag with
   | kTagArray => movq qlength (Immediate 0)
   | _ => mret tt
   end);;
  CheckGC;;
  Spill_delete result_s;;
  Spill_delete size_s.

(** [Masm::IsNil], [IsUnboxed], [IsHeapObject] and [IsTrue]; a label that
    is [NULL] is [None]. *)
Definition jcc_opt (c : Condition) (l : option nat) : Run Fullgen unit :=
  match l with Some l => jcc c l | None => mret tt end.

Definition IsNil (reference : Register) (not_nil is_nil : option nat) : Run Fullgen unit :=
  cmpq reference (Immediate (tag_value kTagNil));;
  jcc_opt kEq is_nil;;
  jcc_opt kNe not_nil.

Definition IsUnboxed (reference : Register) (not_unboxed unboxed : option nat) : Run Fullgen unit :=
  testb reference (Immediate 1);;
  jcc_opt kNe not_unboxed;;
  jcc_opt kEq unboxed.

Definition IsHeapObject (tag : HeapTag) (reference : Register)
    (mismatch match_ : option nat) : Run Fullgen unit :=
  let qtag := MkOperand reference 0 in
  cmpb qtag (Immediate (tag_value tag));;
  jcc_opt kNe mismatch;;
  jcc_opt kEq match_.

Definition IsTrue (reference : Register) (is_false is_true : option nat) : Run Fullgen unit :=
  let bvalue := MkOperand reference 8 in
  cmpb bvalue (Immediate 0);;
  jcc_opt kEq is_false;;
  jcc_opt kNe is_true.

(** [Masm::StringHash].  [assert(!str.is(rcx))] fails the generation. *)
Definition StringHash (str result : Register) : Run Fullgen unit :=
  let hash_field := MkOperand str HString.kHashOffset in
  done ← Label_new;
  movq result hash_field;;
  cmpq result (Immediate 0);;
  jcc kNe done;;
  (if reg_is str rcx then fail else mret tt);;
  (if negb (reg_is result rcx) then push rcx else mret tt);;
  push str;;
  push rsi;;
  let scratch := rsi in
  xorq result result;;
  let length_field := MkOperand str HString.kLengthOffset in
  movq rcx length_field;;
  addq str (Immediate HString.kValueOffset);;
  loop_start ← Label_new;
  loop_cond ← Label_new;
  loop_end ← Label_new;
  jmp loop_cond;;
  bind_label loop_start;;
  let ch := MkOperand str 0 in
  movzxb scratch ch;;
  addl result scratch;;
  movq scratch result;;
  shll result (Immediate 10);;
  addl result scratch;;
  movq scratch result;;
  shrl result (Immediate 6);;
  xorl result scratch;;
  dec rcx;;
  inc str;;
  bind_label loop_cond;;
  cmpq rcx (Immediate 0);;
  jcc kNe loop_start;;
  bind_label loop_end;;
  movq scratch result;;
  shll result (Immediate 3);;
  addl result scratch;;
  movq scratch result;;
  shrl result (Immediate 11);;
  xorl result scratch;;
  movq scratch result;;
  shll result (Immediate 15);;
  addl result scratch;;
  pop rsi;;
  pop str;;
  (if negb (reg_is result rcx) then pop rcx else mret tt);;
  movq hash_field result;;
  bind_label done.

(** ** Running generated code

    The meaning of the instructions that [Masm::StringHash] emits, as the
    x86-64 manual gives it.  The machine stack is kept apart from the heap
    memory.  The flags are the operands of the last [cmpq]; every other
    instruction that writes flags leaves them unknown. *)

Record Cpu := MkCpu {
  regs : Register -> Z;
  stack : list Z;
  flags : option (Z * Z);
  ram : Mem;
  pc : nat
}.

Definition set_reg (r : Register) (v : Z) (rs : Register -> Z) : Register -> Z :=
  fun r' => if reg_is r' r then v else rs r'.

Definition ea (c : Cpu) (op : Operand) : Z := regs c (op_base op) + op_disp op.

(** The position after [bind(&label)]. *)
Fixpoint find_label (l : nat) (code : list Instr) : option nat :=
  match code with
  | [] => None
  | Bind l' :: code' =>
      if Nat.eqb l l' then Some 1%nat else S <$> find_label l code'
  | _ :: code' => S <$> find_label l code'
  end.

Definition holds (c : Condition) (fl : Z * Z) : option bool :=
  match c with
  | kEq => Some (fst fl =? snd fl)
  | kNe => Some (negb (fst fl =? snd fl))
  | _ => None
  end.

(** One instruction.  [None]: an instruction or operand form that this
    development gives no meaning to. *)
Definition step (code : list Instr) (i : Instr) (c : Cpu) : option Cpu :=
  let next := S (pc c) in
  let write r v fl := Some (MkCpu (set_reg r v (regs c)) (stack c) fl (ram c) next) in
  match i with
  | Bind _ => Some (MkCpu (regs c) (stack c) (flags c) (ram c) next)
  | Ins Mmovq [Reg d; Reg s] => write d (regs c s) (flags c)
  | Ins Mmovq [Reg d; Imm v] => write d (u64 v) (flags c)
  | Ins Mmovq [Reg d; At op] => write d (load64 (ram c) (ea c op)) (flags c)
  | Ins Mmovq [At op; Reg s] =>
      Some (MkCpu (regs c) (stack c) (flags c) (store64 (ea c op) (regs c s) (ram c)) next)
  | Ins Mmovzxb [Reg d; At op] => write d (load8 (ram c) (ea c op)) (flags c)
  | Ins Mpush [Reg s] => Some (MkCpu (regs c) (regs c s :: stack c) (flags c) (ram c) next)
  | Ins Mpop [Reg d] =>
      match stack c with
      | v :: st => Some (MkCpu (set_reg d v (regs c)) st (flags c) (ram c) next)
      | [] => None
      end
  | Ins Mxorq [Reg d; Reg s] => write d (Z.lxor (regs c d) (regs c s)) None
  | Ins Maddq [Reg d; Imm v] => write d (u64 (regs c d + v)) None
  | Ins Mdec [Reg d] => write d (u64 (regs c d - 1)) None
  | Ins Minc [Reg d] => write d (u64 (regs c d + 1)) None
  | Ins Maddl [Reg d; Reg s] => write d (u32 (regs c d + regs c s)) None
  | Ins Mxorl [Reg d; Reg s] => write d (Z.lxor (u32 (regs c d)) (u32 (regs c s))) None
  | Ins Mshll [Reg d; Imm n] => write d (u32 (Z.shiftl (regs c d) n)) None
  | Ins Mshrl [Reg d; Imm n] => write d (Z.shiftr (u32 (regs c d)) n) None
  | Ins Mcmpq [Reg a; Imm v] =>
      Some (MkCpu (regs c) (stack c) (Some (regs c a, v)) (ram c) next)
  | Ins Mjmp [Lbl l] =>
      target ← find_label l code;
      Some (MkCpu (regs c) (stack c) (flags c) (ram c) target)
  | Ins (Mjcc cond) [Lbl l] =>
      fl ← flags c;
      taken ← holds cond fl;
      target ← find_label l code;
      Some (MkCpu (regs c) (stack c) (flags c) (ram c) (if taken : bool then target else next))
  | _ => None
  end.

(** Run until the end of [code] is reached, for at most [fuel] steps. *)
Fixpoint run (fuel : nat) (code : list Instr) (c : Cpu) : Outcome Cpu :=
  match code !! pc c with
  | None => Finished c
  | Some i =>
      match fuel with
      | O => OutOfFuel
      | S fuel' =>
          match step code i c with
          | Some c' => run fuel' code c'
          | None => Undefined
          end
      end
  end.

(** The generator before anything was emitted, on the heap [h]. *)
Definition Fullgen_init (h : Heap) : Fullgen :=
  MkFullgen [] 0%nat [] (MkOperand rax 0) 0 0 0 0 None None VisitorType.kValue None
            None None None 0 [] [] h.

(** The code of [Masm::StringHash(str, result)]. *)
Definition StringHash_code (str result : Register) : list Instr :=
  match StringHash str result (Fullgen_init example_heap) with
  | Some (_, g) => code_ g
  | None => []
  end.

(** The value [Masm::StringHash(rbx, rax)] leaves in [rax] when run with
    the address [addr] in [rbx] on the memory [m] (0 if it does not get to
    the end within [fuel] steps). *)
Definition StringHash_run (fuel : nat) (addr : Z) (m : Mem) : Outcome (Z * Mem) :=
  match run fuel (StringHash_code rbx rax)
          (MkCpu (set_reg rbx addr (fun _ => 0)) [] None m 0%nat) with
  | Finished c => Finished (regs c rax, ram c)
  | Undefined => Undefined
  | OutOfFuel => OutOfFuel
  end.

(** The mixer of the specification (§4.4): "h += c; h += h<<10; h ^= h>>6;
    ... final h += h<<3; h ^= h>>11; h += h<<15" in 32 bits, from 0, with
    [c] the value of the byte. *)
Definition spec_hash (key : list byte) : Z :=
  Utils.hash_mixup
    (fold_left (fun h c => Utils.hash_round h (Z.of_N (Byte.to_N c))) key 0).

(** ** x64/fullgen-x64.cc *)

(** Modelled from the spec: [SetError(msg, offset)], an inline member of
    [fullgen.h], records the message and the byte offset on the generator
    (§7). *)
Definition SetError (msg : option string) (offset : Z) : Run Fullgen unit :=
  modify (fun g => set_error_pos_ offset (set_error_msg_ msg g)).

(** [Fullgen::Throw]. *)
Definition Throw (err : Error) : Run Fullgen unit :=
  node ← gets current_node_;
  node ← lift_opt node;
  SetError (ErrorToString err) (offset node);;
  emitb 0xcc.

(** [root_context()->Push(value)]. *)
Definition root_context_Push (value : Z) : Run Fullgen unit :=
  modify (fun g => set_root_context_ (root_context_ g ++ [value]) g).

(** [slot()]. *)
Definition slot : Run Fullgen Operand := gets slot_.

Definition visiting_for_value : Run Fullgen bool :=
  gets (fun g => match visitor_type_ g with VisitorType.kValue => true | _ => false end).
Definition visiting_for_slot : Run Fullgen bool :=
  gets (fun g => match visitor_type_ g with VisitorType.kSlot => true | _ => false end).

(** Modelled from the spec: [HContext::GetIndexDisp(index)], the
    displacement of a context slot: the slots follow the header, the parent
    and the slot count (§3.2). *)
Definition GetIndexDisp (index : Z) : Z := 8 * (3 + index).

(** Modelled from the spec: [LoopVisitor], the scope object of
    [fullgen.h] that makes two labels the targets of [break] and
    [continue] and puts the previous ones back when it is destroyed
    (§4.7, While). *)
Definition LoopVisitor_new (loop_start loop_end : nat) : Run Fullgen (option nat * option nat) :=
  g ← gets id;
  modify (set_loop_start_ (Some loop_start));;
  modify (set_loop_end_ (Some loop_end));;
  mret (loop_start_ g, loop_end_ g).

Definition LoopVisitor_delete (saved : option nat * option nat) : Run Fullgen unit :=
  modify (set_loop_start_ (fst saved));;
  modify (set_loop_end_ (snd saved)).

Section Generator.
Context `{Externals}.

(** [Fullgen::Fullgen], from the members' initial values [Fullgen_init]. *)
Definition Fullgen_new : Run Fullgen unit :=
  let str (s : string) := on_heap (HString_New kTenureOld (list_byte_of_string s)) in
  p ← on_heap HObject_NewEmpty; root_context_Push p;;
  p ← on_heap (HBoolean_New kTenureOld true); root_context_Push p;;
  p ← on_heap (HBoolean_New kTenureOld false); root_context_Push p;;
  p ← str "nil"%string; root_context_Push p;;
  p ← str "boolean"%string; root_context_Push p;;
  p ← str "number"%string; root_context_Push p;;
  p ← str "string"%string; root_context_Push p;;
  p ← str "object"%string; root_context_Push p;;
  p ← str "array"%string; root_context_Push p;;
  p ← str "function"%string; root_context_Push p;;
  p ← str "cdata"%string; root_context_Push p.

(** [Fullgen::PlaceInRoot]. *)
Definition PlaceInRoot (addr : Z) : Run Fullgen unit :=
  n ← gets (fun g => Z.of_nat (length (root_context_ g)));
  let root_op := MkOperand root_reg (8 * (3 + n)) in
  movq rax root_op;;
  root_context_Push addr.

(** [Fullgen::AllocateRoot]; [HContext::New] empties the list. *)
Definition AllocateRoot : Run Fullgen Z :=
  values ← gets root_context_;
  result ← on_heap (HContext_New values);
  modify (set_root_context_ []);;
  mret result.

(** [Fullgen::GenerateEpilogue]. *)
Definition GenerateEpilogue (stmt : AstNode) : Run Fullgen unit :=
  movq rsp rbp;;
  pop rbp;;
  ret_ 0.

(** The members that visit a child do so through [Visit], which
    [Visitor::Visit] of [visitor.cc] dispatches back to them. *)
Variable Visit : AstNode -> Run Fullgen unit.

(** [Fullgen::VisitForValue] and [Fullgen::VisitForSlot]. *)
Definition VisitForValue (node : AstNode) : Run Fullgen unit :=
  stored_type ← gets visitor_type_;
  modify (set_visitor_type_ VisitorType.kValue);;
  Visit node;;
  modify (set_visitor_type_ stored_type).

Definition VisitForSlot (node : AstNode) : Run Fullgen unit :=
  stored_type ← gets visitor_type_;
  modify (set_visitor_type_ VisitorType.kSlot);;
  Visit node;;
  modify (set_visitor_type_ stored_type).

(** The loop of [GeneratePrologue] over the arguments; [i] counts the
    items done and [n] is [fn->args()->length()]. *)
Fixpoint place_arguments (items : list AstNode) (i n : Z) (body : nat) : Run Fullgen unit :=
  match items with
  | [] => mret tt
  | item :: items' =>
      let i := u32 (i + 1) in
      let rhs := MkOperand rbp (u32 (8 * u32 (2 + n - i))) in
      cmpq rsi (Immediate (TagNumber i));;
      jcc kLt body;;
      VisitForSlot item;;
      movq rdx rhs;;
      s ← slot;
      movq (At s) rdx;;
      place_arguments items' i n body
  end.

(** [Fullgen::GeneratePrologue]. *)
Definition GeneratePrologue (stmt : AstNode) : Run Fullgen unit :=
  push rbp;;
  movq rbp rsp;;
  AllocateSpills (u32 (stack_slots stmt));;
  FillStackSlots;;
  AllocateContext (u32 (context_slots stmt));;
  body ← Label_new;
  place_arguments (args stmt) 0 (Z.of_nat (length (args stmt))) body;;
  bind_label body;;
  xorq rdx rdx.

(** [assert(condition)]. *)
Definition assert_ (condition : bool) : Run Fullgen unit :=
  if condition then ret tt else fail.

(** [slot().base(base); slot().disp(disp)]. *)
Definition set_slot (base : Register) (disp : Z) : Run Fullgen unit :=
  modify (set_slot_ (MkOperand base disp)).

(** [while (--depth >= 0) movq(rax, Operand(rax, 8))], with [n] rounds
    left. *)
Fixpoint lookup_context (n : nat) : Run Fullgen unit :=
  match n with
  | O => mret tt
  | S n' => movq rax (MkOperand rax 8);; lookup_context n'
  end.

(** [Fullgen::VisitValue]. *)
Definition VisitValue (node : AstNode) : Run Fullgen unit :=
  for_value ← visiting_for_value;
  match ext node with
  | SpillExt spill =>
      assert_ (for_value : bool);;
      Unspill_to spill rax
  | SlotOperandExt =>
      s ← slot;
      set_slot (op_base s) (op_disp s);;
      if (for_value : bool) then s ← slot; movq rax (At s) else mret tt
  | ValueExt sl _ =>
      (if is_stack sl then
         set_slot rbp (-8 * (slot_index sl + 1))
       else
         let depth := slot_depth sl in
         if depth =? -2 then
           set_slot root_reg (8 * (slot_index sl + 3))
         else if depth =? -1 then
           set_slot root_reg (GetIndexDisp kRootGlobalIndex);;
           for_slot ← visiting_for_slot;
           if (for_slot : bool) then Throw kErrorIncorrectLhs else mret tt
         else
           movq rax rdi;;
           lookup_context (Z.to_nat depth);;
           set_slot rax (8 * (slot_index sl + 3)));;
      if (for_value : bool) then s ← slot; movq rax (At s) else mret tt
  | _ => fail
  end.

(** [Fullgen::VisitAssign]. *)
Definition VisitAssign (stmt : AstNode) : Run Fullgen unit :=
  done ← Label_new;
  r ← lift_opt (rhs stmt);
  VisitForValue r;;
  rax_s ← Spill_new rax;
  l ← lift_opt (lhs stmt);
  VisitForSlot l;;
  Unspill_to rax_s scratch;;
  s ← slot;
  (if negb (reg_is (op_base s) rbp) then IsNil (op_base s) None (Some done) else mret tt);;
  movq (At s) scratch;;
  bind_label done;;
  movq rax scratch;;
  Spill_delete rax_s.

(** [Fullgen::VisitMember]. *)
Definition VisitMember (node : AstNode) : Run Fullgen unit :=
  l ← lift_opt (lhs node);
  VisitForValue l;;
  rax_s ← Spill_new rax;
  r ← lift_opt (rhs node);
  VisitForValue r;;
  movq rbx rax;;
  Unspill_to rax_s rax;;
  for_slot ← visiting_for_slot;
  movq rcx (Immediate (if (for_slot : bool) then 1 else 0));;
  Call_stub LookupPropertyStub;;
  done ← Label_new;
  IsNil rax None (Some done);;
  Unspill_to rax_s rbx;;
  let qmap := MkOperand rbx HObject.kMapOffset in
  movq rbx qmap;;
  addq rax rbx;;
  set_slot rax 0;;
  for_value ← visiting_for_value;
  (if (for_value : bool) then s ← slot; movq rax (At s) else mret tt);;
  bind_label done;;
  set_slot rax 0;;
  Spill_delete rax_s.

(** [Fullgen::VisitNumber]. *)
Definition VisitNumber (node : AstNode) : Run Fullgen unit :=
  for_value ← visiting_for_value;
  if negb (for_value : bool) then Throw kErrorIncorrectLhs
  else if Utils.StringIsDouble (value node) then
    p ← on_heap (HNumber_New kTenureOld (StringToDouble (value node)));
    PlaceInRoot p
  else
    movq rax (Immediate (TagNumber (Utils.StringToInt (value node)))).

(** [Fullgen::VisitString] and [Fullgen::VisitProperty]. *)
Definition VisitString (node : AstNode) : Run Fullgen unit :=
  for_slot ← visiting_for_slot;
  if (for_slot : bool) then Throw kErrorIncorrectLhs
  else
    unescaped ← lift_opt (Utils.Unescape (value node));
    p ← on_heap (HString_New kTenureOld unescaped);
    PlaceInRoot p.

Definition VisitProperty (node : AstNode) : Run Fullgen unit := VisitString node.

(** [Fullgen::VisitIf]; [fail_item] is the third child, if there is one. *)
Definition VisitIf (node : AstNode) : Run Fullgen unit :=
  fail_body ← Label_new;
  done ← Label_new;
  expr ← lift_opt (lhs node);
  success ← lift_opt (rhs node);
  let fail_ := children node !! 2%nat in
  VisitForValue expr;;
  Call_stub CoerceToBooleanStub;;
  IsTrue rax (Some fail_body) None;;
  VisitForValue success;;
  jmp done;;
  bind_label fail_body;;
  (match fail_ with Some f => VisitForValue f | None => mret tt end);;
  bind_label done.

(** [Fullgen::VisitWhile]. *)
Definition VisitWhile (node : AstNode) : Run Fullgen unit :=
  loop_start ← Label_new;
  loop_end ← Label_new;
  expr ← lift_opt (lhs node);
  body ← lift_opt (rhs node);
  visitor ← LoopVisitor_new loop_start loop_end;
  bind_label loop_start;;
  VisitForValue expr;;
  Call_stub CoerceToBooleanStub;;
  IsTrue rax (Some loop_end) None;;
  VisitForValue body;;
  jmp loop_start;;
  bind_label loop_end;;
  LoopVisitor_delete visitor.

(** [Fullgen::VisitNil], [VisitTrue] and [VisitFalse]. *)
Definition VisitNil (node : AstNode) : Run Fullgen unit :=
  for_slot ← visiting_for_slot;
  if (for_slot : bool) then Throw kErrorIncorrectLhs
  else movq rax (Immediate (tag_value kTagNil)).

Definition VisitTrue (node : AstNode) : Run Fullgen unit :=
  for_slot ← visiting_for_slot;
  if (for_slot : bool) then Throw kErrorIncorrectLhs
  else
    let true_slot := MkOperand root_reg (GetIndexDisp kRootTrueIndex) in
    movq rax true_slot.

Definition VisitFalse (node : AstNode) : Run Fullgen unit :=
  for_slot ← visiting_for_slot;
  if (for_slot : bool) then Throw kErrorIncorrectLhs
  else
    let false_slot := MkOperand root_reg (GetIndexDisp kRootFalseIndex) in
    movq rax false_slot.

(** [new FAstSpill(&spill)]: an [AstValue] marked as a spill. *)
Definition FAstSpill (spill : Spill) : AstNode := MkAst kValue [] 0 [] 0 0 (SpillExt spill).

(** The [kAssign] node over a fresh [kMember] node that both literal
    visitors build: [object[key] = value], the object being spilled. *)
Definition member_assign (object_s : Spill) (key value : AstNode) : AstNode :=
  let member := push_child key (push_child (FAstSpill object_s) (AstNode_new kMember)) in
  push_child value (push_child member (AstNode_new kAssign)).

(** [TagNumber(PowerOfTwo(node->children()->length() << 1))]. *)
Definition literal_capacity (node : AstNode) : option Z :=
  Utils.PowerOfTwo (u32 (Z.shiftl (Z.of_nat (length (children node))) 1)).

(** The loop of [Fullgen::VisitObjectLiteral] over the keys and values. *)
Fixpoint set_pairs (object_s : Spill) (keys values : list AstNode) : Run Fullgen unit :=
  match keys, values with
  | key :: keys', value :: values' =>
      VisitForValue (member_assign object_s key value);;
      set_pairs object_s keys' values'
  | [], _ => mret tt
  | _ :: _, [] => fail
  end.

(** [Fullgen::VisitObjectLiteral]. *)
Definition VisitObjectLiteral (node : AstNode) : Run Fullgen unit :=
  for_slot ← visiting_for_slot;
  if (for_slot : bool) then Throw kErrorIncorrectLhs
  else
    capacity ← lift_opt (literal_capacity node);
    movq rbx (Immediate (TagNumber capacity));;
    AllocateObjectLiteral kTagObject rbx rdx;;
    rdx_s ← Spill_new rdx;
    assert_ (length (keys node) =? length (values node))%nat;;
    set_pairs rdx_s (keys node) (values node);;
    Unspill_to rdx_s rax;;
    Spill_delete rdx_s.

(** [snprintf(keystr, sizeof(keystr), "%llu", index)]. *)
Definition decimal (index : Z) : list byte :=
  list_byte_of_string (NilZero.string_of_uint (N.to_uint (Z.to_N index))).

(** The loop of [Fullgen::VisitArrayLiteral] over the items. *)
Fixpoint set_items (object_s : Spill) (items : list AstNode) (index : Z) : Run Fullgen unit :=
  match items with
  | [] => mret tt
  | item :: items' =>
      let key := MkAst kNumber (decimal index) 0 [] 0 0 NoExt in
      VisitForValue (member_assign object_s key item);;
      set_items object_s items' (u64 (index + 1))
  end.

(** [Fullgen::VisitArrayLiteral]. *)
Definition VisitArrayLiteral (node : AstNode) : Run Fullgen unit :=
  for_slot ← visiting_for_slot;
  if (for_slot : bool) then Throw kErrorIncorrectLhs
  else
    capacity ← lift_opt (literal_capacity node);
    movq rbx (Immediate (TagNumber capacity));;
    AllocateObjectLiteral kTagArray rbx rdx;;
    rdx_s ← Spill_new rdx;
    set_items rdx_s (children node) 0;;
    Unspill_to rdx_s rax;;
    Spill_delete rdx_s.

(** [Fullgen::VisitReturn]; a [return] without expression has no child. *)
Definition VisitReturn (node : AstNode) : Run Fullgen unit :=
  (match lhs node with
   | Some e => VisitForValue e
   | None => movq rax (Immediate (tag_value kTagNil))
   end);;
  fn ← gets current_function_;
  fn ← lift_opt fn;
  GenerateEpilogue (ff_fn fn).

(** [Fullgen::VisitNew]. *)
Definition VisitNew (node : AstNode) : Run Fullgen unit :=
  l ← lift_opt (lhs node);
  VisitForValue l;;
  Call_stub CloneObjectStub.

(** [Fullgen::VisitBreak] and [Fullgen::VisitContinue]. *)
Definition VisitBreak (node : AstNode) : Run Fullgen unit :=
  loop_end ← gets loop_end_;
  match loop_end with
  | None => Throw kErrorExpectedLoop
  | Some l => jmp l
  end.

Definition VisitContinue (node : AstNode) : Run Fullgen unit :=
  loop_start ← gets loop_start_;
  match loop_start with
  | None => Throw kErrorExpectedLoop
  | Some l => jmp l
  end.

(** [Fullgen::VisitTypeof], [VisitSizeof] and [VisitKeysof]. *)
Definition visit_with_stub (stub : Stub) (node : AstNode) : Run Fullgen unit :=
  for_slot ← visiting_for_slot;
  if (for_slot : bool) then Throw kErrorIncorrectLhs
  else
    a ← Align_new;
    l ← lift_opt (lhs node);
    VisitForValue l;;
    Call_stub stub;;
    Align_delete a.

Definition VisitTypeof := visit_with_stub TypeofStub.
Definition VisitSizeof := visit_with_stub SizeofStub.
Definition VisitKeysof := visit_with_stub KeysofStub.

(** [Masm::Call(Register fn, uint32_t args)]. *)
Definition Call_fn (fn : Register) (args : Z) : Run Fullgen unit :=
  let context_slot := MkOperand fn 8 in
  let code_slot := MkOperand fn 16 in
  let root_slot := MkOperand fn 24 in
  binding ← Label_new;
  done ← Label_new;
  movq rdi context_slot;;
  movq rsi (Immediate (TagNumber args));;
  movq root_reg root_slot;;
  cmpq rdi (Immediate kBindingContextTag);;
  jcc kEq binding;;
  Call code_slot;;
  jmp done;;
  bind_label binding;;
  push rsi;;
  push fn;;
  Call_stub CallBindingStub;;
  bind_label done.

(** [FFunction::Use(offset)] on the function pushed last to [fns_]. *)
Definition Use_last : Run Fullgen unit :=
  at_ ← code_offset;
  g ← gets id;
  match reverse (fns_ g) with
  | [] => fail
  | ffn :: before =>
      let target := if ff_addr ffn =? 0 then None else Some (ff_addr ffn) in
      let info := RelocationInfo.Mk RelocationInfo.kAbsolute RelocationInfo.kQuad
                    (at_ - 1)%nat target in
      let i := length (relocation_info_ g) in
      modify (set_fns_ (reverse before ++ [MkFFunction (ff_fn ffn) (ff_addr ffn) (ff_uses ffn ++ [i])]));;
      modify (set_relocation_info_ (relocation_info_ g ++ [info]))
  end.

(** [Fullgen::VisitFunction]. *)
Definition VisitFunction (stmt : AstNode) : Run Fullgen unit :=
  modify (fun g => set_fns_ (fns_ g ++ [MkFFunction stmt 0 []]) g);;
  movq rcx (Immediate 0);;
  Use_last;;
  match variable stmt with
  | Some v =>
      AllocateFunction rcx rdx;;
      rdx_s ← Spill_new rdx;
      let assign := push_child (FAstSpill rdx_s) (push_child v (AstNode_new kAssign)) in
      Visit assign;;
      Spill_delete rdx_s
  | None => AllocateFunction rcx rax
  end.

(** The loop of [Fullgen::VisitCall] over the arguments. *)
Fixpoint push_arguments (items : list AstNode) : Run Fullgen unit :=
  match items with
  | [] => mret tt
  | item :: items' =>
      a ← Align_new;
      VisitForValue item;;
      Align_delete a;;
      push rax;;
      ChangeAlign 1;;
      push_arguments items'
  end.

(** Is the name of the callee [__$gc]?  Reading the name of a callee that
    is not a name is undefined. *)
Definition is_gc_call (v : AstNode) : option bool :=
  if node_is v kValue then
    match ext v with
    | ValueExt _ (Some name) =>
        Some (bool_decide (value name = list_byte_of_string "__$gc"))
    | _ => None
    end
  else Some false.

(** [Fullgen::VisitCall]. *)
Definition VisitCall (stmt : AstNode) : Run Fullgen unit :=
  match variable stmt with
  | None => Throw kErrorCallWithoutVariable
  | Some v =>
      for_value ← visiting_for_value;
      if negb (for_value : bool) then Throw kErrorIncorrectLhs
      else
        not_function ← Label_new;
        done ← Label_new;
        gc ← lift_opt (is_gc_call v);
        if (gc : bool) then
          Call_stub CollectGarbageStub;;
          movq rax (Immediate (tag_value kTagNil))
        else
          let n := Z.of_nat (length (args stmt)) in
          VisitForValue v;;
          rax_s ← Spill_new rax;
          IsNil rax None (Some not_function);;
          IsUnboxed rax None (Some not_function);;
          IsHeapObject kTagFunction rax (Some not_function) None;;
          rsi_s ← Spill_new rsi;
          rdi_s ← Spill_new rdi;
          root_s ← Spill_new root_reg;
          ChangeAlign n;;
          a ← Align_new;
          ChangeAlign (- n);;
          push_arguments (args stmt);;
          ChangeAlign (- n);;
          Unspill rax_s;;
          Call_fn rax n;;
          (if negb (n =? 0) then addq rsp (Immediate (u32 (n * 8))) else mret tt);;
          Align_delete a;;
          Unspill root_s;;
          Unspill rdi_s;;
          Unspill rsi_s;;
          jmp done;;
          bind_label not_function;;
          movq rax (Immediate (tag_value kTagNil));;
          bind_label done;;
          Spill_delete root_s;;
          Spill_delete rdi_s;;
          Spill_delete rsi_s;;
          Spill_delete rax_s
  end.

(** [new BinOp(type, lhs, rhs)]. *)
Definition BinOp_new (t : BinOpType) (l r : AstNode) : AstNode :=
  MkAst kBinOp [] 0 [l; r] 0 0 (BinOpExt t).

(** A [kNumber] node with the given digits. *)
Definition number_node (digits : string) : AstNode :=
  MkAst kNumber (list_byte_of_string digits) 0 [] 0 0 NoExt.

(** [node->children()->head()->value(child)]: replace the first child. *)
Definition set_first_child (child : AstNode) (n : AstNode) : AstNode :=
  let '(MkAst t v o c s x e) := n in MkAst t v o (<[0%nat := child]> c) s x e.

(** [Fullgen::VisitUnOp]. *)
Definition VisitUnOp (node : AstNode) : Run Fullgen unit :=
  match ext node with
  | UnOpExt subtype =>
      for_slot ← visiting_for_slot;
      if (for_slot : bool) then Throw kErrorIncorrectLhs
      else
        match subtype with
        | kPreInc | kPostInc | kPreDec | kPostDec =>
            operand ← lift_opt (lhs node);
            let one := number_node "1" in
            let rhs_ :=
              match subtype with
              | kPreInc | kPostInc => BinOp_new kAdd operand one
              | _ => BinOp_new kSub operand one
              end in
            let assign := push_child rhs_ (push_child operand (AstNode_new kAssign)) in
            match subtype with
            | kPreInc | kPreDec => Visit assign
            | _ =>
                VisitForSlot operand;;
                done ← Label_new;
                nil_result ← Label_new;
                s ← slot;
                IsNil (op_base s) None (Some nil_result);;
                movq scratch (At s);;
                scratch_s ← Spill_new scratch;
                movq rbx (At s);;
                rbx_s ← Spill_new rbx;
                let assign :=
                  MkAst kAssign [] 0
                    [MkAst kValue [] 0 [] 0 0 SlotOperandExt;
                     set_first_child (FAstSpill rbx_s) rhs_] 0 0 NoExt in
                VisitForValue assign;;
                Unspill_to scratch_s rax;;
                jmp done;;
                bind_label nil_result;;
                s ← slot;
                movq rax (op_base s);;
                bind_label done;;
                Spill_delete rbx_s;;
                Spill_delete scratch_s
            end
        | kPlus | kMinus =>
            operand ← lift_opt (lhs node);
            let zero := number_node "0" in
            let wrap :=
              BinOp_new (match subtype with kPlus => kAdd | _ => kSub end) zero operand in
            VisitForValue wrap
        | kNot =>
            operand ← lift_opt (lhs node);
            VisitForValue operand;;
            Call_stub CoerceToBooleanStub;;
            done ← Label_new;
            ret_false ← Label_new;
            let truev := MkOperand root_reg (GetIndexDisp kRootTrueIndex) in
            let falsev := MkOperand root_reg (GetIndexDisp kRootFalseIndex) in
            IsTrue rax None (Some ret_false);;
            movq rax truev;;
            jmp done;;
            bind_label ret_false;;
            movq rax falsev;;
            bind_label done
        end
  | _ => fail
  end.

(** [Fullgen::VisitBinOp]. *)
Definition VisitBinOp (node : AstNode) : Run Fullgen unit :=
  match ext node with
  | BinOpExt subtype =>
      for_slot ← visiting_for_slot;
      if (for_slot : bool) then Throw kErrorIncorrectLhs
      else
        l ← lift_opt (lhs node);
        VisitForValue l;;
        call_stub ← Label_new;
        done ← Label_new;
        r ← lift_opt (rhs node);
        let is_add := match subtype with kAdd => true | _ => false end in
        let is_sub := match subtype with kSub => true | _ => false end in
        (if node_is r kNumber && negb (Utils.StringIsDouble (value r)) && (is_add || is_sub)
         then
           IsUnboxed rax (Some call_stub) None;;
           let num := TagNumber (Utils.StringToInt (value r)) in
           if (-0x7fffffff <=? num) && (num <=? 0x7fffffff) then
             (if is_add then addq rax (Immediate num) else subq rax (Immediate num));;
             jcc kNoOverflow done;;
             (if is_add then subq rax (Immediate num) else addq rax (Immediate num))
           else mret tt
         else mret tt);;
        let stub := BinaryStub subtype in
        bind_label call_stub;;
        rax_s ← Spill_new rax;
        VisitForValue r;;
        movq rbx rax;;
        Unspill_to rax_s rax;;
        Call_stub stub;;
        bind_label done;;
        Spill_delete rax_s
  | _ => fail
  end.

(** Modelled from the spec: [Visitor::VisitChildren] of [visitor.cc]
    visits the children in order (§4.7, "a single-pass pre-order walk"). *)
Fixpoint VisitChildren_list (nodes : list AstNode) : Run Fullgen unit :=
  match nodes with
  | [] => mret tt
  | n :: nodes' => Visit n;; VisitChildren_list nodes'
  end.

Definition VisitChildren (node : AstNode) : Run Fullgen unit :=
  VisitChildren_list (children node).

(** Modelled from the spec: the dispatch of [Visitor::Visit] of
    [visitor.cc].  The node becomes [current_node()] and goes to the member
    for its kind; a kind that [Fullgen] has no member for only has its
    children visited. *)
Definition dispatch (node : AstNode) : Run Fullgen unit :=
  modify (set_current_node_ (Some node));;
  match type node with
  | kFunction => VisitFunction node
  | kCall => VisitCall node
  | kAssign => VisitAssign node
  | kValue => VisitValue node
  | kMember => VisitMember node
  | kNumber => VisitNumber node
  | kString => VisitString node
  | kProperty => VisitProperty node
  | kIf => VisitIf node
  | kWhile => VisitWhile node
  | kNil => VisitNil node
  | kTrue => VisitTrue node
  | kFalse => VisitFalse node
  | kObjectLiteral => VisitObjectLiteral node
  | kArrayLiteral => VisitArrayLiteral node
  | kReturn => VisitReturn node
  | kNew => VisitNew node
  | kBreak => VisitBreak node
  | kContinue => VisitContinue node
  | kTypeof => VisitTypeof node
  | kSizeof => VisitSizeof node
  | kKeysof => VisitKeysof node
  | kUnOp => VisitUnOp node
  | kBinOp => VisitBinOp node
  | kBlock | kScopeDecl | kName | kNop => VisitChildren node
  end.

(** [Fullgen::CandorFunction::Generate]. *)
Definition CandorFunction_Generate (fn : AstNode) : Run Fullgen unit :=
  GeneratePrologue fn;;
  VisitChildren fn;;
  movq rax (Immediate (tag_value kTagNil));;
  GenerateEpilogue fn;;
  FinalizeSpills.

End Generator.

(** Modelled from the spec: [Visitor::Visit] of [visitor.cc], the members
    above with their calls of [Visit] tied back to it.  [fuel] bounds the
    depth of the walk; running out of it is a failure. *)
Fixpoint Visit `{Externals} (fuel : nat) (node : AstNode) : Run Fullgen unit :=
  match fuel with
  | O => fail
  | S fuel' => dispatch (Visit fuel') node
  end.

(** [FFunction::Allocate(addr)]. *)
Definition FFunction_Allocate (addr : Z) (fn : FFunction) : Run Fullgen FFunction :=
  assert_ (ff_addr fn =? 0);;
  modify (fun g => fold_right (fun i g => reloc_set_target i addr g) g (ff_uses fn));;
  mret (MkFFunction (ff_fn fn) addr (ff_uses fn)).

(** The loop of [Fullgen::Generate]:
    [while ((fn = fns_.Shift()) != NULL) { ... }], for at most [fuel]
    functions. *)
Fixpoint Generate_loop `{Externals} (fuel : nat) : Run Fullgen unit :=
  fns ← gets fns_;
  match fns with
  | [] => mret tt
  | fn :: rest =>
      match fuel with
      | O => fail
      | S fuel' =>
          modify (set_fns_ rest);;
          modify (set_current_function_ (Some fn));;
          AlignCode_;;
          at_ ← code_offset;
          fn ← FFunction_Allocate (Z.of_nat at_) fn;
          modify (set_current_function_ (Some fn));;
          CandorFunction_Generate (Visit fuel) (ff_fn fn);;
          Generate_loop fuel'
      end
  end.

(** [Fullgen::Generate]. *)
Definition Generate `{Externals} (fuel : nat) (ast : AstNode) : Run Fullgen unit :=
  modify (fun g => set_fns_ (fns_ g ++ [MkFFunction ast 0 []]) g);;
  Generate_loop fuel.

(** A function literal without name and arguments, as the parser and the
    scope analysis hand it over. *)
Definition function_node (body : list AstNode) (stack_slots context_slots : Z) : AstNode :=
  MkAst kFunction [] 0 body stack_slots context_slots (FunctionExt None []).

(** The generator that [Fullgen(space)] makes on [example_heap]. *)
Definition example_fullgen : Fullgen :=
  match @Fullgen_new example_params (Fullgen_init example_heap) with
  | Some (_, g) => g
  | None => Fullgen_init example_heap
  end.

(** ** What the specification says about the generated code *)

(** [c] returns from every state, and what it appends to the code buffer
    satisfies [R]. *)
Definition emits {T} (c : Run Fullgen T) (R : list Instr -> Prop) : Prop :=
  forall g, exists a g' out,
    c g = Some (a, g') /\ code_ g' = code_ g ++ out /\ R out.

(** [l] occurs in [code] as a block. *)
Definition infix (l code : list Instr) : Prop :=
  exists pre post, code = pre ++ l ++ post.

(** The call of the Allocate stub that [Masm::Allocate(tag, reg_nil, size,
    _)] emits: the tagged size, header included, and the tagged tag are
    pushed and the stub is called. *)
Definition allocate_call (tag : HeapTag) (size : Z) : list Instr :=
  [Ins Mmovq [Reg rax; Imm (TagNumber (u32 (size + 8)))];
   Ins Mpush [Reg rax];
   Ins Mmovq [Reg rax; Imm (TagNumber (tag_value tag))];
   Ins Mpush [Reg rax];
   Ins Mmovq [Reg scratch; Sym (StubAddress AllocateStub)];
   AlignOdd;
   Ins Mcallq [Reg scratch];
   Ins Mnop []].

(** Code that allocates a context, of whatever size. *)
Definition allocates_context (code : list Instr) : Prop :=
  exists size, infix (allocate_call kTagContext size) code.

(** Does the instruction name the register [r] as an operand? *)
Definition arg_is_reg (r : Register) (a : Arg) : bool :=
  match a with Reg r' => reg_is r' r | _ => false end.

Definition names_reg (r : Register) (i : Instr) : bool :=
  match i with Ins _ args => existsb (arg_is_reg r) args | _ => false end.

(** Code in which no instruction names [r]: it leaves the register as it
    was. *)
Definition leaves_reg (r : Register) (code : list Instr) : Prop :=
  Forall (fun i => names_reg r i = false) code.

(** What may stand between the call of a stub and the use of its result:
    nothing, or the [addq rsp, 8] with which [Masm::Align] undoes the
    alignment of the stack. *)
Definition realigns (code : list Instr) : Prop :=
  code = [] \/ code = [Ins Maddq [Reg rsp; Imm 8]].

(** Code that calls the Allocate stub for [tag] and [size], before which
    [rdi] is left alone and after which the stack is realigned. *)
Definition calls_allocate (tag : HeapTag) (size : Z) (code : list Instr) : Prop :=
  exists pre realign,
    code = pre ++ allocate_call tag size ++ realign /\
    leaves_reg rdi pre /\ realigns realign.

(** Code that allocates a context of [slots] slots and stores the caller's
    context as its parent.  The caller's context is what [rdi] holds on
    entry, and no instruction before the call of the Allocate stub names
    [rdi].  The stub returns the new context in [rax]: the stores of the
    parent and of the slot count through [rax] follow the call at once, with
    nothing in between but the realignment of the stack. *)
Definition sets_up_context (slots : Z) (code : list Instr) : Prop :=
  exists pre realign post,
    code = pre ++ allocate_call kTagContext (u32 (8 * u32 (slots + 2))) ++ realign ++
           [Ins Mmovq [At (MkOperand rax 8); Reg rdi];
            Ins Mmovq [At (MkOperand rax 16); Imm slots]] ++ post /\
    leaves_reg rdi pre /\ realigns realign.

(** An argument of a function literal after scope analysis: an
    [AstValue] for a name. *)
Definition is_name (n : AstNode) : Prop :=
  type n = kValue /\ exists sl name, ext n = ValueExt sl name.

(** Any output will do. *)
Definition any : list Instr -> Prop := fun _ => True.

(** The output begins with [l]. *)
Definition starts (l : list Instr) : list Instr -> Prop :=
  fun out => exists post, out = l ++ post.

(** The state after [Throw(Heap::kErrorExpectedLoop)] at [node]: the node
    is the current one, the error and the offset of the node are recorded
    and the trap [int3] (0xcc) is emitted. *)
Definition expected_loop_error (node : AstNode) (g : Fullgen) : Fullgen :=
  set_code_ (code_ g ++ [Emitb 0xcc])
    (set_error_pos_ (offset node)
       (set_error_msg_ (Some "Expected loop"%string)
          (set_current_node_ (Some node) g))).

(** [break] at offset 17 followed by [return nil], the body of the
    examples. *)
Definition break_node : AstNode := MkAst kBreak [] 17 [] 0 0 NoExt.
Definition return_nil_node : AstNode :=
  MkAst kReturn [] 23 [MkAst kNil [] 30 [] 0 0 NoExt] 0 0 NoExt.

(** *** Literals *)

Definition is_power_of_two (c : Z) : Prop := exists k, 0 <= k /\ c = 2 ^ k.

(** [c] is the smallest power of two that is at least [x]. *)
Definition least_power_of_two_ge (x c : Z) : Prop :=
  is_power_of_two c /\ x <= c /\
  forall c', is_power_of_two c' -> x <= c' -> c <= c'.

(** What both literal visitors emit before they visit the elements: the
    capacity goes to [rbx], from which [AllocateObjectLiteral] takes the
    size of the map. *)
Definition literal_header (tag : HeapTag) (capacity : Z) : Run Fullgen unit :=
  movq rbx (Immediate (TagNumber capacity));;
  AllocateObjectLiteral tag rbx rdx.


(** An object literal with the given pairs, on a node that has the given
    children. *)
Definition object_literal (children keys values : list AstNode) : AstNode :=
  MkAst kObjectLiteral [] 0 children 0 0 (ObjectExt keys values).

(** ** The heap between allocations

    Pages come from the system allocator one after the other, so no two of
    them overlap, and an object lies in the part of a page below its top. *)

#[global] Instance SpaceKind_eq_dec : EqDecision SpaceKind.
Proof. solve_decision. Defined.

(** Two pages that share no byte. *)
Definition apart (p q : Page) : Prop := limit_ p <= data_ q \/ limit_ q <= data_ p.

Record Heap_wf (h : Heap) : Prop := {
  hw_space : forall k, Space_wf (space k h);
  hw_small : forall k, page_size_ (space k h) <= 2 ^ 31;
  hw_apart : forall k i p k' j q,
    pages_ (space k h) !! i = Some p -> pages_ (space k' h) !! j = Some q ->
    (k = k' -> i <> j) -> apart p q;
  hw_below : forall k i p, pages_ (space k h) !! i = Some p -> limit_ p <= sys_next h
}.

(** The byte at [x] was handed out by [Space::Allocate]. *)
Definition used (h : Heap) (x : Z) : Prop :=
  exists k i p, pages_ (space k h) !! i = Some p /\ data_ p <= x < top_ p.

(** From [h] to [h'] nothing that was handed out is given back or
    overwritten. *)
Definition keeps (h h' : Heap) : Prop :=
  forall x, used h x -> used h' x /\ load8 (mem h') x = load8 (mem h) x.

(** The [n] bytes at [a] are handed out in [h'] and were not in [h]. *)
Definition fresh_block (h h' : Heap) (a n : Z) : Prop :=
  forall x, a <= x < a + n -> used h' x /\ ~ used h x.

(** The space after [*top_ += even] with the page at [i] selected, [p]
    being that page. *)
Definition bumped (i : nat) (p : Page) (even : Z) (sp : Space) : Space :=
  MkSpace (<[i := MkPage (data_ p) (top_ p + even) (limit_ p)]> (pages_ sp))
          i (page_size_ sp) (size_ sp) (size_limit_ sp).

(** The stores of [f] all go to [lo, hi). *)
Definition writes_in (f : Mem -> Mem) (lo hi : Z) : Prop :=
  forall m x, x < lo \/ hi <= x -> load8 (f m) x = load8 m x.

(** From every well-formed heap [c] returns and leaves a well-formed heap
    in which [Q] holds and the objects of the first one are as they were. *)
Definition builds {T} (c : Run Heap T) (Q : T -> Heap -> Prop) : Prop :=
  forall h, Heap_wf h ->
    exists a h', c h = Some (a, h') /\ Heap_wf h' /\ keeps h h' /\ Q a h'.

(** A string object (§3.2): the tag in the first byte of the header, the
    length as [HString::Length] reads it and the characters at
    [HString::Value]. *)
Definition is_string (m : Mem) (addr : Z) (value : list byte) : Prop :=
  load8 m addr = tag_value kTagString /\
  HString_Length m addr = Z.of_nat (length value) /\
  read_bytes m (HString_Value addr) (length value) = value.

(** A boolean object (§3.2). *)
Definition is_boolean (m : Mem) (addr : Z) (value : bool) : Prop :=
  load8 m addr = tag_value kTagBoolean /\
  load8 m (addr + 8) = (if value then 1 else 0).

(** The object of [n] bytes at [addr] was handed out and satisfies [P]. *)
Definition object_at (P : Mem -> Z -> Prop) (n : Z) (addr : Z) (h : Heap) : Prop :=
  P (mem h) addr /\ forall x, addr <= x < addr + n -> used h x.

(** The type names that [Fullgen::Fullgen] places in the root context, in
    its order. *)
Definition type_names : list string :=
  ["nil"; "boolean"; "number"; "string"; "object"; "array"; "function"; "cdata"]%string.

(** "The root context holds, at fixed root slots following the global
    object and the true/false constants, the type-name strings": the strings
    with the names [names], in the heap of the generator. *)
Definition root_holds (names : list string) (g : Fullgen) : Prop :=
  exists global true_ false_ strings,
    root_context_ g = global :: true_ :: false_ :: strings /\
    is_boolean (mem (heap_ g)) true_ true /\
    is_boolean (mem (heap_ g)) false_ false /\
    Forall2 (fun a name => is_string (mem (heap_ g)) a (list_byte_of_string name))
            strings names.

(** "... the nine type-name strings", for a count of names. *)
Definition root_holds_type_names (count : nat) (g : Fullgen) : Prop :=
  exists names, length names = count /\ NoDup names /\ root_holds names g.

(** A string object with the characters of [name], handed out in [h]. *)
Definition string_object (name : string) (addr : Z) (h : Heap) : Prop :=
  object_at (fun m a => is_string m a (list_byte_of_string name))
            (24 + Z.of_nat (length (list_byte_of_string name))) addr h.

Definition boolean_object (value : bool) (addr : Z) (h : Heap) : Prop :=
  object_at (fun m a => is_boolean m a value) 16 addr h.

(** The root context while [Fullgen::Fullgen] fills it: the global object,
    the two booleans and the strings pushed so far, all of them objects of
    the heap. *)
Definition root_built (names : list string) (g : Fullgen) : Prop :=
  Heap_wf (heap_ g) /\
  exists global true_ false_ strings,
    root_context_ g = global :: true_ :: false_ :: strings /\
    boolean_object true true_ (heap_ g) /\
    boolean_object false false_ (heap_ g) /\
    Forall2 (fun a name => string_object name a (heap_ g)) strings names.

(** * More of the code *)

(** ** utils.h: [StringToInt] and what ["%llu"] prints *)

(** The digits of [d], read from the most significant one on, after [acc]. *)
Fixpoint uint_value (d : Decimal.uint) (acc : Z) : Z :=
  match d with
  | Decimal.Nil => acc
  | Decimal.D0 d => uint_value d (acc * 10 + 0)
  | Decimal.D1 d => uint_value d (acc * 10 + 1)
  | Decimal.D2 d => uint_value d (acc * 10 + 2)
  | Decimal.D3 d => uint_value d (acc * 10 + 3)
  | Decimal.D4 d => uint_value d (acc * 10 + 4)
  | Decimal.D5 d => uint_value d (acc * 10 + 5)
  | Decimal.D6 d => uint_value d (acc * 10 + 6)
  | Decimal.D7 d => uint_value d (acc * 10 + 7)
  | Decimal.D8 d => uint_value d (acc * 10 + 8)
  | Decimal.D9 d => uint_value d (acc * 10 + 9)
  end.

(** ** utils.h: [GetSourceLineByOffset] *)





(** ** utils.h: [HashMap<T, ItemParent>]

    An item is made by [Set] and never changed but for its two [next]
    pointers, each set once when the following item is appended: a chain
    of items is the list of its items.  [key_] is a pointer to bytes that
    the map does not own; they are taken not to change while the map is
    used. *)

Module HashMap.
Section WithValue.
Variable T : Type.
Variable NULL : T.

Record Item := MkItem { key_ : list byte; value_ : T }.

(** [map_[index]] is the chain [default [] (map_ !! index)]; [linear] is
    the chain from [head_] along [next_linear()]. *)
Record t := Mk { map_ : gmap Z (list Item); linear : list Item }.

Definition mask_ : Z := 63.

(** [HashMap()]. *)
Definition empty : t := Mk ∅ [].

Definition index (key : list byte) : Z := Z.land (Utils.ComputeHash key) mask_.

Definition chain (m : t) (i : Z) : list Item := default [] (map_ m !! i).

(** [Set(key, length, value)]. *)
Definition Set_ (key : list byte) (value : T) (m : t) : t :=
  let next := MkItem key value in
  Mk (<[index key := chain m (index key) ++ [next]]> (map_ m)) (linear m ++ [next]).

(** [strncmp(a, b, n) == 0] for two keys of [n] bytes: the comparison ends
    at the first difference and after a NUL byte. *)
Fixpoint strncmp_eq (a b : list byte) : bool :=
  match a, b with
  | x :: a', y :: b' =>
      if negb (bool_decide (x = y)) then false
      else if bool_decide (x = x00) then true
      else strncmp_eq a' b'
  | _, _ => true
  end.

(** The loop of [Get]: the first item of the chain with the length and,
    for [strncmp], the bytes of [key]. *)
Fixpoint find (key : list byte) (items : list Item) : option T :=
  match items with
  | [] => None
  | i :: items' =>
      if (length key =? length (key_ i))%nat && strncmp_eq (key_ i) key
      then Some (value_ i)
      else find key items'
  end.

(** [Get(key, length)]. *)
Definition Get (key : list byte) (m : t) : T :=
  default NULL (find key (chain m (index key))).

(** [Enumerate(cb)]: the values that [cb] is called with, in order. *)
Definition Enumerate (m : t) : list T := map value_ (linear m).

End WithValue.
End HashMap.

(** ** utils.h: the other members of [List<T, ItemParent>] *)

(** [List::Shift]; [NULL] is what it returns for an empty list. *)
Definition List_Shift {T} (NULL : T) (l : LList.t T) : option (T * LList.t T) :=
  match LList.head_ l with
  | None => Some (NULL, l)
  | Some h =>
      it ← LList.cells l !! h;
      let current := if decide (Some h = LList.current_ l) then None else LList.current_ l in
      cs ← match LList.next_ it with
           | Some n =>
               q ← LList.cells l !! n;
               Some (<[n := LList.MkItem (LList.value_ q) None (LList.next_ q)]> (LList.cells l))
           | None => Some (LList.cells l)
           end;
      Some (LList.value_ it,
            LList.Mk (delete h cs) (LList.fresh l) (LList.next_ it) current
                     (u32 (LList.length_ l - 1)))
  end.

(** [List::Unshift]: the old head keeps its [prev_], and [current_] is not
    touched. *)
Definition List_Unshift {T} (v : T) (l : LList.t T) : LList.t T :=
  let next := LList.fresh l in
  LList.Mk (<[next := LList.MkItem v None (LList.head_ l)]> (LList.cells l))
           (S next) (Some next) (LList.current_ l) (u32 (LList.length_ l + 1)).

(** The neighbours of the item at position [i] of a list of items, each
    given by its address and its value. *)
Definition List_prev {T} (xs : list (nat * T)) (i : nat) : option nat :=
  match i with O => None | S j => fst <$> xs !! j end.
Definition List_next {T} (xs : list (nat * T)) (i : nat) : option nat :=
  fst <$> xs !! S i.

(** The list [l] is made of the items [xs], linked in both directions. *)
Record List_holds {T} (l : LList.t T) (xs : list (nat * T)) : Prop := {
  lh_length : LList.length_ l = Z.of_nat (length xs);
  lh_small : Z.of_nat (length xs) < 2 ^ 32;
  lh_nodup : NoDup xs.*1;
  lh_fresh : forall i a v, xs !! i = Some (a, v) -> (a < LList.fresh l)%nat;
  lh_head : LList.head_ l = fst <$> head xs;
  lh_tail : LList.current_ l = fst <$> last xs;
  lh_cells : forall i a v, xs !! i = Some (a, v) ->
    LList.cells l !! a = Some (LList.MkItem v (List_prev xs i) (List_next xs i))
}.

(** ** heap.cc: [Heap::Reference] and [Heap::Dereference]

    [references()] is a list member of [Heap] that [heap.h] declares; the
    two functions are given on that list.  A [HValueReference] holds what
    its constructor is called with. *)

Record HValueReference := MkReference {
  ref_type : Z;
  ref_reference : Z;
  ref_value : Z
}.

(** [Heap::Reference]. *)
Definition Heap_Reference (type reference value : Z) (l : LList.t HValueReference)
    : option (LList.t HValueReference) :=
  LList.Push (MkReference type reference value) l.

Definition ref_matches (reference value : Z) (r : HValueReference) : bool :=
  (ref_reference r =? reference) && (ref_value r =? value).

(** The loop of [Heap::Dereference], from [tail] towards the head. *)
Fixpoint Dereference_loop (fuel : nat) (reference value : Z) (tail : option nat)
    (l : LList.t HValueReference) : Outcome (LList.t HValueReference) :=
  match tail with
  | None => Finished l
  | Some t =>
      match fuel with
      | O => OutOfFuel
      | S fuel' =>
          match LList.deref l t with
          | None => Undefined
          | Some it =>
              if ref_matches reference value (LList.value_ it) then
                match LList.Remove t l with
                | Some l' => Finished l'
                | None => Undefined
                end
              else Dereference_loop fuel' reference value (LList.prev_ it) l
          end
      end
  end.

(** [Heap::Dereference], run for at most [fuel] rounds of its loop. *)
Definition Heap_Dereference (fuel : nat) (reference value : Z)
    (l : LList.t HValueReference) : Outcome (LList.t HValueReference) :=
  Dereference_loop fuel reference value (LList.tail l) l.

(** ** heap.cc: allocations in a row *)

(** The calls [space(k1)->Allocate(b1)], [space(k2)->Allocate(b2)], ... one
    after the other, and the pointers they return. *)
Fixpoint Allocate_all (requests : list (SpaceKind * Z)) : Run Heap (list Z) :=
  match requests with
  | [] => mret []
  | (k, bytes) :: rest =>
      r ← Allocate k bytes;
      rs ← Allocate_all rest;
      mret (r :: rs)
  end.

(** ** heap.h and heap.cc: reading the objects back *)

(** [HBoolean::Value(addr)] of [heap.h]. *)
Definition HBoolean_Value (m : Mem) (addr : Z) : bool := negb (load8 m (addr + 8) =? 0).

(** [HContext::parent()], [has_parent()] and [slots()] of [heap.h];
    [slots()] returns the 64-bit field as a [uint32_t]. *)
Definition HContext_parent (m : Mem) (addr : Z) : Z := load64 m (addr + 8).
Definition HContext_has_parent (m : Mem) (addr : Z) : bool :=
  negb (HContext_parent m addr =? 0).
Definition HContext_slots (m : Mem) (addr : Z) : Z := u32 (load64 m (addr + 16)).

(** [HMap::size()] and [HMap::space()] of [heap.h]. *)
Definition HMap_size (m : Mem) (addr : Z) : Z := u32 (load64 m (addr + 8)).
Definition HMap_space (addr : Z) : Z := addr + 16.

(** [HFunction::parent()] of [heap.h]. *)
Definition HFunction_parent (m : Mem) (addr : Z) : Z := load64 m (addr + 8).

Section Functions.
Context `{Externals}.

(** [HFunction::New]. *)
Definition HFunction_New (parent addr root : Z) : Run Heap Z :=
  fn ← AllocateTagged kTagFunction kTenureOld 24;
  poke (store64 (fn + 8) parent);;
  poke (store64 (fn + 16) addr);;
  poke (store64 (fn + 24) root);;
  mret fn.

(** [HFunction::NewBinding]. *)
Definition HFunction_NewBinding (addr root : Z) : Run Heap Z :=
  HFunction_New kBindingContextTag addr root.

End Functions.

(** What [HObject::NewEmpty] and [HArray::NewEmpty] store to the map: its
    size, the [memset] and the loop over its slots. *)
Definition fill_map (map : Z) (m : Mem) : Mem :=
  nil_fill map 0 32 (memset0 (map + HMap.kSpaceOffset) (Z.to_nat 256)
                       (store64 (map + HMap.kSizeOffset) 16 m)).


(** ** What a piece of generated code does with labels *)

(** How often [code] binds the label [l], and how often it jumps to it. *)
Definition binds_label (l : nat) (i : Instr) : nat :=
  match i with Bind l' => if Nat.eqb l l' then 1%nat else 0%nat | _ => 0%nat end.

Definition arg_label (l : nat) (a : Arg) : nat :=
  match a with Lbl l' => if Nat.eqb l l' then 1%nat else 0%nat | _ => 0%nat end.

Fixpoint args_label (l : nat) (args : list Arg) : nat :=
  match args with
  | [] => 0%nat
  | a :: args' => (arg_label l a + args_label l args')%nat
  end.

Definition jumps_label (l : nat) (i : Instr) : nat :=
  match i with Ins _ args => args_label l args | _ => 0%nat end.

Fixpoint count_binds (l : nat) (code : list Instr) : nat :=
  match code with
  | [] => 0%nat
  | i :: code' => (binds_label l i + count_binds l code')%nat
  end.

Fixpoint count_jumps (l : nat) (code : list Instr) : nat :=
  match code with
  | [] => 0%nat
  | i :: code' => (jumps_label l i + count_jumps l code')%nat
  end.

(** [l] is the label that [o] holds. *)
Definition is_label (o : option nat) (l : nat) : Prop :=
  match o with Some l' => l = l' | None => False end.

(** The labels of [out] are in order, for code emitted while the labels
    [lo] up to [hi] were made and [start] and [end_] were the targets of
    [continue] and [break]: no label is bound twice, only labels made
    meanwhile are bound, and every jump goes to a label bound in [out] or to
    one of the two loop labels. *)
Record labels_closed (lo hi : nat) (start end_ : option nat) (out : list Instr) : Prop := {
  lc_once : forall l, (count_binds l out <= 1)%nat;
  lc_fresh : forall l, (0 < count_binds l out)%nat -> (lo <= l < hi)%nat;
  lc_bound : forall l, (0 < count_jumps l out)%nat ->
               (0 < count_binds l out)%nat \/ is_label start l \/ is_label end_ l
}.

(** Code without labels. *)
Definition no_labels (out : list Instr) : Prop :=
  forall l, count_binds l out = 0%nat /\ count_jumps l out = 0%nat.

(** The bookkeeping of the generator is, in [g'], as it was in [g]: the
    alignment count, the spill index, the kind of visit, the loop labels,
    the current function and the spill area.  And [g'] has the code, the
    root values, the relocations and the functions of [g], with [out] and
    what else was added behind them; a relocation that was added is an
    absolute one. *)
Record restores (g g' : Fullgen) (out : list Instr) : Prop := {
  rs_code : code_ g' = code_ g ++ out;
  rs_align : align_ g' = align_ g;
  rs_spill_index : spill_index_ g' = spill_index_ g;
  rs_spills : spills_ g <= spills_ g';
  rs_labels : (labels_ g <= labels_ g')%nat;
  rs_visitor_type : visitor_type_ g' = visitor_type_ g;
  rs_loop_start : loop_start_ g' = loop_start_ g;
  rs_loop_end : loop_end_ g' = loop_end_ g;
  rs_function : current_function_ g' = current_function_ g;
  rs_spill_offset : spill_offset_ g' = spill_offset_ g;
  rs_spill_reloc : spill_reloc_ g' = spill_reloc_ g;
  rs_root : exists more, root_context_ g' = root_context_ g ++ more;
  rs_relocs : exists more,
    relocation_info_ g' = relocation_info_ g ++ more /\
    Forall (fun r => RelocationInfo.type_ r = RelocationInfo.kAbsolute) more;
  rs_fns : exists more, fns_ g' = fns_ g ++ more
}.

(** [c] returns from [g], with a result and a state that satisfy [Q]. *)
Definition wp {T} (c : Run Fullgen T) (g : Fullgen) (Q : T -> Fullgen -> Prop) : Prop :=
  exists a g', c g = Some (a, g') /\ Q a g'.

(** If [c] returns from [g], its result and state satisfy [Q]. *)
Definition wlp {T} (c : Run Fullgen T) (g : Fullgen) (Q : T -> Fullgen -> Prop) : Prop :=
  forall a g', c g = Some (a, g') -> Q a g'.

(** A part of the macro assembler as the generator uses it: it always
    returns, restores the bookkeeping, uses only labels of its own and
    leaves relocations and functions alone. *)
Definition macro_ok {T} (c : Run Fullgen T) : Prop :=
  forall g, exists a g' out,
    c g = Some (a, g') /\ restores g g' out /\
    labels_closed (labels_ g) (labels_ g') None None out /\
    fns_ g' = fns_ g /\ relocation_info_ g' = relocation_info_ g /\
    root_context_ g' = root_context_ g.

(** The instruction whose immediate a use of a function patches, and the
    one whose immediate [Masm::FinalizeSpills] patches. *)
Definition function_use : Instr := Ins Mmovq [Reg rcx; Imm 0].
Definition frame_reserve : Instr := Ins Msubq [Reg rsp; Imm 0].

(** The relocations of the functions are in order: each absolute
    relocation patches a [movq rcx, 0]; one without target is waited for by
    a function that is still to be generated, and one with a target points
    behind an [AlignCode].  Functions still to be generated have no address
    yet, and what they wait for are absolute relocations. *)
Definition reloc_ok (fns : list FFunction) (code : list Instr) (i : nat)
    (r : RelocationInfo.t) : Prop :=
  match RelocationInfo.type_ r with
  | RelocationInfo.kAbsolute =>
      code !! RelocationInfo.at_ r = Some function_use /\
      match RelocationInfo.target_ r with
      | None => exists fn, fn ∈ fns /\ i ∈ ff_uses fn
      | Some t => exists n, t = Z.of_nat (S n) /\ code !! n = Some AlignCode
      end
  | RelocationInfo.kValue => True
  end.

Definition pending (fns : list FFunction) (relocs : list RelocationInfo.t)
    (code : list Instr) : Prop :=
  (forall fn, fn ∈ fns ->
     ff_addr fn = 0 /\
     forall i, i ∈ ff_uses fn ->
       exists r, relocs !! i = Some r /\
                 RelocationInfo.type_ r = RelocationInfo.kAbsolute) /\
  (forall i r, relocs !! i = Some r -> reloc_ok fns code i r).

Definition pending_ok (g : Fullgen) : Prop :=
  pending (fns_ g) (relocation_info_ g) (code_ g).

(** What a visit does, if it returns: it restores the bookkeeping, keeps
    the labels and the relocations in order, and jumps out of its code only
    to the labels of the loop around it. *)
Definition visited (g g' : Fullgen) : Prop :=
  exists out,
    restores g g' out /\
    labels_closed (labels_ g) (labels_ g') (loop_start_ g) (loop_end_ g) out /\
    (pending_ok g -> pending_ok g').

Definition visit_ok (c : Run Fullgen unit) : Prop :=
  forall g, wlp c g (fun _ g' => visited g g').

(** ** What [Fullgen::Generate] leaves behind *)

(** No label is bound twice and every jump goes to a label that is bound. *)
Definition labels_resolved (code : list Instr) : Prop :=
  forall l, (count_binds l code <= 1)%nat /\
            ((0 < count_jumps l code)%nat -> count_binds l code = 1%nat).

(** The relocation of a frame: it patches the [subq rsp, 0] of a prologue
    with a multiple of 16. *)
Definition frame_reloc (code : list Instr) (r : RelocationInfo.t) : Prop :=
  code !! RelocationInfo.at_ r = Some frame_reserve /\
  exists t, RelocationInfo.target_ r = Some t /\ t mod 16 = 0.

(** Every relocation has its target.  An absolute one patches a
    [movq rcx, 0] with the place behind an [AlignCode], where the code of a
    function begins; the other ones are the relocations of the frames. *)
Definition relocations_resolved (relocs : list RelocationInfo.t) (code : list Instr) : Prop :=
  forall i r, relocs !! i = Some r ->
    match RelocationInfo.type_ r with
    | RelocationInfo.kAbsolute =>
        code !! RelocationInfo.at_ r = Some function_use /\
        exists n, RelocationInfo.target_ r = Some (Z.of_nat (S n)) /\
                  code !! n = Some AlignCode
    | RelocationInfo.kValue => frame_reloc code r
    end.

(** The relocations after [FFunction::Allocate(addr)] went through the
    uses of a function. *)
Definition with_target (target : Z) (r : RelocationInfo.t) : RelocationInfo.t :=
  RelocationInfo.Mk (RelocationInfo.type_ r) (RelocationInfo.size_ r)
    (RelocationInfo.at_ r) (Some target).

Definition set_targets (uses : list nat) (addr : Z) (relocs : list RelocationInfo.t) :
    list RelocationInfo.t :=
  foldr (fun i rs => alter (with_target addr) i rs) relocs uses.

(** The generator between two functions. *)
Record generating (g : Fullgen) : Prop := {
  gi_loop_start : loop_start_ g = None;
  gi_loop_end : loop_end_ g = None;
  gi_labels : labels_closed 0 (labels_ g) None None (code_ g);
  gi_pending : pending_ok g;
  gi_values : forall i r, relocation_info_ g !! i = Some r ->
    RelocationInfo.type_ r = RelocationInfo.kValue -> frame_reloc (code_ g) r
}.

(** A function that loops until a [break], makes a function and returns
    [nil]; and the generator after [Generate] on it. *)
Definition example_program : AstNode :=
  function_node
    [MkAst kWhile [] 3 [MkAst kTrue [] 9 [] 0 0 NoExt;
                        MkAst kBlock [] 14 [break_node] 0 0 NoExt] 0 0 NoExt;
     function_node [return_nil_node] 0 0;
     return_nil_node] 0 0.

Definition example_generated : Fullgen :=
  match @Generate example_params 6 example_program example_fullgen with
  | Some (_, g) => g
  | None => example_fullgen
  end.

(** [while (true) { break }], and the generator after the visit of it. *)
Definition example_loop : AstNode :=
  MkAst kWhile [] 3 [MkAst kTrue [] 9 [] 0 0 NoExt;
                     MkAst kBlock [] 14 [break_node] 0 0 NoExt] 0 0 NoExt.

Definition example_visited : Fullgen :=
  match @Visit example_params 4 example_loop example_fullgen with
  | Some (_, g) => g
  | None => example_fullgen
  end.

(** ** Values where a slot is asked for *)

(** The nodes whose member of [Fullgen] gives a value only: the literals,
    [typeof], [sizeof], [keysof], the operators and the calls (a call with
    the node of its callee). *)
Definition value_only (node : AstNode) : Prop :=
  match type node with
  | kNumber | kString | kProperty | kNil | kTrue | kFalse
  | kObjectLiteral | kArrayLiteral | kTypeof | kSizeof | kKeysof => True
  | kUnOp => exists subtype, ext node = UnOpExt subtype
  | kBinOp => exists subtype, ext node = BinOpExt subtype
  | kCall => exists v, variable node = Some v
  | _ => False
  end.

(** The state after [Throw(Heap::kErrorIncorrectLhs)] at [node]: the node
    is the current one, the error and the offset of the node are recorded
    and the trap [int3] (0xcc) is emitted. *)
Definition incorrect_lhs_error (node : AstNode) (g : Fullgen) : Fullgen :=
  set_code_ (code_ g ++ [Emitb 0xcc])
    (set_error_pos_ (offset node)
       (set_error_msg_ (Some "Incorrect left-hand side"%string)
          (set_current_node_ (Some node) g))).

(** The literal [1] at offset 4. *)
Definition number_one : AstNode :=
  MkAst kNumber (list_byte_of_string "1") 4 [] 0 0 NoExt.

(** ** Literals in the root context *)



(** * Properties *)

Ltac run_unfold :=
  unfold mbind, mret, Run_bind, Run_ret, bind, ret, gets, modify, lift_opt,
    when, fail in *.

(** ** Machine integers *)

Lemma u32_range x : 0 <= u32 x < 2 ^ 32.
Proof. unfold u32. apply Z.mod_pos_bound. lia. Qed.

Lemma u32_small x : 0 <= x < 2 ^ 32 -> u32 x = x.
Proof. intros H. unfold u32. apply Z.mod_small. exact H. Qed.

Lemma u64_range x : 0 <= u64 x < 2 ^ 64.
Proof. unfold u64. apply Z.mod_pos_bound. lia. Qed.

Lemma u64_small x : 0 <= x < 2 ^ 64 -> u64 x = x.
Proof. intros H. unfold u64. apply Z.mod_small. exact H. Qed.

Lemma i64_small x : - 2 ^ 63 <= x < 2 ^ 63 -> i64 x = x.
Proof. intros H. unfold i64. rewrite Z.mod_small; lia. Qed.


(** ** [Space::Allocate] *)

Lemma land_1 b : Z.land b 1 = b mod 2.
Proof. change 1 with (Z.ones 1). rewrite Z.land_ones by lia. reflexivity. Qed.

Lemma even_size_small bytes :
  0 <= bytes < 2 ^ 32 - 1 -> even_size bytes = bytes + bytes mod 2.
Proof.
  intros H. unfold even_size. rewrite land_1.
  apply u32_small.
  pose proof (Z.mod_pos_bound bytes 2 ltac:(lia)).
  destruct (Z.eq_dec (bytes mod 2) 0) as [E|E]; [lia|].
  assert (bytes mod 2 = 1) as E1 by lia.
  assert (bytes <> 2 ^ 32 - 2). { intros ->. vm_compute in E1. discriminate. }
  lia.
Qed.

Lemma odd_mod2 b : b mod 2 > 0 <-> Z.odd b = true.
Proof.
  rewrite Zmod_odd. destruct (Z.odd b); split; intros; try lia; try discriminate.
Qed.

Lemma RoundUp_nonneg v t : 0 <= v -> 0 <= Utils.RoundUp v t.
Proof.
  intros H. unfold Utils.RoundUp. destruct (_ =? _); [lia|]. apply u32_range.
Qed.

(** Without 32-bit overflow [RoundUp] is the least multiple that is large
    enough. *)
Lemma RoundUp_multiple v t :
  0 <= v -> 0 < t -> v + t <= 2 ^ 32 ->
  Utils.RoundUp v t = t * ((v + t - 1) / t) /\
  v <= Utils.RoundUp v t < v + t.
Proof.
  intros Hv Ht Ho. unfold Utils.RoundUp.
  pose proof (Z.mod_pos_bound v t Ht) as Hm.
  pose proof (Z.div_mod v t ltac:(lia)) as Hd.
  destruct (v mod t =? 0) eqn:E.
  - apply Z.eqb_eq in E.
    assert ((v + t - 1) / t = v / t) as ->.
    { symmetry. apply (Z.div_unique (v + t - 1) t (v / t) (t - 1)); lia. }
    lia.
  - apply Z.eqb_neq in E. rewrite u32_small by lia.
    assert ((v + t - 1) / t = v / t + 1) as ->.
    { symmetry. apply (Z.div_unique (v + t - 1) t (v / t + 1) (v mod t - 1)); lia. }
    lia.
Qed.

Lemma RoundUp_max v t : 0 < v <= t -> t < 2 ^ 32 -> Utils.RoundUp v t = Z.max v t.
Proof.
  intros Hv Ht. unfold Utils.RoundUp.
  destruct (Z.eq_dec v t) as [->|Hne].
  - rewrite Z.mod_same by lia. simpl. lia.
  - rewrite Z.mod_small by lia.
    destruct (v =? 0) eqn:E; [apply Z.eqb_eq in E; lia|].
    rewrite u32_small by lia. lia.
Qed.

Lemma find_gap_bound pages even rest : forall sel item sel' null,
  (sel < length pages)%nat ->
  (item + length rest = length pages)%nat ->
  find_gap pages even sel item rest = Some (sel', null) ->
  (sel' < length pages)%nat.
Proof.
  induction rest as [|r rest IH]; intros sel item sel' null Hsel Hitem H; simpl in H.
  - destruct (pages !! sel); simpl in H; [|discriminate]. congruence.
  - destruct (pages !! sel) as [p|]; simpl in H; [|discriminate].
    destruct (top_ p + even >? limit_ p).
    + eapply IH; [| |exact H]; simpl in Hitem; lia.
    + congruence.
Qed.

Lemma find_gap_total pages even rest : forall sel item,
  (sel < length pages)%nat ->
  (item + length rest = length pages)%nat ->
  exists sel' null, find_gap pages even sel item rest = Some (sel', null).
Proof.
  induction rest as [|r rest IH]; intros sel item Hsel Hitem; simpl.
  - destruct (lookup_lt_is_Some_2 pages sel Hsel) as [p ->]. simpl. eauto.
  - destruct (lookup_lt_is_Some_2 pages sel Hsel) as [p ->]. simpl.
    destruct (_ >? _); [|eauto].
    apply IH; simpl in Hitem; lia.
Qed.

(** When no page has room the loop runs off the end of the list. *)
Lemma find_gap_no_room pages even rest : forall sel item,
  (sel < length pages)%nat ->
  rest = drop item pages ->
  Forall (fun p => top_ p + even > limit_ p) pages ->
  exists sel', find_gap pages even sel item rest = Some (sel', true) /\
               (sel' < length pages)%nat.
Proof.
  induction rest as [|r rest IH]; intros sel item Hsel Hrest Hall; simpl.
  - destruct (lookup_lt_is_Some_2 pages sel Hsel) as [p ->]. simpl. eauto.
  - destruct (lookup_lt_is_Some_2 pages sel Hsel) as [p Hp]. rewrite Hp. simpl.
    pose proof (proj1 (Forall_lookup _ _) Hall _ _ Hp) as Hfull. simpl in Hfull.
    assert ((top_ p + even >? limit_ p) = true) as -> by (apply Z.gtb_lt; lia).
    assert (item < length pages)%nat as Hitem.
    { destruct (Nat.lt_ge_cases item (length pages)) as [|Hge]; [assumption|].
      rewrite drop_ge in Hrest by lia. discriminate. }
    apply IH; [exact Hitem| |exact Hall].
    destruct (lookup_lt_is_Some_2 pages item Hitem) as [x Hx].
    rewrite (drop_S _ _ _ Hx) in Hrest. congruence.
Qed.

Lemma space_set_space k sp h : space k (set_space k sp h) = sp.
Proof. destruct k; reflexivity. Qed.

Lemma bump_spec even sp p :
  selected_page sp = Some p ->
  exists sp', bump even sp = Some (top_ p, sp') /\
    pages_ sp' !! selected_ sp = Some (MkPage (data_ p) (top_ p + even) (limit_ p)).
Proof.
  intros H. unfold bump. rewrite H. simpl. eexists; split; [reflexivity|].
  simpl. apply list_lookup_insert_eq. unfold selected_page in H.
  eapply lookup_lt_Some; eauto.
Qed.

Lemma find_gap_room pages even rest : forall sel item sel',
  find_gap pages even sel item rest = Some (sel', false) ->
  exists p, pages !! sel' = Some p /\ top_ p + even <= limit_ p.
Proof.
  induction rest as [|r rest IH]; intros sel item sel' H; simpl in H.
  - destruct (pages !! sel); simpl in H; congruence.
  - destruct (pages !! sel) as [p|] eqn:Hp; simpl in H; [|discriminate].
    destruct (top_ p + even >? limit_ p) eqn:E.
    + eapply IH; exact H.
    + injection H as <-. exists p. split; [exact Hp|].
      rewrite Z.gtb_ltb in E. apply Z.ltb_ge in E. exact E.
Qed.

(** C1 (as the code has it).  On a well-formed space, for a size that with
    the page size stays below 2^32, [Space::Allocate] returns, and the block
    it returns lies within an owned page: it begins at or after the start of
    the page and ends at or before its limit, as does the top of the page.
    That top is afterwards the pointer plus the size rounded up to an even
    number: so [top >= returned_ptr + size], with
    [top > returned_ptr + size] exactly for an odd size. *)
Theorem Allocate_returns_within k bytes h :
  Space_wf (space k h) ->
  0 <= bytes ->
  bytes + page_size_ (space k h) < 2 ^ 32 ->
  Allocate_within
    (fun top e => top = e + bytes mod 2 /\ top >= e /\ (top > e <-> Z.odd bytes = true))
    k bytes h.
Proof.
  intros [Hsel Hpages Hps] Hb Hsmall.
  pose proof (even_size_small bytes ltac:(lia)) as Hev. unfold even_size in Hev.
  pose proof (Z.mod_pos_bound bytes 2 ltac:(lia)) as Hm.
  pose proof (odd_mod2 bytes) as Hodd.
  destruct (lookup_lt_is_Some_2 _ _ Hsel) as [cur Hcur].
  unfold Allocate_within, Allocate. rewrite Hev. run_unfold.
  unfold selected_page. rewrite Hcur.
  destruct (top_ cur + _ <=? limit_ cur) eqn:Hfit; simpl.
  - destruct (bump_spec (bytes + bytes mod 2) (space k h) cur Hcur) as (sp' & -> & Hp).
    simpl. do 4 eexists. split; [reflexivity|].
    rewrite space_set_space. split; [exact Hp|]. simpl.
    pose proof (proj1 (Forall_lookup _ _) Hpages _ _ Hcur) as Hok. unfold Page_ok in Hok.
    apply Z.leb_le in Hfit.
    split; [lia|split; [lia|split; [lia|split; [lia|split; [lia|rewrite <- Hodd; lia]]]]].
  - destruct (find_gap_total (pages_ (space k h)) (bytes + bytes mod 2) (pages_ (space k h))
                (selected_ (space k h)) 0%nat Hsel eq_refl) as (sel' & null & Hfg).
    rewrite Hfg. simpl.
    pose proof (find_gap_bound _ _ _ _ _ _ _ Hsel
                  (eq_refl : (0 + length (pages_ (space k h)))%nat = _) Hfg) as Hsel'.
    destruct null.
    + destruct (RoundUp_multiple (bytes + bytes mod 2) (page_size_ (space k h))
                  ltac:(lia) ltac:(lia) ltac:(lia)) as [_ Hround].
      destruct (size_ (space k h) >? size_limit_ (space k h));
        unfold AddPage, new_chars; run_unfold; destruct k; simpl in *;
        unfold bump, selected_page; simpl;
        rewrite lookup_app_r by lia; rewrite Nat.sub_diag; simpl;
        (do 4 eexists; split; [reflexivity|]); simpl;
        (split; [apply list_lookup_insert_eq; rewrite length_app; simpl; lia|]); simpl;
        (split; [lia|split; [lia|split; [lia|split; [lia|split; [lia|rewrite <- Hodd; lia]]]]]).
    + destruct (find_gap_room _ _ _ _ _ _ Hfg) as (p & Hp' & Hroom).
      assert (Hs : selected_page (select sel' (space k h)) = Some p) by exact Hp'.
      rewrite space_set_space.
      destruct (bump_spec (bytes + bytes mod 2) _ _ Hs) as (sp2 & -> & Hp).
      simpl. do 4 eexists. split; [reflexivity|].
      rewrite space_set_space. split; [exact Hp|]. simpl.
      pose proof (proj1 (Forall_lookup _ _) Hpages _ _ Hp') as Hok. unfold Page_ok in Hok.
      split; [lia|split; [lia|split; [lia|split; [lia|split; [lia|rewrite <- Hodd; lia]]]]].
Qed.

Lemma example_heap_wf k : Space_wf (space k example_heap).
Proof.
  destruct k; (split; simpl; [lia| |lia]);
    repeat constructor; unfold Page_ok; simpl; lia.
Defined.

Lemma Allocate_returns_within_witness :
  Allocate_within
    (fun top e => top = e + 7 mod 2 /\ top >= e /\ (top > e <-> Z.odd 7 = true))
    NewSpace 7 example_heap.
Proof.
  apply (Allocate_returns_within NewSpace 7 example_heap).
  - apply example_heap_wf.
  - lia.
  - simpl. lia.
Defined.

(** C1 as stated fails for every even size: eight bytes on a fresh heap
    leave the top at exactly [returned_ptr + 8]. *)
Lemma Allocate_within_strict_counterexample :
  ~ Allocate_within Z.gt NewSpace 8 example_heap.
Proof.
  intros (ptr & h' & i & p & Hrun & Hp & _ & _ & _ & Hgt).
  vm_compute in Hrun. injection Hrun as <- <-.
  destruct i as [|i]; simpl in Hp; [|destruct i; discriminate].
  injection Hp as <-. simpl in Hgt. lia.
Qed.

(** Why the size is bounded: close to 2^32 the page size that [AddPage]
    rounds up to wraps around.  A request of 2^32 - 3 bytes gets a page of
    no bytes at all, and the block runs 4 GB past its limit. *)
Lemma Allocate_wraps_around :
  exists h' p,
    Allocate NewSpace (2 ^ 32 - 3) example_heap = Some (9192, h') /\
    pages_ (space NewSpace h') !! 1%nat = Some p /\
    data_ p = 9192 /\ limit_ p = 9192 /\ top_ p = 9192 + (2 ^ 32 - 2).
Proof. eexists _, _. vm_compute. repeat split; reflexivity. Qed.

(** C2 (as the code has it).  When no page of the space has room for the
    even request, [Space::Allocate] sets the needs-GC flag to the kind of
    the space exactly when [size()] exceeds [size_limit()], then pushes a
    fresh page of [RoundUp(even_bytes, page_size)] bytes and places the
    request at its start.  That size is the least multiple of the page size
    holding the request; it is [max(even_bytes, page_size)] when the request
    is no larger than a page. *)
Theorem Allocate_fresh_page k bytes h :
  Space_wf (space k h) ->
  no_room (even_size bytes) (space k h) ->
  Allocate_fresh Utils.RoundUp k bytes h /\
  (even_size bytes + page_size_ (space k h) <= 2 ^ 32 ->
     Utils.RoundUp (even_size bytes) (page_size_ (space k h)) =
       page_size_ (space k h) *
         ((even_size bytes + page_size_ (space k h) - 1) / page_size_ (space k h))) /\
  (even_size bytes <= page_size_ (space k h) ->
     Utils.RoundUp (even_size bytes) (page_size_ (space k h)) =
       Z.max (even_size bytes) (page_size_ (space k h))).
Proof.
  intros [Hsel Hpages Hps] Hfull.
  destruct (lookup_lt_is_Some_2 _ _ Hsel) as [cur Hcur].
  pose proof (proj1 (Forall_lookup _ _) Hpages _ _ Hcur) as Hok. unfold Page_ok in Hok.
  pose proof (proj1 (Forall_lookup _ _) Hfull _ _ Hcur) as Hcurfull. simpl in Hcurfull.
  pose proof (u32_range (bytes + Z.land bytes 1)) as Hrange. fold (even_size bytes) in Hrange.
  assert (0 < even_size bytes) as Hpos by lia.
  split; [|split].
  - unfold Allocate_fresh, Allocate. fold (even_size bytes). run_unfold.
    unfold selected_page. rewrite Hcur.
    assert ((top_ cur + even_size bytes <=? limit_ cur) = false) as ->
      by (apply Z.leb_gt; lia).
    simpl.
    destruct (find_gap_no_room (pages_ (space k h)) (even_size bytes) (pages_ (space k h))
                (selected_ (space k h)) 0%nat Hsel eq_refl Hfull) as (sel' & -> & Hsel').
    simpl.
    destruct (size_ (space k h) >? size_limit_ (space k h));
      unfold AddPage, new_chars; run_unfold; destruct k; simpl in *;
      unfold bump, selected_page; simpl;
      rewrite lookup_app_r by lia; rewrite Nat.sub_diag; simpl;
      (eexists; split; [reflexivity|]); simpl;
      (split; [reflexivity|]);
      rewrite insert_app_r_alt by lia; rewrite Nat.sub_diag; reflexivity.
  - intros Ho. apply RoundUp_multiple; lia.
  - intros Hle. apply RoundUp_max; lia.
Qed.

(** A new space whose only page is full and whose size is over its limit. *)
Lemma Allocate_fresh_page_witness :
  let h := MkHeap (MkSpace [MkPage 1000 5096 5096] 0%nat 4096 8192 4096)
                  (MkSpace [MkPage 5096 5096 9192] 0%nat 4096 0 8192)
                  kGCNone LList.empty (MkMem (fun _ => 0) []) 9192 in
  Allocate_fresh Utils.RoundUp NewSpace 24 h /\ needs_gc_ h = kGCNone /\
  Utils.RoundUp (even_size 24) 4096 = Z.max (even_size 24) 4096.
Proof.
  intros h.
  destruct (Allocate_fresh_page NewSpace 24 h) as (H1 & _ & H3).
  - split; simpl; [lia| |lia]. repeat constructor; unfold Page_ok; simpl; lia.
  - repeat constructor.
  - split; [exact H1|]. split; [reflexivity|]. apply H3. vm_compute. discriminate.
Defined.

(** C2 as stated fails for a request larger than a page that is not a
    multiple of the page size: 5000 bytes with 4096-byte pages get a page of
    8192 bytes, not of [max(5000, 4096) = 5000]. *)
Lemma Allocate_fresh_max_counterexample :
  no_room (even_size 5000) (space NewSpace example_heap) /\
  ~ Allocate_fresh Z.max NewSpace 5000 example_heap.
Proof.
  split.
  - repeat constructor.
  - intros (h' & Hrun & _ & Hpages).
    vm_compute in Hrun. injection Hrun as <-.
    vm_compute in Hpages. discriminate.
Qed.

(** ** [Heap::RemoveWeak] *)

(** An entry with another value at the tail is looked at forever. *)
Lemma RemoveWeak_loop_spins value t it l :
  LList.deref l t = Some it ->
  weak_value (LList.value_ it) <> value ->
  forall fuel, RemoveWeak_loop fuel value (Some t) l = OutOfFuel.
Proof.
  intros Hit Hne fuel. induction fuel as [|fuel IH]; simpl; [reflexivity|].
  rewrite Hit. apply Z.eqb_neq in Hne. rewrite Hne. exact IH.
Qed.

(** After [Remove(tail)] the next round reads the deleted item. *)
Lemma RemoveWeak_loop_dangles value t l fuel :
  LList.deref l t = None ->
  RemoveWeak_loop (S fuel) value (Some t) l = Undefined.
Proof. intros H. simpl. rewrite H. reflexivity. Qed.

Lemma Remove_deletes {T} t (l l' : LList.t T) :
  LList.Remove t l = Some l' -> LList.deref l' t = None.
Proof.
  unfold LList.Remove, LList.deref. intros H.
  destruct (LList.cells l !! t) as [it|]; simpl in H; [|discriminate].
  destruct (LList.Item_remove it (LList.cells l)) as [cs|]; simpl in H; [|discriminate].
  injection H as <-. simpl. apply lookup_delete_eq.
Qed.

(** The loop is left only if it is never entered. *)
Lemma RemoveWeak_loop_finished value l : forall fuel tail l',
  RemoveWeak_loop fuel value tail l = Finished l' -> tail = None /\ l' = l.
Proof.
  intros fuel tail l' H. destruct tail as [t|]; [exfalso|simpl in H].
  - revert l H. induction fuel as [|fuel IH]; intros l H; simpl in H; [discriminate|].
    destruct (LList.deref l t) as [it|] eqn:Hit; [|discriminate].
    destruct (_ =? _).
    + destruct (LList.Remove t l) as [l1|] eqn:Hrm; [|discriminate].
      eapply IH; exact H.
    + eapply IH; exact H.
  - destruct fuel; simpl in H; injection H as <-; auto.
Qed.

(** [Heap::RemoveWeak] returns only on a heap without weak references,
    where it does nothing. *)
Lemma RemoveWeak_finished fuel value h h' :
  RemoveWeak fuel value h = Finished h' ->
  LList.tail (weak_references_ h) = None /\ weak_references_ h' = weak_references_ h.
Proof.
  unfold RemoveWeak. intros H.
  destruct (RemoveWeak_loop _ _ _ _) as [l'| |] eqn:E; try discriminate.
  apply RemoveWeak_loop_finished in E as [Ht ->]. injection H as <-.
  split; [exact Ht|reflexivity].
Qed.

(** C10 (the defect).  With one weak reference, to the value 100, on the
    heap, [RemoveWeak(200)] is still in its loop after any number of
    rounds: the entry does not match and [tail] is never advanced. *)
Theorem RemoveWeak_never_returns :
  forall fuel, RemoveWeak fuel 200 one_weak_heap = OutOfFuel.
Proof.
  intros fuel. unfold RemoveWeak.
  rewrite (RemoveWeak_loop_spins 200 0%nat (LList.MkItem (MkWeakRef 100 7) None None));
    [reflexivity|reflexivity|simpl; lia].
Qed.

(** And [RemoveWeak(100)] removes the entry, then reads it again. *)
Lemma RemoveWeak_reads_deleted_item :
  forall fuel, RemoveWeak (S (S fuel)) 100 one_weak_heap = Undefined.
Proof. intros fuel. reflexivity. Qed.

(** ** Memory *)

Ltac zcases :=
  repeat match goal with
    | |- context [?a <=? ?b] => destruct (Z.leb_spec a b)
    | |- context [?a <? ?b] => destruct (Z.ltb_spec a b)
    | |- context [?a =? ?b] => destruct (Z.eqb_spec a b)
    end; simpl.

Lemma poke_le_spec n : forall b a v x,
  poke_le b a n v x =
    if (a <=? x) && (x <? a + Z.of_nat n) then (v / 256 ^ (x - a)) mod 256 else b x.
Proof.
  induction n as [|n IH]; intros b a v x.
  - simpl. zcases; try reflexivity; lia.
  - cbn [poke_le]. rewrite IH. zcases; try reflexivity; try lia.
    + rewrite Z.div_div by lia.
      replace (256 * 256 ^ (x - (a + 1))) with (256 ^ (x - a)); [reflexivity|].
      replace (x - a) with (Z.succ (x - (a + 1))) by lia.
      rewrite Z.pow_succ_r by lia. reflexivity.
    + subst x. rewrite Z.sub_diag. simpl. rewrite Z.div_1_r. reflexivity.
Qed.

Lemma load8_store_le a n v m x :
  load8 (store_le a n v m) x =
    if (a <=? x) && (x <? a + Z.of_nat n) then (v / 256 ^ (x - a)) mod 256 else load8 m x.
Proof.
  unfold load8, store_le. simpl. rewrite poke_le_spec.
  destruct (_ && _); [|reflexivity]. apply Z.mod_mod. lia.
Qed.

Lemma load8_store_le_other a n v m x :
  x < a \/ a + Z.of_nat n <= x -> load8 (store_le a n v m) x = load8 m x.
Proof.
  intros H. rewrite load8_store_le. zcases; try reflexivity; lia.
Qed.

Lemma load_le_ext n : forall m1 m2 a,
  (forall i, 0 <= i < Z.of_nat n -> load8 m1 (a + i) = load8 m2 (a + i)) ->
  load_le m1 a n = load_le m2 a n.
Proof.
  induction n as [|n IH]; intros m1 m2 a H; [reflexivity|].
  cbn [load_le]. f_equal.
  - specialize (H 0). rewrite Z.add_0_r in H. apply H. lia.
  - f_equal. apply IH. intros i Hi.
    replace (a + 1 + i) with (a + (i + 1)) by lia. apply H. lia.
Qed.

Lemma load_le_digits n : forall m a v,
  (forall i, 0 <= i < Z.of_nat n -> load8 m (a + i) = (v / 256 ^ i) mod 256) ->
  load_le m a n = v mod 256 ^ Z.of_nat n.
Proof.
  induction n as [|n IH]; intros m a v H.
  - simpl. rewrite Z.mod_1_r. reflexivity.
  - cbn [load_le]. rewrite (IH m (a + 1) (v / 256)).
    + pose proof (H 0 ltac:(lia)) as H0. rewrite Z.add_0_r in H0. rewrite H0.
      simpl (256 ^ 0). rewrite Z.div_1_r.
      replace (256 ^ Z.of_nat (S n)) with (256 * 256 ^ Z.of_nat n)
        by (rewrite Nat2Z.inj_succ, Z.pow_succ_r by lia; reflexivity).
      rewrite Z.rem_mul_r by lia. reflexivity.
    + intros i Hi. replace (a + 1 + i) with (a + (i + 1)) by lia.
      rewrite H by lia. rewrite Z.div_div by lia.
      replace (256 * 256 ^ i) with (256 ^ (i + 1)); [reflexivity|].
      rewrite Z.pow_add_r by lia. lia.
Qed.

Lemma load_le_store_same a n v m :
  load_le (store_le a n v m) a n = v mod 256 ^ Z.of_nat n.
Proof.
  apply load_le_digits. intros i Hi. rewrite load8_store_le.
  zcases; try lia. replace (a + i - a) with i by lia. reflexivity.
Qed.

Lemma load_le_store_other a n v m a' n' :
  a' + Z.of_nat n' <= a \/ a + Z.of_nat n <= a' ->
  load_le (store_le a n v m) a' n' = load_le m a' n'.
Proof.
  intros H. apply load_le_ext. intros i Hi. apply load8_store_le_other. lia.
Qed.

Lemma read_bytes_ext n : forall m1 m2 a,
  (forall i, 0 <= i < Z.of_nat n -> load8 m1 (a + i) = load8 m2 (a + i)) ->
  read_bytes m1 a n = read_bytes m2 a n.
Proof.
  induction n as [|n IH]; intros m1 m2 a H; [reflexivity|].
  cbn [read_bytes]. f_equal.
  - f_equal. specialize (H 0). rewrite Z.add_0_r in H. apply H. lia.
  - apply IH. intros i Hi.
    replace (a + 1 + i) with (a + (i + 1)) by lia. apply H. lia.
Qed.

(** ** [HString::Hash] *)

Lemma lxor_u32 a b : 0 <= a < 2 ^ 32 -> 0 <= b < 2 ^ 32 -> 0 <= Z.lxor a b < 2 ^ 32.
Proof.
  intros Ha Hb. split.
  - apply Z.lxor_nonneg. lia.
  - destruct (Z.eq_dec (Z.lxor a b) 0) as [->|Hne]; [lia|].
    apply Z.log2_lt_pow2.
    + pose proof (proj2 (Z.lxor_nonneg a b) ltac:(lia)). lia.
    + pose proof (Z.log2_lxor a b ltac:(lia) ltac:(lia)) as Hl.
      assert (Z.log2 a < 32).
      { destruct (Z.eq_dec a 0) as [->|]; [simpl; lia|]. apply Z.log2_lt_pow2; lia. }
      assert (Z.log2 b < 32).
      { destruct (Z.eq_dec b 0) as [->|]; [simpl; lia|]. apply Z.log2_lt_pow2; lia. }
      lia.
Qed.

Lemma ComputeHash_range key : 0 <= Utils.ComputeHash key < 2 ^ 32.
Proof. unfold Utils.ComputeHash, Utils.hash_mixup. apply u32_range. Qed.

Lemma HString_Hash_frame addr v m :
  ComputeHash_at (store32 (addr + HString.kHashOffset) v m) (HString_Value addr)
      (HString_Length (store32 (addr + HString.kHashOffset) v m) addr) =
  ComputeHash_at m (HString_Value addr) (HString_Length m addr).
Proof.
  unfold ComputeHash_at, HString_Length, HString_Value, HString.kHashOffset, store32, load32.
  rewrite load_le_store_other by (simpl; lia).
  f_equal. apply read_bytes_ext. intros i Hi.
  apply load8_store_le_other. simpl. lia.
Qed.

(** C5 (as the code has it).  A second [HString::Hash] always returns the
    hash of the first and leaves every byte as it was.  It reads the cached
    field and performs no writes when that hash is not 0; a hash of 0 is
    the "not computed" mark, so it is computed and stored once more. *)
Theorem HString_Hash_cached addr m :
  let r1 := HString_Hash addr m in
  let r2 := HString_Hash addr (snd r1) in
  fst r2 = fst r1 /\
  (forall a, load8 (snd r2) a = load8 (snd r1) a) /\
  (fst r1 <> 0 -> Hash_twice_silent addr m) /\
  (fst r1 = 0 ->
     stores (snd r2) = MkStore (addr + HString.kHashOffset) 4 0 :: stores (snd r1)).
Proof.
  unfold Hash_twice_silent. cbv zeta. unfold HString_Hash.
  destruct (load32 m (addr + HString.kHashOffset) =? 0) eqn:E0; cbn [fst snd].
  - set (c := ComputeHash_at m (HString_Value addr) (HString_Length m addr)).
    assert (Hc : 0 <= c < 2 ^ 32) by apply ComputeHash_range.
    assert (Hl : load32 (store32 (addr + HString.kHashOffset) c m)
                   (addr + HString.kHashOffset) = c).
    { unfold load32, store32. rewrite load_le_store_same. apply Z.mod_small. exact Hc. }
    rewrite Hl. destruct (c =? 0) eqn:Ec; cbn [fst snd].
    + apply Z.eqb_eq in Ec. rewrite HString_Hash_frame. fold c. rewrite Ec.
      repeat split; try congruence.
      intros a. unfold store32. rewrite !load8_store_le.
      destruct (_ && _); reflexivity.
    + apply Z.eqb_neq in Ec. repeat split; congruence.
  - rewrite E0. cbn [fst snd]. apply Z.eqb_neq in E0. repeat split; congruence.
Qed.

(** The string "nil" of the root context. *)
Lemma HString_Hash_cached_witness :
  let s := string_heap [x6e; x69; x6c] in
  Hash_twice_silent (fst s) (mem (snd s)).
Proof.
  intros s.
  apply (proj1 (proj2 (proj2 (HString_Hash_cached (fst s) (mem (snd s)))))).
  vm_compute. discriminate.
Defined.

(** C5 as stated fails for the empty string: its hash is 0, which the
    header field cannot tell from "not computed", so the second call stores
    again. *)
Lemma Hash_twice_silent_counterexample :
  let s := string_heap [] in
  ~ Hash_twice_silent (fst s) (mem (snd s)).
Proof.
  intros s (_ & _ & H). vm_compute in H. discriminate.
Qed.

(** ** [HArray::Length] *)

Section ArrayLengthFacts.
Variable RuntimeLookupProperty : Mem -> Z -> Z -> Z -> Z.

Lemma shrink_loop_negative m obj s :
  s < 0 -> shrink_loop RuntimeLookupProperty m obj s = s.
Proof.
  intros Hs. rewrite shrink_loop_equation_1.
  destruct (Z_lt_dec s 0); [reflexivity|lia].
Qed.

(** The loop stops at the last index below its start that holds a non-nil
    word, or at -1. *)
Lemma shrink_loop_spec m obj s :
  0 <= s ->
  let s' := shrink_loop RuntimeLookupProperty m obj s in
  -1 <= s' < s /\
  (forall i, s' < i < s -> HArray_elem RuntimeLookupProperty m obj i = HNil_New) /\
  (0 <= s' -> HArray_elem RuntimeLookupProperty m obj s' <> HNil_New).
Proof.
  funelim (shrink_loop RuntimeLookupProperty m obj s); intros Hs; [lia|].
  cbv zeta. fold (HArray_elem RuntimeLookupProperty m obj (shrinked - 1)).
  destruct (HArray_elem RuntimeLookupProperty m obj (shrinked - 1) =? HNil_New) eqn:E.
  - apply Z.eqb_eq in E.
    destruct (Z.eq_dec shrinked 0) as [->|Hne].
    + rewrite shrink_loop_negative by lia. repeat split; lia.
    + destruct H as (H1 & H2 & H3); [lia|].
      split; [lia|]. split; [|exact H3].
      intros i Hi. destruct (Z.eq_dec i (shrinked - 1)) as [->|]; [exact E|].
      apply H2. lia.
  - apply Z.eqb_neq in E. split; [lia|]. split; [intros i Hi; lia|]. intros _. exact E.
Qed.

(** C4.  For an array whose length field is not negative,
    [HArray::Length(obj, true)] returns [r] such that every element from
    [r] up to the old length is nil and the element [r - 1], if there is
    one, is not: the index of the last non-nil element plus one (0 when
    there is none).  It stores [r] as the length, and nothing else. *)
Theorem HArray_Length_shrink m obj :
  0 <= i64 (load64 m (obj + HArray.kLengthOffset)) ->
  let r := fst (HArray_Length RuntimeLookupProperty obj true m) in
  let m' := snd (HArray_Length RuntimeLookupProperty obj true m) in
  0 <= r <= i64 (load64 m (obj + HArray.kLengthOffset)) /\
  (forall i, r <= i < i64 (load64 m (obj + HArray.kLengthOffset)) ->
     HArray_elem RuntimeLookupProperty m obj i = HNil_New) /\
  (0 < r -> HArray_elem RuntimeLookupProperty m obj (r - 1) <> HNil_New) /\
  m' = HArray_SetLength obj r m /\
  i64 (load64 m' (obj + HArray.kLengthOffset)) = r.
Proof.
  intros HL. unfold HArray_Length.
  set (L := i64 (load64 m (obj + HArray.kLengthOffset))) in *.
  assert (HLr : L < 2 ^ 63).
  { unfold L, i64. pose proof (Z.mod_pos_bound (load64 m (obj + HArray.kLengthOffset) + 2 ^ 63)
      (2 ^ 64) ltac:(lia)). lia. }
  destruct (shrink_loop_spec m obj L HL) as (H1 & H2 & H3).
  set (s := shrink_loop RuntimeLookupProperty m obj L) in *.
  rewrite (i64_small (s - 1)) by lia. rewrite (i64_small (s + 1)) by lia.
  replace (L =? s - 1) with false by (symmetry; apply Z.eqb_neq; lia).
  cbn [negb fst snd].
  split; [lia|]. split; [|split; [|split; [reflexivity|]]].
  - intros i Hi. apply H2. lia.
  - intros Hr. replace (s + 1 - 1) with s by lia. apply H3. lia.
  - unfold HArray_SetLength, load64, store64. rewrite load_le_store_same.
    change (256 ^ Z.of_nat 8) with (2 ^ 64). fold (u64 (u64 (s + 1))).
    rewrite (u64_small (s + 1)) by lia. rewrite u64_small by lia.
    apply i64_small. lia.
Qed.

End ArrayLengthFacts.

(** The scenario of the specification: after [a = [1, 2, 3]] and
    [a[2] = nil] the length is 2. *)
Lemma HArray_Length_shrink_witness :
  let obj := fst example_array in
  let m := snd example_array in
  let r := fst (HArray_Length example_lookup obj true m) in
  r = 2 /\
  (forall i, r <= i < 3 -> HArray_elem example_lookup m obj i = HNil_New) /\
  HArray_elem example_lookup m obj (r - 1) <> HNil_New /\
  i64 (load64 (snd (HArray_Length example_lookup obj true m)) (obj + HArray.kLengthOffset)) = 2.
Proof.
  intros obj m r.
  assert (Hr : r = 2) by (vm_compute; reflexivity).
  destruct (HArray_Length_shrink example_lookup m obj) as (_ & H2 & H3 & _ & H5).
  - vm_compute. discriminate.
  - fold r in H2, H3, H5. split; [exact Hr|]. split; [|split].
    + intros i Hi. apply H2.
      replace (i64 (load64 m (obj + HArray.kLengthOffset))) with 3 by (vm_compute; reflexivity).
      exact Hi.
    + apply H3. rewrite Hr. lia.
    + rewrite H5. exact Hr.
Defined.

(** ** [ComputeHash] and [Masm::StringHash] *)

(** On bytes below 0x80 [ComputeHash] is the mixer of the specification. *)
Lemma ComputeHash_ascii key :
  Forall (fun c => Z.of_N (Byte.to_N c) < 128) key ->
  Utils.ComputeHash key = spec_hash key.
Proof.
  intros Hall. unfold Utils.ComputeHash, spec_hash. f_equal.
  generalize 0. induction Hall as [|c key Hc _ IH]; intros h; [reflexivity|].
  simpl. rewrite IH. do 2 f_equal. unfold Utils.char_to_int.
  destruct (Z.ltb_spec (Z.of_N (Byte.to_N c)) 128); [reflexivity|lia].
Qed.

(** C6 (the defect).  On the one-byte string 0x80 the emitted routine
    stops with 662687451 in the result register, which is the mixer of the
    specification, and stores it as the hash; [ComputeHash] on the same
    memory gives 3273477671.  [movzxb] zero extends the byte, [hash +=
    key[i]] sign extends the [char]. *)
Theorem StringHash_differs_from_ComputeHash :
  let s := string_heap [x80] in
  exists m',
    StringHash_run 64 (fst s) (mem (snd s)) = Finished (662687451, m') /\
    load32 m' (fst s + HString.kHashOffset) = 662687451 /\
    spec_hash [x80] = 662687451 /\
    ComputeHash_at (mem (snd s)) (HString_Value (fst s)) (HString_Length (mem (snd s)) (fst s))
      = 3273477671.
Proof.
  intros s. eexists. split; [vm_compute; reflexivity|].
  split; [vm_compute; reflexivity|]. split; vm_compute; reflexivity.
Qed.

(** ** The emitted [StringHash] on every string *)

Lemma run_step fuel code c i c' :
  code !! pc c = Some i -> step code i c = Some c' ->
  run (S fuel) code c = run fuel code c'.
Proof. intros Hi Hs. cbn [run]. rewrite Hi, Hs. reflexivity. Qed.

Lemma run_end fuel code c : code !! pc c = None -> run fuel code c = Finished c.
Proof. intros Hi. destruct fuel; cbn [run]; rewrite Hi; reflexivity. Qed.

Lemma run_more code : forall fuel fuel' c c',
  run fuel code c = Finished c' -> (fuel <= fuel')%nat -> run fuel' code c = Finished c'.
Proof.
  induction fuel as [|fuel IH]; intros fuel' c c' Hrun Hle.
  - cbn [run] in Hrun. destruct (code !! pc c) eqn:E; [discriminate|].
    rewrite run_end by exact E. exact Hrun.
  - destruct fuel' as [|fuel']; [lia|]. cbn [run] in *.
    destruct (code !! pc c); [|exact Hrun].
    destruct (step code i c); [|discriminate].
    apply (IH fuel'); [exact Hrun|lia].
Qed.

Lemma set_reg_same r v rs : set_reg r v rs r = v.
Proof. unfold set_reg, reg_is. rewrite bool_decide_eq_true_2; reflexivity. Qed.

Lemma set_reg_other r r' v rs : r' <> r -> set_reg r v rs r' = rs r'.
Proof. intros Hne. unfold set_reg, reg_is. rewrite bool_decide_eq_false_2; [reflexivity|exact Hne]. Qed.

Lemma StringHash_code_eq :
  StringHash_code rbx rax =
  [Ins Mmovq [Reg rax; At (MkOperand rbx 8)];
   Ins Mcmpq [Reg rax; Imm 0]; Ins (Mjcc kNe) [Lbl 0%nat];
   Ins Mpush [Reg rcx]; Ins Mpush [Reg rbx]; Ins Mpush [Reg rsi];
   Ins Mxorq [Reg rax; Reg rax];
   Ins Mmovq [Reg rcx; At (MkOperand rbx 16)];
   Ins Maddq [Reg rbx; Imm 24]; Ins Mjmp [Lbl 2%nat];
   Bind 1%nat; Ins Mmovzxb [Reg rsi; At (MkOperand rbx 0)];
   Ins Maddl [Reg rax; Reg rsi]; Ins Mmovq [Reg rsi; Reg rax];
   Ins Mshll [Reg rax; Imm 10]; Ins Maddl [Reg rax; Reg rsi];
   Ins Mmovq [Reg rsi; Reg rax]; Ins Mshrl [Reg rax; Imm 6];
   Ins Mxorl [Reg rax; Reg rsi]; Ins Mdec [Reg rcx]; Ins Minc [Reg rbx];
   Bind 2%nat; Ins Mcmpq [Reg rcx; Imm 0]; Ins (Mjcc kNe) [Lbl 1%nat];
   Bind 3%nat; Ins Mmovq [Reg rsi; Reg rax]; Ins Mshll [Reg rax; Imm 3];
   Ins Maddl [Reg rax; Reg rsi]; Ins Mmovq [Reg rsi; Reg rax];
   Ins Mshrl [Reg rax; Imm 11]; Ins Mxorl [Reg rax; Reg rsi];
   Ins Mmovq [Reg rsi; Reg rax]; Ins Mshll [Reg rax; Imm 15];
   Ins Maddl [Reg rax; Reg rsi]; Ins Mpop [Reg rsi]; Ins Mpop [Reg rbx];
   Ins Mpop [Reg rcx]; Ins Mmovq [At (MkOperand rbx 8); Reg rax];
   Bind 0%nat].
Proof. vm_compute. reflexivity. Qed.

Ltac regs_norm :=
  unfold ea; cbn [regs stack flags ram pc op_base op_disp];
  repeat first [rewrite set_reg_same | rewrite set_reg_other by discriminate].

Ltac exec := erewrite run_step; [|reflexivity|reflexivity]; regs_norm.

Lemma byte_of_Z_value z : Z.of_N (Byte.to_N (byte_of_Z z)) = z mod 256.
Proof.
  unfold byte_of_Z. pose proof (Z.mod_pos_bound z 256 ltac:(lia)) as Hz.
  destruct (Byte.of_N (Z.to_N (z mod 256))) as [c|] eqn:E.
  - apply Byte.to_of_N in E. rewrite E. lia.
  - apply Byte.of_N_None_iff in E. lia.
Qed.

Lemma load8_range m a : 0 <= load8 m a < 256.
Proof. unfold load8. apply Z.mod_pos_bound. lia. Qed.

Lemma hash_round_range h c : 0 <= Utils.hash_round h c < 2 ^ 32.
Proof. unfold Utils.hash_round. apply lxor_u32; [apply u32_range|].
  pose proof (u32_range (u32 (h + c) + u32 (Z.shiftl (u32 (h + c)) 10))) as Hr.
  split; [apply Z.shiftr_nonneg; lia|].
  rewrite Z.shiftr_div_pow2 by lia.
  apply Z.div_lt_upper_bound; lia.
Qed.

Lemma u32_idem x : u32 (u32 x) = u32 x.
Proof. apply u32_small. apply u32_range. Qed.

Lemma u32_shiftr x k : 0 <= k -> u32 (Z.shiftr (u32 x) k) = Z.shiftr (u32 x) k.
Proof.
  intros Hk. apply u32_small. pose proof (u32_range x) as Hx.
  split; [apply Z.shiftr_nonneg; lia|].
  rewrite Z.shiftr_div_pow2 by lia.
  apply Z.div_lt_upper_bound; [lia|]. pose proof (Z.pow_pos_nonneg 2 k ltac:(lia) Hk). nia.
Qed.

Lemma load_le_nonneg n : forall m a, 0 <= load_le m a n.
Proof.
  induction n as [|n IH]; intros m a; cbn [load_le]; [lia|].
  pose proof (load8_range m a). pose proof (IH m (a + 1)). lia.
Qed.

(** The values that the instructions of the routine leave, against
    [hash_round] and [hash_mixup]. *)
Lemma round_asm h b :
  Z.lxor (Z.shiftr (u32 (u32 (Z.shiftl (u32 (h + b)) 10) + u32 (h + b))) 6)
         (u32 (u32 (Z.shiftl (u32 (h + b)) 10) + u32 (h + b))) =
  Utils.hash_round h b.
Proof.
  unfold Utils.hash_round. cbv zeta.
  rewrite (Z.add_comm (u32 (Z.shiftl (u32 (h + b)) 10))). apply Z.lxor_comm.
Qed.

Lemma mixup_asm h :
  let x := Z.lxor (Z.shiftr (u32 (u32 (Z.shiftl h 3) + h)) 11)
                  (u32 (u32 (Z.shiftl h 3) + h)) in
  u32 (u32 (Z.shiftl x 15) + x) = Utils.hash_mixup h.
Proof.
  unfold Utils.hash_mixup. cbv zeta.
  rewrite (Z.add_comm (u32 (Z.shiftl h 3)) h).
  rewrite (Z.lxor_comm (Z.shiftr _ 11)).
  f_equal. apply Z.add_comm.
Qed.

Ltac u32_norm := repeat rewrite u32_idem; repeat rewrite u32_shiftr by lia.

(** The loop and what follows it, from the test of the counter on. *)
Lemma StringHash_loop (n : nat) : forall rs fl m h a s_rsi s_rbx s_rcx st,
  rs rax = h -> 0 <= h < 2 ^ 32 ->
  rs rcx = Z.of_nat n -> rs rbx = a -> 0 <= a -> a + Z.of_nat n < 2 ^ 64 ->
  let hash := Utils.hash_mixup
                (fold_left (fun h c => Utils.hash_round h (Z.of_N (Byte.to_N c)))
                           (read_bytes m a n) h) in
  exists c',
    run (17 + 13 * n) (StringHash_code rbx rax)
        (MkCpu rs (s_rsi :: s_rbx :: s_rcx :: st) fl m 22) = Finished c' /\
    regs c' rax = hash /\ ram c' = store64 (s_rbx + 8) hash m.
Proof.
  rewrite StringHash_code_eq.
  match goal with |- context [run _ ?c _] => set (code := c) end.
  induction n as [|n IH]; intros rs fl m h a s_rsi s_rbx s_rcx st Hrax Hh Hrcx Hrbx Ha Hn hash.
  - change (17 + 13 * 0)%nat with 17%nat.
    do 2 exec. rewrite Hrcx. cbn [fst snd Z.of_nat Z.eqb negb].
    do 15 exec.
    rewrite run_end by reflexivity.
    eexists. split; [reflexivity|]. regs_norm. rewrite Hrax. u32_norm.
    rewrite (mixup_asm h). split; reflexivity.
  - replace (17 + 13 * S n)%nat with (13 + (17 + 13 * n))%nat by lia.
    cbn [Nat.add].
    do 2 exec. rewrite Hrcx.
    assert ((Z.of_nat (S n) =? 0) = false) as Hnz by (apply Z.eqb_neq; lia).
    cbn [fst snd]. rewrite Hnz. cbn [negb].
    do 11 exec. rewrite Hrax, Hrcx, Hrbx.
    set (b := load8 m (a + 0)).
    match goal with
    | |- context [run _ _ (MkCpu ?rs1 _ ?fl1 _ _)] =>
        destruct (IH rs1 fl1 m (Utils.hash_round h b) (a + 1) s_rsi s_rbx s_rcx st)
          as (c' & Hrun & Hres & Hram)
    end.
    + regs_norm. u32_norm. apply round_asm.
    + apply hash_round_range.
    + regs_norm. rewrite u64_small by lia. lia.
    + regs_norm. apply u64_small. lia.
    + lia.
    + lia.
    + exists c'. split; [exact Hrun|].
      assert (Hhash : hash = Utils.hash_mixup
                (fold_left (fun h c => Utils.hash_round h (Z.of_N (Byte.to_N c)))
                           (read_bytes m (a + 1) n) (Utils.hash_round h b))).
      { unfold hash. cbn [read_bytes fold_left]. rewrite byte_of_Z_value.
        unfold b. rewrite Z.add_0_r. rewrite (Z.mod_small (load8 m a)) by apply load8_range.
        reflexivity. }
      rewrite Hhash. split; assumption.
Qed.

(** The routine that [Masm::StringHash] emits computes the mixer of the
    specification, on the values of the bytes, for every string whose hash
    field is still 0, and stores it in the field. *)
Lemma StringHash_is_spec_hash addr m fuel :
  let len := load64 m (addr + HString.kLengthOffset) in
  let key := read_bytes m (HString_Value addr) (Z.to_nat len) in
  load64 m (addr + HString.kHashOffset) = 0 ->
  0 <= addr + 24 -> addr + 24 + len < 2 ^ 64 ->
  (27 + 13 * Z.to_nat len <= fuel)%nat ->
  StringHash_run fuel addr m =
    Finished (spec_hash key, store64 (addr + HString.kHashOffset) (spec_hash key) m).
Proof.
  intros len key Hzero Ha Hlen Hfuel.
  unfold HString.kLengthOffset, HString.kHashOffset, HString_Value in *.
  pose proof (load_le_nonneg 8 m (addr + 16)) as Hl0.
  fold (load64 m (addr + 16)) in Hl0. fold len in Hl0.
  assert (Hrun : exists c',
    run (27 + 13 * Z.to_nat len) (StringHash_code rbx rax)
        (MkCpu (set_reg rbx addr (fun _ => 0)) [] None m 0%nat) = Finished c' /\
    regs c' rax = spec_hash key /\ ram c' = store64 (addr + 8) (spec_hash key) m).
  { replace (27 + 13 * Z.to_nat len)%nat with (10 + (17 + 13 * Z.to_nat len))%nat by lia.
    cbn [Nat.add].
    rewrite StringHash_code_eq.
    match goal with |- context [run _ ?c _] => set (code := c) end.
    do 2 exec. rewrite Hzero. cbn [fst snd Z.eqb negb].
    do 8 exec. fold len.
    match goal with
    | |- context [run _ _ (MkCpu ?rs1 (?x :: ?y :: ?z :: ?st) ?fl1 _ _)] =>
        destruct (StringHash_loop (Z.to_nat len) rs1 fl1 m 0 (addr + 24) x y z st)
          as (c' & Hrun & Hres & Hram)
    end.
    - regs_norm. reflexivity.
    - lia.
    - regs_norm. rewrite Z2Nat.id by lia. reflexivity.
    - regs_norm. apply u64_small. lia.
    - lia.
    - rewrite Z2Nat.id by lia. lia.
    - rewrite StringHash_code_eq in Hrun. fold code in Hrun.
      exists c'. split; [exact Hrun|]. split; [exact Hres|exact Hram]. }
  destruct Hrun as (c' & Hrun & Hres & Hram).
  unfold StringHash_run. rewrite (run_more _ _ fuel _ _ Hrun Hfuel).
  rewrite Hres, Hram. reflexivity.
Qed.

(** On a string of bytes below 0x80 the routine and [ComputeHash] agree. *)
Lemma StringHash_ComputeHash_ascii addr m fuel :
  let len := load64 m (addr + HString.kLengthOffset) in
  let key := read_bytes m (HString_Value addr) (Z.to_nat len) in
  load64 m (addr + HString.kHashOffset) = 0 ->
  0 <= addr + 24 -> addr + 24 + len < 2 ^ 64 ->
  (27 + 13 * Z.to_nat len <= fuel)%nat ->
  Forall (fun c => Z.of_N (Byte.to_N c) < 128) key ->
  exists m', StringHash_run fuel addr m = Finished (Utils.ComputeHash key, m').
Proof.
  intros len key Hzero Ha Hlen Hfuel Hascii.
  rewrite (ComputeHash_ascii key Hascii).
  eexists. apply StringHash_is_spec_hash; assumption.
Qed.

(** ** The emission calculus *)

Lemma emits_weaken {T} (c : Run Fullgen T) (R R' : list Instr -> Prop) :
  emits c R -> (forall out, R out -> R' out) -> emits c R'.
Proof.
  intros Hc HR g. destruct (Hc g) as (a & g' & out & E & Hcode & Hout).
  exists a, g', out. auto.
Qed.

Lemma emits_ret {T} (a : T) (R : list Instr -> Prop) : R [] -> emits (mret a) R.
Proof.
  intros HR g. exists a, g, []. rewrite app_nil_r. auto.
Qed.

Lemma emits_bind {T U} (c : Run Fullgen T) (k : T -> Run Fullgen U)
    (R1 R2 R : list Instr -> Prop) :
  emits c R1 -> (forall a, emits (k a) R2) ->
  (forall o1 o2, R1 o1 -> R2 o2 -> R (o1 ++ o2)) ->
  emits (c ≫= k) R.
Proof.
  intros Hc Hk HR g.
  destruct (Hc g) as (a & g1 & o1 & E1 & C1 & H1).
  destruct (Hk a g1) as (b & g2 & o2 & E2 & C2 & H2).
  exists b, g2, (o1 ++ o2). split; [|split].
  - unfold mbind, Run_bind, bind. rewrite E1. exact E2.
  - rewrite C2, C1, app_assoc. reflexivity.
  - auto.
Qed.

Lemma emits_emit i (R : list Instr -> Prop) : R [i] -> emits (emit i) R.
Proof.
  intros HR g. exists tt, (set_code_ (code_ g ++ [i]) g), [i].
  split; [reflexivity|]. split; [destruct g; reflexivity|exact HR].
Qed.

Lemma emits_gets {T} (f : Fullgen -> T) (R : list Instr -> Prop) : R [] -> emits (gets f) R.
Proof.
  intros HR g. exists (f g), g, []. rewrite app_nil_r. auto.
Qed.

Lemma emits_modify (f : Fullgen -> Fullgen) (R : list Instr -> Prop) :
  (forall g, code_ (f g) = code_ g) -> R [] -> emits (modify f) R.
Proof.
  intros Hf HR g. exists tt, (f g), []. rewrite app_nil_r, Hf. auto.
Qed.

Lemma emits_if {T} (b : bool) (c1 c2 : Run Fullgen T) (R : list Instr -> Prop) :
  emits c1 R -> emits c2 R -> emits (if b then c1 else c2) R.
Proof. destruct b; auto. Qed.


Lemma emits_seq_any {T U} (c : Run Fullgen T) (k : T -> Run Fullgen U) :
  emits c any -> (forall a, emits (k a) any) -> emits (c ≫= k) any.
Proof.
  intros Hc Hk. apply (emits_bind c k any any any Hc Hk). intros; exact I.
Qed.

(** The block is in the first part, or in the second. *)
Lemma emits_bind_l {T U} (c : Run Fullgen T) (k : T -> Run Fullgen U) (R : list Instr -> Prop) :
  emits c R -> (forall a, emits (k a) any) ->
  (forall o1 o2, R o1 -> R (o1 ++ o2)) ->
  emits (c ≫= k) R.
Proof. intros Hc Hk HR. eapply emits_bind; eauto. Qed.

Lemma emits_bind_r {T U} (c : Run Fullgen T) (k : T -> Run Fullgen U) (R : list Instr -> Prop) :
  emits c any -> (forall a, emits (k a) R) ->
  (forall o1 o2, R o2 -> R (o1 ++ o2)) ->
  emits (c ≫= k) R.
Proof. intros Hc Hk HR. eapply emits_bind; eauto. Qed.

Lemma infix_app_l l o1 o2 : infix l o1 -> infix l (o1 ++ o2).
Proof.
  intros (pre & post & ->). exists pre, (post ++ o2). rewrite <- !app_assoc. reflexivity.
Qed.

Lemma infix_app_r l o1 o2 : infix l o2 -> infix l (o1 ++ o2).
Proof.
  intros (pre & post & ->). exists (o1 ++ pre), post. rewrite <- !app_assoc. reflexivity.
Qed.

Ltac code_kept := let g := fresh "g" in intros g; destruct g; reflexivity.

Ltac emits_any :=
  repeat first
    [ apply emits_seq_any; [|intros ?]
    | apply emits_ret; exact I
    | apply emits_emit; exact I
    | apply emits_gets; exact I
    | apply emits_modify; [code_kept|exact I]
    | apply emits_if
    | match goal with |- emits (match ?x with _ => _ end) _ => destruct x end
    | assumption ].

Ltac masm_unfold :=
  unfold Masm_Allocate, AllocateContext, CheckGC, Call_stub, Call, Spill_new, Spill_delete,
    Unspill, Unspill_to, Align_new, Align_delete, ChangeAlign, Label_new, bind_label,
    AllocateSpills, FillStackSlots, Fill, code_offset, jcc_opt, IsNil, IsUnboxed,
    IsHeapObject, IsTrue, set_slot, slot,
    push, pop, movq, addq, subq, xorq, shl, dec, inc, cmpq, cmpb, testb, jmp, jcc,
    callq, nop, Push, Pop, Untag, TagNumber_reg, emitb, Immediate.

Lemma Spill_new_emits r : emits (Spill_new r) any.
Proof. masm_unfold. emits_any. Qed.

Lemma CheckGC_emits : emits CheckGC any.
Proof. masm_unfold. emits_any. Qed.

Lemma clear_context_emits n : forall i, emits (clear_context i n) any.
Proof.
  induction n as [|n IH]; intros i; simpl; masm_unfold; emits_any. apply IH.
Qed.

Lemma AllocateSpills_emits n : emits (AllocateSpills n) any.
Proof. masm_unfold. emits_any. Qed.

Lemma FillStackSlots_emits : emits FillStackSlots any.
Proof. masm_unfold. emits_any. Qed.


Lemma starts_infix l out : starts l out -> infix l out.
Proof. intros (post & ->). exists [], post. reflexivity. Qed.

Lemma emits_exact_bind {T U} (c : Run Fullgen T) (k : T -> Run Fullgen U) l1 l2 :
  emits c (eq l1) -> (forall a, emits (k a) (eq l2)) -> emits (c ≫= k) (eq (l1 ++ l2)).
Proof. intros Hc Hk. eapply emits_bind; eauto. intros o1 o2 <- <-. reflexivity. Qed.

Lemma emits_starts_bind {T U} (c : Run Fullgen T) (k : T -> Run Fullgen U) l1 l2 :
  emits c (eq l1) -> (forall a, emits (k a) (starts l2)) ->
  emits (c ≫= k) (starts (l1 ++ l2)).
Proof.
  intros Hc Hk. eapply emits_bind; eauto.
  intros o1 o2 <- (post & ->). exists post. rewrite app_assoc. reflexivity.
Qed.

Lemma emits_starts_nil {T} (c : Run Fullgen T) : emits c any -> emits c (starts []).
Proof. intros Hc. eapply emits_weaken; eauto. intros out _. exists out. reflexivity. Qed.

Lemma Call_stub_emits stub :
  emits (Call_stub stub)
    (eq [Ins Mmovq [Reg scratch; Sym (StubAddress stub)]; AlignOdd;
         Ins Mcallq [Reg scratch]; Ins Mnop []]).
Proof.
  unfold Call_stub, Call, movq, callq, nop.
  apply (emits_exact_bind _ _ [_] [_; _; _]); [apply emits_emit; reflexivity|intros _].
  apply (emits_exact_bind _ _ [_] [_; _]); [apply emits_emit; reflexivity|intros _].
  apply (emits_exact_bind _ _ [_] [_]); [apply emits_emit; reflexivity|intros _].
  apply emits_emit; reflexivity.
Qed.

Lemma Align_delete_emits a : emits (Align_delete a) any.
Proof. masm_unfold. emits_any. Qed.

(** [Masm::Allocate] with the size known at generation time calls the
    Allocate stub with that size, header included, and the tag. *)
Lemma Masm_Allocate_emits tag size result :
  emits (Masm_Allocate tag reg_nil size result) (infix (allocate_call tag size)).
Proof.
  unfold Masm_Allocate.
  apply emits_bind_r; [apply Spill_new_emits|intros rax_s|intros; apply infix_app_r; assumption].
  apply emits_bind_r; [masm_unfold; emits_any|intros _|intros; apply infix_app_r; assumption].
  apply emits_bind_r; [masm_unfold; emits_any|intros a|intros; apply infix_app_r; assumption].
  change (reg_is reg_nil reg_nil) with true. cbv iota.
  eapply emits_weaken; [|apply starts_infix].
  unfold allocate_call, push, movq, Immediate.
  apply (emits_starts_bind _ _ [_] (_ :: _)); [apply emits_emit; reflexivity|intros _].
  apply (emits_starts_bind _ _ [_] (_ :: _)); [apply emits_emit; reflexivity|intros _].
  apply (emits_starts_bind _ _ [_] (_ :: _)); [apply emits_emit; reflexivity|intros _].
  apply (emits_starts_bind _ _ [_] (_ :: _)); [apply emits_emit; reflexivity|intros _].
  apply (emits_starts_bind _ _ [_; _; _; _] []); [apply Call_stub_emits|intros _].
  apply emits_starts_nil.
  apply emits_seq_any; [apply Align_delete_emits|intros _].
  masm_unfold. emits_any.
Qed.

Lemma emits_emit_then {U} i (k : unit -> Run Fullgen U) (R2 R : list Instr -> Prop) :
  (forall a, emits (k a) R2) -> (forall o2, R2 o2 -> R (i :: o2)) ->
  emits (emit i ≫= k) R.
Proof.
  intros Hk HR. apply (emits_bind _ _ (eq [i]) R2 R); [apply emits_emit; reflexivity|exact Hk|].
  intros o1 o2 <- H2. apply HR. exact H2.
Qed.

(** Code that leaves a register alone. *)
Lemma emits_leaves_bind {T U} (c : Run Fullgen T) (k : T -> Run Fullgen U) r :
  emits c (leaves_reg r) -> (forall a, emits (k a) (leaves_reg r)) ->
  emits (c ≫= k) (leaves_reg r).
Proof.
  intros Hc Hk. apply (emits_bind c k _ _ _ Hc Hk).
  intros o1 o2 H1 H2. apply Forall_app_2; assumption.
Qed.

Ltac emits_leaves :=
  repeat first
    [ apply emits_leaves_bind; [|intros ?]
    | apply emits_ret; constructor
    | apply emits_emit; repeat constructor
    | apply emits_gets; constructor
    | apply emits_modify; [code_kept|constructor]
    | apply emits_if
    | match goal with |- emits (match ?x with _ => _ end) _ => destruct x end ].

Lemma Spill_new_leaves : emits (Spill_new rax) (leaves_reg rdi).
Proof. masm_unfold. emits_leaves. Qed.

Lemma AllocateSpills_leaves n : emits (AllocateSpills n) (leaves_reg rdi).
Proof. masm_unfold. emits_leaves. Qed.

Lemma FillStackSlots_leaves : emits FillStackSlots (leaves_reg rdi).
Proof. masm_unfold. emits_leaves. Qed.

Lemma calls_allocate_after tag size o1 o2 :
  leaves_reg rdi o1 -> calls_allocate tag size o2 -> calls_allocate tag size (o1 ++ o2).
Proof.
  intros H1 (pre & realign & -> & Hpre & Hre). exists (o1 ++ pre), realign.
  split; [rewrite <- app_assoc; reflexivity|]. split; [apply Forall_app_2; assumption|exact Hre].
Qed.

(** The end of [Masm::Allocate]: with the result in [rax] nothing is
    emitted behind the call but the realignment. *)
Lemma Masm_Allocate_end_emits a (rax_s : Spill) :
  emits (Align_delete a;; ChangeAlign (-2);;
         (if negb (reg_is rax rax) then movq rax rax;; Unspill rax_s else mret tt);;
         Spill_delete rax_s) realigns.
Proof.
  change (negb (reg_is rax rax)) with false. cbv iota.
  unfold Align_delete. destruct (Z.rem a 2 =? 0).
  - apply (emits_bind _ _ (eq []) (eq []) _); [apply emits_ret; reflexivity|intros _|].
    + masm_unfold.
      apply (emits_bind _ _ (eq []) (eq []) _);
        [apply emits_modify; [code_kept|reflexivity]|intros _|intros o1 o2 <- <-; reflexivity].
      apply (emits_bind _ _ (eq []) (eq []) _);
        [apply emits_ret; reflexivity|intros _|intros o1 o2 <- <-; reflexivity].
      apply emits_modify; [code_kept|reflexivity].
    + intros o1 o2 <- <-. left. reflexivity.
  - apply (emits_bind _ _ (eq [Ins Maddq [Reg rsp; Imm 8]]) (eq []) _).
    + masm_unfold.
      apply (emits_exact_bind _ _ [_] []); [apply emits_emit; reflexivity|intros _].
      apply emits_modify; [code_kept|reflexivity].
    + intros _. masm_unfold.
      apply (emits_bind _ _ (eq []) (eq []) _);
        [apply emits_modify; [code_kept|reflexivity]|intros _|intros o1 o2 <- <-; reflexivity].
      apply (emits_bind _ _ (eq []) (eq []) _);
        [apply emits_ret; reflexivity|intros _|intros o1 o2 <- <-; reflexivity].
      apply emits_modify; [code_kept|reflexivity].
    + intros o1 o2 <- <-. right. reflexivity.
Qed.

(** [Masm::Allocate] into [rax], with the size known at generation time:
    the pushes and the call of the stub, [rdi] left alone before them. *)
Lemma Masm_Allocate_calls tag size :
  emits (Masm_Allocate tag reg_nil size rax) (calls_allocate tag size).
Proof.
  unfold Masm_Allocate.
  apply (emits_bind _ _ (leaves_reg rdi) (calls_allocate tag size) _);
    [apply Spill_new_leaves|intros rax_s|apply calls_allocate_after].
  apply (emits_bind _ _ (leaves_reg rdi) (calls_allocate tag size) _);
    [masm_unfold; emits_leaves|intros _|apply calls_allocate_after].
  apply (emits_bind _ _ (leaves_reg rdi) (calls_allocate tag size) _);
    [masm_unfold; emits_leaves|intros a|apply calls_allocate_after].
  change (reg_is reg_nil reg_nil) with true. cbv iota.
  unfold push, movq, Immediate.
  assert (Hstep : forall i (k : Run Fullgen unit) l,
            emits k (fun o => exists realign, o = l ++ realign /\ realigns realign) ->
            emits (emit i;; k)
                  (fun o => exists realign, o = (i :: l) ++ realign /\ realigns realign)).
  { intros i k l Hk. apply (emits_emit_then _ _ _ _ (fun _ => Hk)).
    intros o2 (realign & -> & Hre). exists realign. split; [reflexivity|exact Hre]. }
  eapply emits_weaken.
  - apply Hstep, Hstep, Hstep, Hstep.
    unfold Call_stub, Call, movq, callq, nop.
    apply (emits_bind _ _ (eq [Ins Mmovq [Reg scratch; Sym (StubAddress AllocateStub)];
                               AlignOdd; Ins Mcallq [Reg scratch]; Ins Mnop []])
             realigns _); [apply Call_stub_emits|intros _; apply Masm_Allocate_end_emits|].
    intros o1 o2 <- Hre. exists o2. split; [reflexivity|exact Hre].
  - intros out (realign & -> & Hre). exists [], realign.
    split; [reflexivity|]. split; [constructor|exact Hre].
Qed.

(** [Masm::AllocateContext] allocates a context of [slots] slots and at
    once stores [rdi] as its parent and [slots] as its slot count. *)
Lemma AllocateContext_emits slots :
  emits (AllocateContext slots) (sets_up_context slots).
Proof.
  unfold AllocateContext.
  apply (emits_bind _ _ (leaves_reg rdi) (sets_up_context slots) _);
    [apply Spill_new_leaves|intros rax_s|].
  2: { intros o1 o2 H1 (pre & realign & post & -> & Hpre & Hre).
       exists (o1 ++ pre), realign, post.
       split; [rewrite <- app_assoc; reflexivity|].
       split; [apply Forall_app_2; assumption|exact Hre]. }
  apply (emits_bind _ _ (calls_allocate kTagContext (u32 (8 * u32 (slots + 2))))
           (starts [Ins Mmovq [At (MkOperand rax 8); Reg rdi];
                    Ins Mmovq [At (MkOperand rax 16); Imm slots]]) _);
    [apply Masm_Allocate_calls|intros _|].
  2: { intros o1 o2 (pre & realign & -> & Hpre & Hre) (post & ->).
       exists pre, realign, post.
       split; [rewrite <- !app_assoc; reflexivity|]. split; [exact Hpre|exact Hre]. }
  unfold movq, Immediate.
  apply (emits_starts_bind _ _ [_] [_]); [apply emits_emit; reflexivity|intros _].
  apply (emits_starts_bind _ _ [_] []); [apply emits_emit; reflexivity|intros _].
  apply emits_starts_nil.
  apply emits_seq_any; [apply clear_context_emits|intros _].
  apply emits_seq_any; [apply emits_emit; exact I|intros _].
  apply emits_seq_any; [masm_unfold; emits_any|intros _].
  apply emits_seq_any; [apply CheckGC_emits|intros _].
  masm_unfold. emits_any.
Qed.

Lemma lookup_context_emits n : emits (lookup_context n) any.
Proof. induction n as [|n IH]; simpl; masm_unfold; emits_any. Qed.


(** Visiting a name for its slot returns, having appended code only. *)
Lemma VisitForSlot_name_emits `{Externals} fuel item :
  is_name item -> emits (VisitForSlot (Visit (S fuel)) item) any.
Proof.
  intros (Hty & sl & name & Hext) g.
  destruct item as [ty v o c s x e]. simpl in Hty, Hext. subst ty e.
  destruct sl as [stack index depth].
  destruct g.
  unfold VisitForSlot. cbn [Visit]. unfold dispatch, VisitValue, Throw, SetError,
    visiting_for_value, visiting_for_slot. cbn [type ext is_stack slot_index slot_depth].
  masm_unfold. unfold emit. run_unfold.
  destruct stack; [simpl; do 3 eexists; split; [reflexivity|]; split;
                   [simpl; symmetry; apply app_nil_r|exact I]|].
  destruct (depth =? -2); [simpl; do 3 eexists; split; [reflexivity|]; split;
                   [simpl; symmetry; apply app_nil_r|exact I]|].
  destruct (depth =? -1); [simpl; do 3 eexists; split; [reflexivity|]; split;
                   [simpl; reflexivity|exact I]|].
  simpl.
  match goal with |- context [lookup_context ?n ?st] =>
    destruct (lookup_context_emits n st) as (a & g' & out & E & C & _) end.
  rewrite E. destruct g'. simpl in *. do 3 eexists. split; [reflexivity|].
  split; [simpl; rewrite C, <- app_assoc; reflexivity|exact I].
Qed.

Lemma place_arguments_emits `{Externals} fuel items :
  Forall is_name items ->
  forall i n body, emits (place_arguments (Visit (S fuel)) items i n body) any.
Proof.
  induction 1 as [|item items Hitem _ IH]; intros i n body; cbn [place_arguments].
  - apply emits_ret. exact I.
  - masm_unfold.
    apply emits_seq_any; [apply emits_emit; exact I|intros _].
    apply emits_seq_any; [apply emits_emit; exact I|intros _].
    apply emits_seq_any; [apply VisitForSlot_name_emits; exact Hitem|intros _].
    apply emits_seq_any; [apply emits_emit; exact I|intros _].
    apply emits_seq_any; [apply emits_gets; exact I|intros s].
    apply emits_seq_any; [apply emits_emit; exact I|intros _].
    apply IH.
Qed.

(** C3 (as the code has it).  For every function literal whose arguments
    are names, and from every state of the generator,
    [GeneratePrologue] returns, and the code it emits allocates a context
    of [context_slots] slots through the Allocate stub, whatever that number
    is, and stores the caller's context as its parent: no instruction of the
    prologue before the call of the stub names [rdi], which holds the
    caller's context on entry, and the store of [rdi] to the parent field of
    the context that the stub returned in [rax] follows the call at once,
    then the store of the slot count. *)
Theorem GeneratePrologue_allocates_context `{Externals} fuel fn :
  Forall is_name (args fn) ->
  emits (GeneratePrologue (Visit (S fuel)) fn) (sets_up_context (u32 (context_slots fn))).
Proof.
  intros Hargs. unfold GeneratePrologue.
  assert (Hr : forall o1 o2 slots,
            leaves_reg rdi o1 -> sets_up_context slots o2 -> sets_up_context slots (o1 ++ o2)).
  { intros o1 o2 slots H1 (pre & realign & post & -> & Hpre & Hre).
    exists (o1 ++ pre), realign, post.
    split; [rewrite <- app_assoc; reflexivity|].
    split; [apply Forall_app_2; assumption|exact Hre]. }
  assert (Hl : forall o1 o2 slots, sets_up_context slots o1 -> sets_up_context slots (o1 ++ o2)).
  { intros o1 o2 slots (pre & realign & post & -> & Hpre & Hre).
    exists pre, realign, (post ++ o2).
    split; [rewrite <- !app_assoc; reflexivity|]. split; [exact Hpre|exact Hre]. }
  apply (emits_bind _ _ (leaves_reg rdi) (sets_up_context (u32 (context_slots fn))) _);
    [unfold push; apply emits_emit; repeat constructor|intros _|intros; apply Hr; assumption].
  apply (emits_bind _ _ (leaves_reg rdi) (sets_up_context (u32 (context_slots fn))) _);
    [unfold movq; apply emits_emit; repeat constructor|intros _|intros; apply Hr; assumption].
  apply (emits_bind _ _ (leaves_reg rdi) (sets_up_context (u32 (context_slots fn))) _);
    [apply AllocateSpills_leaves|intros _|intros; apply Hr; assumption].
  apply (emits_bind _ _ (leaves_reg rdi) (sets_up_context (u32 (context_slots fn))) _);
    [apply FillStackSlots_leaves|intros _|intros; apply Hr; assumption].
  apply emits_bind_l; [apply AllocateContext_emits|intros _|intros; apply Hl; assumption].
  apply emits_seq_any; [masm_unfold; emits_any|intros body].
  apply emits_seq_any; [apply place_arguments_emits; exact Hargs|intros _].
  masm_unfold. emits_any.
Qed.

(** A function without arguments, stack slots and context slots, from the
    initial state of the generator. *)
Lemma GeneratePrologue_allocates_context_witness :
  exists a g' out,
    GeneratePrologue (@Visit example_params 1) (function_node [] 0 0)
      (Fullgen_init example_heap) = Some (a, g') /\
    code_ g' = code_ (Fullgen_init example_heap) ++ out /\
    sets_up_context (u32 (context_slots (function_node [] 0 0))) out.
Proof.
  apply (@GeneratePrologue_allocates_context example_params 0 (function_node [] 0 0)).
  simpl. constructor.
Defined.

(** C3 as stated fails: the prologue of a function with no context slots
    allocates a context all the same. *)
Lemma no_context_slots_counterexample :
  exists g',
    GeneratePrologue (@Visit example_params 1) (function_node [] 0 0)
      (Fullgen_init example_heap) = Some (tt, g') /\
    context_slots (function_node [] 0 0) = 0 /\
    allocates_context (code_ g').
Proof.
  eexists. split; [vm_compute; reflexivity|]. split; [reflexivity|].
  match goal with |- allocates_context ?c => exists 16, (take 21 c), (drop 29 c) end.
  vm_compute. reflexivity.
Qed.

(** ** [break] and [continue] *)

(** Inside a loop they are jumps to its end and to its start. *)
Lemma VisitBreak_in_loop node l g :
  loop_end_ g = Some l ->
  VisitBreak node g = Some (tt, set_code_ (code_ g ++ [Ins Mjmp [Lbl l]]) g).
Proof. intros E. unfold VisitBreak. run_unfold. rewrite E. reflexivity. Qed.

Lemma VisitContinue_in_loop node l g :
  loop_start_ g = Some l ->
  VisitContinue node g = Some (tt, set_code_ (code_ g ++ [Ins Mjmp [Lbl l]]) g).
Proof. intros E. unfold VisitContinue. run_unfold. rewrite E. reflexivity. Qed.

(** C9.  Visiting a [break] (a [continue]) while no loop end (no loop
    start) is set returns; it records "Expected loop" and the offset of the
    node, and emits the trap 0xcc and nothing else, so no jump.  The
    statements after the node are then visited as usual, from that state. *)
Theorem loop_control_outside_loop `{Externals} fuel node rest g :
  (type node = kBreak /\ loop_end_ g = None) \/
  (type node = kContinue /\ loop_start_ g = None) ->
  let g' := expected_loop_error node g in
  Visit (S fuel) node g = Some (tt, g') /\
  error_msg_ g' = Some "Expected loop"%string /\
  error_pos_ g' = offset node /\
  code_ g' = code_ g ++ [Emitb 0xcc] /\
  VisitChildren_list (Visit (S fuel)) (node :: rest) g =
    VisitChildren_list (Visit (S fuel)) rest g'.
Proof.
  intros Hnode g'.
  assert (Hvisit : Visit (S fuel) node g = Some (tt, g')).
  { subst g'. destruct node as [ty v o c s x e]. destruct g.
    destruct Hnode as [[Hty Hloop]|[Hty Hloop]]; simpl in Hty, Hloop; subst; reflexivity. }
  split; [exact Hvisit|].
  split; [destruct g; reflexivity|].
  split; [destruct g; reflexivity|].
  split; [destruct g; reflexivity|].
  cbn [VisitChildren_list]. unfold mbind, Run_bind, bind at 1. rewrite Hvisit. reflexivity.
Qed.

(** The function [f() { break  return nil }]: the whole of it is
    generated, the trap in place of the [break] and the return after it,
    and the error is on the generator when [Generate] returns. *)
Lemma loop_control_outside_loop_witness :
  let g := example_fullgen in
  let g' := expected_loop_error break_node g in
  @Visit example_params 1 break_node g = Some (tt, g') /\
  error_msg_ g' = Some "Expected loop"%string /\
  error_pos_ g' = 17 /\
  (exists g2,
     @Generate example_params 2 (function_node [break_node; return_nil_node] 0 0) g
       = Some (tt, g2) /\
     error_msg_ g2 = Some "Expected loop"%string /\ error_pos_ g2 = 17 /\
     infix [Emitb 0xcc; Ins Mmovq [Reg rax; Imm 0]; Ins Mmovq [Reg rsp; Reg rbp];
            Ins Mpop [Reg rbp]; Ins Mret [Imm 0]] (code_ g2)).
Proof.
  intros g g'.
  destruct (@loop_control_outside_loop example_params 0 break_node [return_nil_node] g)
    as (H1 & H2 & H3 & _).
  - left. split; reflexivity.
  - split; [exact H1|]. split; [exact H2|]. split; [exact H3|].
    eexists. split; [vm_compute; reflexivity|].
    split; [reflexivity|]. split; [reflexivity|].
    match goal with |- infix _ ?c => exists (take 44 c), (drop 49 c) end.
    vm_compute. reflexivity.
Defined.


(** ** [PowerOfTwo] and the capacity of literals *)

Lemma u32_double_pow k : 0 <= k -> u32 (Z.shiftl (2 ^ k) 1) = u32 (2 ^ (k + 1)).
Proof.
  intros Hk. rewrite Z.shiftl_mul_pow2 by lia. f_equal.
  rewrite Z.pow_add_r by lia. reflexivity.
Qed.

(** The loop leaves with the first power of two, from [2 ^ k] on, that is
    not below [value]. *)
Lemma PowerOfTwo_loop_spec fuel : forall k value,
  1 <= k <= 31 -> 32 <= Z.of_nat fuel + k -> value <= 2 ^ 31 ->
  exists j, k <= j <= 31 /\
    Utils.PowerOfTwo_loop fuel (2 ^ k) value = Some (2 ^ j) /\
    value <= 2 ^ j /\ (j = k \/ 2 ^ (j - 1) < value).
Proof.
  induction fuel as [|fuel IH]; intros k value Hk Hfuel Hv; [lia|].
  assert (0 < 2 ^ k) by (apply Z.pow_pos_nonneg; lia).
  cbn [Utils.PowerOfTwo_loop].
  destruct (Z.eqb_spec (2 ^ k) 0) as [E|_]; [lia|]. cbn [negb andb].
  destruct (Z.ltb_spec (2 ^ k) value) as [Hlt|Hge].
  - assert (k < 31).
    { destruct (Z.eq_dec k 31) as [->|]; [lia|lia]. }
    rewrite u32_double_pow by lia.
    rewrite u32_small.
    2: { split; [apply Z.pow_nonneg; lia|]. apply Z.pow_lt_mono_r; lia. }
    destruct (IH (k + 1) value ltac:(lia) ltac:(lia) Hv) as (j & Hj & E & Hle & Hmin).
    exists j. split; [lia|]. split; [exact E|]. split; [exact Hle|].
    right. destruct Hmin as [->|Hmin]; [|exact Hmin].
    replace (k + 1 - 1) with k by lia. exact Hlt.
  - exists k. split; [lia|]. split; [reflexivity|]. split; [lia|]. left. reflexivity.
Qed.

(** The loop of [PowerOfTwo] never needs more than 32 rounds. *)
Lemma PowerOfTwo_loop_total fuel : forall k value,
  1 <= k <= 32 -> 33 <= Z.of_nat fuel + k ->
  exists r, Utils.PowerOfTwo_loop fuel (u32 (2 ^ k)) value = Some r.
Proof.
  induction fuel as [|fuel IH]; intros k value Hk Hfuel.
  - assert (k = 32) as -> by lia. eexists. reflexivity.
  - cbn [Utils.PowerOfTwo_loop].
    destruct (negb (u32 (2 ^ k) =? 0) && (u32 (2 ^ k) <? value)) eqn:E; [|eauto].
    destruct (Z.eq_dec k 32) as [->|Hne]; [discriminate E|].
    rewrite (u32_small (2 ^ k)).
    2: { split; [apply Z.pow_nonneg; lia|]. apply Z.pow_lt_mono_r; lia. }
    rewrite u32_double_pow by lia. apply IH; lia.
Qed.

Lemma PowerOfTwo_total value : exists r, Utils.PowerOfTwo value = Some r.
Proof. apply (PowerOfTwo_loop_total 32 1 value); lia. Qed.

Lemma PowerOfTwo_least value :
  2 <= value <= 2 ^ 31 ->
  exists c, Utils.PowerOfTwo value = Some c /\ least_power_of_two_ge value c.
Proof.
  intros Hv.
  destruct (PowerOfTwo_loop_spec 32 1 value ltac:(lia) ltac:(lia) ltac:(lia))
    as (j & Hj & E & Hle & Hmin).
  exists (2 ^ j). split; [exact E|]. split; [exists j; split; [lia|reflexivity]|].
  split; [exact Hle|]. intros c' (k' & Hk' & ->) Hc'.
  apply Z.pow_le_mono_r; [lia|].
  destruct (Z.le_gt_cases j k') as [|Hgt]; [assumption|exfalso].
  assert (2 ^ k' <= 2 ^ (j - 1)) by (apply Z.pow_le_mono_r; lia).
  destruct Hmin as [->|Hmin]; [|lia].
  assert (k' = 0) as -> by lia. simpl in Hc'. lia.
Qed.






(** [VisitObjectLiteral] takes the capacity from the children of the node
    as well, and the pairs it stores from [keys()] and [values()]: whatever
    the pairs are, on a node without children the capacity is 2. *)
Lemma object_literal_counts_children (V : AstNode -> Run Fullgen unit) keys values g :
  visitor_type_ g = VisitorType.kValue ->
  let node := object_literal [] keys values in
  literal_capacity node = Some 2 /\
  VisitObjectLiteral V node g =
    (literal_header kTagObject 2;;
     rdx_s ← Spill_new rdx;
     assert_ (length keys =? length values)%nat;;
     set_pairs V rdx_s keys values;;
     Unspill_to rdx_s rax;;
     Spill_delete rdx_s) g.
Proof.
  intros Hmode node. split; [reflexivity|].
  unfold VisitObjectLiteral, literal_header, visiting_for_slot.
  change (literal_capacity node) with (Some 2).
  run_unfold. rewrite Hmode. cbn [lift_opt].
  destruct (movq rbx (Immediate (TagNumber 2)) g) as [[[] g1]|]; reflexivity.
Qed.


(** ** Allocation leaves the objects of the heap alone *)

Lemma space_set_space_other k k' sp h : k <> k' -> space k (set_space k' sp h) = space k h.
Proof. destruct k, k'; intros Hne; try reflexivity; congruence. Qed.

Lemma bumped_lookup i p even sp j q :
  pages_ sp !! i = Some p ->
  pages_ (bumped i p even sp) !! j = Some q ->
  exists q0, pages_ sp !! j = Some q0 /\ data_ q = data_ q0 /\ limit_ q = limit_ q0 /\
    ((j = i /\ q0 = p /\ top_ q = top_ p + even) \/ (j <> i /\ q = q0)).
Proof.
  intros Hp Hq. simpl in Hq.
  destruct (decide (i = j)) as [<-|Hne].
  - rewrite list_lookup_insert_eq in Hq by (eapply lookup_lt_Some; eauto).
    injection Hq as <-. exists p. simpl.
    split; [exact Hp|split; [reflexivity|split; [reflexivity|left; auto]]].
  - rewrite list_lookup_insert_ne in Hq by exact Hne.
    exists q. split; [exact Hq|split; [reflexivity|split; [reflexivity|right; auto]]].
Qed.

Lemma bumped_lookup_inv i p even sp j q0 :
  pages_ sp !! i = Some p ->
  pages_ sp !! j = Some q0 ->
  exists q, pages_ (bumped i p even sp) !! j = Some q /\
    data_ q = data_ q0 /\ limit_ q = limit_ q0 /\
    (top_ q = top_ q0 \/ (j = i /\ top_ q = top_ q0 + even)).
Proof.
  intros Hp Hq. simpl.
  destruct (decide (i = j)) as [<-|Hne].
  - rewrite list_lookup_insert_eq by (eapply lookup_lt_Some; eauto).
    eexists. split; [reflexivity|]. simpl. assert (q0 = p) as -> by congruence.
    split; [reflexivity|split; [reflexivity|right; auto]].
  - rewrite list_lookup_insert_ne by exact Hne. exists q0.
    split; [exact Hq|split; [reflexivity|split; [reflexivity|left; reflexivity]]].
Qed.

(** Bumping the top of a page with room keeps the heap well formed and
    hands out exactly the bytes between the old and the new top. *)
Lemma bumped_spec k i p even h :
  Heap_wf h ->
  pages_ (space k h) !! i = Some p ->
  0 <= even -> top_ p + even <= limit_ p ->
  let h' := set_space k (bumped i p even (space k h)) h in
  Heap_wf h' /\ keeps h h' /\ fresh_block h h' (top_ p) even.
Proof.
  intros Hwf Hp Hev Hroom h'.
  assert (Hsp : forall k0 j q, pages_ (space k0 h') !! j = Some q ->
            exists q0, pages_ (space k0 h) !! j = Some q0 /\
              data_ q = data_ q0 /\ limit_ q = limit_ q0 /\
              ((k0 = k /\ j = i /\ q0 = p /\ top_ q = top_ p + even) \/ q = q0)).
  { intros k0 j q Hq. unfold h' in Hq.
    destruct (decide (k0 = k)) as [->|Hne].
    - rewrite space_set_space in Hq.
      destruct (bumped_lookup _ _ _ _ _ _ Hp Hq) as (q0 & H0 & Hd & Hl & Hc).
      exists q0. repeat split; try assumption.
      destruct Hc as [(-> & -> & Ht)|[_ ->]]; auto.
    - rewrite space_set_space_other in Hq by exact Hne. exists q. auto. }
  assert (Hinv : forall k0 j q0, pages_ (space k0 h) !! j = Some q0 ->
            exists q, pages_ (space k0 h') !! j = Some q /\
              data_ q = data_ q0 /\ limit_ q = limit_ q0 /\
              (top_ q = top_ q0 \/ (k0 = k /\ j = i /\ top_ q = top_ q0 + even))).
  { intros k0 j q0 Hq. unfold h'.
    destruct (decide (k0 = k)) as [->|Hne].
    - rewrite space_set_space.
      destruct (bumped_lookup_inv _ _ even _ _ _ Hp Hq) as (q & H0 & Hd & Hl & Hc).
      exists q. repeat split; try assumption.
      destruct Hc as [Ht|[-> Ht]]; auto.
    - rewrite space_set_space_other by exact Hne. exists q0. auto. }
  pose proof (hw_space h Hwf k) as [Hsel Hpages Hps].
  pose proof (proj1 (Forall_lookup _ _) Hpages _ _ Hp) as Hok. unfold Page_ok in Hok.
  split; [|split].
  - split.
    + intros k0. pose proof (hw_space h Hwf k0) as [Hsel0 Hpages0 Hps0].
      unfold h'. destruct (decide (k0 = k)) as [->|Hne].
      * rewrite space_set_space. split; simpl.
        -- rewrite length_insert. eapply lookup_lt_Some; eauto.
        -- apply Forall_lookup. intros j q Hq.
           destruct (bumped_lookup _ _ even _ _ _ Hp Hq) as (q0 & H0 & Hd & Hl & Hc).
           pose proof (proj1 (Forall_lookup _ _) Hpages0 _ _ H0) as Hok0.
           unfold Page_ok in *.
           destruct Hc as [(-> & -> & Ht)|[_ ->]]; lia.
        -- exact Hps0.
      * rewrite space_set_space_other by exact Hne. split; assumption.
    + intros k0. pose proof (hw_small h Hwf k0) as Hs. unfold h'.
      destruct (decide (k0 = k)) as [->|Hne];
        [rewrite space_set_space|rewrite space_set_space_other by exact Hne]; exact Hs.
    + intros k1 j1 q1 k2 j2 q2 H1 H2 Hne.
      destruct (Hsp _ _ _ H1) as (a1 & Ha1 & Hd1 & Hl1 & _).
      destruct (Hsp _ _ _ H2) as (a2 & Ha2 & Hd2 & Hl2 & _).
      pose proof (hw_apart h Hwf _ _ _ _ _ _ Ha1 Ha2 Hne) as Hap.
      unfold apart in *. lia.
    + intros k0 j q Hq.
      destruct (Hsp _ _ _ Hq) as (q0 & H0 & Hd & Hl & _).
      pose proof (hw_below h Hwf _ _ _ H0) as Hb.
      replace (sys_next h') with (sys_next h) by (unfold h'; destruct k; reflexivity).
      lia.
  - intros x (k0 & j & q0 & Hq & Hx).
    split; [|unfold h'; destruct k; reflexivity].
    destruct (Hinv _ _ _ Hq) as (q & Hq' & Hd & Hl & Ht).
    exists k0, j, q. split; [exact Hq'|]. destruct Ht as [Ht|(_ & _ & Ht)]; lia.
  - intros x Hx. split.
    + destruct (Hinv _ _ _ Hp) as (q & Hq' & Hd & Hl & Ht).
      exists k, i, q. split; [exact Hq'|].
      destruct Ht as [Ht|(_ & _ & Ht)]; [|lia].
      exfalso. unfold h' in Hq'. rewrite space_set_space in Hq'. simpl in Hq'.
      rewrite list_lookup_insert_eq in Hq' by (eapply lookup_lt_Some; eauto).
      injection Hq' as <-. simpl in Ht. lia.
    + intros (k0 & j & q & Hq & Hxq).
      destruct (decide (k0 = k /\ j = i)) as [[-> ->]|Hne].
      * assert (q = p) as -> by congruence. lia.
      * assert (Hap : apart q p).
        { apply (hw_apart h Hwf k0 j q k i p Hq Hp). intros -> ->. apply Hne. auto. }
        pose proof (hw_space h Hwf k0) as [_ Hpages0 _].
        pose proof (proj1 (Forall_lookup _ _) Hpages0 _ _ Hq) as Hokq.
        unfold apart, Page_ok in *. lia.
Qed.

Lemma keeps_refl h : keeps h h.
Proof. intros x Hx. auto. Qed.

Lemma keeps_trans h1 h2 h3 : keeps h1 h2 -> keeps h2 h3 -> keeps h1 h3.
Proof.
  intros H12 H23 x Hx. destruct (H12 x Hx) as [Hu He].
  destruct (H23 x Hu) as [Hu' He']. split; [exact Hu'|congruence].
Qed.

(** A heap with the same pages, in which the spaces may have selected
    other pages. *)
Lemma Heap_wf_same_pages h h' :
  (forall k, pages_ (space k h') = pages_ (space k h) /\
             page_size_ (space k h') = page_size_ (space k h) /\
             (selected_ (space k h') < length (pages_ (space k h)))%nat) ->
  sys_next h' = sys_next h ->
  Heap_wf h -> Heap_wf h'.
Proof.
  intros Hsame Hsys Hwf. split.
  - intros k. destruct (Hsame k) as (Hp & Hs & Hsel).
    destruct (hw_space h Hwf k) as [? ? ?].
    split; [rewrite Hp; exact Hsel|rewrite Hp; assumption|rewrite Hs; assumption].
  - intros k. destruct (Hsame k) as (_ & -> & _). apply (hw_small h Hwf).
  - intros k i p k' j q Hp Hq Hne.
    rewrite (proj1 (Hsame k)) in Hp. rewrite (proj1 (Hsame k')) in Hq.
    exact (hw_apart h Hwf _ _ _ _ _ _ Hp Hq Hne).
  - intros k i p Hp. rewrite (proj1 (Hsame k)) in Hp. rewrite Hsys.
    exact (hw_below h Hwf _ _ _ Hp).
Qed.

Lemma keeps_same_pages h h' :
  (forall k, pages_ (space k h') = pages_ (space k h)) -> mem h' = mem h -> keeps h h'.
Proof.
  intros Hsame Hmem x (k & i & p & Hp & Hx). split; [|rewrite Hmem; reflexivity].
  exists k, i, p. rewrite Hsame. auto.
Qed.

Lemma used_same_pages h h' x :
  (forall k, pages_ (space k h') = pages_ (space k h)) -> used h' x -> used h x.
Proof.
  intros Hsame (k & i & p & Hp & Hx). exists k, i, p. rewrite <- Hsame. auto.
Qed.

Lemma set_space_twice k a b h : set_space k a (set_space k b h) = set_space k a h.
Proof. destruct k; reflexivity. Qed.

(** [Space::AddPage] pushes a page of which nothing is handed out yet. *)
Lemma AddPage_spec k size h :
  Heap_wf h -> 0 < size <= 2 ^ 31 ->
  let sp := space k h in
  let rs := Utils.RoundUp size (page_size_ sp) in
  exists h',
    AddPage k size h = Some (tt, h') /\
    Heap_wf h' /\ keeps h h' /\ (forall x, used h' x -> used h x) /\ mem h' = mem h /\
    size <= rs /\
    selected_ (space k h') = length (pages_ sp) /\
    pages_ (space k h') !! length (pages_ sp) = Some (Page_new (sys_next h) rs).
Proof.
  intros Hwf Hsize sp rs.
  pose proof (hw_space h Hwf k) as [Hsel Hpages Hps]. fold sp in Hsel, Hpages, Hps.
  pose proof (hw_small h Hwf k) as Hsmall. fold sp in Hsmall.
  destruct (RoundUp_multiple size (page_size_ sp) ltac:(lia) ltac:(lia) ltac:(lia))
    as [_ Hrs]. fold rs in Hrs.
  set (sp' := MkSpace (pages_ sp ++ [Page_new (sys_next h) rs]) (length (pages_ sp))
                (page_size_ sp) (u32 (size_ sp + rs)) (size_limit_ sp)).
  set (h' := set_space k sp' (set_sys_next (sys_next h + rs) h)).
  assert (Hother : forall k0, k0 <> k -> space k0 h' = space k0 h).
  { intros k0 Hne. unfold h'. rewrite space_set_space_other by exact Hne.
    destruct k0; reflexivity. }
  assert (Hthis : space k h' = sp') by (unfold h'; apply space_set_space).
  assert (Hsys : sys_next h' = sys_next h + rs) by (unfold h'; destruct k; reflexivity).
  assert (Hlook : forall k0 j q, pages_ (space k0 h') !! j = Some q ->
            pages_ (space k0 h) !! j = Some q \/
            (k0 = k /\ j = length (pages_ sp) /\ q = Page_new (sys_next h) rs)).
  { intros k0 j q Hq. destruct (decide (k0 = k)) as [->|Hne].
    - rewrite Hthis in Hq. simpl in Hq.
      apply lookup_app_Some in Hq. destruct Hq as [Hq|[Hge Hq]]; [left; exact Hq|].
      right. apply list_lookup_singleton_Some in Hq. destruct Hq as [Hj <-].
      split; [reflexivity|split; [|reflexivity]]. fold sp in Hge. lia.
    - rewrite Hother in Hq by exact Hne. left; exact Hq. }
  exists h'. split; [|split; [|split; [|split; [|split; [|split; [|split]]]]]].
  - unfold AddPage, new_chars. run_unfold. destruct k; reflexivity.
  - split.
    + intros k0. destruct (decide (k0 = k)) as [->|Hne].
      * rewrite Hthis. split; simpl.
        -- rewrite length_app. simpl. lia.
        -- apply Forall_app. split; [exact Hpages|].
           constructor; [|constructor]. unfold Page_ok, Page_new. simpl. lia.
        -- exact Hps.
      * rewrite Hother by exact Hne. apply (hw_space h Hwf).
    + intros k0. destruct (decide (k0 = k)) as [->|Hne].
      * rewrite Hthis. exact Hsmall.
      * rewrite Hother by exact Hne. apply (hw_small h Hwf).
    + intros k1 j1 q1 k2 j2 q2 H1 H2 Hne.
      destruct (Hlook _ _ _ H1) as [H1'|(-> & -> & ->)];
        destruct (Hlook _ _ _ H2) as [H2'|(-> & -> & ->)].
      * exact (hw_apart h Hwf _ _ _ _ _ _ H1' H2' Hne).
      * pose proof (hw_below h Hwf _ _ _ H1'). left. simpl. lia.
      * pose proof (hw_below h Hwf _ _ _ H2'). right. simpl. lia.
      * exfalso. apply Hne; reflexivity.
    + intros k0 j q Hq. rewrite Hsys.
      destruct (Hlook _ _ _ Hq) as [Hq'|(-> & -> & ->)].
      * pose proof (hw_below h Hwf _ _ _ Hq'). lia.
      * simpl. lia.
  - intros x (k0 & j & q & Hq & Hx). split; [|unfold h'; destruct k; reflexivity].
    exists k0, j, q. split; [|exact Hx].
    destruct (decide (k0 = k)) as [->|Hne].
    + rewrite Hthis. simpl. apply lookup_app_l_Some. exact Hq.
    + rewrite Hother by exact Hne. exact Hq.
  - intros x (k0 & j & q & Hq & Hx).
    destruct (Hlook _ _ _ Hq) as [Hq'|(-> & -> & ->)].
    + exists k0, j, q. auto.
    + simpl in Hx. lia.
  - unfold h'. destruct k; reflexivity.
  - lia.
  - rewrite Hthis. reflexivity.
  - rewrite Hthis. simpl. rewrite lookup_app_r by lia. rewrite Nat.sub_diag. reflexivity.
Qed.

(** [Space::Allocate] returns, and the block it returns is new. *)
Lemma Allocate_spec k bytes h :
  Heap_wf h -> 0 < bytes <= 2 ^ 31 - 2 ->
  exists r h',
    Allocate k bytes h = Some (r, h') /\
    Heap_wf h' /\ keeps h h' /\ fresh_block h h' r bytes /\ mem h' = mem h.
Proof.
  intros Hwf Hb.
  pose proof (even_size_small bytes ltac:(lia)) as Hev. unfold even_size in Hev.
  pose proof (Z.mod_pos_bound bytes 2 ltac:(lia)) as Hm.
  pose proof (hw_space h Hwf k) as [Hsel Hpages Hps].
  destruct (lookup_lt_is_Some_2 _ _ Hsel) as [cur Hcur].
  unfold Allocate. rewrite Hev. set (even := bytes + bytes mod 2).
  run_unfold. unfold selected_page. rewrite Hcur.
  destruct (top_ cur + even <=? limit_ cur) eqn:Hfit; simpl.
  - apply Z.leb_le in Hfit.
    destruct (bumped_spec k _ cur even h Hwf Hcur ltac:(lia) Hfit) as (Hw & Hk & Hf).
    unfold bump, selected_page. rewrite Hcur. simpl.
    eexists _, _. split; [reflexivity|].
    split; [exact Hw|]. split; [exact Hk|].
    split; [|destruct k; reflexivity].
    intros x Hx. apply Hf. lia.
  - destruct (find_gap_total (pages_ (space k h)) even (pages_ (space k h))
                (selected_ (space k h)) 0%nat Hsel eq_refl) as (sel' & null & Hfg).
    rewrite Hfg. simpl.
    pose proof (find_gap_bound _ _ _ _ _ _ _ Hsel
                  (eq_refl : (0 + length (pages_ (space k h)))%nat = _) Hfg) as Hsel'.
    set (h1 := set_space k (select sel' (space k h)) h).
    assert (Hsame1 : forall k0, pages_ (space k0 h1) = pages_ (space k0 h) /\
              page_size_ (space k0 h1) = page_size_ (space k0 h) /\
              (selected_ (space k0 h1) < length (pages_ (space k0 h)))%nat).
    { intros k0. unfold h1. destruct (decide (k0 = k)) as [->|Hne].
      - rewrite space_set_space. simpl. auto.
      - rewrite space_set_space_other by exact Hne.
        destruct (hw_space h Hwf k0) as [? _ _]. auto. }
    assert (Hwf1 : Heap_wf h1).
    { apply (Heap_wf_same_pages h); [exact Hsame1|unfold h1; destruct k; reflexivity|exact Hwf]. }
    destruct null.
    + set (h2 := if size_ (space k h) >? size_limit_ (space k h)
                 then set_needs_gc (gc_kind k) h1 else h1).
      assert (Hsp2 : forall k0, space k0 h2 = space k0 h1).
      { intros k0. unfold h2. destruct (_ >? _); [destruct k0; reflexivity|reflexivity]. }
      assert (Hwf2 : Heap_wf h2).
      { apply (Heap_wf_same_pages h1); [|unfold h2; destruct (_ >? _); reflexivity|exact Hwf1].
        intros k0. rewrite Hsp2. destruct (hw_space h1 Hwf1 k0) as [? _ _]. auto. }
      destruct (AddPage_spec k even h2 Hwf2 ltac:(lia))
        as (h3 & HAdd & Hwf3 & Hk3 & Hu3 & Hm3 & Hrs & Hsel3 & Hp3).
      assert (Hrun : (when (size_ (space k h) >? size_limit_ (space k h))
                        (modify (set_needs_gc (gc_kind k)));; AddPage k even) h1
                     = Some (tt, h3)).
      { unfold h2 in HAdd. run_unfold. destruct (_ >? _); exact HAdd. }
      run_unfold. unfold ret in Hrun. fold h1. rewrite Hrun. simpl.
      unfold bump, selected_page. rewrite Hsel3, Hp3. simpl.
      destruct (bumped_spec k _ _ even h3 Hwf3 Hp3 ltac:(lia) ltac:(simpl; lia))
        as (Hw & Hk & Hf).
      assert (H12 : keeps h h2).
      { apply keeps_same_pages.
        - intros k0. rewrite Hsp2. apply Hsame1.
        - unfold h2, h1. destruct (_ >? _); destruct k; reflexivity. }
      eexists _, _. split; [reflexivity|].
      split; [exact Hw|].
      split; [exact (keeps_trans _ _ _ (keeps_trans _ _ _ H12 Hk3) Hk)|].
      split.
      * intros x Hx. destruct (Hf x ltac:(simpl; lia)) as [Hu Hn].
        split; [exact Hu|]. intros Hux. apply Hn. apply Hk3. apply H12. exact Hux.
      * transitivity (mem h3); [destruct k; reflexivity|]. rewrite Hm3. unfold h2, h1.
        destruct (_ >? _); destruct k; reflexivity.
    + destruct (find_gap_room _ _ _ _ _ _ Hfg) as (p & Hp & Hroom).
      assert (Hs1 : space k h1 = select sel' (space k h)) by apply space_set_space.
      unfold bump, selected_page. rewrite Hs1. simpl. rewrite Hp. simpl.
      destruct (bumped_spec k sel' p even h Hwf Hp ltac:(lia) Hroom) as (Hw & Hk & Hf).
      eexists _, _. split; [reflexivity|].
      unfold h1. rewrite set_space_twice.
      split; [exact Hw|]. split; [exact Hk|].
      split; [|destruct k; reflexivity].
      intros x Hx. apply Hf. lia.
Qed.

(** ** Stores and their footprints *)

Lemma writes_in_weaken f lo hi lo' hi' :
  writes_in f lo hi -> lo' <= lo -> hi <= hi' -> writes_in f lo' hi'.
Proof. intros Hf Hlo Hhi m x Hx. apply Hf. lia. Qed.

Lemma writes_in_comp f g lo hi :
  writes_in f lo hi -> writes_in g lo hi -> writes_in (fun m => g (f m)) lo hi.
Proof. intros Hf Hg m x Hx. rewrite Hg by exact Hx. apply Hf. exact Hx. Qed.

Lemma store_le_writes a n v : writes_in (store_le a n v) a (a + Z.of_nat n).
Proof. intros m x Hx. apply load8_store_le_other. exact Hx. Qed.

Lemma memcpy_writes src : forall dst,
  writes_in (memcpy dst src) dst (dst + Z.of_nat (length src)).
Proof.
  induction src as [|c src IH]; intros dst m x Hx; [reflexivity|].
  cbn [memcpy]. rewrite IH by (cbn [length] in Hx; lia).
  apply load8_store_le_other. cbn [length] in Hx. lia.
Qed.

Lemma memset0_writes n : forall dst, writes_in (memset0 dst n) dst (dst + Z.of_nat n).
Proof.
  induction n as [|n IH]; intros dst m x Hx; [reflexivity|].
  cbn [memset0]. rewrite IH by lia. apply load8_store_le_other. lia.
Qed.

Lemma nil_fill_writes map n : forall i,
  writes_in (nil_fill map i n) (map + i + 16) (map + i + 16 + 8 * Z.of_nat n).
Proof.
  induction n as [|n IH]; intros i m x Hx; [reflexivity|].
  cbn [nil_fill]. rewrite IH by lia. apply load8_store_le_other. simpl. lia.
Qed.

Lemma put_values_writes values : forall slot,
  writes_in (put_values slot values) slot (slot + 8 * Z.of_nat (length values)).
Proof.
  induction values as [|v values IH]; intros slot m x Hx; [reflexivity|].
  cbn [put_values]. rewrite IH by (cbn [length] in Hx; lia).
  apply load8_store_le_other. cbn [length] in Hx. simpl. lia.
Qed.

Lemma byte_of_Z_to_N c : byte_of_Z (Z.of_N (Byte.to_N c)) = c.
Proof.
  unfold byte_of_Z. pose proof (Byte.to_N_bounded c) as Hc.
  rewrite Z.mod_small by lia. rewrite N2Z.id. rewrite Byte.of_to_N. reflexivity.
Qed.

Lemma byte_of_Z_mod z : byte_of_Z (z mod 256) = byte_of_Z z.
Proof. unfold byte_of_Z. rewrite Z.mod_mod by lia. reflexivity. Qed.

(** What [memcpy] copied is read back. *)
Lemma read_bytes_memcpy src : forall dst m,
  read_bytes (memcpy dst src m) dst (length src) = src.
Proof.
  induction src as [|c src IH]; intros dst m; [reflexivity|].
  cbn [memcpy length read_bytes]. rewrite IH. f_equal.
  rewrite (memcpy_writes src (dst + 1)) by lia.
  unfold store8. rewrite load8_store_le.
  assert ((dst <=? dst) && (dst <? dst + Z.of_nat 1) = true) as ->
    by (apply andb_true_iff; split; [apply Z.leb_le|apply Z.ltb_lt]; lia).
  rewrite Z.sub_diag. simpl (256 ^ 0). rewrite Z.div_1_r.
  rewrite byte_of_Z_mod. apply byte_of_Z_to_N.
Qed.

(** The slots that the loop of [HContext::New] filled. *)
Lemma put_values_lookup values : forall slot m i v,
  values !! i = Some v ->
  load64 (put_values slot values m) (slot + 8 * Z.of_nat i) = u64 v.
Proof.
  induction values as [|w values IH]; intros slot m i v Hi; [discriminate|].
  cbn [put_values]. destruct i as [|i].
  - injection Hi as ->. unfold load64.
    rewrite (load_le_ext 8 _ (store64 slot v m)).
    + replace (slot + 8 * Z.of_nat 0) with slot by lia.
      unfold store64. rewrite load_le_store_same. reflexivity.
    + intros j Hj. apply put_values_writes. lia.
  - replace (slot + 8 * Z.of_nat (S i)) with (slot + 8 + 8 * Z.of_nat i) by lia.
    apply IH. exact Hi.
Qed.

(** The tag byte of a header word. *)
Lemma tag_byte t g : Z.lor (tag_value t) (Z.shiftl g 8) mod 256 = tag_value t.
Proof.
  change 256 with (2 ^ 8). rewrite <- Z.land_ones by lia.
  rewrite Z.land_lor_distr_l. rewrite !Z.land_ones by lia.
  rewrite Z.shiftl_mul_pow2 by lia. rewrite Z_mod_mult, Z.lor_0_r.
  apply Z.mod_small. destruct t; simpl; lia.
Qed.

(** ** The object constructors *)

(** A store into a block that was not handed out before. *)
Lemma poke_fresh h0 h f lo hi :
  Heap_wf h -> keeps h0 h ->
  writes_in f lo hi -> (forall x, lo <= x < hi -> ~ used h0 x) ->
  let h' := set_mem (f (mem h)) h in
  poke f h = Some (tt, h') /\ Heap_wf h' /\ keeps h0 h' /\
  (forall x, used h' x <-> used h x).
Proof.
  intros Hwf Hk Hf Hfresh h'.
  assert (Hsp : forall k, space k h' = space k h) by (intros []; reflexivity).
  split; [reflexivity|]. split; [|split].
  - apply (Heap_wf_same_pages h); [|reflexivity|exact Hwf].
    intros k. rewrite Hsp. destruct (hw_space h Hwf k) as [? _ _]. auto.
  - intros x Hx. destruct (Hk x Hx) as [Hu He]. split.
    + destruct Hu as (k & i & p & Hp & Hr). exists k, i, p. rewrite Hsp. auto.
    + rewrite <- He. simpl. apply Hf.
      destruct (Z.lt_ge_cases x lo) as [|Hlo]; [auto|].
      destruct (Z.lt_ge_cases x hi) as [Hhi|]; [|auto].
      exfalso. apply (Hfresh x); [lia|exact Hx].
  - intros x. split; intros (k & i & p & Hp & Hr); exists k, i, p;
      [rewrite <- Hsp|rewrite Hsp]; auto.
Qed.

Section Constructors.
Context `{Externals}.

(** [Heap::AllocateTagged]: a new block with the tag in its first byte. *)
Lemma AllocateTagged_spec tag tenure bytes h :
  Heap_wf h -> 0 <= bytes <= 2 ^ 31 - 10 ->
  exists r h',
    AllocateTagged tag tenure bytes h = Some (r, h') /\
    Heap_wf h' /\ keeps h h' /\ fresh_block h h' r (bytes + 8) /\
    load8 (mem h') r = tag_value tag /\
    (forall x, x < r \/ r + 8 <= x -> load8 (mem h') x = load8 (mem h) x).
Proof.
  intros Hwf Hb. unfold AllocateTagged.
  rewrite u32_small by lia.
  destruct (Allocate_spec (tenure_space tenure) (bytes + 8) h Hwf ltac:(lia))
    as (r & h1 & Hrun & Hwf1 & Hk1 & Hf1 & Hm1).
  set (qtag := match tenure with
               | kTenureOld => Z.lor (tag_value tag) (Z.shiftl kMinOldSpaceGeneration 8)
               | kTenureNew => tag_value tag
               end).
  destruct (poke_fresh h h1 (store64 r qtag) r (r + 8) Hwf1 Hk1 (store_le_writes r 8 qtag))
    as (Hp & Hwf2 & Hk2 & Hu2).
  { intros x Hx. apply Hf1. lia. }
  exists r, (set_mem (store64 r qtag (mem h1)) h1).
  split; [|split; [exact Hwf2|split; [exact Hk2|split; [|split]]]].
  - run_unfold. rewrite Hrun. unfold poke. run_unfold. reflexivity.
  - intros x Hx. destruct (Hf1 x Hx) as [Hu Hn]. split; [apply Hu2; exact Hu|exact Hn].
  - simpl. unfold store64. rewrite load8_store_le.
    assert ((r <=? r) && (r <? r + Z.of_nat 8) = true) as ->
      by (apply andb_true_iff; split; [apply Z.leb_le|apply Z.ltb_lt]; lia).
    rewrite Z.sub_diag. simpl (256 ^ 0). rewrite Z.div_1_r.
    unfold qtag. destruct tenure; [|apply tag_byte].
    apply Z.mod_small. destruct tag; simpl; lia.
  - intros x Hx. simpl. rewrite <- Hm1. apply (store_le_writes r 8 qtag). exact Hx.
Qed.

(** An object that is allocated and then filled behind its header. *)
Lemma alloc_then_write tag tenure bytes (W : Z -> Mem -> Mem) h :
  Heap_wf h -> 0 <= bytes <= 2 ^ 31 - 10 ->
  (forall r, writes_in (W r) (r + 8) (r + bytes + 8)) ->
  exists r h1,
    AllocateTagged tag tenure bytes h = Some (r, h1) /\
    let h' := set_mem (W r (mem h1)) h1 in
    Heap_wf h' /\ keeps h h' /\ load8 (mem h') r = tag_value tag /\
    forall x, r <= x < r + bytes + 8 -> used h' x.
Proof.
  intros Hwf Hb HW.
  destruct (AllocateTagged_spec tag tenure bytes h Hwf Hb)
    as (r & h1 & Hrun & Hwf1 & Hk1 & Hf1 & Htag & _).
  destruct (poke_fresh h h1 (W r) (r + 8) (r + bytes + 8) Hwf1 Hk1 (HW r))
    as (_ & Hwf2 & Hk2 & Hu2).
  { intros x Hx. apply Hf1. lia. }
  exists r, h1. split; [exact Hrun|]. simpl.
  split; [exact Hwf2|]. split; [exact Hk2|]. split.
  - rewrite (HW r) by lia. exact Htag.
  - intros x Hx. apply Hu2. apply Hf1. lia.
Qed.

Lemma load32_store64 a v m : 0 <= v < 2 ^ 32 -> load32 (store64 a v m) a = v.
Proof.
  intros Hv. unfold load32, store64.
  rewrite (load_le_digits 4 _ a v).
  - apply Z.mod_small. simpl. lia.
  - intros i Hi. rewrite load8_store_le.
    assert ((a <=? a + i) && (a + i <? a + Z.of_nat 8) = true) as ->
      by (apply andb_true_iff; split; [apply Z.leb_le|apply Z.ltb_lt]; lia).
    replace (a + i - a) with i by lia. reflexivity.
Qed.

(** [HString::New]: a string object with the given characters. *)
Lemma HString_New_builds tenure value :
  Z.of_nat (length value) <= 2 ^ 30 ->
  builds (HString_New tenure value)
    (object_at (fun m a => is_string m a value) (24 + Z.of_nat (length value))).
Proof.
  intros Hlen h Hwf. set (len := Z.of_nat (length value)) in *.
  set (W := fun r m => memcpy (r + HString.kValueOffset) value
              (store64 (r + HString.kLengthOffset) len
                 (store64 (r + HString.kHashOffset) 0 m))).
  destruct (alloc_then_write kTagString tenure (len + 24) W h Hwf ltac:(lia))
    as (r & h1 & Hrun & Hwf' & Hk & Htag & Hused).
  { intros r m x Hx. unfold W, HString.kValueOffset, HString.kLengthOffset, HString.kHashOffset.
    rewrite memcpy_writes by (fold len; lia).
    unfold store64. rewrite !load8_store_le_other by (simpl; lia). reflexivity. }
  exists r, (set_mem (W r (mem h1)) h1).
  split; [|split; [exact Hwf'|split; [exact Hk|split]]].
  - unfold HString_New, HString_New_raw. fold len. rewrite (u32_small (len + 24)) by lia.
    run_unfold. rewrite Hrun. reflexivity.
  - split; [exact Htag|]. simpl. unfold W, HString.kValueOffset, HString.kLengthOffset.
    split.
    + unfold HString_Length, load32.
      rewrite (load_le_ext 4 _ (store64 (r + 16) len (store64 (r + HString.kHashOffset) 0 (mem h1)))).
      * apply load32_store64. lia.
      * intros i Hi. apply memcpy_writes. lia.
    + unfold HString_Value. apply read_bytes_memcpy.
  - intros x Hx. apply Hused. lia.
Qed.

(** [HBoolean::New]. *)
Lemma HBoolean_New_builds tenure value :
  builds (HBoolean_New tenure value) (object_at (fun m a => is_boolean m a value) 16).
Proof.
  intros h Hwf.
  set (W := fun r => store8 (r + 8) (if value then 1 else 0)).
  destruct (alloc_then_write kTagBoolean tenure 8 W h Hwf ltac:(lia))
    as (r & h1 & Hrun & Hwf' & Hk & Htag & Hused).
  { intros r m x Hx. unfold W, store8. apply load8_store_le_other. simpl. lia. }
  exists r, (set_mem (W r (mem h1)) h1).
  split; [|split; [exact Hwf'|split; [exact Hk|split]]].
  - unfold HBoolean_New. run_unfold. rewrite Hrun. reflexivity.
  - split; [exact Htag|]. simpl. unfold W, store8. rewrite load8_store_le.
    assert ((r + 8 <=? r + 8) && (r + 8 <? r + 8 + Z.of_nat 1) = true) as ->
      by (apply andb_true_iff; split; [apply Z.leb_le|apply Z.ltb_lt]; lia).
    rewrite Z.sub_diag. destruct value; reflexivity.
  - intros x Hx. apply Hused. lia.
Qed.

(** [HContext::New]: a context whose slots hold the values in order. *)
Lemma HContext_New_builds values :
  Z.of_nat (length values) <= 2 ^ 27 ->
  builds (HContext_New values)
    (fun ctx h' =>
       load8 (mem h') ctx = tag_value kTagContext /\
       load64 (mem h') (ctx + 16) = Z.of_nat (length values) /\
       forall i v, values !! i = Some v ->
         load64 (mem h') (ctx + GetIndexDisp (Z.of_nat i)) = u64 v).
Proof.
  intros Hlen h Hwf. set (n := Z.of_nat (length values)) in *.
  set (W := fun r m => put_values (r + 24) values
              (store64 (r + 16) n (store64 (r + 8) HNil_New m))).
  destruct (alloc_then_write kTagContext kTenureOld (16 + n * 8) W h Hwf ltac:(lia))
    as (r & h1 & Hrun & Hwf' & Hk & Htag & Hused).
  { intros r m x Hx. unfold W.
    rewrite put_values_writes by (fold n; lia).
    unfold store64. rewrite !load8_store_le_other by (simpl; lia). reflexivity. }
  exists r, (set_mem (W r (mem h1)) h1).
  split; [|split; [exact Hwf'|split; [exact Hk|split; [exact Htag|split]]]].
  - unfold HContext_New. fold n. rewrite (u32_small (n * 8)) by lia.
    rewrite (u32_small (16 + n * 8)) by lia.
    run_unfold. rewrite Hrun. reflexivity.
  - simpl. unfold W, load64.
    rewrite (load_le_ext 8 _ (store64 (r + 16) n (store64 (r + 8) HNil_New (mem h1)))).
    + unfold store64. rewrite load_le_store_same. apply Z.mod_small. simpl. lia.
    + intros i Hi. apply put_values_writes. lia.
  - intros i v Hi. simpl. unfold W, GetIndexDisp.
    replace (r + 8 * (3 + Z.of_nat i)) with (r + 24 + 8 * Z.of_nat i) by lia.
    apply put_values_lookup. exact Hi.
Qed.

(** [HObject::NewEmpty] allocates the object and its map and fills both. *)
Lemma HObject_NewEmpty_builds : builds HObject_NewEmpty (fun _ _ => True).
Proof.
  intros h Hwf. unfold HObject_NewEmpty.
  change (u32 (Z.shiftl 16 4 + 8)) with 264.
  change (u32 (Z.shiftl 16 4)) with 256.
  change (Z.to_nat ((256 + 7) / 8)) with 32%nat.
  destruct (AllocateTagged_spec kTagObject kTenureNew 16 h Hwf ltac:(lia))
    as (obj & h1 & Hrun1 & Hwf1 & Hk1 & Hf1 & _).
  destruct (AllocateTagged_spec kTagMap kTenureNew 264 h1 Hwf1 ltac:(lia))
    as (map & h2 & Hrun2 & Hwf2 & Hk2 & Hf2 & _).
  set (W := fun m =>
         nil_fill map 0 32
           (memset0 (map + HMap.kSpaceOffset) (Z.to_nat 256)
              (store64 (map + HMap.kSizeOffset) 16
                 (store64 (obj + HObject.kMapOffset) map
                    (store64 (obj + HObject.kMaskOffset) (Z.shiftl (16 - 1) 3) m))))).
  assert (HW : forall m x, used h x -> load8 (W m) x = load8 m x).
  { intros m x Hx.
    assert (Hobj : x < obj \/ obj + 24 <= x).
    { destruct (Z.lt_ge_cases x obj) as [|Hlo]; [auto|].
      destruct (Z.lt_ge_cases x (obj + 24)) as [Hhi|]; [|auto].
      exfalso. apply (Hf1 x); [simpl; lia|exact Hx]. }
    assert (Hmap : x < map \/ map + 272 <= x).
    { destruct (Z.lt_ge_cases x map) as [|Hlo]; [auto|].
      destruct (Z.lt_ge_cases x (map + 272)) as [Hhi|]; [|auto].
      exfalso. apply (Hf2 x); [simpl; lia|apply Hk1; exact Hx]. }
    unfold W, HMap.kSpaceOffset, HMap.kSizeOffset, HObject.kMapOffset, HObject.kMaskOffset.
    rewrite nil_fill_writes by (simpl; lia).
    rewrite memset0_writes by (simpl; lia).
    unfold store64. rewrite !load8_store_le_other by (simpl; lia). reflexivity. }
  pose proof (keeps_trans _ _ _ Hk1 Hk2) as Hk.
  assert (Hsp : forall k, space k (set_mem (W (mem h2)) h2) = space k h2)
    by (intros []; reflexivity).
  exists obj, (set_mem (W (mem h2)) h2).
  split; [|split; [|split; [|exact I]]].
  - run_unfold. rewrite Hrun1, Hrun2. reflexivity.
  - apply (Heap_wf_same_pages h2); [|reflexivity|exact Hwf2].
    intros k. rewrite Hsp. destruct (hw_space h2 Hwf2 k) as [? _ _]. auto.
  - intros x Hx. destruct (Hk x Hx) as [Hu He]. split.
    + destruct Hu as (k & i & p & Hp & Hr). exists k, i, p. rewrite Hsp. auto.
    + simpl. rewrite HW by exact Hx. exact He.
Qed.

Lemma object_at_keeps (P : Mem -> Z -> Prop) n a h h' :
  (forall m m', (forall x, a <= x < a + n -> load8 m' x = load8 m x) -> P m a -> P m' a) ->
  keeps h h' -> object_at P n a h -> object_at P n a h'.
Proof.
  intros Hlocal Hk [HP Hused]. split.
  - apply (Hlocal (mem h)); [|exact HP]. intros x Hx. apply Hk. apply Hused. exact Hx.
  - intros x Hx. apply Hk. apply Hused. exact Hx.
Qed.

(** A string object is the bytes of its header and of its characters. *)
Lemma is_string_local value a m m' :
  (forall x, a <= x < a + (24 + Z.of_nat (length value)) -> load8 m' x = load8 m x) ->
  is_string m a value -> is_string m' a value.
Proof.
  intros Hsame (Htag & Hlen & Hval). split; [|split].
  - rewrite Hsame by lia. exact Htag.
  - rewrite <- Hlen. unfold HString_Length, load32. apply load_le_ext.
    intros i Hi. apply Hsame. simpl in Hi. lia.
  - transitivity (read_bytes m (HString_Value a) (length value)); [|exact Hval].
    unfold HString_Value. apply read_bytes_ext.
    intros i Hi. apply Hsame. lia.
Qed.

Lemma is_boolean_local value a m m' :
  (forall x, a <= x < a + 16 -> load8 m' x = load8 m x) ->
  is_boolean m a value -> is_boolean m' a value.
Proof.
  intros Hsame (Htag & Hval). split; rewrite Hsame by lia; assumption.
Qed.

End Constructors.

(** ** The root context *)

Lemma on_heap_run {T U} (c : Run Heap T) (k : T -> Run Fullgen U) g a h' :
  c (heap_ g) = Some (a, h') ->
  (x ← on_heap c; k x) g = k a (set_heap_ h' g).
Proof. intros Hc. run_unfold. unfold on_heap. rewrite Hc. reflexivity. Qed.

Lemma root_context_Push_run {U} (k : Run Fullgen U) a g :
  (root_context_Push a;; k) g =
  k (set_root_context_ (root_context_ g ++ [a]) g).
Proof. reflexivity. Qed.

Lemma heap_set_root_context l g : heap_ (set_root_context_ l g) = heap_ g.
Proof. destruct g; reflexivity. Qed.

Lemma root_context_set_root_context l g : root_context_ (set_root_context_ l g) = l.
Proof. destruct g; reflexivity. Qed.

Lemma heap_set_heap h g : heap_ (set_heap_ h g) = h.
Proof. destruct g; reflexivity. Qed.

Lemma root_context_set_heap h g : root_context_ (set_heap_ h g) = root_context_ g.
Proof. destruct g; reflexivity. Qed.

(** One object is made and pushed to the root context. *)
Lemma push_built {Q : Z -> Heap -> Prop} (c : Run Heap Z) g :
  builds c Q -> Heap_wf (heap_ g) ->
  exists a g',
    Heap_wf (heap_ g') /\ keeps (heap_ g) (heap_ g') /\ Q a (heap_ g') /\
    root_context_ g' = root_context_ g ++ [a] /\
    (p ← on_heap c; root_context_Push p) g = Some (tt, g') /\
    forall U (k : Run Fullgen U), (p ← on_heap c; root_context_Push p;; k) g = k g'.
Proof.
  intros Hc Hwf. destruct (Hc _ Hwf) as (a & h' & Hrun & Hwf' & Hk & HQ).
  exists a, (set_root_context_ (root_context_ g ++ [a]) (set_heap_ h' g)).
  rewrite heap_set_root_context, heap_set_heap, root_context_set_root_context.
  split; [exact Hwf'|]. split; [exact Hk|]. split; [exact HQ|]. split; [reflexivity|].
  split.
  - rewrite (on_heap_run c _ g a h' Hrun). unfold root_context_Push, modify.
    rewrite root_context_set_heap. reflexivity.
  - intros U k. rewrite (on_heap_run c _ g a h' Hrun).
    rewrite root_context_Push_run. rewrite root_context_set_heap. reflexivity.
Qed.

Lemma string_object_keeps name a h h' :
  keeps h h' -> string_object name a h -> string_object name a h'.
Proof.
  intros Hk. apply object_at_keeps; [|exact Hk].
  intros m m' Hsame. apply is_string_local. exact Hsame.
Qed.

Lemma boolean_object_keeps value a h h' :
  keeps h h' -> boolean_object value a h -> boolean_object value a h'.
Proof.
  intros Hk. apply object_at_keeps; [|exact Hk].
  intros m m' Hsame. apply is_boolean_local. exact Hsame.
Qed.

Lemma root_built_holds names g : root_built names g -> root_holds names g.
Proof.
  intros (_ & global & t & f & strings & Hroot & [Ht _] & [Hf _] & Hs).
  exists global, t, f, strings.
  split; [exact Hroot|]. split; [exact Ht|]. split; [exact Hf|].
  eapply Forall2_impl; [exact Hs|]. intros a name [Hstr _]. exact Hstr.
Qed.

Section RootContext.
Context `{Externals}.

(** The first three pushes of [Fullgen::Fullgen]. *)
Lemma root_built_start g :
  Heap_wf (heap_ g) -> root_context_ g = [] ->
  exists g',
    root_built [] g' /\
    forall U (k : Run Fullgen U),
      (p ← on_heap HObject_NewEmpty; root_context_Push p;;
       p ← on_heap (HBoolean_New kTenureOld true); root_context_Push p;;
       p ← on_heap (HBoolean_New kTenureOld false); root_context_Push p;; k) g = k g'.
Proof.
  intros Hwf Hroot.
  destruct (push_built HObject_NewEmpty g HObject_NewEmpty_builds Hwf)
    as (a0 & g1 & Hwf1 & _ & _ & Hr1 & _ & Hstep1).
  destruct (push_built _ g1 (HBoolean_New_builds kTenureOld true) Hwf1)
    as (a1 & g2 & Hwf2 & _ & Ht & Hr2 & _ & Hstep2).
  destruct (push_built _ g2 (HBoolean_New_builds kTenureOld false) Hwf2)
    as (a2 & g3 & Hwf3 & Hk3 & Hf & Hr3 & _ & Hstep3).
  exists g3. split; [|intros U k; rewrite Hstep1, Hstep2, Hstep3; reflexivity].
  split; [exact Hwf3|]. exists a0, a1, a2, [].
  split; [rewrite Hr3, Hr2, Hr1, Hroot; reflexivity|].
  split; [exact (boolean_object_keeps _ _ _ _ Hk3 Ht)|].
  split; [exact Hf|constructor].
Qed.

(** One more type name. *)
Lemma root_built_push names name g :
  root_built names g ->
  Z.of_nat (length (list_byte_of_string name)) <= 2 ^ 30 ->
  exists g',
    root_built (names ++ [name]) g' /\
    (p ← on_heap (HString_New kTenureOld (list_byte_of_string name));
     root_context_Push p) g = Some (tt, g') /\
    forall U (k : Run Fullgen U),
      (p ← on_heap (HString_New kTenureOld (list_byte_of_string name));
       root_context_Push p;; k) g = k g'.
Proof.
  intros (Hwf & global & t & f & strings & Hroot & Ht & Hf & Hs) Hlen.
  destruct (push_built _ g (HString_New_builds kTenureOld _ Hlen) Hwf)
    as (a & g' & Hwf' & Hk & Hstr & Hr & Hlast & Hstep).
  exists g'. split; [|split; [exact Hlast|exact Hstep]].
  split; [exact Hwf'|]. exists global, t, f, (strings ++ [a]).
  split; [rewrite Hr, Hroot; reflexivity|].
  split; [exact (boolean_object_keeps _ _ _ _ Hk Ht)|].
  split; [exact (boolean_object_keeps _ _ _ _ Hk Hf)|].
  apply Forall2_app.
  - eapply Forall2_impl; [exact Hs|]. intros b name'. apply string_object_keeps. exact Hk.
  - constructor; [exact Hstr|constructor].
Qed.

(** [Fullgen::AllocateRoot] copies the list to the slots of a context. *)
Lemma AllocateRoot_spec names g :
  root_built names g -> Z.of_nat (length names) <= 2 ^ 26 ->
  exists root g',
    AllocateRoot g = Some (root, g') /\
    root_context_ g' = [] /\
    load8 (mem (heap_ g')) root = tag_value kTagContext /\
    load64 (mem (heap_ g')) (root + 16) = Z.of_nat (length (root_context_ g)) /\
    forall i name, names !! i = Some name ->
      exists a,
        root_context_ g !! (3 + i)%nat = Some a /\
        load64 (mem (heap_ g')) (root + GetIndexDisp (Z.of_nat (3 + i))) = u64 a /\
        is_string (mem (heap_ g')) a (list_byte_of_string name).
Proof.
  intros (Hwf & global & t & f & strings & Hroot & Ht & Hf & Hs) Hlen.
  pose proof (Forall2_length _ _ _ Hs) as Hl.
  destruct (HContext_New_builds (root_context_ g)) with (h := heap_ g)
    as (root & h' & Hrun & Hwf' & Hk & Htag & Hsize & Hslots).
  { rewrite Hroot. cbn [length]. lia. }
  { exact Hwf. }
  exists root, (set_root_context_ [] (set_heap_ h' g)).
  rewrite heap_set_root_context, heap_set_heap, root_context_set_root_context.
  split; [|split; [reflexivity|split; [exact Htag|split; [exact Hsize|]]]].
  - unfold AllocateRoot. run_unfold. unfold on_heap. rewrite Hrun. reflexivity.
  - intros i name Hi.
    destruct (Forall2_lookup_r _ _ _ _ _ Hs Hi) as (a & Ha & Hstr).
    exists a. assert (Hlook : root_context_ g !! (3 + i)%nat = Some a).
    { rewrite Hroot. exact Ha. }
    split; [exact Hlook|]. split; [apply Hslots; exact Hlook|].
    destruct (string_object_keeps _ _ _ _ Hk Hstr) as [Hstr' _]. exact Hstr'.
Qed.

End RootContext.

Lemma type_names_NoDup : NoDup type_names.
Proof.
  unfold type_names.
  repeat (apply NoDup_cons_2;
          [rewrite ?elem_of_cons, elem_of_nil; intros Hin;
           repeat (destruct Hin as [Hin|Hin]; [discriminate Hin|]); exact Hin|]).
  apply NoDup_nil_2.
Qed.

(** C8 (as the code has it).  On every well-formed heap [Fullgen::Fullgen]
    returns and leaves a root context of eleven entries: the global object,
    [true], [false] and then eight string objects with the type names nil,
    boolean, number, string, object, array, function and cdata, in this
    order; eight is the only count of names that the root context holds.
    [AllocateRoot] then makes the context in whose slot [3 + i], at the
    displacement [GetIndexDisp (3 + i)], the [i]-th of these strings is
    found. *)
Theorem root_context_type_names `{Externals} h :
  Heap_wf h ->
  exists g,
    Fullgen_new (Fullgen_init h) = Some (tt, g) /\
    root_holds type_names g /\
    (forall count, root_holds_type_names count g <-> count = 8%nat) /\
    exists root g',
      AllocateRoot g = Some (root, g') /\
      forall i name, type_names !! i = Some name ->
        exists a,
          root_context_ g !! (3 + i)%nat = Some a /\
          load64 (mem (heap_ g')) (root + GetIndexDisp (Z.of_nat (3 + i))) = u64 a /\
          is_string (mem (heap_ g')) a (list_byte_of_string name).
Proof.
  intros Hwf.
  destruct (root_built_start (Fullgen_init h) Hwf eq_refl) as (g3 & Hb3 & Hstep3).
  destruct (root_built_push [] "nil" g3 Hb3 ltac:(simpl; lia)) as (g4 & Hb4 & _ & Hstep4).
  destruct (root_built_push _ "boolean" g4 Hb4 ltac:(simpl; lia)) as (g5 & Hb5 & _ & Hstep5).
  destruct (root_built_push _ "number" g5 Hb5 ltac:(simpl; lia)) as (g6 & Hb6 & _ & Hstep6).
  destruct (root_built_push _ "string" g6 Hb6 ltac:(simpl; lia)) as (g7 & Hb7 & _ & Hstep7).
  destruct (root_built_push _ "object" g7 Hb7 ltac:(simpl; lia)) as (g8 & Hb8 & _ & Hstep8).
  destruct (root_built_push _ "array" g8 Hb8 ltac:(simpl; lia)) as (g9 & Hb9 & _ & Hstep9).
  destruct (root_built_push _ "function" g9 Hb9 ltac:(simpl; lia)) as (g10 & Hb10 & _ & Hstep10).
  destruct (root_built_push _ "cdata" g10 Hb10 ltac:(simpl; lia)) as (g11 & Hb11 & Hlast & _).
  change (root_built type_names g11) in Hb11.
  exists g11. split; [|split; [|split]].
  - unfold Fullgen_new. cbv zeta.
    rewrite Hstep3, Hstep4, Hstep5, Hstep6, Hstep7, Hstep8, Hstep9, Hstep10.
    exact Hlast.
  - apply root_built_holds. exact Hb11.
  - pose proof (root_built_holds _ _ Hb11) as Hholds.
    intros count. split.
    + intros (names & Hlen & _ & global & t & f & strings & Hroot & _ & _ & Hs).
      destruct Hholds as (global' & t' & f' & strings' & Hroot' & _ & _ & Hs').
      apply Forall2_length in Hs, Hs'.
      assert (strings = strings') by congruence. subst strings'.
      rewrite <- Hlen, <- Hs, Hs'. reflexivity.
    + intros ->. exists type_names.
      split; [reflexivity|]. split; [apply type_names_NoDup|exact Hholds].
  - destruct (AllocateRoot_spec type_names g11 Hb11 ltac:(simpl; lia))
      as (root & g' & Hrun & _ & _ & _ & Hslots).
    exists root, g'. split; [exact Hrun|exact Hslots].
Qed.

Lemma example_heap_Heap_wf : Heap_wf example_heap.
Proof.
  split.
  - apply example_heap_wf.
  - intros []; simpl; lia.
  - intros k i p k' j q Hp Hq Hne. unfold apart.
    destruct k, k'; simpl in Hp, Hq;
      destruct i as [|i]; try discriminate; destruct j as [|j]; try discriminate;
      try (injection Hp as <-; injection Hq as <-; simpl; lia);
      exfalso; apply Hne; reflexivity.
  - intros k i p Hp.
    destruct k; simpl in Hp; destruct i as [|i]; try discriminate;
      injection Hp as <-; simpl; lia.
Defined.

(** On the example heap the strings are at the eight addresses from 5128
    on, and the context that [AllocateRoot] makes has them in its slots 3
    to 10. *)
Lemma root_context_type_names_witness :
  Heap_wf example_heap /\
  exists g,
    @Fullgen_new example_params (Fullgen_init example_heap) = Some (tt, g) /\
    root_holds type_names g /\
    root_context_ g = [1000; 5096; 5112; 5128; 5164; 5204; 5242; 5280; 5318; 5356; 5396].
Proof.
  split; [exact example_heap_Heap_wf|].
  destruct (@root_context_type_names example_params example_heap example_heap_Heap_wf)
    as (g & Hrun & Hholds & _).
  exists g. split; [exact Hrun|]. split; [exact Hholds|].
  vm_compute in Hrun. injection Hrun as <-. reflexivity.
Defined.

(** C8 as stated fails: the root context that [Fullgen::Fullgen] makes does
    not hold nine type names.  Eleven entries are pushed, three of them
    before the strings. *)
Lemma nine_type_names_counterexample :
  length (root_context_ example_fullgen) = 11%nat /\
  ~ root_holds_type_names 9 example_fullgen.
Proof.
  split; [vm_compute; reflexivity|].
  intros (names & Hlen & _ & global & t & f & strings & Hroot & _ & _ & Hs).
  apply Forall2_length in Hs.
  assert (Hn : length (root_context_ example_fullgen) = 11%nat) by (vm_compute; reflexivity).
  rewrite Hroot in Hn. cbn [length] in Hn. lia.
Qed.

(** * Further properties of the code *)

(** ** utils.h: [RoundUp] and [PowerOfTwo] *)

(** X1.  [RoundUp(value, to)] is the least multiple of [to] that is not
    below [value], as long as that multiple fits in 32 bits; when it does
    not, the result has wrapped around and is below [value]. *)
Theorem RoundUp_least_multiple value to :
  0 <= value < 2 ^ 32 -> 0 < to < 2 ^ 32 ->
  let r := Utils.RoundUp value to in
  (value + to <= 2 ^ 32 ->
     r mod to = 0 /\ value <= r < value + to /\
     forall m, m mod to = 0 -> value <= m -> r <= m) /\
  (value mod to <> 0 -> 2 ^ 32 <= value + to - value mod to -> r < value).
Proof.
  intros Hv Ht r. unfold r, Utils.RoundUp.
  pose proof (Z.mod_pos_bound value to ltac:(lia)) as Hm.
  pose proof (Z.div_mod value to ltac:(lia)) as Hd.
  split.
  - intros Hfit. destruct (Z.eqb_spec (value mod to) 0) as [E|E].
    + split; [exact E|]. split; [lia|]. intros m _ Hle. exact Hle.
    + rewrite u32_small by lia.
      split; [|split; [lia|]].
      * replace (value + to - value mod to) with ((value / to + 1) * to) by lia.
        apply Z_mod_mult.
      * intros m Hmul Hle.
        pose proof (Z.div_mod m to ltac:(lia)) as Hdm. rewrite Hmul in Hdm.
        assert (value / to < m / to) by nia. nia.
  - intros Hne Hover. destruct (Z.eqb_spec (value mod to) 0) as [E|_]; [contradiction|].
    unfold u32.
    pose proof (Z.mod_pos_bound (value + to - value mod to) (2 ^ 32) ltac:(lia)) as Hr.
    assert (value + to - value mod to < 2 ^ 32 + value) by lia.
    replace (value + to - value mod to)
      with (value + to - value mod to - 2 ^ 32 + 1 * 2 ^ 32) by lia.
    rewrite Z_mod_plus_full. rewrite Z.mod_small; lia.
Qed.

Lemma RoundUp_least_multiple_witness :
  (0 <= 5000 < 2 ^ 32) /\ (0 < 4096 < 2 ^ 32) /\
  Utils.RoundUp 5000 4096 = 8192 /\
  (5000 + 4096 <= 2 ^ 32 ->
     Utils.RoundUp 5000 4096 mod 4096 = 0 /\ 5000 <= Utils.RoundUp 5000 4096 < 5000 + 4096 /\
     forall m, m mod 4096 = 0 -> 5000 <= m -> Utils.RoundUp 5000 4096 <= m).
Proof.
  split; [lia|]. split; [lia|]. split; [reflexivity|].
  exact (proj1 (RoundUp_least_multiple 5000 4096 ltac:(lia) ltac:(lia))).
Defined.

Lemma PowerOfTwo_loop_overflow fuel : forall k value,
  1 <= k <= 31 -> 33 <= Z.of_nat fuel + k -> 2 ^ 31 < value ->
  Utils.PowerOfTwo_loop fuel (2 ^ k) value = Some 0.
Proof.
  induction fuel as [|fuel IH]; intros k value Hk Hfuel Hv; [lia|].
  assert (0 < 2 ^ k) by (apply Z.pow_pos_nonneg; lia).
  assert (2 ^ k <= 2 ^ 31) by (apply Z.pow_le_mono_r; lia).
  cbn [Utils.PowerOfTwo_loop].
  destruct (Z.eqb_spec (2 ^ k) 0) as [E|_]; [lia|]. cbn [negb andb].
  destruct (Z.ltb_spec (2 ^ k) value) as [_|Hge]; [|lia].
  rewrite u32_double_pow by lia.
  destruct (Z.eq_dec k 31) as [->|Hne].
  - destruct fuel; reflexivity.
  - rewrite u32_small.
    2: { split; [apply Z.pow_nonneg; lia|]. apply Z.pow_lt_mono_r; lia. }
    apply IH; lia.
Qed.

(** X2.  [PowerOfTwo] returns for every 32-bit value: the least power of
    two that is at least [value] and at least 2 when [value <= 2^31], and 0,
    the doubling having overflowed, for every larger value. *)
Theorem PowerOfTwo_result value :
  0 <= value < 2 ^ 32 ->
  exists c, Utils.PowerOfTwo value = Some c /\
    (value <= 2 ^ 31 -> least_power_of_two_ge (Z.max value 2) c) /\
    (2 ^ 31 < value -> c = 0).
Proof.
  intros Hv. destruct (Z.le_gt_cases value (2 ^ 31)) as [Hle|Hgt].
  - destruct (Z.le_gt_cases 2 value) as [H2|H2].
    + destruct (PowerOfTwo_least value ltac:(lia)) as (c & Hc & Hleast).
      exists c. split; [exact Hc|]. split; [|lia].
      intros _. rewrite Z.max_l by lia. exact Hleast.
    + exists 2. split.
      * unfold Utils.PowerOfTwo. cbn [Utils.PowerOfTwo_loop].
        destruct (Z.ltb_spec 2 value); [lia|reflexivity].
      * split; [|lia]. intros _. rewrite Z.max_r by lia.
        split; [exists 1; split; [lia|reflexivity]|]. split; [lia|].
        intros c' (k & Hk & ->) Hge.
        destruct (Z.eq_dec k 0) as [->|]; [simpl in Hge; lia|].
        change 2 with (2 ^ 1). apply Z.pow_le_mono_r; lia.
  - exists 0. split; [|split; [lia|reflexivity]].
    apply (PowerOfTwo_loop_overflow 32 1 value); lia.
Qed.

Lemma PowerOfTwo_result_witness :
  exists c, Utils.PowerOfTwo 5 = Some c /\ c = 8 /\
    (5 <= 2 ^ 31 -> least_power_of_two_ge (Z.max 5 2) c).
Proof.
  destruct (PowerOfTwo_result 5 ltac:(lia)) as (c & Hc & Hl & _).
  exists c. split; [exact Hc|]. split; [|exact Hl].
  vm_compute in Hc. congruence.
Defined.

(** ** utils.h: [Unescape] *)








(** ** utils.h: [StringToInt] *)

Lemma uint_value_mono d : forall acc, 0 <= acc -> acc <= uint_value d acc.
Proof.
  induction d; intros acc Hacc; cbn [uint_value]; [lia|..];
    (etransitivity; [|apply IHd; lia]); lia.
Qed.

Lemma uint_value_of_lu d : forall acc,
  uint_value d acc =
    acc * 10 ^ Z.of_N (DecimalPos.Unsigned.usize d) + Z.of_N (DecimalPos.Unsigned.of_lu (Decimal.rev d)).
Proof.
  induction d; intros acc;
    [cbn; lia|..];
    (cbn [uint_value DecimalPos.Unsigned.usize]; rewrite IHd;
     unfold Decimal.rev at 2; cbn [Decimal.revapp];
     rewrite DecimalPos.Unsigned.of_lu_revapp;
     rewrite N2Z.inj_add, N2Z.inj_mul, N2Z.inj_pow, N2Z.inj_succ;
     rewrite Z.pow_succ_r by lia;
     cbn [DecimalPos.Unsigned.of_lu]; change (Z.of_N 10) with 10;
     rewrite ?N.mul_0_r, ?N.add_0_r; cbn [Z.of_N]; lia).
Qed.

Lemma uint_value_to_uint n : uint_value (N.to_uint n) 0 = Z.of_N n.
Proof.
  rewrite uint_value_of_lu. rewrite <- DecimalPos.Unsigned.of_uint_alt.
  change (Pos.of_uint (N.to_uint n)) with (N.of_uint (N.to_uint n)).
  rewrite DecimalN.Unsigned.of_to. lia.
Qed.

(** The loop of [StringToInt] on printed digits, while the value fits. *)
Lemma StringToInt_loop_digits d : forall rest acc,
  0 <= acc -> uint_value d acc < 2 ^ 63 ->
  (forall c, head rest = Some c -> Utils.is_num c = false) ->
  Utils.StringToInt_loop (list_byte_of_string (NilEmpty.string_of_uint d) ++ rest) acc =
    uint_value d acc.
Proof.
  induction d; intros rest acc Hacc Hfit Hrest;
    [cbn [NilEmpty.string_of_uint uint_value]; cbn;
     destruct rest as [|c rest]; [reflexivity|];
     cbn [Utils.StringToInt_loop]; rewrite (Hrest c eq_refl); reflexivity|..];
    (cbn [uint_value] in *;
     match type of Hfit with uint_value _ ?a < _ =>
       pose proof (uint_value_mono d a ltac:(lia)) end;
     cbn [NilEmpty.string_of_uint];
     change (list_byte_of_string (String ?a ?s)) with (Ascii.byte_of_ascii a :: list_byte_of_string s);
     cbn [app Utils.StringToInt_loop];
     match goal with |- context [Utils.is_num ?c] =>
       replace (Utils.is_num c) with true by (vm_compute; reflexivity) end;
     rewrite (i64_small (acc * 10)) by lia;
     match goal with |- context [Utils.uchar ?c - 48] =>
       let v := eval vm_compute in (Utils.uchar c - 48) in
       change (Utils.uchar c - 48) with v end;
     rewrite i64_small by lia;
     apply IHd; [lia|assumption|assumption]).
Qed.

Lemma skip_spaces_repeat k : forall l i,
  Utils.skip_spaces (repeat " "%byte k ++ l) i = Utils.skip_spaces l (i + Z.of_nat k).
Proof.
  induction k as [|k IH]; intros l i.
  - cbn [repeat app]. f_equal. lia.
  - cbn [repeat app Utils.skip_spaces].
    change (Utils.uchar " " =? 32) with true. cbn iota. rewrite IH. f_equal. lia.
Qed.

Lemma to_uint_nonnil n : N.to_uint n <> Decimal.Nil.
Proof.
  destruct n as [|p]; [discriminate|]. apply DecimalPos.Unsigned.to_uint_nonnil.
Qed.

(** Printed digits start with a digit: neither a space nor a sign. *)
Lemma decimal_head n :
  exists c l, decimal n = c :: l /\ Utils.is_num c = true /\
    list_byte_of_string (NilEmpty.string_of_uint (N.to_uint (Z.to_N n))) = c :: l.
Proof.
  unfold decimal, NilZero.string_of_uint.
  pose proof (to_uint_nonnil (Z.to_N n)) as Hnil.
  destruct (N.to_uint (Z.to_N n)); [contradiction|..];
    cbn [NilEmpty.string_of_uint];
    change (list_byte_of_string (String ?a ?s))
      with (Ascii.byte_of_ascii a :: list_byte_of_string s);
    (eexists _, _; split; [reflexivity|split; [vm_compute; reflexivity|reflexivity]]).
Qed.

Lemma is_num_not_space c : Utils.is_num c = true -> (Utils.uchar c =? 32) = false /\ (Utils.uchar c =? 45) = false.
Proof.
  unfold Utils.is_num. intros Hc. apply andb_prop in Hc. destruct Hc as [H1 H2].
  apply Z.leb_le in H1. split; apply Z.eqb_neq; lia.
Qed.

(** X4.  [StringToInt] reads back what ["%llu"] printed: leading spaces are
    skipped, a [-] negates, and reading stops at the first byte that is not
    a digit. *)
Theorem StringToInt_decimal n spaces rest :
  0 <= n < 2 ^ 63 ->
  (forall c, head rest = Some c -> Utils.is_num c = false) ->
  Utils.StringToInt (repeat " "%byte spaces ++ decimal n ++ rest) = n /\
  Utils.StringToInt (repeat " "%byte spaces ++ "-"%byte :: decimal n ++ rest) = - n.
Proof.
  intros Hn Hrest.
  destruct (decimal_head n) as (c & l & Hdec & Hc & Hstr).
  destruct (is_num_not_space c Hc) as [Hsp Hsg].
  assert (Hloop : Utils.StringToInt_loop (decimal n ++ rest) 0 = n).
  { unfold decimal, NilZero.string_of_uint.
    pose proof (to_uint_nonnil (Z.to_N n)) as Hnil.
    assert (Hval : uint_value (N.to_uint (Z.to_N n)) 0 = n)
      by (rewrite uint_value_to_uint; lia).
    destruct (N.to_uint (Z.to_N n)) eqn:E; [contradiction|..];
      rewrite <- E in *; (rewrite StringToInt_loop_digits; [exact Hval|lia|lia|exact Hrest]). }
  unfold Utils.StringToInt, Utils.StringGetNumSign. split.
  - rewrite skip_spaces_repeat. rewrite Hdec in *. cbn [app Utils.skip_spaces].
    rewrite Hsp, Hsg. exact Hloop.
  - rewrite skip_spaces_repeat. cbn [Utils.skip_spaces].
    change (Utils.uchar "-" =? 32) with false. cbn iota.
    change (Utils.uchar "-" =? 45) with true. cbn iota.
    rewrite Hloop. apply i64_small. lia.
Qed.

Lemma StringToInt_decimal_witness :
  Utils.StringToInt (repeat " "%byte 2 ++ decimal 1234 ++ list_byte_of_string "px") = 1234 /\
  Utils.StringToInt (repeat " "%byte 2 ++ "-"%byte :: decimal 1234 ++ list_byte_of_string "px")
    = - 1234.
Proof.
  apply (StringToInt_decimal 1234 2 (list_byte_of_string "px")).
  - lia.
  - intros c Hc. vm_compute in Hc. injection Hc as <-. reflexivity.
Defined.

(** ** utils.h: [GetSourceLineByOffset] *)






(** ** utils.h: [HashMap] *)

Section HashMapFacts.
Context {T : Type} (NULL : T).

Lemma strncmp_eq_refl key : HashMap.strncmp_eq key key = true.
Proof.
  induction key as [|c key IH]; [reflexivity|]. cbn [HashMap.strncmp_eq].
  rewrite bool_decide_eq_true_2 by reflexivity. cbn [negb].
  destruct (bool_decide (c = x00)); [reflexivity|exact IH].
Qed.

Lemma find_app key (items items' : list (HashMap.Item T)) :
  HashMap.find T key (items ++ items') =
    match HashMap.find T key items with
    | Some v => Some v
    | None => HashMap.find T key items'
    end.
Proof.
  induction items as [|i items IH]; [reflexivity|].
  cbn [app HashMap.find]. destruct (_ && _); [reflexivity|exact IH].
Qed.

Lemma chain_Set key value m i :
  HashMap.chain T (HashMap.Set_ T key value m) i =
    if decide (HashMap.index key = i)
    then HashMap.chain T m i ++ [HashMap.MkItem T key value]
    else HashMap.chain T m i.
Proof.
  unfold HashMap.chain, HashMap.Set_. cbn [HashMap.map_].
  destruct (decide (HashMap.index key = i)) as [<-|Hne].
  - rewrite lookup_insert_eq. reflexivity.
  - rewrite lookup_insert_ne by exact Hne. reflexivity.
Qed.

(** X6.  [HashMap::Get] after [HashMap::Set]: a key that the map already
    holds keeps its old value, because [Set] appends without looking for
    the key and [Get] returns the first match; a key that was absent gets
    the new value; and the answer for a key of another bucket, of another
    length or with other bytes (as [strncmp] compares them) is as before.
    An empty map answers [NULL]. *)
Theorem HashMap_Get_Set key value key' (m : HashMap.t T) :
  HashMap.Get T NULL key' (HashMap.empty T) = NULL /\
  HashMap.Get T NULL key (HashMap.Set_ T key value m) =
    match HashMap.find T key (HashMap.chain T m (HashMap.index key)) with
    | Some old => old
    | None => value
    end /\
  (HashMap.index key' <> HashMap.index key \/ length key' <> length key \/
   HashMap.strncmp_eq key key' = false ->
   HashMap.Get T NULL key' (HashMap.Set_ T key value m) = HashMap.Get T NULL key' m).
Proof.
  split; [reflexivity|]. split.
  - unfold HashMap.Get. rewrite chain_Set. rewrite decide_True by reflexivity.
    rewrite find_app. destruct (HashMap.find T key _); [reflexivity|].
    cbn [HashMap.find HashMap.key_ HashMap.value_].
    rewrite Nat.eqb_refl, strncmp_eq_refl. reflexivity.
  - intros Hdiff. unfold HashMap.Get. rewrite chain_Set.
    destruct (decide (HashMap.index key = HashMap.index key')) as [E|Hne]; [|reflexivity].
    rewrite find_app. destruct (HashMap.find T key' _); [reflexivity|].
    cbn [HashMap.find HashMap.key_ HashMap.value_].
    destruct Hdiff as [Hi|[Hl|Hs]].
    + congruence.
    + destruct (Nat.eqb_spec (length key') (length key)); [contradiction|reflexivity].
    + rewrite Hs, andb_false_r. reflexivity.
Qed.

(** [Enumerate] calls back with every value that was ever set, in the order
    of the [Set]s, whatever the keys were. *)
Lemma HashMap_Enumerate_Set key value (m : HashMap.t T) :
  HashMap.Enumerate T (HashMap.Set_ T key value m) = HashMap.Enumerate T m ++ [value].
Proof. unfold HashMap.Enumerate, HashMap.Set_. cbn. apply map_app. Qed.

End HashMapFacts.


(** ** utils.h: [List] *)

Section ListFacts.
Context {T : Type}.
Implicit Types (l : LList.t T) (xs : list (nat * T)).

Lemma List_holds_empty : List_holds (@LList.empty T) [].
Proof.
  split; try reflexivity; try (intros i a v Hi; rewrite lookup_nil in Hi; discriminate Hi).
  constructor.
Qed.

(** Two positions with the same address are the same position. *)
Lemma List_holds_inj l xs i j a v w :
  List_holds l xs -> xs !! i = Some (a, v) -> xs !! j = Some (a, w) -> i = j.
Proof.
  intros H Hi Hj. apply (NoDup_lookup xs.*1 i j a (lh_nodup _ _ H));
    rewrite list_lookup_fmap; [rewrite Hi|rewrite Hj]; reflexivity.
Qed.

Lemma walk_holds l xs (H : List_holds l xs) : forall n i,
  (i + n = length xs)%nat ->
  LList.walk n (LList.cells l) (fst <$> xs !! i) = (drop i xs).*2.
Proof.
  induction n as [|n IH]; intros i Hn.
  - rewrite drop_ge by lia. destruct (fst <$> xs !! i); reflexivity.
  - destruct (lookup_lt_is_Some_2 xs i ltac:(lia)) as [[a v] Hi].
    rewrite Hi. cbn [fmap option_fmap option_map LList.walk fst].
    rewrite (lh_cells _ _ H _ _ _ Hi). cbn [LList.value_ LList.next_].
    rewrite (drop_S _ _ _ Hi). cbn [fmap list_fmap snd]. f_equal.
    unfold List_next. apply IH. lia.
Qed.

(** Walking from [head()] along [next()] meets the values in order. *)
Lemma to_list_holds l xs : List_holds l xs -> LList.to_list l = xs.*2.
Proof.
  intros H. unfold LList.to_list. rewrite (lh_length _ _ H), Nat2Z.id.
  rewrite (lh_head _ _ H), head_lookup.
  rewrite (walk_holds l xs H) by lia. rewrite drop_0. reflexivity.
Qed.

Lemma List_prev_app xs ys i : (i < length xs)%nat -> List_prev (xs ++ ys) i = List_prev xs i.
Proof.
  intros Hi. destruct i as [|j]; [reflexivity|]. cbn [List_prev].
  rewrite lookup_app_l by lia. reflexivity.
Qed.

(** [List::Push] appends: the new item is the tail, after the old items. *)
Lemma Push_holds l xs v :
  List_holds l xs -> Z.of_nat (length xs) + 1 < 2 ^ 32 ->
  exists l', LList.Push v l = Some l' /\ List_holds l' (xs ++ [(LList.fresh l, v)]).
Proof.
  intros H Hlen.
  assert (Hnew : LList.fresh l ∉ xs.*1).
  { intros Hin. apply list_elem_of_lookup in Hin. destruct Hin as [i Hi].
    rewrite list_lookup_fmap in Hi. destruct (xs !! i) as [[a w]|] eqn:E; [|discriminate].
    injection Hi as Hi. cbn in Hi. subst a. pose proof (lh_fresh _ _ H _ _ _ E). lia. }
  assert (Hnodup : NoDup (xs ++ [(LList.fresh l, v)]).*1).
  { rewrite fmap_app. apply NoDup_app. split; [exact (lh_nodup _ _ H)|].
    split; [|cbn; apply NoDup_singleton].
    intros a Ha Ha'. cbn in Ha'. apply list_elem_of_singleton in Ha'. subst a. contradiction. }
  assert (Hlen' : u32 (LList.length_ l + 1) = Z.of_nat (length (xs ++ [(LList.fresh l, v)]))).
  { rewrite (lh_length _ _ H), length_app. cbn [length]. rewrite u32_small; lia. }
  destruct xs as [|x xs0 _] using rev_ind.
  - unfold LList.Push. rewrite (lh_head _ _ H). cbn [head fmap option_fmap option_map].
    eexists. split; [reflexivity|]. cbn [app].
    split; cbn [LList.length_ LList.fresh LList.head_ LList.current_ LList.cells].
    + exact Hlen'.
    + cbn. lia.
    + exact Hnodup.
    + intros i a w Hi. destruct i; [|discriminate]. injection Hi as <- <-. lia.
    + reflexivity.
    + reflexivity.
    + intros i a w Hi. destruct i; [|discriminate]. injection Hi as <- <-.
      rewrite lookup_insert_eq. rewrite (lh_tail _ _ H). reflexivity.
  - destruct x as [c vc].
    assert (Hc : (xs0 ++ [(c, vc)]) !! length xs0 = Some (c, vc)).
    { rewrite lookup_app_r by lia. rewrite Nat.sub_diag. reflexivity. }
    pose proof (lh_cells _ _ H _ _ _ Hc) as Hcell.
    assert (Hh : exists h, LList.head_ l = Some h).
    { rewrite (lh_head _ _ H). destruct xs0 as [|[h w] xs1]; cbn; eauto. }
    destruct Hh as [h Hh].
    assert (Ht : LList.current_ l = Some c).
    { rewrite (lh_tail _ _ H), last_snoc. reflexivity. }
    unfold LList.Push. rewrite Hh, Ht, Hcell. cbn [mbind option_bind LList.value_ LList.prev_].
    eexists. split; [reflexivity|].
    set (xs := xs0 ++ [(c, vc)]) in *.
    split; cbn [LList.length_ LList.fresh LList.head_ LList.current_ LList.cells].
    + exact Hlen'.
    + rewrite length_app. cbn [length]. lia.
    + exact Hnodup.
    + intros i a w Hi. apply lookup_app_Some in Hi. destruct Hi as [Hi|[_ Hi]].
      * pose proof (lh_fresh _ _ H _ _ _ Hi). lia.
      * apply list_lookup_singleton_Some in Hi. destruct Hi as [_ Hi]. injection Hi as <- <-. lia.
    + rewrite <- Hh, (lh_head _ _ H). unfold xs. destruct xs0; reflexivity.
    + rewrite last_snoc. reflexivity.
    + intros i a w Hi. apply lookup_app_Some in Hi. destruct Hi as [Hi|[Hge Hi]].
      * pose proof (lookup_lt_Some _ _ _ Hi) as Hlt.
        pose proof (lh_fresh _ _ H _ _ _ Hi) as Hfr.
        rewrite lookup_insert_ne by lia.
        rewrite List_prev_app by exact Hlt.
        destruct (decide (i = length xs0)) as [->|Hne].
        -- assert (a = c /\ w = vc) as [-> ->] by (split; congruence).
           rewrite lookup_insert_eq. unfold List_next.
           rewrite lookup_app_r by (unfold xs; rewrite length_app; cbn; lia).
           replace (S (length xs0) - length xs)%nat with 0%nat
             by (unfold xs; rewrite length_app; cbn; lia).
           reflexivity.
        -- assert (a <> c).
           { intros ->. apply Hne. exact (List_holds_inj _ _ _ _ _ _ _ H Hi Hc). }
           rewrite lookup_insert_ne by congruence.
           rewrite (lh_cells _ _ H _ _ _ Hi). unfold List_next.
           rewrite lookup_app_l; [reflexivity|].
           unfold xs in *. rewrite length_app in *. cbn [length] in *. lia.
      * apply list_lookup_singleton_Some in Hi. destruct Hi as [Hi Heq]. injection Heq as <- <-.
        rewrite lookup_insert_eq.
        assert (Hl : length xs = S (length xs0)) by (unfold xs; rewrite length_app; cbn; lia).
        assert (i = S (length xs0)) as -> by lia.
        unfold List_next. rewrite lookup_ge_None_2 by (rewrite length_app; cbn; lia).
        cbn [List_prev]. rewrite lookup_app_l by lia.
        rewrite Hc. reflexivity.
Qed.

(** [List::Shift] on an empty list. *)
Lemma Shift_empty (NULL : T) l : List_holds l [] -> List_Shift NULL l = Some (NULL, l).
Proof. intros H. unfold List_Shift. rewrite (lh_head _ _ H). reflexivity. Qed.

(** [List::Shift] takes the head off. *)
Lemma Shift_holds (NULL : T) l a v xs :
  List_holds l ((a, v) :: xs) ->
  exists l', List_Shift NULL l = Some (v, l') /\ List_holds l' xs.
Proof.
  intros H.
  pose proof (lh_cells _ _ H 0%nat a v eq_refl) as Hcell.
  cbn [List_prev] in Hcell. unfold List_next in Hcell.
  pose proof (lh_nodup _ _ H) as Hnd. cbn [fmap list_fmap fst] in Hnd.
  apply NoDup_cons in Hnd. destruct Hnd as [Hna Hnd].
  assert (Hlen : u32 (LList.length_ l - 1) = Z.of_nat (length xs)).
  { rewrite (lh_length _ _ H). pose proof (lh_small _ _ H) as Hs. cbn [length] in *.
    rewrite u32_small; lia. }
  assert (Hother : forall j b w, xs !! j = Some (b, w) -> b <> a).
  { intros j b w Hj ->. apply Hna. apply list_elem_of_lookup. exists j.
    rewrite list_lookup_fmap, Hj. reflexivity. }
  unfold List_Shift. rewrite (lh_head _ _ H). cbn [head fmap option_fmap option_map fst].
  rewrite Hcell. cbn [mbind option_bind LList.next_ LList.value_].
  destruct xs as [|[b w] rest].
  - cbn [lookup list_lookup fmap option_fmap option_map].
    eexists. split; [reflexivity|].
    split; cbn [LList.length_ LList.fresh LList.head_ LList.current_ LList.cells];
      try (intros i a' w' Hi; rewrite lookup_nil in Hi; discriminate Hi).
    + exact Hlen.
    + reflexivity.
    + constructor.
    + reflexivity.
    + rewrite (lh_tail _ _ H). cbn. rewrite decide_True by reflexivity. reflexivity.
  - cbn [lookup list_lookup fmap option_fmap option_map fst].
    pose proof (lh_cells _ _ H 1%nat b w eq_refl) as Hb.
    rewrite Hb. cbn [mbind option_bind LList.next_ LList.value_].
    eexists. split; [reflexivity|].
    assert (Hcur : LList.current_ l = fst <$> last ((b, w) :: rest)).
    { rewrite (lh_tail _ _ H). reflexivity. }
    assert (Hne : Some a <> LList.current_ l).
    { rewrite Hcur, last_lookup. intros Heq. symmetry in Heq.
      destruct (((b, w) :: rest) !! pred (length ((b, w) :: rest))) as [[c vc]|] eqn:E;
        [|discriminate].
      injection Heq as ->. exact (Hother _ _ _ E eq_refl). }
    split; cbn [LList.length_ LList.fresh LList.head_ LList.current_ LList.cells].
    + exact Hlen.
    + pose proof (lh_small _ _ H) as Hs. cbn [length] in *. lia.
    + exact Hnd.
    + intros i a' w' Hi. exact (lh_fresh _ _ H (S i) a' w' Hi).
    + reflexivity.
    + rewrite decide_False by exact Hne. exact Hcur.
    + intros j a' w' Hj.
      pose proof (Hother _ _ _ Hj) as Ha'.
      rewrite lookup_delete_ne by congruence.
      destruct j as [|j].
      * injection Hj as <- <-. rewrite lookup_insert_eq. reflexivity.
      * assert (a' <> b).
        { intros ->.
          discriminate (List_holds_inj _ _ (S (S j)) 1%nat b w' w H Hj eq_refl). }
        rewrite lookup_insert_ne by congruence.
        rewrite (lh_cells _ _ H (S (S j)) a' w' Hj). reflexivity.
Qed.

(** [List::Remove] of an item that is not the head unlinks it. *)
Lemma Remove_holds l xs i a v :
  List_holds l xs -> xs !! i = Some (a, v) -> (0 < i)%nat ->
  exists l', LList.Remove a l = Some l' /\ List_holds l' (delete i xs).
Proof.
  intros H Hi Hpos.
  pose proof (lookup_lt_Some _ _ _ Hi) as Hlt.
  pose proof (lh_cells _ _ H _ _ _ Hi) as Hcell.
  destruct i as [|k]; [lia|].
  destruct (lookup_lt_is_Some_2 xs k ltac:(lia)) as [[p vp] Hp].
  pose proof (lh_cells _ _ H _ _ _ Hp) as Hpcell.
  assert (Hpa : p <> a) by (intros ->; pose proof (List_holds_inj _ _ _ _ _ _ _ H Hp Hi); lia).
  assert (Hprev : List_prev xs (S k) = Some p) by (cbn [List_prev]; rewrite Hp; reflexivity).
  assert (Hpnext : List_next xs k = Some a) by (unfold List_next; rewrite Hi; reflexivity).
  rewrite Hprev in Hcell. rewrite Hpnext in Hpcell.
  assert (Hhead : LList.head_ l <> Some a).
  { rewrite (lh_head _ _ H), head_lookup. intros Heq.
    destruct (xs !! 0%nat) as [[h w]|] eqn:E; [|discriminate]. injection Heq as ->.
    pose proof (List_holds_inj _ _ _ _ _ _ _ H E Hi). lia. }
  assert (Hlen : u32 (LList.length_ l - 1) = Z.of_nat (length (delete (S k) xs))).
  { rewrite (lh_length _ _ H), length_delete by eauto.
    pose proof (lh_small _ _ H). rewrite u32_small; lia. }
  assert (Hlast : fst <$> last (delete (S k) xs) =
            if decide (LList.current_ l = Some a) then Some p else LList.current_ l).
  { rewrite (lh_tail _ _ H), !last_lookup, length_delete by eauto.
    destruct (decide (S k = pred (length xs))) as [E|Hne].
    - rewrite <- E, Hi. cbn. rewrite decide_True by reflexivity.
      rewrite list_lookup_delete_lt by lia.
      replace (pred (length xs - 1)) with k by lia. rewrite Hp. reflexivity.
    - rewrite list_lookup_delete_ge by lia.
      replace (S (pred (length xs - 1))) with (pred (length xs)) by lia.
      destruct (xs !! pred (length xs)) as [[c vc]|] eqn:E; [|rewrite decide_False by discriminate; reflexivity].
      cbn. rewrite decide_False; [reflexivity|].
      intros Heq. injection Heq as ->.
      apply Hne. symmetry. exact (List_holds_inj _ _ _ _ _ _ _ H E Hi). }
  unfold LList.Remove. rewrite Hcell. cbn [mbind option_bind LList.prev_].
  unfold LList.Item_remove. cbn [LList.prev_ LList.next_ LList.value_].
  rewrite Hpcell. cbn [mbind option_bind LList.prev_ LList.next_ LList.value_].
  unfold List_next at 1.
  destruct (xs !! S (S k)) as [[n vn]|] eqn:Hn.
  - pose proof (lh_cells _ _ H _ _ _ Hn) as Hncell.
    assert (Hna : n <> a) by (intros ->; pose proof (List_holds_inj _ _ _ _ _ _ _ H Hn Hi); lia).
    assert (Hnp : n <> p) by (intros ->; pose proof (List_holds_inj _ _ _ _ _ _ _ H Hn Hp); lia).
    cbn [fmap option_fmap option_map fst].
    rewrite lookup_insert_ne by congruence. rewrite Hncell.
    cbn [mbind option_bind LList.prev_ LList.next_ LList.value_].
    eexists. split; [reflexivity|].
    split; cbn [LList.length_ LList.fresh LList.head_ LList.current_ LList.cells].
    + exact Hlen.
    + rewrite length_delete by eauto. pose proof (lh_small _ _ H). lia.
    + rewrite list_fmap_delete. eapply sublist_NoDup; [exact (lh_nodup _ _ H)|apply sublist_delete].
    + intros j b w Hj. rewrite list_lookup_delete in Hj. exact (lh_fresh _ _ H _ _ _ Hj).
    + rewrite decide_False by exact Hhead. rewrite (lh_head _ _ H), !head_lookup.
      rewrite list_lookup_delete_lt by lia. reflexivity.
    + symmetry. exact Hlast.
    + intros j b w Hj.
      destruct (decide (j < S k)%nat) as [Hjk|Hjk].
      * rewrite list_lookup_delete_lt in Hj by lia.
        assert (b <> a) by (intros ->; pose proof (List_holds_inj _ _ _ _ _ _ _ H Hj Hi); lia).
        assert (b <> n) by (intros ->; pose proof (List_holds_inj _ _ _ _ _ _ _ H Hj Hn); lia).
        rewrite lookup_delete_ne by congruence. rewrite lookup_insert_ne by congruence.
        assert (Hpj : List_prev (delete (S k) xs) j = List_prev xs j).
        { destruct j as [|j']; [reflexivity|]. cbn [List_prev].
          rewrite list_lookup_delete_lt by lia. reflexivity. }
        rewrite Hpj. unfold List_next.
        destruct (decide (j = k)) as [->|Hne].
        -- assert (b = p /\ w = vp) as [-> ->] by (split; congruence).
           rewrite lookup_insert_eq. rewrite list_lookup_delete_ge by lia. rewrite Hn. reflexivity.
        -- assert (b <> p) by (intros ->; apply Hne; exact (List_holds_inj _ _ _ _ _ _ _ H Hj Hp)).
           rewrite lookup_insert_ne by congruence.
           rewrite (lh_cells _ _ H _ _ _ Hj). unfold List_next.
           rewrite list_lookup_delete_lt by lia. reflexivity.
      * rewrite list_lookup_delete_ge in Hj by lia.
        assert (b <> a) by (intros ->; pose proof (List_holds_inj _ _ _ _ _ _ _ H Hj Hi); lia).
        assert (b <> p) by (intros ->; pose proof (List_holds_inj _ _ _ _ _ _ _ H Hj Hp); lia).
        rewrite lookup_delete_ne by congruence.
        assert (Hnj : List_next (delete (S k) xs) j = List_next xs (S j)).
        { unfold List_next. rewrite list_lookup_delete_ge by lia. reflexivity. }
        rewrite Hnj.
        destruct (decide (j = S k)) as [->|Hne].
        -- assert (b = n /\ w = vn) as [-> ->] by (split; congruence).
           rewrite lookup_insert_eq. cbn [List_prev].
           rewrite list_lookup_delete_lt by lia. rewrite Hp. reflexivity.
        -- assert (b <> n) by (intros ->; apply Hne;
             pose proof (List_holds_inj _ _ _ _ _ _ _ H Hj Hn); lia).
           rewrite !lookup_insert_ne by congruence.
           rewrite (lh_cells _ _ H _ _ _ Hj).
           destruct j as [|j']; [lia|]. cbn [List_prev].
           rewrite list_lookup_delete_ge by lia. reflexivity.
  - cbn [fmap option_fmap option_map].
    eexists. split; [reflexivity|].
    apply lookup_ge_None in Hn.
    split; cbn [LList.length_ LList.fresh LList.head_ LList.current_ LList.cells].
    + exact Hlen.
    + rewrite length_delete by eauto. pose proof (lh_small _ _ H). lia.
    + rewrite list_fmap_delete. eapply sublist_NoDup; [exact (lh_nodup _ _ H)|apply sublist_delete].
    + intros j b w Hj. rewrite list_lookup_delete in Hj. exact (lh_fresh _ _ H _ _ _ Hj).
    + rewrite decide_False by exact Hhead. rewrite (lh_head _ _ H), !head_lookup.
      rewrite list_lookup_delete_lt by lia. reflexivity.
    + symmetry. exact Hlast.
    + intros j b w Hj.
      assert (Hjk : (j < S k)%nat).
      { pose proof (lookup_lt_Some _ _ _ Hj) as Hl. rewrite length_delete in Hl by eauto. lia. }
      rewrite list_lookup_delete_lt in Hj by lia.
      assert (b <> a) by (intros ->; pose proof (List_holds_inj _ _ _ _ _ _ _ H Hj Hi); lia).
      rewrite lookup_delete_ne by congruence.
      assert (Hpj : List_prev (delete (S k) xs) j = List_prev xs j).
      { destruct j as [|j']; [reflexivity|]. cbn [List_prev].
        rewrite list_lookup_delete_lt by lia. reflexivity. }
      rewrite Hpj. unfold List_next.
      destruct (decide (j = k)) as [->|Hne].
      * assert (b = p /\ w = vp) as [-> ->] by (split; congruence).
        rewrite lookup_insert_eq. rewrite list_lookup_delete_ge by lia.
        rewrite lookup_ge_None_2 by lia. reflexivity.
      * assert (b <> p) by (intros ->; apply Hne; exact (List_holds_inj _ _ _ _ _ _ _ H Hj Hp)).
        rewrite lookup_insert_ne by congruence.
        rewrite (lh_cells _ _ H _ _ _ Hj). unfold List_next.
        rewrite list_lookup_delete_lt by lia. reflexivity.
Qed.

(** [List::Remove] of the only item leaves the empty list. *)
Lemma Remove_single l a v :
  List_holds l [(a, v)] -> exists l', LList.Remove a l = Some l' /\ List_holds l' [].
Proof.
  intros H. pose proof (lh_cells _ _ H 0%nat a v eq_refl) as Hcell.
  cbn in Hcell. unfold LList.Remove. rewrite Hcell.
  cbn [mbind option_bind LList.prev_ LList.next_ LList.Item_remove].
  eexists. split; [reflexivity|].
  split; cbn [LList.length_ LList.fresh LList.head_ LList.current_ LList.cells];
    try (intros i a' w' Hi; rewrite lookup_nil in Hi; discriminate Hi).
  - rewrite (lh_length _ _ H). reflexivity.
  - reflexivity.
  - constructor.
  - rewrite (lh_head _ _ H). cbn. rewrite decide_True by reflexivity. reflexivity.
  - rewrite (lh_tail _ _ H). cbn. rewrite decide_True by reflexivity. reflexivity.
Qed.

(** X7.  [List::Push] appends: on a list of fewer than 2^32 - 1 items it
    returns, the values met from [head()] along [next()] are the old ones
    followed by the new one, [length()] grows by one and [tail()] is the new
    item. *)
Theorem List_Push_appends l xs v :
  List_holds l xs -> Z.of_nat (length xs) + 1 < 2 ^ 32 ->
  exists l',
    LList.Push v l = Some l' /\
    List_holds l' (xs ++ [(LList.fresh l, v)]) /\
    LList.to_list l' = LList.to_list l ++ [v] /\
    LList.length l' = LList.length l + 1 /\
    LList.tail l' = Some (LList.fresh l).
Proof.
  intros H Hlen. destruct (Push_holds l xs v H Hlen) as (l' & Hrun & H').
  exists l'. split; [exact Hrun|]. split; [exact H'|].
  split; [|split].
  - rewrite (to_list_holds _ _ H'), (to_list_holds _ _ H), fmap_app. reflexivity.
  - unfold LList.length. rewrite (lh_length _ _ H'), (lh_length _ _ H), length_app.
    cbn [length]. lia.
  - unfold LList.tail. rewrite (lh_tail _ _ H'), last_snoc. reflexivity.
Qed.

(** X8.  [List::Shift] takes the items in the order in which they were
    pushed: it returns the value of the head and leaves the rest, one item
    shorter; on an empty list it returns [NULL] and changes nothing. *)
Theorem List_Shift_first (NULL : T) l xs :
  List_holds l xs ->
  match xs with
  | [] => List_Shift NULL l = Some (NULL, l)
  | (a, v) :: rest =>
      exists l', List_Shift NULL l = Some (v, l') /\
        List_holds l' rest /\
        LList.to_list l = v :: LList.to_list l' /\
        LList.length l' = LList.length l - 1
  end.
Proof.
  intros H. destruct xs as [|[a v] rest].
  - apply Shift_empty. exact H.
  - destruct (Shift_holds NULL l a v rest H) as (l' & Hrun & H').
    exists l'. split; [exact Hrun|]. split; [exact H'|]. split.
    + rewrite (to_list_holds _ _ H), (to_list_holds _ _ H'). reflexivity.
    + unfold LList.length. rewrite (lh_length _ _ H), (lh_length _ _ H').
      cbn [length]. lia.
Qed.

(** X9.  [List::Remove] of an item that is not the head takes exactly
    that item out: the other values keep their order, [length()] drops by
    one, and [tail()] moves to the previous item when the tail was
    removed. *)
Theorem List_Remove_unlinks l xs i a v :
  List_holds l xs -> xs !! i = Some (a, v) -> (0 < i)%nat ->
  exists l',
    LList.Remove a l = Some l' /\
    List_holds l' (delete i xs) /\
    LList.to_list l' = delete i (LList.to_list l) /\
    LList.length l' = LList.length l - 1 /\
    LList.head l' = LList.head l /\
    LList.tail l' = (if decide (LList.tail l = Some a) then List_prev xs i else LList.tail l).
Proof.
  intros H Hi Hpos. destruct (Remove_holds l xs i a v H Hi Hpos) as (l' & Hrun & H').
  exists l'. split; [exact Hrun|]. split; [exact H'|].
  split; [|split; [|split]].
  - rewrite (to_list_holds _ _ H'), (to_list_holds _ _ H). apply list_fmap_delete.
  - unfold LList.length. rewrite (lh_length _ _ H'), (lh_length _ _ H).
    rewrite length_delete by eauto. pose proof (lookup_lt_Some _ _ _ Hi). lia.
  - unfold LList.head. rewrite (lh_head _ _ H'), (lh_head _ _ H), !head_lookup.
    rewrite list_lookup_delete_lt by lia. reflexivity.
  - unfold LList.Remove in Hrun.
    rewrite (lh_cells _ _ H _ _ _ Hi) in Hrun. cbn [mbind option_bind LList.prev_] in Hrun.
    destruct (LList.Item_remove _ _) as [cs|]; [|discriminate].
    cbn [mbind option_bind] in Hrun. injection Hrun as <-. reflexivity.
Qed.

(** X10.  [List::Remove] of the head of a list with more items sets
    [head_] to the head's [prev_], which is [NULL]: afterwards [head()] is
    [NULL] although [length()] is not 0, no item is met from the head, and
    [Shift] returns [NULL] without taking anything off, so that a loop
    [while (length() != 0) Shift()] cannot finish. *)
Theorem List_Remove_head_loses_list (NULL : T) l a v b w rest :
  List_holds l ((a, v) :: (b, w) :: rest) ->
  exists l',
    LList.Remove a l = Some l' /\
    LList.head l' = None /\
    LList.tail l' = LList.tail l /\
    LList.length l' = LList.length l - 1 /\
    0 < LList.length l' /\
    LList.to_list l' = [] /\
    List_Shift NULL l' = Some (NULL, l').
Proof.
  intros H.
  pose proof (lh_cells _ _ H 0%nat a v eq_refl) as Ha.
  pose proof (lh_cells _ _ H 1%nat b w eq_refl) as Hb.
  cbn [List_prev] in Ha. unfold List_next in Ha.
  cbn [lookup list_lookup fmap option_fmap option_map fst] in Ha.
  assert (Hne : LList.current_ l <> Some a).
  { rewrite (lh_tail _ _ H), last_lookup. intros Heq.
    destruct (((a, v) :: (b, w) :: rest) !! pred (length ((a, v) :: (b, w) :: rest)))
      as [[c vc]|] eqn:E; [|discriminate].
    injection Heq as ->.
    pose proof (List_holds_inj _ _ _ 0%nat _ _ _ H E eq_refl) as Hi. cbn [length] in Hi. lia. }
  unfold LList.Remove. rewrite Ha. cbn [mbind option_bind LList.prev_ LList.next_ LList.Item_remove].
  rewrite Hb. cbn [mbind option_bind].
  eexists. split; [reflexivity|].
  pose proof (lh_small _ _ H) as Hsmall. cbn [length] in Hsmall.
  assert (Hlen : u32 (LList.length_ l - 1) = LList.length_ l - 1).
  { rewrite (lh_length _ _ H). cbn [length]. apply u32_small. lia. }
  unfold LList.head, LList.tail, LList.length, LList.to_list, List_Shift.
  cbn [LList.length_ LList.fresh LList.head_ LList.current_ LList.cells].
  rewrite (lh_head _ _ H). cbn [head fmap option_fmap option_map fst].
  rewrite decide_True by reflexivity. rewrite decide_False by exact Hne.
  rewrite Hlen. split; [reflexivity|]. split; [reflexivity|]. split; [reflexivity|].
  split; [rewrite (lh_length _ _ H); cbn [length]; lia|].
  split; [|reflexivity].
  destruct (Z.to_nat (LList.length_ l - 1)); reflexivity.
Qed.

Lemma walk_chain xs (cs : gmap nat (LList.Item T)) :
  (forall i a v, xs !! i = Some (a, v) ->
     exists p, cs !! a = Some (LList.MkItem v p (List_next xs i))) ->
  forall n i, (i + n = length xs)%nat ->
  LList.walk n cs (fst <$> xs !! i) = (drop i xs).*2.
Proof.
  intros Hcs. induction n as [|n IH]; intros i Hn.
  - rewrite drop_ge by lia. destruct (fst <$> xs !! i); reflexivity.
  - destruct (lookup_lt_is_Some_2 xs i ltac:(lia)) as [[a v] Hi].
    rewrite Hi. cbn [fmap option_fmap option_map LList.walk fst].
    destruct (Hcs _ _ _ Hi) as [p ->]. cbn [LList.value_ LList.next_].
    rewrite (drop_S _ _ _ Hi). cbn [fmap list_fmap snd]. f_equal.
    unfold List_next. apply IH. lia.
Qed.

(** X11.  [List::Unshift] puts the value in front for a walk from
    [head()] along [next()], but it links in one direction only: the old
    head keeps [prev_ == NULL] and [tail()] is left as it was, so that after
    [Unshift] on an empty list [tail()] is still [NULL] and the next [Push]
    dereferences it. *)
Theorem List_Unshift_front l xs v w :
  List_holds l xs -> Z.of_nat (length xs) + 1 < 2 ^ 32 ->
  let l' := List_Unshift v l in
  LList.to_list l' = v :: LList.to_list l /\
  LList.length l' = LList.length l + 1 /\
  LList.tail l' = LList.tail l /\
  (forall h, LList.head l = Some h ->
     exists it, LList.deref l' h = Some it /\ LList.prev_ it = None) /\
  (xs = [] -> LList.tail l' = None /\ LList.Push w l' = None).
Proof.
  intros H Hlen l'.
  assert (Hl : u32 (LList.length_ l + 1) = LList.length_ l + 1).
  { rewrite (lh_length _ _ H). apply u32_small. lia. }
  split; [|split; [|split; [|split]]].
  - rewrite (to_list_holds _ _ H). unfold LList.to_list, l', List_Unshift.
    cbn [LList.length_ LList.fresh LList.head_ LList.current_ LList.cells].
    rewrite Hl, (lh_length _ _ H).
    replace (Z.to_nat (Z.of_nat (length xs) + 1)) with (S (length xs)) by lia.
    cbn [LList.walk]. rewrite lookup_insert_eq. cbn [LList.value_ LList.next_]. f_equal.
    rewrite (lh_head _ _ H), head_lookup.
    rewrite (walk_chain xs) by (try lia;
      intros i a u Hi; pose proof (lh_fresh _ _ H _ _ _ Hi);
      rewrite lookup_insert_ne by lia; rewrite (lh_cells _ _ H _ _ _ Hi); eauto).
    rewrite drop_0. reflexivity.
  - unfold LList.length, l', List_Unshift. cbn [LList.length_]. exact Hl.
  - reflexivity.
  - intros h Hh. unfold LList.head in Hh. rewrite (lh_head _ _ H), head_lookup in Hh.
    destruct (xs !! 0%nat) as [[a u]|] eqn:E; [|discriminate]. injection Hh as <-.
    pose proof (lh_fresh _ _ H _ _ _ E).
    unfold LList.deref, l', List_Unshift. cbn [LList.cells].
    rewrite lookup_insert_ne by lia. rewrite (lh_cells _ _ H _ _ _ E).
    eexists. split; reflexivity.
  - intros ->. unfold LList.tail, l', List_Unshift, LList.Push.
    cbn [LList.length_ LList.fresh LList.head_ LList.current_ LList.cells].
    rewrite (lh_tail _ _ H). split; reflexivity.
Qed.

End ListFacts.

Lemma List_Push_appends_witness :
  exists l',
    LList.Push 7 (@LList.empty Z) = Some l' /\
    List_holds l' [(0%nat, 7)] /\
    LList.to_list l' = [7].
Proof.
  destruct (List_Push_appends (@LList.empty Z) [] 7 List_holds_empty ltac:(simpl; lia))
    as (l' & Hrun & H' & Hlist & _).
  exists l'. split; [exact Hrun|]. split; [exact H'|exact Hlist].
Defined.

Lemma List_Shift_first_witness :
  exists l l',
    LList.Push 7 (@LList.empty Z) = Some l /\
    List_Shift 0 l = Some (7, l') /\ List_holds l' [] /\
    LList.to_list l = 7 :: LList.to_list l'.
Proof.
  destruct (Push_holds (@LList.empty Z) [] 7 List_holds_empty ltac:(simpl; lia))
    as (l & Hrun & H).
  destruct (List_Shift_first 0 l _ H) as (l' & Hshift & H' & Hlist & _).
  exists l, l'. split; [exact Hrun|]. split; [exact Hshift|]. split; [exact H'|exact Hlist].
Defined.

Lemma List_Remove_unlinks_witness :
  exists l1 l2 l3,
    LList.Push 7 (@LList.empty Z) = Some l1 /\ LList.Push 8 l1 = Some l2 /\
    LList.Remove 1%nat l2 = Some l3 /\
    LList.to_list l3 = [7] /\ LList.tail l3 = Some 0%nat.
Proof.
  destruct (Push_holds (@LList.empty Z) [] 7 List_holds_empty ltac:(simpl; lia))
    as (l1 & Hrun1 & H1).
  destruct (Push_holds l1 _ 8 H1 ltac:(simpl; lia)) as (l2 & Hrun2 & H2).
  assert (Hf : LList.fresh l1 = 1%nat).
  { vm_compute in Hrun1. injection Hrun1 as <-. reflexivity. }
  rewrite Hf in H2. cbn [app LList.fresh LList.empty] in H2.
  destruct (List_Remove_unlinks l2 _ 1%nat 1%nat 8 H2 eq_refl ltac:(lia))
    as (l3 & Hrun3 & H3 & Hlist & _ & _ & Htail).
  exists l1, l2, l3. split; [exact Hrun1|]. split; [exact Hrun2|]. split; [exact Hrun3|].
  split.
  - rewrite (to_list_holds _ _ H3). reflexivity.
  - rewrite Htail. unfold LList.tail. rewrite (lh_tail _ _ H2). reflexivity.
Defined.

Lemma List_Remove_head_loses_list_witness :
  exists l1 l2 l3,
    LList.Push 7 (@LList.empty Z) = Some l1 /\ LList.Push 8 l1 = Some l2 /\
    LList.Remove 0%nat l2 = Some l3 /\
    LList.head l3 = None /\ LList.length l3 = 1 /\ List_Shift 0 l3 = Some (0, l3).
Proof.
  destruct (Push_holds (@LList.empty Z) [] 7 List_holds_empty ltac:(simpl; lia))
    as (l1 & Hrun1 & H1).
  destruct (Push_holds l1 _ 8 H1 ltac:(simpl; lia)) as (l2 & Hrun2 & H2).
  cbn [app LList.fresh LList.empty] in H2.
  destruct (List_Remove_head_loses_list 0 l2 _ _ _ _ _ H2)
    as (l3 & Hrun3 & Hhead & _ & Hlen & _ & _ & Hshift).
  exists l1, l2, l3. split; [exact Hrun1|]. split; [exact Hrun2|]. split; [exact Hrun3|].
  split; [exact Hhead|]. split; [|exact Hshift].
  rewrite Hlen. unfold LList.length. rewrite (lh_length _ _ H2). reflexivity.
Defined.

Lemma List_Unshift_front_witness :
  LList.to_list (List_Unshift 7 (@LList.empty Z)) = [7] /\
  LList.tail (List_Unshift 7 (@LList.empty Z)) = None /\
  LList.Push 8 (List_Unshift 7 (@LList.empty Z)) = None.
Proof.
  destruct (List_Unshift_front (@LList.empty Z) [] 7 8 List_holds_empty ltac:(simpl; lia))
    as (Hlist & _ & _ & _ & Hempty).
  destruct (Hempty eq_refl) as [Htail Hpush].
  split; [exact Hlist|]. split; [exact Htail|exact Hpush].
Defined.

(** ** heap.cc: [Heap::Reference] and [Heap::Dereference] *)

Lemma Dereference_loop_finds reference value l xs i a r :
  List_holds l xs -> xs !! i = Some (a, r) ->
  ref_matches reference value r = true ->
  (forall j b s, (i < j)%nat -> xs !! j = Some (b, s) -> ref_matches reference value s = false) ->
  forall n j b s, (j = i + n)%nat -> xs !! j = Some (b, s) ->
  forall fuel, (n < fuel)%nat ->
  Dereference_loop fuel reference value (Some b) l =
    match LList.Remove a l with Some l' => Finished l' | None => Undefined end.
Proof.
  intros H Hi Hm Hlater.
  induction n as [|n IH]; intros j b s Hj Hb fuel Hfuel.
  - assert (j = i) as -> by lia. assert (b = a /\ s = r) as [-> ->] by (split; congruence).
    destruct fuel as [|fuel]; [lia|]. cbn [Dereference_loop]. unfold LList.deref.
    rewrite (lh_cells _ _ H _ _ _ Hi). cbn [LList.value_]. rewrite Hm. reflexivity.
  - destruct fuel as [|fuel]; [lia|]. cbn [Dereference_loop]. unfold LList.deref.
    rewrite (lh_cells _ _ H _ _ _ Hb). cbn [LList.value_ LList.prev_].
    rewrite (Hlater j b s ltac:(lia) Hb).
    subst j. replace (i + S n)%nat with (S (i + n)) in * by lia. cbn [List_prev].
    destruct (lookup_lt_is_Some_2 xs (i + n) ltac:(pose proof (lookup_lt_Some _ _ _ Hb); lia))
      as [[c t] Hc].
    rewrite Hc. cbn [fmap option_fmap option_map fst].
    apply (IH (i + n)%nat c t eq_refl Hc). lia.
Qed.

(** X12.  [Heap::Dereference] removes the entry that was added last among
    those with the given reference and value, and only that one; the
    entries before and after it keep their order.  (The entry is not the
    oldest one of the list here.) *)
Theorem Dereference_removes_latest fuel reference value l xs i a r :
  List_holds l xs -> xs !! i = Some (a, r) ->
  ref_matches reference value r = true ->
  (forall j b s, (i < j)%nat -> xs !! j = Some (b, s) -> ref_matches reference value s = false) ->
  (0 < i)%nat -> (length xs - i <= fuel)%nat ->
  exists l',
    Heap_Dereference fuel reference value l = Finished l' /\
    List_holds l' (delete i xs) /\
    LList.to_list l' = delete i (LList.to_list l).
Proof.
  intros H Hi Hm Hlater Hpos Hfuel.
  pose proof (lookup_lt_Some _ _ _ Hi) as Hlt.
  destruct (Remove_holds l xs i a r H Hi Hpos) as (l' & Hrun & H').
  exists l'. split; [|split; [exact H'|]].
  - unfold Heap_Dereference, LList.tail. rewrite (lh_tail _ _ H), last_lookup.
    destruct (lookup_lt_is_Some_2 xs (pred (length xs)) ltac:(lia)) as [[b s] Hb].
    rewrite Hb. cbn [fmap option_fmap option_map fst].
    rewrite (Dereference_loop_finds reference value l xs i a r H Hi Hm Hlater
               (pred (length xs) - i) (pred (length xs)) b s ltac:(lia) Hb fuel ltac:(lia)).
    rewrite Hrun. reflexivity.
  - rewrite (to_list_holds _ _ H'), (to_list_holds _ _ H). apply list_fmap_delete.
Qed.

(** X13.  A [Heap::Reference] followed by the [Heap::Dereference] of the
    same reference and value leaves the list of references with the
    entries it had before. *)
Theorem Reference_Dereference fuel type reference value l xs :
  List_holds l xs -> Z.of_nat (length xs) + 1 < 2 ^ 32 ->
  exists l1 l2,
    Heap_Reference type reference value l = Some l1 /\
    Heap_Dereference (S fuel) reference value l1 = Finished l2 /\
    List_holds l2 xs /\
    LList.to_list l2 = LList.to_list l.
Proof.
  intros H Hlen. unfold Heap_Reference.
  destruct (Push_holds l xs (MkReference type reference value) H Hlen) as (l1 & Hrun & H1).
  set (r := MkReference type reference value) in *. set (a := LList.fresh l) in *.
  assert (Hm : ref_matches reference value r = true).
  { unfold ref_matches, r. cbn. rewrite !Z.eqb_refl. reflexivity. }
  assert (Hlast : (xs ++ [(a, r)]) !! length xs = Some (a, r)).
  { rewrite lookup_app_r by lia. rewrite Nat.sub_diag. reflexivity. }
  assert (Hrem : exists l2, LList.Remove a l1 = Some l2 /\ List_holds l2 xs).
  { destruct xs as [|x xs0].
    - apply (Remove_single l1 a r). exact H1.
    - destruct (Remove_holds l1 _ _ a r H1 Hlast ltac:(cbn; lia)) as (l2 & Hr & H2).
      exists l2. split; [exact Hr|].
      replace (delete (length (x :: xs0)) ((x :: xs0) ++ [(a, r)])) with (x :: xs0) in H2;
        [exact H2|].
      clear. generalize (x :: xs0). intros ys. induction ys as [|y ys IH]; [reflexivity|].
      cbn. f_equal. exact IH. }
  destruct Hrem as (l2 & Hr & H2).
  exists l1, l2. split; [exact Hrun|]. split; [|split; [exact H2|]].
  - unfold Heap_Dereference, LList.tail. rewrite (lh_tail _ _ H1), last_snoc.
    cbn [fmap option_fmap option_map fst Dereference_loop]. unfold LList.deref.
    rewrite (lh_cells _ _ H1 _ _ _ Hlast). cbn [LList.value_]. rewrite Hm, Hr. reflexivity.
  - rewrite (to_list_holds _ _ H2), (to_list_holds _ _ H). reflexivity.
Qed.

Lemma Dereference_removes_latest_witness :
  exists l1 l2 l3,
    Heap_Reference 0 10 100 LList.empty = Some l1 /\
    Heap_Reference 0 20 200 l1 = Some l2 /\
    Heap_Dereference 1 20 200 l2 = Finished l3 /\
    LList.to_list l3 = [MkReference 0 10 100].
Proof.
  destruct (Push_holds LList.empty [] (MkReference 0 10 100) List_holds_empty ltac:(simpl; lia))
    as (l1 & Hrun1 & H1).
  destruct (Push_holds l1 _ (MkReference 0 20 200) H1 ltac:(simpl; lia)) as (l2 & Hrun2 & H2).
  cbn [app] in H2.
  destruct (Dereference_removes_latest 1 20 200 l2 _ 1%nat _ _ H2 eq_refl eq_refl)
    as (l3 & Hrun3 & H3 & _).
  - intros j b s Hj Hs. destruct j as [|[|j]]; [lia|lia|discriminate Hs].
  - lia.
  - simpl. lia.
  - exists l1, l2, l3. split; [exact Hrun1|]. split; [exact Hrun2|]. split; [exact Hrun3|].
    rewrite (to_list_holds _ _ H3). reflexivity.
Defined.

Lemma Reference_Dereference_witness :
  exists l1 l2,
    Heap_Reference 0 10 100 LList.empty = Some l1 /\
    Heap_Dereference 1 10 100 l1 = Finished l2 /\
    List_holds l2 [].
Proof.
  destruct (Reference_Dereference 0 0 10 100 LList.empty [] List_holds_empty ltac:(simpl; lia))
    as (l1 & l2 & Hrun1 & Hrun2 & H2 & _).
  exists l1, l2. split; [exact Hrun1|]. split; [exact Hrun2|exact H2].
Defined.


(** ** heap.cc: what [Space::Allocate] hands out *)

(** X14.  Allocations never overlap: on a well-formed heap any sequence of
    [Space::Allocate] calls, in either space and each of at most 2^31 - 2
    bytes, returns, the blocks it returns are pairwise disjoint and disjoint
    from everything that was handed out before, and the heap stays well
    formed with the earlier objects untouched. *)
Theorem Allocate_never_overlaps requests h :
  Heap_wf h ->
  Forall (fun r => 0 < snd r <= 2 ^ 31 - 2) requests ->
  exists rs h',
    Allocate_all requests h = Some (rs, h') /\
    Heap_wf h' /\ keeps h h' /\
    length rs = length requests /\
    (forall i r k b x, rs !! i = Some r -> requests !! i = Some (k, b) ->
       r <= x < r + b -> used h' x /\ ~ used h x) /\
    (forall i j ri rj ki bi kj bj, i <> j ->
       rs !! i = Some ri -> requests !! i = Some (ki, bi) ->
       rs !! j = Some rj -> requests !! j = Some (kj, bj) ->
       ri + bi <= rj \/ rj + bj <= ri).
Proof.
  revert h. induction requests as [|[k b] rest IH]; intros h Hwf Hsizes.
  - exists [], h. split; [reflexivity|]. split; [exact Hwf|]. split; [apply keeps_refl|].
    split; [reflexivity|]. split.
    + intros i r k b x Hr. rewrite lookup_nil in Hr. discriminate.
    + intros i j ri rj ki bi kj bj _ Hr. rewrite lookup_nil in Hr. discriminate.
  - apply Forall_cons in Hsizes. destruct Hsizes as [Hb Hsizes]. cbn [snd] in Hb.
    destruct (Allocate_spec k b h Hwf Hb) as (r & h1 & Hrun & Hwf1 & Hk1 & Hf1 & _).
    destruct (IH h1 Hwf1 Hsizes) as (rs & h2 & Hrest & Hwf2 & Hk2 & Hlen & Hfresh & Hapart).
    exists (r :: rs), h2.
    split; [cbn [Allocate_all]; run_unfold; rewrite Hrun, Hrest; reflexivity|].
    split; [exact Hwf2|]. split; [exact (keeps_trans _ _ _ Hk1 Hk2)|].
    split; [cbn [length]; lia|]. split.
    + intros i r' k' b' x Hr Hq Hx. destruct i as [|i].
      * injection Hr as <-. injection Hq as <- <-.
        destruct (Hf1 x Hx) as [Hu Hn]. split; [apply Hk2; exact Hu|exact Hn].
      * destruct (Hfresh i r' k' b' x Hr Hq Hx) as [Hu Hn].
        split; [exact Hu|]. intros Hx0. apply Hn. apply Hk1. exact Hx0.
    + assert (Hfirst : forall j rj kj bj, rs !! j = Some rj -> rest !! j = Some (kj, bj) ->
                r + b <= rj \/ rj + bj <= r).
      { intros j rj kj bj Hr Hq.
        destruct (Z.le_gt_cases (r + b) rj) as [|H1]; [auto|].
        destruct (Z.le_gt_cases (rj + bj) r) as [|H2]; [auto|]. exfalso.
        pose proof (proj1 (Forall_lookup _ _) Hsizes _ _ Hq) as Hbj. cbn [snd] in Hbj.
        set (x := Z.max r rj).
        destruct (Hfresh j rj kj bj x Hr Hq ltac:(lia)) as [_ Hn].
        apply Hn. apply Hf1. lia. }
      intros i j ri rj ki bi kj bj Hne Hri Hqi Hrj Hqj.
      destruct i as [|i], j as [|j]; [contradiction| | |].
      * injection Hri as <-. injection Hqi as <- <-. exact (Hfirst j rj kj bj Hrj Hqj).
      * injection Hrj as <-. injection Hqj as <- <-.
        destruct (Hfirst i ri ki bi Hri Hqi); [right|left]; assumption.
      * apply (Hapart i j ri rj ki bi kj bj); [congruence|assumption..].
Qed.


Lemma Allocate_never_overlaps_witness :
  exists rs h',
    Allocate_all [(NewSpace, 24); (OldSpace, 5000); (NewSpace, 4090)] example_heap
      = Some (rs, h') /\
    rs = [1000; 9192; 17384] /\ Heap_wf h'.
Proof.
  destruct (Allocate_never_overlaps [(NewSpace, 24); (OldSpace, 5000); (NewSpace, 4090)]
              example_heap example_heap_Heap_wf)
    as (rs & h' & Hrun & Hwf & _).
  - repeat constructor; simpl; lia.
  - exists rs, h'. split; [exact Hrun|]. split; [|exact Hwf].
    vm_compute in Hrun. congruence.
Defined.

(** X15.  [Heap(page_size)] makes a well-formed heap: each space has one
    page of [page_size] bytes, selected and empty, and the two pages do not
    overlap. *)
Theorem Heap_new_well_formed page_size limit base m :
  0 < page_size <= 2 ^ 31 ->
  exists h,
    Heap_new page_size limit base m = Some h /\
    Heap_wf h /\
    pages_ (space NewSpace h) = [Page_new base page_size] /\
    pages_ (space OldSpace h) = [Page_new (base + page_size) page_size] /\
    mem h = m /\ needs_gc_ h = kGCNone /\ (forall x, ~ used h x).
Proof.
  intros Hps. eexists. split; [reflexivity|].
  cbn [space new_space_ old_space_ pages_ mem needs_gc_ set_space set_sys_next sys_next].
  split; [|split; [reflexivity|split; [reflexivity|split; [reflexivity|split; [reflexivity|]]]]].
  - split.
    + intros []; (split; cbn; [lia| |lia]); repeat constructor; unfold Page_ok; cbn; lia.
    + intros []; cbn; lia.
    + intros k i p k' j q Hp Hq Hne. unfold apart.
      destruct k, k'; cbn in Hp, Hq;
        destruct i as [|i]; try discriminate; destruct j as [|j]; try discriminate;
        try (injection Hp as <-; injection Hq as <-; cbn; lia);
        exfalso; apply Hne; reflexivity.
    + intros k i p Hp.
      destruct k; cbn in Hp; destruct i as [|i]; try discriminate;
        injection Hp as <-; cbn; lia.
  - intros x (k & i & p & Hp & Hx).
    destruct k; cbn in Hp; destruct i as [|i]; try discriminate;
      injection Hp as <-; cbn in Hx; lia.
Qed.

Lemma Heap_new_well_formed_witness :
  exists h, Heap_new 4096 8192 1000 (MkMem (fun _ => 0) []) = Some h /\ Heap_wf h.
Proof.
  destruct (Heap_new_well_formed 4096 8192 1000 (MkMem (fun _ => 0) []) ltac:(lia))
    as (h & Hrun & Hwf & _).
  exists h. split; [exact Hrun|exact Hwf].
Defined.


(** ** heap.cc: the object constructors, read back *)

Lemma load_le_zero n m a :
  (forall i, 0 <= i < Z.of_nat n -> load8 m (a + i) = 0) -> load_le m a n = 0.
Proof.
  intros Hz. rewrite (load_le_digits n m a 0); [apply Z.mod_0_l; lia|].
  intros i Hi. rewrite Hz by exact Hi. rewrite Z.div_0_l by lia. reflexivity.
Qed.

Lemma load64_store64 a v m : load64 (store64 a v m) a = u64 v.
Proof. unfold load64, store64. rewrite load_le_store_same. reflexivity. Qed.

Lemma memset0_zero n : forall dst m x,
  dst <= x < dst + Z.of_nat n -> load8 (memset0 dst n m) x = 0.
Proof.
  induction n as [|n IH]; intros dst m x Hx; [simpl in Hx; lia|].
  cbn [memset0]. destruct (Z.eq_dec x dst) as [->|Hne].
  - rewrite memset0_writes by lia. unfold store8. rewrite load8_store_le.
    assert ((dst <=? dst) && (dst <? dst + Z.of_nat 1) = true) as ->
      by (apply andb_true_iff; split; [apply Z.leb_le|apply Z.ltb_lt]; lia).
    rewrite Z.sub_diag. reflexivity.
  - apply IH. lia.
Qed.

Lemma nil_fill_zero map n : forall i m x,
  load8 m x = 0 -> load8 (nil_fill map i n m) x = 0.
Proof.
  induction n as [|n IH]; intros i m x Hx; [exact Hx|].
  cbn [nil_fill]. apply IH. unfold store8. rewrite load8_store_le.
  destruct (_ && _) eqn:E; [|exact Hx].
  apply andb_true_iff in E. destruct E as [E1 E2].
  apply Z.leb_le in E1. apply Z.ltb_lt in E2.
  replace (x - (map + i + 16)) with 0 by lia. reflexivity.
Qed.

Section ConstructorFacts.
Context `{Externals}.

(** X16.  [HString::New] then [HString::Hash]: a string made from the
    characters [value] reads back its length and its characters, its hash
    field starts at 0, and the first [HString::Hash] on it returns
    [ComputeHash] of the characters. *)
Theorem HString_New_then_Hash tenure value h :
  Heap_wf h -> Z.of_nat (length value) <= 2 ^ 30 ->
  exists s h',
    HString_New tenure value h = Some (s, h') /\
    Heap_wf h' /\ keeps h h' /\
    load8 (mem h') s = tag_value kTagString /\
    HString_Length (mem h') s = Z.of_nat (length value) /\
    read_bytes (mem h') (HString_Value s) (length value) = value /\
    load32 (mem h') (s + HString.kHashOffset) = 0 /\
    fst (HString_Hash s (mem h')) = Utils.ComputeHash value.
Proof.
  intros Hwf Hlen. set (len := Z.of_nat (length value)) in *.
  set (W := fun r m => memcpy (r + HString.kValueOffset) value
              (store64 (r + HString.kLengthOffset) len
                 (store64 (r + HString.kHashOffset) 0 m))).
  destruct (alloc_then_write kTagString tenure (len + 24) W h Hwf ltac:(lia))
    as (r & h1 & Hrun & Hwf' & Hk & Htag & Hused).
  { intros r m x Hx. unfold W, HString.kValueOffset, HString.kLengthOffset, HString.kHashOffset.
    rewrite memcpy_writes by (fold len; lia).
    unfold store64. rewrite !load8_store_le_other by (simpl; lia). reflexivity. }
  assert (HL : HString_Length (W r (mem h1)) r = len).
  { unfold W, HString.kValueOffset, HString.kLengthOffset, HString_Length, load32.
    rewrite (load_le_ext 4 _ (store64 (r + 16) len (store64 (r + HString.kHashOffset) 0 (mem h1)))).
    - apply load32_store64. lia.
    - intros i Hi. apply memcpy_writes. lia. }
  assert (HV : read_bytes (W r (mem h1)) (HString_Value r) (length value) = value).
  { unfold W, HString_Value, HString.kValueOffset. apply read_bytes_memcpy. }
  assert (HH : load32 (W r (mem h1)) (r + HString.kHashOffset) = 0).
  { unfold W, HString.kValueOffset, HString.kLengthOffset, HString.kHashOffset, load32.
    apply load_le_zero. intros i Hi. simpl in Hi.
    rewrite memcpy_writes by lia.
    unfold store64. rewrite load8_store_le_other by (simpl; lia).
    rewrite load8_store_le.
    assert ((r + 8 <=? r + 8 + i) && (r + 8 + i <? r + 8 + Z.of_nat 8) = true) as ->
      by (apply andb_true_iff; split; [apply Z.leb_le|apply Z.ltb_lt]; lia).
    rewrite Z.div_0_l by lia. reflexivity. }
  exists r, (set_mem (W r (mem h1)) h1).
  split; [|split; [exact Hwf'|split; [exact Hk|split; [exact Htag|]]]].
  - unfold HString_New, HString_New_raw. fold len. rewrite (u32_small (len + 24)) by lia.
    run_unfold. rewrite Hrun. reflexivity.
  - cbn [mem set_mem]. split; [exact HL|]. split; [exact HV|]. split; [exact HH|].
    unfold HString_Hash. rewrite HH. cbn [Z.eqb fst].
    unfold ComputeHash_at. rewrite HL. unfold len. rewrite Nat2Z.id. rewrite HV. reflexivity.
Qed.

(** X17.  [HBoolean::New] and [HBoolean::Value]: the value that was boxed
    is the one read back, in either space. *)
Theorem HBoolean_New_Value tenure value h :
  Heap_wf h ->
  exists b h',
    HBoolean_New tenure value h = Some (b, h') /\
    Heap_wf h' /\ keeps h h' /\
    load8 (mem h') b = tag_value kTagBoolean /\
    HBoolean_Value (mem h') b = value /\
    fresh_block h h' b 16.
Proof.
  intros Hwf.
  destruct (AllocateTagged_spec kTagBoolean tenure 8 h Hwf ltac:(lia))
    as (r & h1 & Hrun & Hwf1 & Hk1 & Hf1 & Htag & _).
  set (f := store8 (r + 8) (if value then 1 else 0)).
  destruct (poke_fresh h h1 f (r + 8) (r + 9) Hwf1 Hk1) as (_ & Hwf2 & Hk2 & Hu2).
  { intros m x Hx. unfold f, store8. apply load8_store_le_other. simpl. lia. }
  { intros x Hx. apply Hf1. lia. }
  exists r, (set_mem (f (mem h1)) h1).
  split; [|split; [exact Hwf2|split; [exact Hk2|split; [|split]]]].
  - unfold HBoolean_New. run_unfold. rewrite Hrun. reflexivity.
  - cbn [mem set_mem]. unfold f, store8. rewrite load8_store_le_other by (simpl; lia). exact Htag.
  - unfold HBoolean_Value. cbn [mem set_mem]. unfold f, store8. rewrite load8_store_le.
    assert ((r + 8 <=? r + 8) && (r + 8 <? r + 8 + Z.of_nat 1) = true) as ->
      by (apply andb_true_iff; split; [apply Z.leb_le|apply Z.ltb_lt]; lia).
    rewrite Z.sub_diag. destruct value; reflexivity.
  - intros x Hx. destruct (Hf1 x ltac:(lia)) as [Hu Hn]. split; [apply Hu2; exact Hu|exact Hn].
Qed.

(** X18.  [HContext::New]: the context has no parent, [slots()] is the
    number of values and slot [i] holds value [i]; it lies in a block that
    was not handed out before. *)
Theorem HContext_New_fields values h :
  Heap_wf h -> Z.of_nat (length values) <= 2 ^ 27 ->
  exists ctx h',
    HContext_New values h = Some (ctx, h') /\
    Heap_wf h' /\ keeps h h' /\
    load8 (mem h') ctx = tag_value kTagContext /\
    HContext_has_parent (mem h') ctx = false /\
    HContext_slots (mem h') ctx = Z.of_nat (length values) /\
    (forall i v, values !! i = Some v ->
       load64 (mem h') (ctx + GetIndexDisp (Z.of_nat i)) = u64 v) /\
    (forall x, ctx <= x < ctx + 24 + 8 * Z.of_nat (length values) ->
       used h' x /\ ~ used h x).
Proof.
  intros Hwf Hlen. set (n := Z.of_nat (length values)) in *.
  destruct (AllocateTagged_spec kTagContext kTenureOld (16 + n * 8) h Hwf ltac:(lia))
    as (r & h1 & Hrun & Hwf1 & Hk1 & Hf1 & Htag & _).
  set (W := fun m => put_values (r + 24) values
              (store64 (r + 16) n (store64 (r + 8) HNil_New m))).
  assert (HW : writes_in W (r + 8) (r + 24 + 8 * n)).
  { intros m x Hx. unfold W.
    rewrite put_values_writes by (fold n; lia).
    unfold store64. rewrite !load8_store_le_other by (simpl; lia). reflexivity. }
  destruct (poke_fresh h h1 W (r + 8) (r + 24 + 8 * n) Hwf1 Hk1 HW) as (_ & Hwf2 & Hk2 & Hu2).
  { intros x Hx. apply Hf1. lia. }
  exists r, (set_mem (W (mem h1)) h1).
  split; [|split; [exact Hwf2|split; [exact Hk2|]]].
  - unfold HContext_New. fold n. rewrite (u32_small (n * 8)) by lia.
    rewrite (u32_small (16 + n * 8)) by lia.
    run_unfold. rewrite Hrun. reflexivity.
  - cbn [mem set_mem]. split; [rewrite HW by lia; exact Htag|].
    split; [|split; [|split]].
    + unfold HContext_has_parent, HContext_parent, W, load64.
      rewrite (load_le_ext 8 _ (store64 (r + 8) HNil_New (mem h1))).
      * fold (load64 (store64 (r + 8) HNil_New (mem h1)) (r + 8)).
        rewrite load64_store64. reflexivity.
      * intros i Hi. rewrite put_values_writes by lia.
        unfold store64. apply load8_store_le_other. simpl in *. lia.
    + unfold HContext_slots, W, load64.
      rewrite (load_le_ext 8 _ (store64 (r + 16) n (store64 (r + 8) HNil_New (mem h1)))).
      * fold (load64 (store64 (r + 16) n (store64 (r + 8) HNil_New (mem h1))) (r + 16)).
        rewrite load64_store64. rewrite (u64_small n) by lia. apply u32_small. lia.
      * intros i Hi. apply put_values_writes. lia.
    + intros i v Hi. unfold W, GetIndexDisp.
      replace (r + 8 * (3 + Z.of_nat i)) with (r + 24 + 8 * Z.of_nat i) by lia.
      apply put_values_lookup. exact Hi.
    + intros x Hx. destruct (Hf1 x ltac:(lia)) as [Hu Hn]. split; [apply Hu2; exact Hu|exact Hn].
Qed.

Lemma HFunction_New_spec parent addr root h :
  Heap_wf h ->
  exists fn h',
    HFunction_New parent addr root h = Some (fn, h') /\
    Heap_wf h' /\ keeps h h' /\
    load8 (mem h') fn = tag_value kTagFunction /\
    HFunction_parent (mem h') fn = u64 parent /\
    load64 (mem h') (fn + 16) = u64 addr /\
    load64 (mem h') (fn + 24) = u64 root /\
    fresh_block h h' fn 32.
Proof.
  intros Hwf.
  destruct (AllocateTagged_spec kTagFunction kTenureOld 24 h Hwf ltac:(lia))
    as (r & h1 & Hrun & Hwf1 & Hk1 & Hf1 & Htag & _).
  set (W := fun m => store64 (r + 24) root (store64 (r + 16) addr (store64 (r + 8) parent m))).
  assert (HW : writes_in W (r + 8) (r + 32)).
  { intros m x Hx. unfold W, store64.
    rewrite !load8_store_le_other by (simpl; lia). reflexivity. }
  destruct (poke_fresh h h1 W (r + 8) (r + 32) Hwf1 Hk1 HW) as (_ & Hwf2 & Hk2 & Hu2).
  { intros x Hx. apply Hf1. lia. }
  exists r, (set_mem (W (mem h1)) h1).
  split; [|split; [exact Hwf2|split; [exact Hk2|]]].
  - unfold HFunction_New. run_unfold. rewrite Hrun. reflexivity.
  - cbn [mem set_mem]. split; [rewrite HW by lia; exact Htag|].
    split; [|split; [|split]].
    + unfold HFunction_parent, W, load64, store64.
      rewrite !load_le_store_other by (simpl; lia). apply load_le_store_same.
    + unfold W, load64, store64.
      rewrite load_le_store_other by (simpl; lia). apply load_le_store_same.
    + unfold W. apply load64_store64.
    + intros x Hx. destruct (Hf1 x ltac:(lia)) as [Hu Hn]. split; [apply Hu2; exact Hu|exact Hn].
Qed.

(** X19.  [HFunction::New]: the function object is tagged, lies in a new
    block of 32 bytes and reads back its parent context, its code address
    and its root context; the objects made before are untouched.
    [HFunction::NewBinding] makes such an object with the binding mark as
    its parent. *)
Theorem HFunction_New_fields parent addr root h :
  Heap_wf h ->
  (exists fn h',
    HFunction_New parent addr root h = Some (fn, h') /\
    Heap_wf h' /\ keeps h h' /\
    load8 (mem h') fn = tag_value kTagFunction /\
    HFunction_parent (mem h') fn = u64 parent /\
    load64 (mem h') (fn + 16) = u64 addr /\
    load64 (mem h') (fn + 24) = u64 root /\
    fresh_block h h' fn 32) /\
  (exists fn h',
    HFunction_NewBinding addr root h = Some (fn, h') /\
    Heap_wf h' /\ keeps h h' /\
    load8 (mem h') fn = tag_value kTagFunction /\
    HFunction_parent (mem h') fn = u64 kBindingContextTag /\
    load64 (mem h') (fn + 16) = u64 addr /\
    load64 (mem h') (fn + 24) = u64 root /\
    fresh_block h h' fn 32).
Proof.
  intros Hwf. split; [apply HFunction_New_spec; exact Hwf|].
  unfold HFunction_NewBinding. apply HFunction_New_spec. exact Hwf.
Qed.

End ConstructorFacts.

Lemma HString_New_then_Hash_witness :
  exists s h',
    @HString_New example_params kTenureOld [x66; x6f; x6f] example_heap = Some (s, h') /\
    fst (HString_Hash s (mem h')) = Utils.ComputeHash [x66; x6f; x6f].
Proof.
  destruct (@HString_New_then_Hash example_params kTenureOld [x66; x6f; x6f] example_heap
              example_heap_Heap_wf ltac:(simpl; lia))
    as (s & h' & Hrun & _ & _ & _ & _ & _ & _ & Hhash).
  exists s, h'. split; [exact Hrun|exact Hhash].
Defined.

Lemma HBoolean_New_Value_witness :
  exists b h',
    @HBoolean_New example_params kTenureNew true example_heap = Some (b, h') /\
    HBoolean_Value (mem h') b = true.
Proof.
  destruct (@HBoolean_New_Value example_params kTenureNew true example_heap
              example_heap_Heap_wf)
    as (b & h' & Hrun & _ & _ & _ & Hval & _).
  exists b, h'. split; [exact Hrun|exact Hval].
Defined.

Lemma HContext_New_fields_witness :
  exists ctx h',
    @HContext_New example_params [7; 9] example_heap = Some (ctx, h') /\
    HContext_slots (mem h') ctx = 2 /\ HContext_has_parent (mem h') ctx = false.
Proof.
  destruct (@HContext_New_fields example_params [7; 9] example_heap
              example_heap_Heap_wf ltac:(simpl; lia))
    as (ctx & h' & Hrun & _ & _ & _ & Hpar & Hslots & _).
  exists ctx, h'. split; [exact Hrun|]. split; [exact Hslots|exact Hpar].
Defined.

Lemma HFunction_New_fields_witness :
  exists fn h',
    @HFunction_New example_params 5096 4242 1000 example_heap = Some (fn, h') /\
    HFunction_parent (mem h') fn = 5096.
Proof.
  destruct (@HFunction_New_fields example_params 5096 4242 1000 example_heap
              example_heap_Heap_wf)
    as [(fn & h' & Hrun & _ & _ & _ & Hpar & _) _].
  exists fn, h'. split; [exact Hrun|exact Hpar].
Defined.


(** ** heap.cc: empty objects and arrays *)

Section EmptyObjects.
Context `{Externals}.

(** The object and its map: two new blocks, and the stores of the
    constructor behind their headers. *)
Lemma object_with_map tag bytes (W : Z -> Z -> Mem -> Mem) h :
  Heap_wf h -> 0 <= bytes <= 2 ^ 31 - 10 ->
  (forall obj map m x,
     x < obj + 8 \/ obj + bytes + 8 <= x -> x < map + 8 \/ map + 272 <= x ->
     load8 (W obj map m) x = load8 m x) ->
  exists obj map h1 h2,
    AllocateTagged tag kTenureNew bytes h = Some (obj, h1) /\
    AllocateTagged kTagMap kTenureNew 264 h1 = Some (map, h2) /\
    let h' := set_mem (W obj map (mem h2)) h2 in
    Heap_wf h' /\ keeps h h' /\
    load8 (mem h') obj = tag_value tag /\
    load8 (mem h') map = tag_value kTagMap /\
    (obj + bytes + 8 <= map \/ map + 272 <= obj) /\
    fresh_block h h' obj (bytes + 8) /\ fresh_block h h' map 272.
Proof.
  intros Hwf Hb HW.
  destruct (AllocateTagged_spec tag kTenureNew bytes h Hwf Hb)
    as (obj & h1 & Hrun1 & Hwf1 & Hk1 & Hf1 & Htag1 & _).
  destruct (AllocateTagged_spec kTagMap kTenureNew 264 h1 Hwf1 ltac:(lia))
    as (map & h2 & Hrun2 & Hwf2 & Hk2 & Hf2 & Htag2 & Hout2).
  assert (Hapart : obj + bytes + 8 <= map \/ map + 272 <= obj).
  { destruct (Z.le_gt_cases (obj + bytes + 8) map) as [|H1]; [auto|].
    destruct (Z.le_gt_cases (map + 272) obj) as [|H2]; [auto|]. exfalso.
    set (x := Z.max obj map).
    destruct (Hf2 x ltac:(lia)) as [_ Hn]. apply Hn. apply Hf1. lia. }
  pose proof (keeps_trans _ _ _ Hk1 Hk2) as Hk.
  assert (Hsp : forall k, space k (set_mem (W obj map (mem h2)) h2) = space k h2)
    by (intros []; reflexivity).
  assert (Hu : forall x, used (set_mem (W obj map (mem h2)) h2) x <-> used h2 x).
  { intros x. split; intros (k & i & p & Hp & Hr); exists k, i, p;
      [rewrite <- Hsp|rewrite Hsp]; auto. }
  exists obj, map, h1, h2. split; [exact Hrun1|]. split; [exact Hrun2|].
  cbv zeta. cbn [mem set_mem].
  split; [|split; [|split; [|split; [|split; [exact Hapart|split]]]]].
  - apply (Heap_wf_same_pages h2); [|reflexivity|exact Hwf2].
    intros k. rewrite Hsp. destruct (hw_space h2 Hwf2 k) as [? _ _]. auto.
  - intros x Hx. destruct (Hk x Hx) as [Hux He]. split; [apply Hu; exact Hux|].
    cbn [mem set_mem]. rewrite HW; [exact He| |].
    + destruct (Z.lt_ge_cases x (obj + 8)) as [|Hlo]; [auto|].
      destruct (Z.lt_ge_cases x (obj + bytes + 8)) as [Hhi|]; [|auto].
      exfalso. apply (Hf1 x); [lia|exact Hx].
    + destruct (Z.lt_ge_cases x (map + 8)) as [|Hlo]; [auto|].
      destruct (Z.lt_ge_cases x (map + 272)) as [Hhi|]; [|auto].
      exfalso. apply (Hf2 x); [lia|apply Hk1; exact Hx].
  - rewrite HW by lia. rewrite Hout2 by lia. exact Htag1.
  - rewrite HW by lia. exact Htag2.
  - intros x Hx. destruct (Hf1 x Hx) as [Hux Hn].
    split; [apply Hu; apply Hk2; exact Hux|exact Hn].
  - intros x Hx. destruct (Hf2 x ltac:(lia)) as [Hux Hn].
    split; [apply Hu; exact Hux|]. intros Hx0. apply Hn. apply Hk1. exact Hx0.
Qed.

Lemma fill_map_writes map : writes_in (fill_map map) (map + 8) (map + 272).
Proof.
  intros m x Hx. unfold fill_map, HMap.kSpaceOffset, HMap.kSizeOffset.
  rewrite nil_fill_writes by (simpl; lia).
  rewrite memset0_writes by (simpl; lia).
  unfold store64. apply load8_store_le_other. simpl. lia.
Qed.

Lemma fill_map_size map m : HMap_size (fill_map map m) map = 16.
Proof.
  unfold HMap_size, fill_map, HMap.kSpaceOffset, HMap.kSizeOffset, load64.
  rewrite (load_le_ext 8 _ (store64 (map + 8) 16 m)).
  - fold (load64 (store64 (map + 8) 16 m) (map + 8)). rewrite load64_store64. reflexivity.
  - intros i Hi. simpl in Hi.
    rewrite nil_fill_writes by (simpl; lia).
    apply memset0_writes. simpl. lia.
Qed.

Lemma fill_map_nil map m i :
  0 <= i < 32 -> load64 (fill_map map m) (HMap_space map + 8 * i) = HNil_New.
Proof.
  intros Hi. unfold load64. apply load_le_zero. intros j Hj. simpl in Hj.
  unfold fill_map. apply nil_fill_zero. apply memset0_zero.
  unfold HMap_space, HMap.kSpaceOffset. simpl. lia.
Qed.

(** X20.  [HObject::NewEmpty] returns an object whose mask is
    [(16 - 1) << 3] and whose map field points to a map of size 16, all of
    whose 32 key and value slots are nil.  The object and the map are two
    disjoint new blocks of the new space, and the objects made before are
    untouched. *)
Theorem HObject_NewEmpty_is_empty h :
  Heap_wf h ->
  exists obj map h',
    HObject_NewEmpty h = Some (obj, h') /\
    Heap_wf h' /\ keeps h h' /\
    load8 (mem h') obj = tag_value kTagObject /\
    load64 (mem h') (obj + HObject.kMaskOffset) = 120 /\
    HObject_Map (mem h') obj = u64 map /\
    load8 (mem h') map = tag_value kTagMap /\
    HMap_size (mem h') map = 16 /\
    (forall i, 0 <= i < 32 -> load64 (mem h') (HMap_space map + 8 * i) = HNil_New) /\
    (obj + 24 <= map \/ map + 272 <= obj) /\
    fresh_block h h' obj 24 /\ fresh_block h h' map 272.
Proof.
  intros Hwf.
  set (W := fun obj map m =>
         fill_map map (store64 (obj + HObject.kMapOffset) map
                         (store64 (obj + HObject.kMaskOffset) (Z.shiftl (16 - 1) 3) m))).
  destruct (object_with_map kTagObject 16 W h Hwf ltac:(lia))
    as (obj & map & h1 & h2 & Hrun1 & Hrun2 & Hwf' & Hk & Htag1 & Htag2 & Hapart & Hf1 & Hf2).
  { intros obj map m x Hobj Hmap. unfold W, HObject.kMapOffset, HObject.kMaskOffset.
    rewrite fill_map_writes by lia.
    unfold store64. rewrite !load8_store_le_other by (simpl; lia). reflexivity. }
  exists obj, map, (set_mem (W obj map (mem h2)) h2).
  split; [|split; [exact Hwf'|split; [exact Hk|split; [exact Htag1|]]]].
  - unfold HObject_NewEmpty.
    change (u32 (Z.shiftl 16 4 + 8)) with 264.
    change (u32 (Z.shiftl 16 4)) with 256.
    change (Z.to_nat ((256 + 7) / 8)) with 32%nat.
    run_unfold. rewrite Hrun1, Hrun2. reflexivity.
  - cbn [mem set_mem].
    split; [|split; [|split; [exact Htag2|split; [|split; [|split; [lia|split; [exact Hf1|exact Hf2]]]]]]].
    + unfold W, HObject.kMapOffset, HObject.kMaskOffset, load64.
      rewrite (load_le_ext 8 _ (store64 (obj + 8) (Z.shiftl (16 - 1) 3) (mem h2))).
      * fold (load64 (store64 (obj + 8) (Z.shiftl (16 - 1) 3) (mem h2)) (obj + 8)).
        rewrite load64_store64. reflexivity.
      * intros i Hi. simpl in Hi. rewrite fill_map_writes by lia.
        unfold store64. apply load8_store_le_other. simpl. lia.
    + unfold HObject_Map, W, HObject.kMapOffset, load64.
      rewrite (load_le_ext 8 _ (store64 (obj + 16) map
                 (store64 (obj + HObject.kMaskOffset) (Z.shiftl (16 - 1) 3) (mem h2)))).
      * apply load64_store64.
      * intros i Hi. simpl in Hi. apply fill_map_writes. lia.
    + unfold W. apply fill_map_size.
    + intros i Hi. unfold W. apply fill_map_nil. exact Hi.
Qed.

End EmptyObjects.

Section EmptyArrays.
Context `{Externals}.
Variable RuntimeLookupProperty : Mem -> Z -> Z -> Z -> Z.

(** X21.  [HArray::NewEmpty] returns an array with a map of size 16 whose
    slots are all nil and with length 0: [HArray::Length] returns 0 on it,
    with and without shrinking, whatever the property lookup answers. *)
Theorem HArray_NewEmpty_is_empty h :
  Heap_wf h ->
  exists obj map h',
    HArray_NewEmpty h = Some (obj, h') /\
    Heap_wf h' /\ keeps h h' /\
    load8 (mem h') obj = tag_value kTagArray /\
    load64 (mem h') (obj + HObject.kMaskOffset) = 120 /\
    HObject_Map (mem h') obj = u64 map /\
    load8 (mem h') map = tag_value kTagMap /\
    HMap_size (mem h') map = 16 /\
    (forall i, 0 <= i < 32 -> load64 (mem h') (HMap_space map + 8 * i) = HNil_New) /\
    fst (HArray_Length RuntimeLookupProperty obj false (mem h')) = 0 /\
    fst (HArray_Length RuntimeLookupProperty obj true (mem h')) = 0 /\
    (obj + 32 <= map \/ map + 272 <= obj) /\
    fresh_block h h' obj 32 /\ fresh_block h h' map 272.
Proof.
  intros Hwf.
  set (W := fun obj map m =>
         fill_map map (HArray_SetLength obj 0
                         (store64 (obj + HObject.kMapOffset) map
                            (store64 (obj + HObject.kMaskOffset) (Z.shiftl (16 - 1) 3) m)))).
  destruct (object_with_map kTagArray 24 W h Hwf ltac:(lia))
    as (obj & map & h1 & h2 & Hrun1 & Hrun2 & Hwf' & Hk & Htag1 & Htag2 & Hapart & Hf1 & Hf2).
  { intros obj map m x Hobj Hmap.
    unfold W, HArray_SetLength, HArray.kLengthOffset, HObject.kMapOffset, HObject.kMaskOffset.
    rewrite fill_map_writes by lia.
    unfold store64. rewrite !load8_store_le_other by (simpl; lia). reflexivity. }
  assert (HL : load64 (W obj map (mem h2)) (obj + HArray.kLengthOffset) = 0).
  { unfold W, HArray_SetLength, HArray.kLengthOffset, load64.
    rewrite (load_le_ext 8 _ (store64 (obj + 24) (u64 0)
               (store64 (obj + HObject.kMapOffset) map
                  (store64 (obj + HObject.kMaskOffset) (Z.shiftl (16 - 1) 3) (mem h2))))).
    - match goal with |- load_le (store64 ?a ?v ?m) ?a 8 = _ =>
        fold (load64 (store64 a v m) a) end.
      rewrite load64_store64. reflexivity.
    - intros i Hi. simpl in Hi. apply fill_map_writes. lia. }
  exists obj, map, (set_mem (W obj map (mem h2)) h2).
  split; [|split; [exact Hwf'|split; [exact Hk|split; [exact Htag1|]]]].
  - unfold HArray_NewEmpty.
    change (u32 (Z.shiftl 16 4 + 8)) with 264.
    change (u32 (Z.shiftl 16 4)) with 256.
    change (Z.to_nat ((256 + 7) / 8)) with 32%nat.
    run_unfold. rewrite Hrun1, Hrun2. reflexivity.
  - cbn [mem set_mem].
    split; [|split; [|split; [exact Htag2|split; [|split; [|split;
      [|split; [|split; [lia|split; [exact Hf1|exact Hf2]]]]]]]]].
    + unfold W, HArray_SetLength, HArray.kLengthOffset, HObject.kMapOffset,
        HObject.kMaskOffset, load64.
      rewrite (load_le_ext 8 _ (store64 (obj + 8) (Z.shiftl (16 - 1) 3) (mem h2))).
      * fold (load64 (store64 (obj + 8) (Z.shiftl (16 - 1) 3) (mem h2)) (obj + 8)).
        rewrite load64_store64. reflexivity.
      * intros i Hi. simpl in Hi. rewrite fill_map_writes by lia.
        unfold store64. rewrite !load8_store_le_other by (simpl; lia). reflexivity.
    + unfold HObject_Map, W, HArray_SetLength, HArray.kLengthOffset, HObject.kMapOffset, load64.
      rewrite (load_le_ext 8 _ (store64 (obj + 16) map
                 (store64 (obj + HObject.kMaskOffset) (Z.shiftl (16 - 1) 3) (mem h2)))).
      * apply load64_store64.
      * intros i Hi. simpl in Hi. rewrite fill_map_writes by lia.
        unfold store64. apply load8_store_le_other. simpl. lia.
    + unfold W. apply fill_map_size.
    + intros i Hi. unfold W. apply fill_map_nil. exact Hi.
    + unfold HArray_Length. rewrite HL. reflexivity.
    + unfold HArray_Length. rewrite HL. change (i64 0) with 0.
      destruct (shrink_loop_spec RuntimeLookupProperty (W obj map (mem h2)) obj 0 ltac:(lia))
        as (Hs & _).
      set (s := shrink_loop RuntimeLookupProperty (W obj map (mem h2)) obj 0) in *.
      assert (s = -1) as -> by lia. reflexivity.
Qed.

End EmptyArrays.

Lemma HObject_NewEmpty_is_empty_witness :
  exists obj map h',
    @HObject_NewEmpty example_params example_heap = Some (obj, h') /\
    HObject_Map (mem h') obj = u64 map /\ HMap_size (mem h') map = 16.
Proof.
  destruct (@HObject_NewEmpty_is_empty example_params example_heap example_heap_Heap_wf)
    as (obj & map & h' & Hrun & _ & _ & _ & _ & Hmap & _ & Hsize & _).
  exists obj, map, h'. split; [exact Hrun|]. split; [exact Hmap|exact Hsize].
Defined.

Lemma HArray_NewEmpty_is_empty_witness :
  exists obj h',
    @HArray_NewEmpty example_params example_heap = Some (obj, h') /\
    fst (HArray_Length (fun _ _ _ _ => 16) obj true (mem h')) = 0.
Proof.
  destruct (@HArray_NewEmpty_is_empty example_params (fun _ _ _ _ => 16) example_heap
              example_heap_Heap_wf)
    as (obj & map & h' & Hrun & _ & _ & _ & _ & _ & _ & _ & _ & _ & Hlen & _).
  exists obj, h'. split; [exact Hrun|exact Hlen].
Defined.


(** ** heap.cc: the header that [Heap::AllocateTagged] writes *)

Lemma lor_tag_generation t g :
  0 <= t < 256 -> 0 <= g -> Z.lor t (Z.shiftl g 8) = t + 256 * g.
Proof.
  intros Ht Hg. rewrite Z.shiftl_mul_pow2 by lia.
  assert (Hland : Z.land t (g * 2 ^ 8) = 0).
  { apply Z.bits_inj_0. intros n. rewrite Z.land_spec.
    destruct (Z.ltb_spec n 0) as [Hn|Hn]; [rewrite !Z.testbit_neg_r by lia; reflexivity|].
    destruct (Z.ltb_spec n 8) as [Hn8|Hn8].
    - rewrite Z.mul_pow2_bits_low by lia. apply andb_false_r.
    - rewrite (Z.bits_above_log2 t); [reflexivity|lia|].
      destruct (Z.eq_dec t 0) as [->|Hne]; [simpl; lia|].
      apply Z.lt_le_trans with 8; [|exact Hn8].
      apply Z.log2_lt_pow2; lia. }
  rewrite <- Z.lxor_lor by exact Hland.
  rewrite <- Z.add_nocarry_lxor by exact Hland. lia.
Qed.

Section TaggedFacts.
Context `{Externals}.

(** X22.  [Heap::AllocateTagged] returns a new block of [bytes + 8] bytes
    whose header holds the tag in byte 0 and, in byte 1, the generation
    0 for the new space and [kMinOldSpaceGeneration] for the old space;
    the other six header bytes are 0.  It writes nothing but the header. *)
Theorem AllocateTagged_header tag tenure bytes h :
  Heap_wf h -> 0 <= bytes <= 2 ^ 31 - 10 ->
  0 <= kMinOldSpaceGeneration < 256 ->
  exists r h',
    AllocateTagged tag tenure bytes h = Some (r, h') /\
    Heap_wf h' /\ keeps h h' /\ fresh_block h h' r (bytes + 8) /\
    load8 (mem h') r = tag_value tag /\
    load8 (mem h') (r + 1) =
      match tenure with kTenureNew => 0 | kTenureOld => kMinOldSpaceGeneration end /\
    (forall i, 2 <= i < 8 -> load8 (mem h') (r + i) = 0) /\
    (forall x, x < r \/ r + 8 <= x -> load8 (mem h') x = load8 (mem h) x).
Proof.
  intros Hwf Hb Hgen. unfold AllocateTagged.
  rewrite u32_small by lia.
  destruct (Allocate_spec (tenure_space tenure) (bytes + 8) h Hwf ltac:(lia))
    as (r & h1 & Hrun & Hwf1 & Hk1 & Hf1 & Hm1).
  set (qtag := match tenure with
               | kTenureOld => Z.lor (tag_value tag) (Z.shiftl kMinOldSpaceGeneration 8)
               | kTenureNew => tag_value tag
               end).
  destruct (poke_fresh h h1 (store64 r qtag) r (r + 8) Hwf1 Hk1 (store_le_writes r 8 qtag))
    as (Hp & Hwf2 & Hk2 & Hu2).
  { intros x Hx. apply Hf1. lia. }
  assert (Htag : 0 <= tag_value tag < 256) by (destruct tag; simpl; lia).
  assert (Hq : qtag = tag_value tag + 256 *
            match tenure with kTenureNew => 0 | kTenureOld => kMinOldSpaceGeneration end).
  { unfold qtag. destruct tenure; [lia|]. apply lor_tag_generation; lia. }
  set (g := match tenure with kTenureNew => 0 | kTenureOld => kMinOldSpaceGeneration end) in *.
  assert (Hg : 0 <= g < 256) by (unfold g; destruct tenure; lia).
  assert (Hbyte : forall i, 0 <= i < 8 ->
            load8 (store64 r qtag (mem h1)) (r + i) = (qtag / 256 ^ i) mod 256).
  { intros i Hi. unfold store64. rewrite load8_store_le.
    assert ((r <=? r + i) && (r + i <? r + Z.of_nat 8) = true) as ->
      by (apply andb_true_iff; split; [apply Z.leb_le|apply Z.ltb_lt]; lia).
    replace (r + i - r) with i by lia. reflexivity. }
  exists r, (set_mem (store64 r qtag (mem h1)) h1).
  split; [|split; [exact Hwf2|split; [exact Hk2|split; [|split; [|split; [|split]]]]]].
  - run_unfold. rewrite Hrun. unfold poke. run_unfold. reflexivity.
  - intros x Hx. destruct (Hf1 x Hx) as [Hu Hn]. split; [apply Hu2; exact Hu|exact Hn].
  - cbn [mem set_mem]. replace r with (r + 0) at 2 by lia. rewrite Hbyte by lia.
    rewrite Hq. simpl (256 ^ 0). rewrite Z.div_1_r.
    replace (tag_value tag + 256 * g) with (tag_value tag + g * 256) by lia.
    rewrite Z_mod_plus_full. apply Z.mod_small. lia.
  - cbn [mem set_mem]. rewrite Hbyte by lia. rewrite Hq. change (256 ^ 1) with 256.
    replace (tag_value tag + 256 * g) with (g * 256 + tag_value tag) by lia.
    rewrite Z.div_add_l by lia.
    rewrite (Z.div_small (tag_value tag)) by lia. rewrite Z.add_0_r.
    apply Z.mod_small. lia.
  - intros i Hi. cbn [mem set_mem]. rewrite Hbyte by lia.
    rewrite Z.div_small; [reflexivity|]. rewrite Hq. split; [lia|].
    apply Z.lt_le_trans with (256 ^ 2); [simpl; lia|].
    apply Z.pow_le_mono_r; lia.
  - intros x Hx. cbn [mem set_mem]. rewrite <- Hm1. apply (store_le_writes r 8 qtag). exact Hx.
Qed.

End TaggedFacts.

Lemma AllocateTagged_header_witness :
  exists r h',
    @AllocateTagged example_params kTagString kTenureOld 27 example_heap = Some (r, h') /\
    load8 (mem h') r = 4 /\ load8 (mem h') (r + 1) = 5.
Proof.
  destruct (@AllocateTagged_header example_params kTagString kTenureOld 27 example_heap
              example_heap_Heap_wf ltac:(lia) ltac:(simpl; lia))
    as (r & h' & Hrun & _ & _ & _ & Htag & Hgen & _).
  exists r, h'. split; [exact Hrun|]. split; [exact Htag|exact Hgen].
Defined.

(** ** heap.cc: the search for a gap in [Space::Allocate] *)

Lemma find_gap_first pages even i p :
  pages !! i = Some p -> (S i < length pages)%nat ->
  top_ p + even <= limit_ p ->
  forall rest sel item,
    rest = drop item pages -> (sel < length pages)%nat ->
    (sel = i /\ item = S i) \/
    ((forall q, pages !! sel = Some q -> top_ q + even > limit_ q) /\
     (item <= i)%nat /\
     (forall j q, (item <= j < i)%nat -> pages !! j = Some q -> top_ q + even > limit_ q)) ->
    find_gap pages even sel item rest = Some (i, false).
Proof.
  intros Hp Hi Hfit.
  induction rest as [|r rest IH]; intros sel item Hrest Hsel Hcase.
  - exfalso. destruct (Nat.lt_ge_cases item (length pages)) as [Hlt|Hge].
    + destruct (lookup_lt_is_Some_2 pages item Hlt) as [x Hx].
      rewrite (drop_S _ _ _ Hx) in Hrest. discriminate.
    + destruct Hcase as [[-> ->]|(_ & Hle & _)]; lia.
  - cbn [find_gap]. destruct (lookup_lt_is_Some_2 pages sel Hsel) as [ps Hps].
    rewrite Hps. cbn [mbind option_bind].
    destruct Hcase as [[-> ->]|(Hfull & Hle & Hbefore)].
    + assert (ps = p) as -> by congruence.
      assert ((top_ p + even >? limit_ p) = false) as ->
        by (rewrite Z.gtb_ltb; apply Z.ltb_ge; lia).
      reflexivity.
    + specialize (Hfull ps Hps).
      assert ((top_ ps + even >? limit_ ps) = true) as ->
        by (rewrite Z.gtb_ltb; apply Z.ltb_lt; lia).
      assert (Hitem : (item < length pages)%nat) by lia.
      destruct (lookup_lt_is_Some_2 pages item Hitem) as [x Hx].
      rewrite (drop_S _ _ _ Hx) in Hrest.
      apply IH; [congruence|exact Hitem|].
      destruct (Nat.eq_dec item i) as [->|Hne]; [left; auto|].
      right. split; [|split; [lia|]].
      * intros q Hq. apply (Hbefore item q); [lia|exact Hq].
      * intros j q Hj Hq. apply (Hbefore j q); [lia|exact Hq].
Qed.

Lemma find_gap_last pages even :
  (forall j q, (S j < length pages)%nat -> pages !! j = Some q -> top_ q + even > limit_ q) ->
  forall rest sel item,
    rest = drop item pages -> (sel < length pages)%nat ->
    ((item < length pages)%nat ->
     forall q, pages !! sel = Some q -> top_ q + even > limit_ q) ->
    exists sel', find_gap pages even sel item rest = Some (sel', true) /\
                 (sel' < length pages)%nat.
Proof.
  intros Hfull.
  induction rest as [|r rest IH]; intros sel item Hrest Hsel Hcur.
  - cbn [find_gap]. destruct (lookup_lt_is_Some_2 pages sel Hsel) as [ps ->].
    cbn [mbind option_bind]. eauto.
  - cbn [find_gap]. destruct (lookup_lt_is_Some_2 pages sel Hsel) as [ps Hps].
    rewrite Hps. cbn [mbind option_bind].
    assert (Hitem : (item < length pages)%nat).
    { destruct (Nat.lt_ge_cases item (length pages)) as [|Hge]; [assumption|].
      rewrite drop_ge in Hrest by lia. discriminate. }
    pose proof (Hcur Hitem ps Hps) as Hps_full.
    assert ((top_ ps + even >? limit_ ps) = true) as ->
      by (rewrite Z.gtb_ltb; apply Z.ltb_lt; lia).
    destruct (lookup_lt_is_Some_2 pages item Hitem) as [x Hx].
    rewrite (drop_S _ _ _ Hx) in Hrest.
    apply IH; [congruence|exact Hitem|].
    intros HS q Hq. apply (Hfull item q); [exact HS|exact Hq].
Qed.

(** X23.  When the selected page cannot hold the request, [Space::Allocate]
    places it in the first page with room that is not the last page of the
    space, and selects that page.  When no page but the last one has room
    it pushes a fresh page, also when the last page has room: the loop
    leaves [item == NULL] after selecting the last page. *)
Theorem Allocate_gap_search k bytes h cur :
  Space_wf (space k h) ->
  selected_page (space k h) = Some cur ->
  top_ cur + even_size bytes > limit_ cur ->
  (forall i p,
     pages_ (space k h) !! i = Some p ->
     (S i < length (pages_ (space k h)))%nat ->
     top_ p + even_size bytes <= limit_ p ->
     (forall j q, (j < i)%nat -> pages_ (space k h) !! j = Some q ->
        top_ q + even_size bytes > limit_ q) ->
     exists h',
       Allocate k bytes h = Some (top_ p, h') /\
       pages_ (space k h') =
         <[i := MkPage (data_ p) (top_ p + even_size bytes) (limit_ p)]> (pages_ (space k h)) /\
       selected_ (space k h') = i /\
       sys_next h' = sys_next h /\ needs_gc_ h' = needs_gc_ h) /\
  ((forall j q, (S j < length (pages_ (space k h)))%nat ->
      pages_ (space k h) !! j = Some q -> top_ q + even_size bytes > limit_ q) ->
   Allocate_fresh Utils.RoundUp k bytes h).
Proof.
  intros [Hsel Hpages Hps] Hcur Hcurfull.
  unfold selected_page in Hcur. split.
  - intros i p Hp Hi Hfit Hbefore.
    assert (Hfind : find_gap (pages_ (space k h)) (even_size bytes) (selected_ (space k h))
                      0%nat (pages_ (space k h)) = Some (i, false)).
    { apply (find_gap_first _ _ i p Hp Hi Hfit); [reflexivity|exact Hsel|].
      right. split; [|split; [lia|]].
      - intros q Hq. rewrite Hcur in Hq. injection Hq as <-. exact Hcurfull.
      - intros j q Hj Hq. apply (Hbefore j q); [lia|exact Hq]. }
    unfold Allocate. fold (even_size bytes). run_unfold.
    unfold selected_page. rewrite Hcur.
    assert ((top_ cur + even_size bytes <=? limit_ cur) = false) as ->
      by (apply Z.leb_gt; lia).
    cbn [negb]. rewrite Hfind. cbn [mbind option_bind].
    rewrite space_set_space. unfold bump, selected_page. cbn [select selected_ pages_].
    rewrite Hp. cbn [mbind option_bind].
    eexists. split; [reflexivity|].
    rewrite space_set_space. cbn [pages_ selected_].
    split; [reflexivity|]. split; [reflexivity|]. destruct k; split; reflexivity.
  - intros Hfull.
    unfold Allocate_fresh, Allocate. fold (even_size bytes). run_unfold.
    unfold selected_page. rewrite Hcur.
    assert ((top_ cur + even_size bytes <=? limit_ cur) = false) as ->
      by (apply Z.leb_gt; lia).
    simpl.
    destruct (find_gap_last (pages_ (space k h)) (even_size bytes) Hfull
                (pages_ (space k h)) (selected_ (space k h)) 0%nat eq_refl Hsel)
      as (sel' & -> & Hsel').
    { intros _ q Hq. rewrite Hcur in Hq. injection Hq as <-. exact Hcurfull. }
    simpl.
    destruct (size_ (space k h) >? size_limit_ (space k h));
      unfold AddPage, new_chars; run_unfold; destruct k; simpl in *;
      unfold bump, selected_page; simpl;
      rewrite lookup_app_r by lia; rewrite Nat.sub_diag; simpl;
      (eexists; split; [reflexivity|]); simpl;
      (split; [reflexivity|]);
      rewrite insert_app_r_alt by lia; rewrite Nat.sub_diag; reflexivity.
Qed.

(** A new space of two pages: the first, selected, has 16 bytes left and
    the second is empty. *)
Lemma Allocate_gap_search_witness :
  let h := MkHeap (MkSpace [MkPage 1000 5080 5096; MkPage 9192 9192 13288] 0%nat 4096 0 8192)
                  (MkSpace [MkPage 5096 5096 9192] 0%nat 4096 0 8192)
                  kGCNone LList.empty (MkMem (fun _ => 0) []) 13288 in
  Allocate_fresh Utils.RoundUp NewSpace 24 h.
Proof.
  intros h.
  destruct (Allocate_gap_search NewSpace 24 h (MkPage 1000 5080 5096)) as [_ Hlast].
  - split; simpl; [lia| |lia]. repeat constructor; unfold Page_ok; simpl; lia.
  - reflexivity.
  - vm_compute. reflexivity.
  - apply Hlast. intros j q Hj Hq.
    destruct j as [|j]; [|simpl in Hj; lia].
    injection Hq as <-. vm_compute. reflexivity.
Defined.


(** * The bookkeeping of the generator *)

Lemma count_binds_app l o1 o2 :
  count_binds l (o1 ++ o2) = (count_binds l o1 + count_binds l o2)%nat.
Proof. induction o1 as [|i o1 IH]; simpl; [reflexivity|]. rewrite IH. lia. Qed.

Lemma count_jumps_app l o1 o2 :
  count_jumps l (o1 ++ o2) = (count_jumps l o1 + count_jumps l o2)%nat.
Proof. induction o1 as [|i o1 IH]; simpl; [reflexivity|]. rewrite IH. lia. Qed.

Section WeakestPreconditions.
Context {T U : Type}.
Implicit Types (g : Fullgen) (c : Run Fullgen T) (k : T -> Run Fullgen U).

Lemma wp_bind c k g Q : wp c g (fun a g1 => wp (k a) g1 Q) -> wp (c ≫= k) g Q.
Proof.
  intros (a & g1 & Hc & b & g2 & Hk & HQ). exists b, g2. split; [|exact HQ].
  run_unfold. rewrite Hc. exact Hk.
Qed.

Lemma wp_ret (a : T) g Q : Q a g -> wp (mret a) g Q.
Proof. intros HQ. exists a, g. split; [reflexivity|exact HQ]. Qed.

Lemma wp_gets (f : Fullgen -> T) g Q : Q (f g) g -> wp (gets f) g Q.
Proof. intros HQ. exists (f g), g. split; [reflexivity|exact HQ]. Qed.

Lemma wp_lift_opt (a : T) g Q : Q a g -> wp (lift_opt (Some a)) g Q.
Proof. intros HQ. exists a, g. split; [reflexivity|exact HQ]. Qed.

Lemma wlp_bind c k g Q : wlp c g (fun a g1 => wlp (k a) g1 Q) -> wlp (c ≫= k) g Q.
Proof.
  intros H b g2 Hrun. run_unfold.
  destruct (c g) as [[a g1]|] eqn:Hc; [|discriminate].
  exact (H a g1 Hc b g2 Hrun).
Qed.

Lemma wlp_ret (a : T) g Q : Q a g -> wlp (mret a) g Q.
Proof. intros HQ a' g' Hrun. run_unfold. injection Hrun as <- <-. exact HQ. Qed.

Lemma wlp_gets (f : Fullgen -> T) g Q : Q (f g) g -> wlp (gets f) g Q.
Proof. intros HQ a' g' Hrun. run_unfold. injection Hrun as <- <-. exact HQ. Qed.

Lemma wlp_lift_opt (o : option T) g Q :
  (forall a, o = Some a -> Q a g) -> wlp (lift_opt o) g Q.
Proof.
  intros HQ a' g' Hrun. run_unfold. destruct o as [a|]; [|discriminate].
  injection Hrun as <- <-. apply HQ. reflexivity.
Qed.

Lemma wlp_fail g Q : wlp (@fail Fullgen T) g Q.
Proof. intros a' g' Hrun. discriminate. Qed.

Lemma wlp_wp c g Q : wp c g Q -> wlp c g Q.
Proof. intros (a & g1 & Hc & HQ) a' g' Hrun. congruence. Qed.

End WeakestPreconditions.

Lemma wp_modify (f : Fullgen -> Fullgen) g Q : Q tt (f g) -> wp (modify f) g Q.
Proof. intros HQ. exists tt, (f g). split; [reflexivity|exact HQ]. Qed.

Lemma wlp_modify (f : Fullgen -> Fullgen) g Q : Q tt (f g) -> wlp (modify f) g Q.
Proof. intros HQ a' g' Hrun. run_unfold. injection Hrun as <- <-. exact HQ. Qed.

Lemma wp_macro {T} (c : Run Fullgen T) g Q :
  macro_ok c ->
  (forall a g' out,
     restores g g' out -> labels_closed (labels_ g) (labels_ g') None None out ->
     fns_ g' = fns_ g -> relocation_info_ g' = relocation_info_ g ->
     root_context_ g' = root_context_ g ->
     Q a g') ->
  wp c g Q.
Proof.
  intros Hc HQ. destruct (Hc g) as (a & g' & out & Hrun & H1 & H2 & H3 & H4 & H5).
  exists a, g'. split; [exact Hrun|]. exact (HQ a g' out H1 H2 H3 H4 H5).
Qed.

(** The members of the generator, one by one. *)
Ltac fields g :=
  let c := fresh "code" in let l := fresh "labels" in let r := fresh "relocs" in
  let s := fresh "slot" in let a := fresh "align" in let so := fresh "spill_offset" in
  let sp := fresh "spills" in let si := fresh "spill_index" in let sr := fresh "spill_reloc" in
  let cn := fresh "node" in let vt := fresh "vtype" in let cf := fresh "function" in
  let ls := fresh "loop_start" in let le := fresh "loop_end" in let em := fresh "error_msg" in
  let ep := fresh "error_pos" in let rc := fresh "root" in let f := fresh "fns" in
  let h := fresh "heap" in
  destruct g as [c l r s a so sp si sr cn vt cf ls le em ep rc f h].

Ltac state_cbn :=
  cbn beta iota zeta delta
      [code_ labels_ relocation_info_ slot_ align_ spill_offset_ spills_ spill_index_
       spill_reloc_ current_node_ visitor_type_ current_function_ loop_start_ loop_end_
       error_msg_ error_pos_ root_context_ fns_ heap_
       set_code_ set_labels_ set_relocation_info_ set_slot_ set_align_ set_spill_offset_
       set_spills_ set_spill_index_ set_spill_reloc_ set_current_node_ set_visitor_type_
       set_current_function_ set_loop_start_ set_loop_end_ set_error_msg_ set_error_pos_
       set_root_context_ set_fns_ set_heap_ id fst snd negb index_ src_ op_base op_disp
       ff_fn ff_addr ff_uses] in *.

Ltac counts :=
  rewrite ?count_binds_app, ?count_jumps_app;
  unfold Immediate;
  cbn [count_binds count_jumps binds_label jumps_label args_label arg_label is_label];
  repeat match goal with |- context [Nat.eqb ?a ?b] => destruct (Nat.eqb_spec a b) end;
  try lia.

(** A step that was taken: its state, member by member. *)
Ltac absorb Hres :=
  lazymatch type of Hres with
  | restores _ ?g1 _ =>
      fields g1;
      let Hroot := fresh "Hroot" in
      let Hrel := fresh "Hrel" in let Hfns := fresh "Hfns" in
      destruct Hres as [? ? ? ? ? ? ? ? ? ? ? [? Hroot] (? & Hrel & ?) [? Hfns]];
      state_cbn; subst
  end.

Ltac head_of t := lazymatch t with ?f _ => head_of f | _ => t end.

Ltac unfold_head c := let h := head_of c in unfold h.

(** A case distinction on [b], unless it was made before. *)
Ltac case_on b :=
  lazymatch goal with
  | H : b = _ |- _ => rewrite H
  | _ => destruct b eqn:?
  end.

(** One step of a run that always returns. *)
Ltac wp_step macro :=
  lazymatch goal with
  | |- wp (mbind _ _) _ _ => apply wp_bind
  | |- wp (mret _) _ _ => apply wp_ret
  | |- wp (ret _) _ _ => apply wp_ret
  | |- wp (gets _) _ _ => apply wp_gets
  | |- wp (modify _) _ _ => apply wp_modify
  | |- wp (lift_opt (Some _)) _ _ => apply wp_lift_opt
  | |- wp (if ?b then _ else _) _ _ => case_on b
  | |- wp (match ?o with Some _ => _ | None => _ end) _ _ => case_on o
  | |- wp (let (_, _) := ?p in _) _ _ => destruct p eqn:?
  | |- wp (match ?x with _ => _ end) _ _ => case_on x
  | |- wp ?c _ _ =>
      first [ macro c
            | unfold_head c ]
  end; state_cbn.

Ltac absorb_macro Hres :=
  lazymatch type of Hres with
  | restores _ ?g1 _ =>
      fields g1;
      destruct Hres as [? ? ? ? ? ? ? ? ? ? ? _ _ _];
      state_cbn; subst
  end.

Ltac use_macro L :=
  apply (wp_macro _ _ _ L);
  let a := fresh "a" in let g1 := fresh "g" in let o := fresh "out" in
  let Hres := fresh "Hres" in let Hlab := fresh "Hlab" in
  let Hf := fresh "Hf" in let Hr := fresh "Hr" in let Hc := fresh "Hc" in
  intros a g1 o Hres Hlab Hf Hr Hc; try (destruct a); absorb_macro Hres.

Ltac no_macro c := fail.

Ltac closed_labels_at l :=
  repeat match goal with
    | H : labels_closed _ _ _ _ _ |- _ =>
        let H1 := fresh in let H2 := fresh in let H3 := fresh in
        destruct H as [H1 H2 H3];
        specialize (H1 l); specialize (H2 l); specialize (H3 l);
        cbn [is_label] in H3
    | H : no_labels _ |- _ =>
        let H1 := fresh in let H2 := fresh in
        destruct (H l) as [H1 H2]; clear H
    end;
  repeat match goal with
    | |- context [is_label ?o _] => is_var o; destruct o
    | H : context [is_label ?o _] |- _ => is_var o; destruct o
    end;
  cbn [is_label] in *;
  counts.

Ltac closed_labels :=
  split; (let l := fresh "l" in intros l; closed_labels_at l).

(** What was appended to the list [c] to give [t]. *)
Ltac app_suffix t c :=
  lazymatch t with
  | c => lazymatch type of c with list ?A => constr:(@nil A) end
  | ?a ++ ?b => let o := app_suffix a c in constr:(o ++ b)
  end.

Ltac appended :=
  rewrite <- ?app_assoc; cbn [app]; rewrite ?app_nil_r; reflexivity.

Ltac all_absolute :=
  cbn [app]; repeat first [assumption | constructor | apply Forall_app_2].

Ltac restored_field :=
  lazymatch goal with
  | |- ?t = ?c ++ ?o =>
      let w := app_suffix t c in unify o w; appended
  | |- ex (fun more => ?t = ?c ++ more /\ _) =>
      let w := app_suffix t c in exists w; split; [appended|all_absolute]
  | |- ex (fun more => ?t = ?c ++ more) =>
      let w := app_suffix t c in exists w; appended
  | |- _ => first [reflexivity | lia]
  end.

Ltac restored := split; state_cbn; restored_field.

Ltac macro_done :=
  eexists; split; [restored|split; [closed_labels|repeat split; reflexivity]].

Lemma macro_ok_wp {T} (c : Run Fullgen T) :
  (forall g, wp c g (fun a g' => exists out,
     restores g g' out /\ labels_closed (labels_ g) (labels_ g') None None out /\
     fns_ g' = fns_ g /\ relocation_info_ g' = relocation_info_ g /\
     root_context_ g' = root_context_ g)) ->
  macro_ok c.
Proof.
  intros H g. destruct (H g) as (a & g' & Hrun & out & HQ). exists a, g', out. auto.
Qed.

Ltac macro_start :=
  let g := fresh "g" in
  apply macro_ok_wp; intros g; fields g.

Lemma CheckGC_ok : macro_ok CheckGC.
Proof.
  macro_start. repeat wp_step no_macro. macro_done.
Qed.

Lemma Masm_Allocate_ok tag size_reg size result :
  macro_ok (Masm_Allocate tag size_reg size result).
Proof.
  macro_start. repeat wp_step no_macro. all: macro_done.
Qed.

Lemma Fill_ok start end_ value : macro_ok (Fill start end_ (Immediate value)).
Proof. macro_start. repeat wp_step no_macro. all: macro_done. Qed.

Lemma FillStackSlots_ok : macro_ok FillStackSlots.
Proof.
  macro_start.
  repeat wp_step ltac:(fun c => lazymatch c with Fill ?s ?e (Immediate ?v) => use_macro (Fill_ok s e v) end).
  all: macro_done.
Qed.

Lemma clear_context_ok n : forall i, macro_ok (clear_context i n).
Proof.
  induction n as [|n IH]; intros i; macro_start; cbn [clear_context].
  - repeat wp_step no_macro. all: macro_done.
  - repeat wp_step ltac:(fun c =>
      lazymatch c with clear_context _ _ => use_macro (IH (i + 1)) end).
    all: macro_done.
Qed.

Lemma lookup_context_ok n : macro_ok (lookup_context n).
Proof.
  induction n as [|n IH]; macro_start; cbn [lookup_context].
  - repeat wp_step no_macro. all: macro_done.
  - repeat wp_step ltac:(fun c =>
      lazymatch c with lookup_context _ => use_macro IH end).
    all: macro_done.
Qed.

Ltac masm_macro c :=
  lazymatch c with
  | Masm_Allocate ?t ?sr ?s ?r => use_macro (Masm_Allocate_ok t sr s r)
  | CheckGC => use_macro CheckGC_ok
  | Fill ?s ?e (Immediate ?v) => use_macro (Fill_ok s e v)
  | FillStackSlots => use_macro FillStackSlots_ok
  | clear_context ?i ?n => use_macro (clear_context_ok n i)
  | lookup_context ?n => use_macro (lookup_context_ok n)
  end.

Lemma AllocateContext_ok slots : macro_ok (AllocateContext slots).
Proof. macro_start. repeat wp_step masm_macro. all: macro_done. Qed.

Lemma AllocateFunction_ok addr result : macro_ok (AllocateFunction addr result).
Proof. macro_start. repeat wp_step masm_macro. all: macro_done. Qed.

Lemma AllocateObjectLiteral_ok tag size result :
  macro_ok (AllocateObjectLiteral tag size result).
Proof. macro_start. repeat wp_step masm_macro. all: macro_done. Qed.

Lemma Call_fn_ok `{Externals} fn args : macro_ok (Call_fn fn args).
Proof. macro_start. repeat wp_step masm_macro. all: macro_done. Qed.

Lemma StringHash_ok str result : str <> rcx -> macro_ok (StringHash str result).
Proof.
  intros Hstr. macro_start.
  assert (reg_is str rcx = false) as Hne by (unfold reg_is; apply bool_decide_eq_false; exact Hstr).
  unfold StringHash. rewrite Hne.
  repeat wp_step masm_macro. all: macro_done.
Qed.

(** ** The visitors *)

Lemma pending_mono fns relocs code code' :
  pending fns relocs code -> code `prefix_of` code' -> pending fns relocs code'.
Proof.
  intros [Hf Hr] [more ->]. split; [exact Hf|].
  intros i r Hi. specialize (Hr i r Hi). unfold reloc_ok in *.
  destruct (RelocationInfo.type_ r); [|exact I].
  destruct Hr as [Hat Ht]. split; [apply lookup_app_l_Some; exact Hat|].
  destruct (RelocationInfo.target_ r); [|exact Ht].
  destruct Ht as (n & -> & Hn). exists n. split; [reflexivity|].
  apply lookup_app_l_Some. exact Hn.
Qed.

Lemma wlp_macro {T} (c : Run Fullgen T) g Q :
  macro_ok c ->
  (forall a g' out,
     restores g g' out -> labels_closed (labels_ g) (labels_ g') None None out ->
     fns_ g' = fns_ g -> relocation_info_ g' = relocation_info_ g ->
     root_context_ g' = root_context_ g ->
     Q a g') ->
  wlp c g Q.
Proof. intros Hc HQ. apply wlp_wp. apply wp_macro; assumption. Qed.

Lemma wlp_visit c g Q :
  visit_ok c ->
  (forall g' out,
     restores g g' out ->
     labels_closed (labels_ g) (labels_ g') (loop_start_ g) (loop_end_ g) out ->
     (pending_ok g -> pending_ok g') ->
     Q tt g') ->
  wlp c g Q.
Proof.
  intros Hc HQ [] g' Hrun. destruct (Hc g tt g' Hrun) as (out & H1 & H2 & H3).
  exact (HQ g' out H1 H2 H3).
Qed.

Lemma wlp_on_heap {T} (c : Run Heap T) g Q :
  (forall a h', c (heap_ g) = Some (a, h') -> Q a (set_heap_ h' g)) ->
  wlp (on_heap c) g Q.
Proof.
  intros HQ a g' Hrun. unfold on_heap in Hrun.
  destruct (c (heap_ g)) as [[a' h']|] eqn:Hc; [|discriminate].
  injection Hrun as <- <-. apply HQ. reflexivity.
Qed.

Ltac use_wlp_macro L :=
  apply (wlp_macro _ _ _ L);
  let a := fresh "a" in let g1 := fresh "g" in let o := fresh "out" in
  let Hres := fresh "Hres" in let Hlab := fresh "Hlab" in
  let Hf := fresh "Hf" in let Hr := fresh "Hr" in let Hc := fresh "Hc" in
  intros a g1 o Hres Hlab Hf Hr Hc; try (destruct a); absorb_macro Hres.

Ltac use_visit L :=
  apply (wlp_visit _ _ _ L);
  let g1 := fresh "g" in let o := fresh "out" in
  let Hres := fresh "Hres" in let Hlab := fresh "Hlab" in let Hp := fresh "Hpend" in
  intros g1 o Hres Hlab Hp; unfold pending_ok in Hp; absorb Hres.

Ltac wlp_masm c :=
  lazymatch c with
  | Masm_Allocate ?t ?sr ?s ?r => use_wlp_macro (Masm_Allocate_ok t sr s r)
  | CheckGC => use_wlp_macro CheckGC_ok
  | Fill ?s ?e (Immediate ?v) => use_wlp_macro (Fill_ok s e v)
  | FillStackSlots => use_wlp_macro FillStackSlots_ok
  | clear_context ?i ?n => use_wlp_macro (clear_context_ok n i)
  | lookup_context ?n => use_wlp_macro (lookup_context_ok n)
  | AllocateContext ?s => use_wlp_macro (AllocateContext_ok s)
  | AllocateFunction ?a ?r => use_wlp_macro (AllocateFunction_ok a r)
  | AllocateObjectLiteral ?t ?s ?r => use_wlp_macro (AllocateObjectLiteral_ok t s r)
  | Call_fn ?f ?n => use_wlp_macro (Call_fn_ok f n)
  end.

(** One step of a run that may fail. *)
Ltac wlp_step hook :=
  lazymatch goal with
  | |- wlp (mbind _ _) _ _ => apply wlp_bind
  | |- wlp (mret _) _ _ => apply wlp_ret
  | |- wlp (ret _) _ _ => apply wlp_ret
  | |- wlp (gets _) _ _ => apply wlp_gets
  | |- wlp (modify _) _ _ => apply wlp_modify
  | |- wlp fail _ _ => apply wlp_fail
  | |- wlp (lift_opt _) _ _ => apply wlp_lift_opt; intros ? ?
  | |- wlp (on_heap _) _ _ => apply wlp_on_heap; intros ? ? ?
  | |- wlp (if ?b then _ else _) _ _ => case_on b
  | |- wlp (match ?o with Some _ => _ | None => _ end) _ _ => case_on o
  | |- wlp (let (_, _) := ?p in _) _ _ => destruct p eqn:?
  | |- wlp (match ?x with _ => _ end) _ _ => case_on x
  | |- wlp ?c _ _ =>
      first [ hook c
            | wlp_masm c
            | unfold_head c ]
  end; state_cbn.

Ltac prefix_tac := first [reflexivity | apply prefix_app_r; prefix_tac].

Ltac pending_from Hp :=
  repeat match goal with
    | H : pending ?f ?r ?c -> pending _ _ _ |- _ =>
        let Hq := fresh "Hq" in
        assert (Hq : pending f r c) by (eapply pending_mono; [exact Hp | prefix_tac]);
        apply H in Hq; clear H Hp; rename Hq into Hp
    end;
  eapply pending_mono; [exact Hp | prefix_tac].

Ltac pending_chain :=
  let Hp := fresh "Hp" in
  unfold pending_ok; state_cbn; intros Hp; pending_from Hp.

Ltac visit_done :=
  eexists; split; [restored|split; [closed_labels|pending_chain]].

Ltac visit_start :=
  let g := fresh "g" in intros g; unfold visited; fields g; state_cbn.

Lemma pending_use fns relocs code stmt uses :
  (forall i, i ∈ uses ->
     exists r, relocs !! i = Some r /\ RelocationInfo.type_ r = RelocationInfo.kAbsolute) ->
  pending fns relocs code ->
  pending (fns ++ [MkFFunction stmt 0 (uses ++ [length relocs])])
    (relocs ++ [RelocationInfo.Mk RelocationInfo.kAbsolute RelocationInfo.kQuad
                  (length code) None])
    (code ++ [function_use]).
Proof.
  intros Hu0 [Hf Hr]. split.
  - intros fn Hfn. apply elem_of_app in Hfn. destruct Hfn as [Hfn|Hfn].
    + destruct (Hf fn Hfn) as [Ha Hu]. split; [exact Ha|].
      intros i Hi. destruct (Hu i Hi) as (r & Hr1 & Hr2). exists r.
      split; [apply lookup_app_l_Some; exact Hr1|exact Hr2].
    + apply list_elem_of_singleton in Hfn. subst fn. split; [reflexivity|].
      cbn [ff_uses]. intros i Hi. apply elem_of_app in Hi. destruct Hi as [Hi|Hi].
      * destruct (Hu0 i Hi) as (r & Hr1 & Hr2). exists r.
        split; [apply lookup_app_l_Some; exact Hr1|exact Hr2].
      * apply list_elem_of_singleton in Hi. subst i. eexists. split.
        -- rewrite lookup_app_r by lia. rewrite Nat.sub_diag. reflexivity.
        -- reflexivity.
  - intros i r Hi. apply lookup_app_Some in Hi. destruct Hi as [Hi|[Hlen Hi]].
    + specialize (Hr i r Hi). unfold reloc_ok in *.
      destruct (RelocationInfo.type_ r); [|exact I].
      destruct Hr as [Hat Ht]. split; [apply lookup_app_l_Some; exact Hat|].
      destruct (RelocationInfo.target_ r).
      * destruct Ht as (n & -> & Hn). exists n. split; [reflexivity|].
        apply lookup_app_l_Some. exact Hn.
      * destruct Ht as (fn & Hfn & Hu). exists fn. split; [|exact Hu].
        apply elem_of_app. left. exact Hfn.
    + destruct (i - length relocs)%nat as [|k] eqn:Hk; [|destruct k; discriminate].
      injection Hi as <-. assert (i = length relocs) as -> by lia.
      unfold reloc_ok. cbn [RelocationInfo.type_ RelocationInfo.at_ RelocationInfo.target_].
      split.
      * rewrite lookup_app_r by lia. rewrite Nat.sub_diag. reflexivity.
      * eexists. split; [apply elem_of_app; right; apply list_elem_of_singleton; reflexivity|].
        cbn [ff_uses]. apply elem_of_app. right. apply list_elem_of_singleton. reflexivity.
Qed.

(** [FFunction::Use] on the function that was pushed just before. *)
Lemma wlp_Use_last g f x Q :
  fns_ g = f ++ [x] ->
  Q tt (set_relocation_info_
          (relocation_info_ g ++
             [RelocationInfo.Mk RelocationInfo.kAbsolute RelocationInfo.kQuad
                (length (code_ g) - 1)%nat
                (if ff_addr x =? 0 then None else Some (ff_addr x))])
          (set_fns_ (f ++ [MkFFunction (ff_fn x) (ff_addr x)
                             (ff_uses x ++ [length (relocation_info_ g)])]) g)) ->
  wlp Use_last g Q.
Proof.
  intros Hf HQ a g' Hrun. unfold Use_last, code_offset in Hrun. run_unfold.
  unfold id in Hrun. cbv beta iota in Hrun.
  rewrite Hf, reverse_snoc in Hrun. rewrite reverse_involutive in Hrun.
  injection Hrun as <- <-. destruct g; exact HQ.
Qed.

Section Visitors.
Context `{Externals}.
Variable V : AstNode -> Run Fullgen unit.
Hypothesis HV : forall node, visit_ok (V node).

Ltac hook c :=
  lazymatch c with
  | V ?n => use_visit (HV n)
  end.

Lemma VisitForValue_ok node : visit_ok (VisitForValue V node).
Proof. visit_start. repeat wlp_step hook. all: visit_done. Qed.

Lemma VisitForSlot_ok node : visit_ok (VisitForSlot V node).
Proof. visit_start. repeat wlp_step hook. all: visit_done. Qed.

Ltac hook1 c :=
  lazymatch c with
  | V ?n => use_visit (HV n)
  | VisitForValue V ?n => use_visit (VisitForValue_ok n)
  | VisitForSlot V ?n => use_visit (VisitForSlot_ok n)
  end.

Lemma VisitValue_ok node : visit_ok (VisitValue node).
Proof. visit_start. repeat wlp_step hook1. all: visit_done. Qed.

Lemma VisitAssign_ok node : visit_ok (VisitAssign V node).
Proof. visit_start. repeat wlp_step hook1. all: visit_done. Qed.

Lemma VisitMember_ok node : visit_ok (VisitMember V node).
Proof. visit_start. repeat wlp_step hook1. all: visit_done. Qed.

Lemma VisitNumber_ok node : visit_ok (VisitNumber node).
Proof. visit_start. repeat wlp_step hook1. all: visit_done. Qed.

Lemma VisitString_ok node : visit_ok (VisitString node).
Proof. visit_start. repeat wlp_step hook1. all: visit_done. Qed.

Lemma VisitTrue_ok node : visit_ok (VisitTrue node).
Proof. visit_start. repeat wlp_step hook1. all: visit_done. Qed.

Lemma VisitFalse_ok node : visit_ok (VisitFalse node).
Proof. visit_start. repeat wlp_step hook1. all: visit_done. Qed.

Lemma VisitReturn_ok node : visit_ok (VisitReturn V node).
Proof. visit_start. repeat wlp_step hook1. all: visit_done. Qed.

Lemma VisitNew_ok node : visit_ok (VisitNew V node).
Proof. visit_start. repeat wlp_step hook1. all: visit_done. Qed.

Lemma VisitBreak_ok node : visit_ok (VisitBreak node).
Proof. visit_start. repeat wlp_step hook1. all: visit_done. Qed.

Lemma VisitContinue_ok node : visit_ok (VisitContinue node).
Proof. visit_start. repeat wlp_step hook1. all: visit_done. Qed.

Lemma visit_with_stub_ok stub node : visit_ok (visit_with_stub V stub node).
Proof. visit_start. repeat wlp_step hook1. all: visit_done. Qed.

Lemma VisitBinOp_ok node : visit_ok (VisitBinOp V node).
Proof. visit_start. repeat wlp_step hook1. all: visit_done. Qed.

Lemma VisitUnOp_ok node : visit_ok (VisitUnOp V node).
Proof. visit_start. repeat wlp_step hook1. all: visit_done. Qed.

Lemma VisitNil_ok node : visit_ok (VisitNil node).
Proof. visit_start. repeat wlp_step hook. all: visit_done. Qed.

Lemma VisitIf_ok node : visit_ok (VisitIf V node).
Proof. visit_start. repeat wlp_step hook1. all: visit_done. Qed.

Lemma VisitWhile_ok node : visit_ok (VisitWhile V node).
Proof. visit_start. repeat wlp_step hook1. all: visit_done. Qed.

Lemma set_pairs_ok object_s keys : forall values,
  visit_ok (set_pairs V object_s keys values).
Proof.
  induction keys as [|key keys IH]; intros values; visit_start; cbn [set_pairs].
  - repeat wlp_step hook1. all: visit_done.
  - destruct values as [|value values]; [apply wlp_fail|].
    repeat wlp_step ltac:(fun c =>
      lazymatch c with
      | set_pairs V _ _ ?vs => use_visit (IH vs)
      | _ => hook1 c
      end).
    all: visit_done.
Qed.

Lemma set_items_ok object_s items : forall index,
  visit_ok (set_items V object_s items index).
Proof.
  induction items as [|item items IH]; intros index; visit_start; cbn [set_items].
  - repeat wlp_step hook1. all: visit_done.
  - repeat wlp_step ltac:(fun c =>
      lazymatch c with
      | set_items V _ _ ?i => use_visit (IH i)
      | _ => hook1 c
      end).
    all: visit_done.
Qed.

Lemma VisitChildren_list_ok nodes : visit_ok (VisitChildren_list V nodes).
Proof.
  induction nodes as [|n nodes IH]; visit_start; cbn [VisitChildren_list].
  - repeat wlp_step hook1. all: visit_done.
  - repeat wlp_step ltac:(fun c =>
      lazymatch c with
      | VisitChildren_list V _ => use_visit IH
      | _ => hook1 c
      end).
    all: visit_done.
Qed.

Ltac hook2 c :=
  lazymatch c with
  | set_pairs V ?s ?ks ?vs => use_visit (set_pairs_ok s ks vs)
  | set_items V ?s ?its ?i => use_visit (set_items_ok s its i)
  | VisitChildren_list V ?ns => use_visit (VisitChildren_list_ok ns)
  | _ => hook1 c
  end.

Lemma VisitObjectLiteral_ok node : visit_ok (VisitObjectLiteral V node).
Proof. visit_start. repeat wlp_step hook2. all: visit_done. Qed.

Lemma VisitArrayLiteral_ok node : visit_ok (VisitArrayLiteral V node).
Proof. visit_start. repeat wlp_step hook2. all: visit_done. Qed.

Lemma VisitChildren_ok node : visit_ok (VisitChildren V node).
Proof. visit_start. repeat wlp_step hook2. all: visit_done. Qed.

(** The arguments of a call: each one pushed moves the alignment count. *)
Lemma push_arguments_ok items :
  forall g, wlp (push_arguments V items) g
    (fun _ g' => visited (set_align_ (align_ g + Z.of_nat (length items)) g) g').
Proof.
  induction items as [|item items IH]; visit_start; cbn [push_arguments length].
  - repeat wlp_step hook2. all: visit_done.
  - repeat wlp_step ltac:(fun c =>
      lazymatch c with
      | push_arguments V _ =>
          let g1 := fresh "g" in let o := fresh "out" in
          let Hres := fresh "Hres" in let Hlab := fresh "Hlab" in let Hp := fresh "Hpend" in
          let a := fresh "a" in let Hrun := fresh "Hrun" in
          intros a g1 Hrun; apply IH in Hrun; destruct Hrun as (o & Hres & Hlab & Hp);
          unfold pending_ok in Hp; absorb Hres
      | _ => hook2 c
      end).
    all: visit_done.
Qed.

Lemma VisitCall_ok node : visit_ok (VisitCall V node).
Proof.
  visit_start.
  repeat wlp_step ltac:(fun c =>
    lazymatch c with
    | push_arguments V ?items =>
        let g1 := fresh "g" in let o := fresh "out" in
        let Hres := fresh "Hres" in let Hlab := fresh "Hlab" in let Hp := fresh "Hpend" in
        let a := fresh "a" in let Hrun := fresh "Hrun" in
        intros a g1 Hrun; apply (push_arguments_ok items) in Hrun;
        destruct Hrun as (o & Hres & Hlab & Hp);
        unfold pending_ok in Hp; absorb Hres
    | _ => hook2 c
    end).
  all: visit_done.
Qed.

Lemma VisitFunction_ok node : visit_ok (VisitFunction V node).
Proof.
  visit_start.
  repeat wlp_step ltac:(fun c =>
    lazymatch c with
    | Use_last => eapply wlp_Use_last; [reflexivity|]
    | _ => hook2 c
    end).
  all: eexists; (split; [restored|split; [closed_labels|]]).
  all: unfold pending_ok; state_cbn; intros Hp.
  all: apply (pending_use _ _ _ node []) in Hp;
    [|intros i Hi; apply elem_of_nil in Hi; contradiction].
  all: rewrite ?length_app in *; cbn [length] in *; rewrite ?Nat.add_sub in *.
  all: pending_from Hp.
Qed.

Lemma dispatch_ok node : visit_ok (dispatch V node).
Proof.
  visit_start.
  repeat wlp_step ltac:(fun c =>
    lazymatch c with
    | VisitFunction V ?n => use_visit (VisitFunction_ok n)
    | VisitCall V ?n => use_visit (VisitCall_ok n)
    | VisitAssign V ?n => use_visit (VisitAssign_ok n)
    | VisitValue ?n => use_visit (VisitValue_ok n)
    | VisitMember V ?n => use_visit (VisitMember_ok n)
    | VisitNumber ?n => use_visit (VisitNumber_ok n)
    | VisitString ?n => use_visit (VisitString_ok n)
    | VisitProperty ?n => use_visit (VisitString_ok n)
    | VisitIf V ?n => use_visit (VisitIf_ok n)
    | VisitWhile V ?n => use_visit (VisitWhile_ok n)
    | VisitNil ?n => use_visit (VisitNil_ok n)
    | VisitTrue ?n => use_visit (VisitTrue_ok n)
    | VisitFalse ?n => use_visit (VisitFalse_ok n)
    | VisitObjectLiteral V ?n => use_visit (VisitObjectLiteral_ok n)
    | VisitArrayLiteral V ?n => use_visit (VisitArrayLiteral_ok n)
    | VisitReturn V ?n => use_visit (VisitReturn_ok n)
    | VisitNew V ?n => use_visit (VisitNew_ok n)
    | VisitBreak ?n => use_visit (VisitBreak_ok n)
    | VisitContinue ?n => use_visit (VisitContinue_ok n)
    | VisitTypeof V ?n => use_visit (visit_with_stub_ok TypeofStub n)
    | VisitSizeof V ?n => use_visit (visit_with_stub_ok SizeofStub n)
    | VisitKeysof V ?n => use_visit (visit_with_stub_ok KeysofStub n)
    | VisitUnOp V ?n => use_visit (VisitUnOp_ok n)
    | VisitBinOp V ?n => use_visit (VisitBinOp_ok n)
    | VisitChildren V ?n => use_visit (VisitChildren_ok n)
    end).
  all: visit_done.
Qed.

End Visitors.

Lemma Visit_ok `{Externals} fuel : forall node, visit_ok (Visit fuel node).
Proof.
  induction fuel as [|fuel IH]; intros node; cbn [Visit].
  - intros g. apply wlp_fail.
  - apply dispatch_ok. exact IH.
Qed.

(** ** The functions, one after the other *)

Section Prologue.
Context `{Externals}.
Variable V : AstNode -> Run Fullgen unit.
Hypothesis HV : forall node, visit_ok (V node).

(** The loop over the arguments jumps to [body], which the prologue binds
    behind it. *)
Lemma place_arguments_ok items body : forall i n g,
  loop_start_ g = None -> loop_end_ g = None ->
  wlp (place_arguments V items i n body) g
    (fun _ g' => exists out,
       restores g g' out /\
       labels_closed (labels_ g) (labels_ g') (Some body) None out /\
       (pending_ok g -> pending_ok g')).
Proof.
  induction items as [|item items IH]; intros i n g Hs He; fields g; state_cbn; subst;
    cbn [place_arguments].
  - repeat wlp_step no_macro. all: visit_done.
  - repeat wlp_step ltac:(fun c =>
      lazymatch c with
      | VisitForSlot V ?n => use_visit (VisitForSlot_ok V HV n)
      | place_arguments V _ _ _ _ =>
          let g1 := fresh "g" in let o := fresh "out" in
          let Hres := fresh "Hres" in let Hlab := fresh "Hlab" in let Hp := fresh "Hpend" in
          let a := fresh "a" in let Hrun := fresh "Hrun" in
          intros a g1 Hrun; apply IH in Hrun; [|reflexivity|reflexivity];
          destruct Hrun as (o & Hres & Hlab & Hp);
          unfold pending_ok in Hp; absorb Hres
      end).
    all: visit_done.
Qed.

End Prologue.

Lemma foldr_set_target uses addr g :
  foldr (fun i g => reloc_set_target i addr g) g uses =
  set_relocation_info_ (set_targets uses addr (relocation_info_ g)) g.
Proof.
  induction uses as [|i uses IH]; cbn [foldr set_targets].
  - destruct g; reflexivity.
  - rewrite IH. unfold reloc_set_target. destruct g; reflexivity.
Qed.

Lemma wlp_FFunction_Allocate addr fn g Q :
  (ff_addr fn = 0 ->
   Q (MkFFunction (ff_fn fn) addr (ff_uses fn))
     (set_relocation_info_ (set_targets (ff_uses fn) addr (relocation_info_ g)) g)) ->
  wlp (FFunction_Allocate addr fn) g Q.
Proof.
  intros HQ a g' Hrun. unfold FFunction_Allocate, assert_ in Hrun. run_unfold.
  destruct (ff_addr fn =? 0) eqn:E; [|discriminate].
  cbv beta iota in Hrun. rewrite foldr_set_target in Hrun.
  injection Hrun as <- <-. apply HQ. apply Z.eqb_eq. exact E.
Qed.

Lemma set_targets_length uses addr relocs :
  length (set_targets uses addr relocs) = length relocs.
Proof.
  induction uses as [|i uses IH]; cbn [set_targets foldr]; [reflexivity|].
  rewrite length_alter. exact IH.
Qed.

(** A relocation after [FFunction::Allocate]: the one that was there, with
    the address as its target if the function uses it. *)
Lemma set_targets_lookup uses addr relocs i r' :
  set_targets uses addr relocs !! i = Some r' ->
  exists r, relocs !! i = Some r /\
    ((i ∈ uses /\ r' = with_target addr r) \/ (~ (i ∈ uses) /\ r' = r)).
Proof.
  revert r'. induction uses as [|j uses IH]; intros r' Hi; cbn [set_targets foldr] in Hi.
  - exists r'. split; [exact Hi|]. right. split; [apply not_elem_of_nil|reflexivity].
  - fold (set_targets uses addr relocs) in Hi.
    destruct (decide (i = j)) as [->|Hne].
    + rewrite list_lookup_alter_eq in Hi.
      destruct (set_targets uses addr relocs !! j) as [r1|] eqn:E; cbn in Hi; [|discriminate].
      injection Hi as Hi. subst r'. destruct (IH r1 eq_refl) as (r & Hr & Hcase).
      exists r. split; [exact Hr|]. left. split; [apply elem_of_cons; left; reflexivity|].
      destruct Hcase as [[_ ->]|[_ ->]]; reflexivity.
    + rewrite list_lookup_alter_ne in Hi by congruence.
      destruct (IH r' Hi) as (r & Hr & Hcase). exists r. split; [exact Hr|].
      destruct Hcase as [[Hin ->]|[Hout ->]].
      * left. split; [apply elem_of_cons; right; exact Hin|reflexivity].
      * right. split; [|reflexivity]. intros Hin. apply elem_of_cons in Hin.
        destruct Hin as [->|Hin]; [congruence|contradiction].
Qed.

Lemma set_targets_lookup_Some uses addr relocs i r :
  relocs !! i = Some r ->
  exists r', set_targets uses addr relocs !! i = Some r' /\
    RelocationInfo.type_ r' = RelocationInfo.type_ r /\
    RelocationInfo.at_ r' = RelocationInfo.at_ r.
Proof.
  intros Hi. induction uses as [|j uses IH]; cbn [set_targets foldr].
  - exists r. auto.
  - fold (set_targets uses addr relocs). destruct IH as (r1 & H1 & H2 & H3).
    destruct (decide (j = i)) as [->|Hne].
    + rewrite list_lookup_alter_eq, H1. cbn. eexists. split; [reflexivity|].
      cbn [with_target RelocationInfo.type_ RelocationInfo.at_]. auto.
    + rewrite list_lookup_alter_ne by congruence. exists r1. auto.
Qed.

(** [FFunction::Allocate] at the place behind the [AlignCode]. *)
Lemma pending_allocate fn rest relocs code :
  pending (fn :: rest) relocs code ->
  pending rest (set_targets (ff_uses fn) (Z.of_nat (length (code ++ [AlignCode]))) relocs)
    (code ++ [AlignCode]).
Proof.
  intros [Hf Hr]. split.
  - intros fn' Hfn'.
    destruct (Hf fn' ltac:(apply elem_of_cons; right; exact Hfn')) as [Ha Hu].
    split; [exact Ha|]. intros i Hi. destruct (Hu i Hi) as (r & Hr1 & Hr2).
    destruct (set_targets_lookup_Some (ff_uses fn) (Z.of_nat (length (code ++ [AlignCode])))
                relocs i r Hr1) as (r' & H1 & H2 & _).
    exists r'. split; [exact H1|congruence].
  - intros i r' Hi. destruct (set_targets_lookup _ _ _ _ _ Hi) as (r & Hri & Hcase).
    specialize (Hr i r Hri). unfold reloc_ok in *.
    assert (Htype : RelocationInfo.type_ r' = RelocationInfo.type_ r)
      by (destruct Hcase as [[_ ->]|[_ ->]]; reflexivity).
    assert (Hat : RelocationInfo.at_ r' = RelocationInfo.at_ r)
      by (destruct Hcase as [[_ ->]|[_ ->]]; reflexivity).
    rewrite Htype, Hat. destruct (RelocationInfo.type_ r); [|exact I].
    destruct Hr as [Hcode Ht]. split; [apply lookup_app_l_Some; exact Hcode|].
    destruct Hcase as [[Hin ->]|[Hout ->]].
    + cbn [with_target RelocationInfo.target_]. exists (length code). split.
      * rewrite length_app. cbn [length]. f_equal. lia.
      * rewrite lookup_app_r by lia. rewrite Nat.sub_diag. reflexivity.
    + destruct (RelocationInfo.target_ r).
      * destruct Ht as (n & -> & Hn). exists n. split; [reflexivity|].
        apply lookup_app_l_Some. exact Hn.
      * destruct Ht as (fn' & Hfn' & Hu). exists fn'. split; [|exact Hu].
        apply elem_of_cons in Hfn'. destruct Hfn' as [->|Hfn']; [contradiction|exact Hfn'].
Qed.

(** The relocation of [Masm::AllocateSpills] and its target. *)
Lemma pending_push_value fns relocs code size at_ target :
  pending fns relocs code ->
  pending fns (relocs ++ [RelocationInfo.Mk RelocationInfo.kValue size at_ target]) code.
Proof.
  intros [Hf Hr]. split.
  - intros fn Hfn. destruct (Hf fn Hfn) as [Ha Hu]. split; [exact Ha|].
    intros i Hi. destruct (Hu i Hi) as (r & Hr1 & Hr2). exists r.
    split; [apply lookup_app_l_Some; exact Hr1|exact Hr2].
  - intros i r Hi. apply lookup_app_Some in Hi. destruct Hi as [Hi|[Hlen Hi]]; [auto|].
    destruct (i - length relocs)%nat as [|k]; [|destruct k; discriminate].
    injection Hi as <-. exact I.
Qed.

Lemma pending_alter_value fns relocs code s target r0 :
  pending fns relocs code ->
  relocs !! s = Some r0 -> RelocationInfo.type_ r0 = RelocationInfo.kValue ->
  pending fns (alter (with_target target) s relocs) code.
Proof.
  intros [Hf Hr] Hs Hv. split.
  - intros fn Hfn. destruct (Hf fn Hfn) as [Ha Hu]. split; [exact Ha|].
    intros i Hi. destruct (Hu i Hi) as (r & Hr1 & Hr2).
    destruct (decide (s = i)) as [->|Hne]; [congruence|].
    exists r. split; [rewrite list_lookup_alter_ne by congruence; exact Hr1|exact Hr2].
  - intros i r Hi. destruct (decide (i = s)) as [->|Hne].
    + rewrite list_lookup_alter_eq, Hs in Hi. cbn in Hi. injection Hi as <-.
      unfold reloc_ok. cbn [with_target RelocationInfo.type_]. rewrite Hv. exact I.
    + rewrite list_lookup_alter_ne in Hi by congruence. auto.
Qed.

Lemma u32_mod_16 x : u32 x mod 16 = x mod 16.
Proof.
  unfold u32. apply Z.mod_mod_divide. exists (2 ^ 28). reflexivity.
Qed.

Lemma RoundUp_16_multiple v : Utils.RoundUp v 16 mod 16 = 0.
Proof.
  unfold Utils.RoundUp. destruct (v mod 16 =? 0) eqn:E.
  - apply Z.eqb_eq. exact E.
  - rewrite u32_mod_16.
    replace (v + 16 - v mod 16) with (v - v mod 16 + 1 * 16) by lia.
    rewrite Z_mod_plus_full, Zminus_mod, Z.mod_mod, Z.sub_diag by lia.
    reflexivity.
Qed.

Lemma frame_size_multiple a b :
  u32 (Utils.RoundUp a 16 + Utils.RoundUp b 16) mod 16 = 0.
Proof.
  rewrite u32_mod_16, Zplus_mod, !RoundUp_16_multiple. reflexivity.
Qed.

Lemma frame_reloc_mono code code' r :
  frame_reloc code r -> code `prefix_of` code' -> frame_reloc code' r.
Proof.
  intros [Hat Ht] [more ->]. split; [apply lookup_app_l_Some; exact Hat|exact Ht].
Qed.

Section GenerateLoop.
Context `{Externals}.

Lemma Generate_loop_generating fuel : forall g,
  generating g ->
  wlp (Generate_loop fuel) g (fun _ g' => generating g' /\ fns_ g' = []).
Proof.
  induction fuel as [|fuel IH]; intros g [Hs He Hlab Hpend Hval]; fields g;
    unfold pending_ok in Hpend; state_cbn; subst; cbn [Generate_loop].
  - repeat wlp_step no_macro.
    split; [|reflexivity]. split; state_cbn; auto.
  - repeat wlp_step ltac:(fun c =>
      lazymatch c with
      | FFunction_Allocate _ _ => apply wlp_FFunction_Allocate; intros ?
      | place_arguments _ _ _ _ _ =>
          let g1 := fresh "g" in let o := fresh "out" in
          let Hres := fresh "Hres" in let Hlab := fresh "Hlab" in let Hp := fresh "Hpend" in
          let a := fresh "a" in let Hrun := fresh "Hrun" in
          intros a g1 Hrun;
          apply (place_arguments_ok (Visit (S fuel)) (Visit_ok (S fuel))) in Hrun;
            [|reflexivity|reflexivity];
          destruct Hrun as (o & Hres & Hlab & Hp);
          unfold pending_ok in Hp; absorb Hres
      | VisitChildren _ ?n => use_visit (VisitChildren_ok (Visit (S fuel)) (Visit_ok (S fuel)) n)
      | Generate_loop _ =>
          let a := fresh "a" in let g1 := fresh "g" in let Hrun := fresh "Hrun" in
          intros a g1 Hrun; revert a g1 Hrun; apply IH
      end).
    + split; [|reflexivity]. split; state_cbn; auto.
    + match goal with Ha : Some _ = Some ?a |- _ => injection Ha as Ha; subst a end.
      unfold reloc_set_target. state_cbn.
      set (RA := set_targets (ff_uses f) (Z.of_nat (length (code ++ [AlignCode]))) relocs) in *.
      match goal with |- context [RA ++ [?r]] => set (sp := r) in * end.
      assert (Hsp : forall more1 more2,
                (((RA ++ [sp]) ++ more1) ++ more2) !! length RA = Some sp).
      { intros more1 more2. rewrite <- !app_assoc.
        rewrite lookup_app_r by lia. rewrite Nat.sub_diag. reflexivity. }
      match goal with
      | Hx0 : Forall _ ?x0, Hx3 : Forall _ ?x3 |- context [(_ ++ ?x0) ++ ?x3] =>
          pose proof (Forall_app_2 _ _ _ Hx0 Hx3) as Hall
      end.
      split; state_cbn.
      * reflexivity.
      * reflexivity.
      * closed_labels.
      * unfold pending_ok. state_cbn.
        eapply pending_alter_value; [|apply Hsp|reflexivity].
        apply pending_allocate in Hpend. fold RA in Hpend.
        apply (pending_push_value _ _ _ RelocationInfo.kLong
                 (RelocationInfo.at_ sp) None) in Hpend.
        change (pending l (RA ++ [sp]) (code ++ [AlignCode])) in Hpend.
        pending_from Hpend.
      * intros i r Hi Hv. destruct (decide (i = length RA)) as [->|Hne].
        -- rewrite list_lookup_alter_eq, Hsp in Hi. cbn in Hi. injection Hi as <-.
           split.
           ++ cbn [with_target RelocationInfo.at_ sp].
              rewrite <- !app_assoc. cbn [app].
              rewrite !length_app. cbn [length].
              rewrite lookup_app_r by lia.
              replace (length code + 4 - 1 - length code)%nat with 3%nat by lia.
              reflexivity.
           ++ eexists. split; [reflexivity|]. apply frame_size_multiple.
        -- rewrite list_lookup_alter_ne in Hi by congruence.
           rewrite <- !app_assoc in Hi.
           apply lookup_app_Some in Hi. destruct Hi as [Hi|[Hlen Hi]].
           ++ destruct (set_targets_lookup _ _ _ _ _ Hi) as (r0 & Hr0 & Hcase).
              destruct Hcase as [[Hin ->]|[_ ->]].
              ** exfalso. destruct Hpend as [Hf _].
                 destruct (Hf f ltac:(apply elem_of_cons; left; reflexivity)) as [_ Hu].
                 destruct (Hu i Hin) as (r1 & Hr1 & Hr2).
                 cbn [with_target RelocationInfo.type_] in Hv. congruence.
              ** eapply frame_reloc_mono; [exact (Hval i r0 Hr0 Hv)|]. prefix_tac.
           ++ exfalso. apply lookup_app_Some in Hi. destruct Hi as [Hi|[Hlen2 Hi]].
              ** apply list_lookup_singleton_Some in Hi. lia.
              ** pose proof (proj1 (Forall_lookup _ _) Hall _ _ Hi) as Ha.
                 cbv beta in Ha. congruence.
Qed.

(** A generator that has emitted nothing is between two functions. *)
Lemma Generate_generating fuel ast g g' :
  code_ g = [] -> relocation_info_ g = [] -> fns_ g = [] ->
  loop_start_ g = None -> loop_end_ g = None ->
  Generate fuel ast g = Some (tt, g') ->
  generating g' /\ fns_ g' = [].
Proof.
  intros Hc Hr Hf Hs He Hrun. unfold Generate in Hrun. run_unfold.
  refine (Generate_loop_generating fuel _ _ tt g' Hrun).
  fields g. state_cbn. subst. split; state_cbn; try reflexivity.
  - split; intros l; cbn; auto; lia.
  - split.
    + intros fn Hfn. apply list_elem_of_singleton in Hfn. subst fn.
      split; [reflexivity|]. intros i Hi. state_cbn. apply elem_of_nil in Hi. contradiction.
    + intros i r Hi. state_cbn. rewrite lookup_nil in Hi. discriminate.
  - intros i r Hi. state_cbn. rewrite lookup_nil in Hi. discriminate.
Qed.

End GenerateLoop.

(** ** The helpers of the macro assembler *)

(** X24.  The helpers of the macro assembler that the generator calls
    ([CheckGC], [Allocate], [AllocateContext], [AllocateFunction],
    [AllocateObjectLiteral], [Fill] with an immediate, [FillStackSlots],
    [Call] and, for a string register other than [rcx], [StringHash]) return
    from every state of the generator.  Each one only appends code, puts the
    alignment count, the spill index and the other bookkeeping back as they
    were, adds no relocation, function or root value, and binds each label
    it makes at most once and every label it jumps to. *)
Theorem Masm_helpers_balanced `{Externals} :
  macro_ok CheckGC /\
  (forall tag size_reg size result, macro_ok (Masm_Allocate tag size_reg size result)) /\
  (forall slots, macro_ok (AllocateContext slots)) /\
  (forall addr result, macro_ok (AllocateFunction addr result)) /\
  (forall tag size result, macro_ok (AllocateObjectLiteral tag size result)) /\
  (forall start end_ value, macro_ok (Fill start end_ (Immediate value))) /\
  macro_ok FillStackSlots /\
  (forall fn args, macro_ok (Call_fn fn args)) /\
  (forall str result, str <> rcx -> macro_ok (StringHash str result)).
Proof.
  split; [exact CheckGC_ok|].
  split; [exact Masm_Allocate_ok|].
  split; [exact AllocateContext_ok|].
  split; [exact AllocateFunction_ok|].
  split; [exact AllocateObjectLiteral_ok|].
  split; [exact Fill_ok|].
  split; [exact FillStackSlots_ok|].
  split; [exact Call_fn_ok|exact StringHash_ok].
Qed.

(** [StringHash(rax, rbx)], as [VisitMember]'s stub would call it. *)
Lemma Masm_helpers_balanced_witness : rax <> rcx /\ macro_ok (StringHash rax rbx).
Proof.
  split; [discriminate|].
  apply (proj2 (proj2 (proj2 (proj2 (proj2 (proj2 (proj2 (proj2
           (@Masm_helpers_balanced example_params))))))))).
  discriminate.
Defined.

(** ** Visits *)

(** X25.  A visit of a node that returns has only appended code, and has
    put back the alignment count, the spill index, the kind of visit, the
    loop labels, the current function and the spill area; root values,
    relocations and functions were only added.  In the code of the visit no
    label is bound twice, only labels made during the visit are bound, and
    every jump goes to a label bound in that code or to the start or the end
    label of the loop around the node. *)
Theorem Visit_restores `{Externals} fuel node g g' :
  Visit fuel node g = Some (tt, g') ->
  exists out,
    restores g g' out /\
    labels_closed (labels_ g) (labels_ g') (loop_start_ g) (loop_end_ g) out.
Proof.
  intros Hrun. destruct (Visit_ok fuel node g tt g' Hrun) as (out & Hres & Hlab & _).
  exists out. split; assumption.
Qed.

Lemma Visit_restores_witness :
  exists out,
    restores example_fullgen example_visited out /\
    labels_closed (labels_ example_fullgen) (labels_ example_visited)
      (loop_start_ example_fullgen) (loop_end_ example_fullgen) out.
Proof.
  apply (@Visit_restores example_params 4 example_loop).
  vm_compute. reflexivity.
Defined.

(** ** The whole of [Generate] *)

(** X26.  When [Generate] returns on a generator that had emitted nothing,
    the labels of the whole code are resolved: no label is bound twice, and
    every label that an instruction jumps to is bound, exactly once. *)
Theorem Generate_labels_resolved `{Externals} fuel ast g g' :
  code_ g = [] -> relocation_info_ g = [] -> fns_ g = [] ->
  loop_start_ g = None -> loop_end_ g = None ->
  Generate fuel ast g = Some (tt, g') ->
  labels_resolved (code_ g').
Proof.
  intros Hc Hr Hf Hs He Hrun.
  destruct (Generate_generating fuel ast g g' Hc Hr Hf Hs He Hrun) as [[_ _ Hlab _ _] _].
  destruct Hlab as [Honce _ Hbound]. intros l. split; [apply Honce|].
  intros Hj. specialize (Honce l). destruct (Hbound l Hj) as [Hb|[[]|[]]]. lia.
Qed.

Lemma Generate_labels_resolved_witness : labels_resolved (code_ example_generated).
Proof.
  apply (@Generate_labels_resolved example_params 6 example_program example_fullgen);
    vm_compute; reflexivity.
Defined.

(** X27.  When [Generate] returns on a generator that had emitted nothing,
    no function is left to generate and every relocation has its target.  An
    absolute relocation patches the immediate of a [movq rcx, 0] with the
    offset just behind an [AlignCode], where the code of a function begins.
    Every other relocation patches the [subq rsp, 0] of a prologue with the
    size of the frame, a multiple of 16. *)
Theorem Generate_relocations_resolved `{Externals} fuel ast g g' :
  code_ g = [] -> relocation_info_ g = [] -> fns_ g = [] ->
  loop_start_ g = None -> loop_end_ g = None ->
  Generate fuel ast g = Some (tt, g') ->
  fns_ g' = [] /\ relocations_resolved (relocation_info_ g') (code_ g').
Proof.
  intros Hc Hr Hf Hs He Hrun.
  destruct (Generate_generating fuel ast g g' Hc Hr Hf Hs He Hrun)
    as [[_ _ _ [_ Hpend] Hval] Hfns].
  split; [exact Hfns|]. intros i r Hi.
  specialize (Hpend i r Hi). specialize (Hval i r Hi). unfold reloc_ok in Hpend.
  destruct (RelocationInfo.type_ r).
  - destruct Hpend as [Hat Ht]. split; [exact Hat|].
    destruct (RelocationInfo.target_ r) as [t|].
    + destruct Ht as (n & -> & Hn). exists n. split; [reflexivity|exact Hn].
    + destruct Ht as (fn & Hfn & _). rewrite Hfns in Hfn.
      apply elem_of_nil in Hfn. contradiction.
  - apply Hval. reflexivity.
Qed.

Lemma Generate_relocations_resolved_witness :
  fns_ example_generated = [] /\
  relocations_resolved (relocation_info_ example_generated) (code_ example_generated).
Proof.
  apply (@Generate_relocations_resolved example_params 6 example_program example_fullgen);
    vm_compute; reflexivity.
Defined.


(** ** Values where a slot is asked for *)

(** X28.  [VisitForSlot] of a node that gives a value only (a literal,
    [typeof], [sizeof], [keysof], an operator or a call) returns; it records
    "Incorrect left-hand side" and the offset of the node and emits the trap
    0xcc and nothing else.  The kind of visit is put back and the slot is the
    one of the visit before, which the caller then uses. *)
Theorem value_as_slot_is_error `{Externals} fuel node g :
  value_only node ->
  let g' := incorrect_lhs_error node g in
  VisitForSlot (Visit (S fuel)) node g = Some (tt, g') /\
  error_msg_ g' = Some "Incorrect left-hand side"%string /\
  error_pos_ g' = offset node /\
  code_ g' = code_ g ++ [Emitb 0xcc] /\
  visitor_type_ g' = visitor_type_ g /\
  slot_ g' = slot_ g.
Proof.
  intros Hnode g'. subst g'. destruct g.
  split; [|repeat split; reflexivity].
  destruct node as [ty v o c s x e]. unfold value_only in Hnode. cbn in Hnode.
  destruct ty; try contradiction; try reflexivity.
  - destruct Hnode as (v' & Hv). unfold variable in Hv. cbn in Hv.
    destruct e; try discriminate. subst. reflexivity.
  - destruct Hnode as (subtype & ->). reflexivity.
  - destruct Hnode as (subtype & ->). reflexivity.
Qed.

(** [1 = ...]: the literal as the left-hand side. *)
Lemma value_as_slot_is_error_witness :
  let g := example_fullgen in
  let g' := incorrect_lhs_error number_one g in
  VisitForSlot (@Visit example_params 1) number_one g = Some (tt, g') /\
  error_msg_ g' = Some "Incorrect left-hand side"%string /\
  error_pos_ g' = 4 /\
  code_ g' = code_ g ++ [Emitb 0xcc] /\
  visitor_type_ g' = visitor_type_ g /\
  slot_ g' = slot_ g.
Proof.
  intros g g'. apply (@value_as_slot_is_error example_params 0 number_one g). exact I.
Defined.


(** ** Literals in the root context *)

Section RootLiterals.
Context `{Externals}.


End RootLiterals.

